(** * Receipt queue, remote bridge and analytics: a shallow embedding

    The development follows the TypeScript services of the application
    ([ReceiptService], [GoogleSheetsService], [GeminiService],
    [GeocodingService], [AnalyticsService]) and the Apps Script backend
    ([doGet], [getSheet], [handleGet], [handleSaveOrUpdate], [handleDelete],
    [handleMigration]).

    Conventions.
    - An optional property ([url?: string]) is an [option]; [None] is
      JavaScript's [undefined].
    - A JavaScript [number] is an exact rational ([Q]); rounding, [NaN] and
      the infinities are outside the model.
    - Strings are byte strings; [trim] and [toLowerCase] act on ASCII.
    - An asynchronous method is cut at its suspension points: one function
      for the part that runs before the [await] or [subscribe], one for each
      continuation.  Values that the platform supplies (a fresh UUID, the
      clock, the outcome of a network call) are arguments.
    - The remote calls an operation issues are returned next to the new
      state, in the order they are issued. *)

From Stdlib Require Import List String Ascii Bool Arith ZArith QArith Lia.
From Stdlib Require Import DecimalString Sorted Permutation Lqa.
Import ListNotations.

Set Warnings "-register-all".

Local Open Scope string_scope.
Local Open Scope nat_scope.
Local Open Scope list_scope.

(** ** Data model ([gemini.service.ts]) *)

(** [status: 'processing' | 'completed' | 'error'] *)
Inductive Status : Type :=
| processing
| completed
| errored.

Definition Status_eqb (a b : Status) : bool :=
  match a, b with
  | processing, processing => true
  | completed, completed => true
  | errored, errored => true
  | _, _ => false
  end.

(** [interface ReceiptItem] *)
Module Item.
Record t : Type := mk {
  name : string;
  quantity : Q;
  unit : string;
  unitPrice : Q;
  totalPrice : Q;
  category : string
}.
End Item.

(** [interface ReceiptData] *)
Module Receipt.
Record t : Type := mk {
  id : string;
  url : option string;
  status : Status;
  storeName : option string;
  storeCnpj : option string;
  storeAddress : option string;
  date : option string;
  totalAmount : option Q;
  items : option (list Item.t);
  error : option string;
  payer : option string;
  isSynced : option bool;
  syncing : option bool
}.

(** Object spread with one overridden property: [{ ...r, url: v }]. *)
Definition with_url (v : option string) (r : t) : t :=
  mk (id r) v (status r) (storeName r) (storeCnpj r) (storeAddress r)
     (date r) (totalAmount r) (items r) (error r) (payer r) (isSynced r)
     (syncing r).

Definition with_status (v : Status) (r : t) : t :=
  mk (id r) (url r) v (storeName r) (storeCnpj r) (storeAddress r)
     (date r) (totalAmount r) (items r) (error r) (payer r) (isSynced r)
     (syncing r).

Definition with_error (v : option string) (r : t) : t :=
  mk (id r) (url r) (status r) (storeName r) (storeCnpj r) (storeAddress r)
     (date r) (totalAmount r) (items r) v (payer r) (isSynced r)
     (syncing r).

Definition with_isSynced (v : option bool) (r : t) : t :=
  mk (id r) (url r) (status r) (storeName r) (storeCnpj r) (storeAddress r)
     (date r) (totalAmount r) (items r) (error r) (payer r) v
     (syncing r).

Definition with_syncing (v : option bool) (r : t) : t :=
  mk (id r) (url r) (status r) (storeName r) (storeCnpj r) (storeAddress r)
     (date r) (totalAmount r) (items r) (error r) (payer r) (isSynced r)
     v.
End Receipt.

(** [type ParsedReceiptData = Omit<ReceiptData, 'id'|'url'|'status'|'error'>] *)
Module Parsed.
Record t : Type := mk {
  storeName : option string;
  storeCnpj : option string;
  storeAddress : option string;
  date : option string;
  totalAmount : option Q;
  items : option (list Item.t);
  payer : option string;
  isSynced : option bool;
  syncing : option bool
}.
End Parsed.

(** *** JavaScript truthiness and strict equality on optional properties *)

(** [!!s] for [s : string | undefined]: defined and not empty. *)
Definition truthy_string (s : option string) : bool :=
  match s with
  | Some v => negb (String.eqb v "")
  | None => false
  end.

(** [!!b] for [b : boolean | undefined]. *)
Definition truthy_bool (b : option bool) : bool :=
  match b with
  | Some v => v
  | None => false
  end.

(** [p === s] for [p : string | undefined] and [s : string]. *)
Definition strict_eq_string (p : option string) (s : string) : bool :=
  match p with
  | Some v => String.eqb v s
  | None => false
  end.

(** [p === q] for two optional strings ([undefined === undefined] holds). *)
Definition strict_eq_opt (p q : option string) : bool :=
  match p, q with
  | Some a, Some b => String.eqb a b
  | None, None => true
  | _, _ => false
  end.

(** [{ ...a, ...b }] on one optional property: a property present in [b]
    wins. *)
Definition spread {A : Type} (a b : option A) : option A :=
  match b with
  | Some v => Some v
  | None => a
  end.

(** ** Remote calls issued by the receipt service *)

Inductive RemoteCall : Type :=
| CallGet
| CallSave (receipt : Receipt.t)
| CallDelete (receiptId : string)
| CallMigrate.

(** What a subscriber of an [Observable] sees: one value, or an error. *)
Inductive Emission (T : Type) : Type :=
| Next (value : T)
| Failure (message : string).
Arguments Next {T} value.
Arguments Failure {T} message.

(** The reply to a save or a delete, [{ success, id } | null], and the
    error-shaped reply [{ error, details? }] the backend may also send. *)
Inductive Ack : Type :=
| AckReply (success : bool) (id : string)
| ErrorReply (error : string).

(** [response?.success] as a condition. *)
Definition ack_success (response : option Ack) : bool :=
  match response with
  | Some (AckReply s _) => s
  | _ => false
  end.

(** ** The receipt service ([receipt.service.ts]) *)

Record Store : Type := mkStore {
  receipts : list Receipt.t;
  isLoading : bool;
  isProcessing : bool
}.

Definition set_receipts (l : list Receipt.t) (st : Store) : Store :=
  mkStore l (isLoading st) (isProcessing st).

Definition set_isLoading (b : bool) (st : Store) : Store :=
  mkStore (receipts st) b (isProcessing st).

Definition set_isProcessing (b : bool) (st : Store) : Store :=
  mkStore (receipts st) (isLoading st) b.

(** [this._receipts.update(f)] *)
Definition update_receipts (f : list Receipt.t -> list Receipt.t)
  (st : Store) : Store :=
  set_receipts (f (receipts st)) st.

(** Field initialisers of the class: an empty list, loading, not
    processing. *)
Definition initialStore : Store := mkStore [] true false.

(** [current.map(r => r.id === id ? f(r) : r)] *)
Definition map_by_id (id : string) (f : Receipt.t -> Receipt.t)
  (l : list Receipt.t) : list Receipt.t :=
  map (fun r => if String.eqb (Receipt.id r) id then f r else r) l.

(** The record literal of [addReceipt]:
    [{ id, url, status: 'processing', isSynced: false }]. *)
Definition newReceipt (uuid url : string) : Receipt.t :=
  Receipt.mk uuid (Some url) processing None None None None None None None
    None (Some false) None.

(** [addReceipt(url)]; [uuid] is the value of [crypto.randomUUID()]. *)
Definition addReceipt (configured : bool) (uuid url : string) (st : Store)
  : Store * list RemoteCall :=
  match find (fun r => strict_eq_string (Receipt.url r) url) (receipts st) with
  | Some _ => (st, [])
  | None =>
      let r := newReceipt uuid url in
      (update_receipts (fun currentReceipts => r :: currentReceipts) st,
       if configured then [CallSave r] else [])
  end.

(** One call of [addReceipt] with what the platform supplies to it. *)
Record AddCall : Type := mkAddCall {
  add_configured : bool;
  add_uuid : string;
  add_url : string
}.

(** A sequence of [addReceipt] calls, first call first. *)
Fixpoint addReceipts (calls : list AddCall) (st : Store) : Store :=
  match calls with
  | [] => st
  | c :: rest =>
      addReceipts rest
        (fst (addReceipt (add_configured c) (add_uuid c) (add_url c) st))
  end.

(** The non-empty urls carried by a list, in list order. *)
Fixpoint nonempty_urls (l : list Receipt.t) : list string :=
  match l with
  | [] => []
  | r :: rest =>
      match Receipt.url r with
      | Some u => if String.eqb u "" then nonempty_urls rest
                  else u :: nonempty_urls rest
      | None => nonempty_urls rest
      end
  end.

(** No two records share a non-empty url. *)
Definition urls_unique (l : list Receipt.t) : Prop :=
  NoDup (nonempty_urls l).

(** *** [initialLoad] *)

Definition staleProcessingMessage : string :=
  "O processamento falhou em uma sessão anterior.".

(** The callback of [data.map] in [initialLoad]. *)
Definition sanitize (r : Receipt.t) : Receipt.t :=
  let baseReceipt :=
    match Receipt.status r with
    | processing =>
        Receipt.with_error (Some staleProcessingMessage)
          (Receipt.with_status errored r)
    | _ => r
    end in
  Receipt.with_isSynced (Some true) baseReceipt.

(** What [localStorage.getItem] followed by [JSON.parse] yields. *)
Inductive LocalSnapshot : Type :=
| NoSnapshot
| Unparsable
| Snapshot (parsedData : list Receipt.t).

(** [initialLoad()] up to the point where it subscribes to
    [getReceipts()] (remote configured) or returns (not configured). *)
Definition initialLoad (configured : bool) (localData : LocalSnapshot)
  (st : Store) : Store * list RemoteCall :=
  let st1 := set_isLoading true st in
  if configured then (st1, [CallGet])
  else
    let st2 :=
      match localData with
      | NoSnapshot => st1
      | Unparsable => set_receipts [] st1
      | Snapshot parsedData =>
          set_receipts
            (map (Receipt.with_isSynced (Some false)) parsedData) st1
      end in
    (set_isLoading false st2, []).

(** The subscriber of [getReceipts()] in [initialLoad]. *)
Definition initialLoad_next (data : list Receipt.t) (st : Store) : Store :=
  set_isLoading false (set_receipts (map sanitize data) st).

(** *** The extraction queue *)

(** [r.status === 'processing' && r.url] *)
Definition queued (r : Receipt.t) : bool :=
  Status_eqb (Receipt.status r) processing && truthy_string (Receipt.url r).

(** [processQueue()] up to its [await]: [Some r] when the extraction of
    [r] has been started, [None] when the call returned early. *)
Definition processQueue (st : Store) : Store * option Receipt.t :=
  if isProcessing st then (st, None)
  else
    match find queued (receipts st) with
    | None => (st, None)
    | Some receiptToProcess =>
        if negb (truthy_string (Receipt.url receiptToProcess)) then (st, None)
        else (set_isProcessing true st, Some receiptToProcess)
    end.

(** The effect registered in the constructor. *)
Definition queueTrigger (st : Store) : Store * option Receipt.t :=
  if existsb queued (receipts st) && negb (isProcessing st)
  then processQueue st
  else (st, None).

(** [{ ...receiptToProcess, ...parsedData }] *)
Definition merge (r : Receipt.t) (p : Parsed.t) : Receipt.t :=
  Receipt.mk (Receipt.id r) (Receipt.url r) (Receipt.status r)
    (spread (Receipt.storeName r) (Parsed.storeName p))
    (spread (Receipt.storeCnpj r) (Parsed.storeCnpj p))
    (spread (Receipt.storeAddress r) (Parsed.storeAddress p))
    (spread (Receipt.date r) (Parsed.date p))
    (spread (Receipt.totalAmount r) (Parsed.totalAmount p))
    (spread (Receipt.items r) (Parsed.items p))
    (Receipt.error r)
    (spread (Receipt.payer r) (Parsed.payer p))
    (spread (Receipt.isSynced r) (Parsed.isSynced p))
    (spread (Receipt.syncing r) (Parsed.syncing p)).

(** [{ ...receiptToProcess, ...parsedData, status: 'completed',
      isSynced: false }] *)
Definition completedReceipt (receiptToProcess : Receipt.t)
  (parsedData : Parsed.t) : Receipt.t :=
  Receipt.with_isSynced (Some false)
    (Receipt.with_status completed (merge receiptToProcess parsedData)).

(** [processQueue()] resumed with the gateway's result: the rest of the
    [try] block, then the [finally] block. *)
Definition processQueue_fulfilled (configured : bool)
  (receiptToProcess : Receipt.t) (parsedData : Parsed.t) (st : Store)
  : Store * list RemoteCall :=
  let completed := completedReceipt receiptToProcess parsedData in
  let st1 :=
    update_receipts
      (map_by_id (Receipt.id receiptToProcess) (fun _ => completed)) st in
  (set_isProcessing false st1,
   if configured then [CallSave completed] else []).

(** The subscriber of the save issued by [processQueue_fulfilled]. *)
Definition processQueue_saved (completed : Receipt.t)
  (outcome : Emission (option Ack)) (st : Store) : Store :=
  match outcome with
  | Next response =>
      if ack_success response
      then update_receipts
             (map_by_id (Receipt.id completed)
                (Receipt.with_isSynced (Some true))) st
      else st
  | Failure _ => st
  end.

(** A value caught by [catch (error)]. *)
Inductive Thrown : Type :=
| ErrorObject (message : string)
| OtherValue.

(** [error instanceof Error ? error.message : fallback] *)
Definition message_of (error : Thrown) (fallback : string) : string :=
  match error with
  | ErrorObject message => message
  | OtherValue => fallback
  end.

(** [{ ...receiptToProcess, status: 'error', error: message }] *)
Definition errorReceipt (receiptToProcess : Receipt.t) (message : string)
  : Receipt.t :=
  Receipt.with_error (Some message)
    (Receipt.with_status errored receiptToProcess).

(** [processQueue()] resumed with the gateway's failure: the [catch]
    block, then the [finally] block. *)
Definition processQueue_rejected (configured : bool)
  (receiptToProcess : Receipt.t) (error : Thrown) (st : Store)
  : Store * list RemoteCall :=
  let message := message_of error "Falha desconhecida no processamento." in
  let failed := errorReceipt receiptToProcess message in
  let st1 :=
    update_receipts
      (map_by_id (Receipt.id receiptToProcess) (fun _ => failed)) st in
  (set_isProcessing false st1,
   if configured then [CallSave failed] else []).

(** *** [retrySync] *)

Definition retrySync (configured : bool) (receiptId : string) (st : Store)
  : Store * list RemoteCall :=
  match find (fun r => String.eqb (Receipt.id r) receiptId) (receipts st) with
  | None => (st, [])
  | Some receiptToSync =>
      if negb (Status_eqb (Receipt.status receiptToSync) completed)
         || truthy_bool (Receipt.isSynced receiptToSync)
         || truthy_bool (Receipt.syncing receiptToSync)
      then (st, [])
      else if negb configured then (st, [])
      else
        (update_receipts
           (map_by_id receiptId (Receipt.with_syncing (Some true))) st,
         [CallSave receiptToSync])
  end.

(** The subscriber of the save issued by [retrySync]. *)
Definition retrySync_settled (receiptId : string)
  (outcome : Emission (option Ack)) (st : Store) : Store :=
  match outcome with
  | Next response =>
      if ack_success response
      then update_receipts
             (map_by_id receiptId
                (fun r => Receipt.with_syncing (Some false)
                            (Receipt.with_isSynced (Some true) r))) st
      else update_receipts
             (map_by_id receiptId (Receipt.with_syncing (Some false))) st
  | Failure _ =>
      update_receipts
        (map_by_id receiptId (Receipt.with_syncing (Some false))) st
  end.

(** *** [updateReceiptUrl] and [deleteReceipt] *)

Definition updateReceiptUrl (receiptId newUrl : string) (st : Store)
  : Store * list RemoteCall :=
  (update_receipts (map_by_id receiptId (Receipt.with_url (Some newUrl))) st,
   []).

Definition deleteReceipt (configured : bool) (receiptId : string)
  (st : Store) : Store * list RemoteCall :=
  match find (fun r => String.eqb (Receipt.id r) receiptId) (receipts st) with
  | None => (st, [])
  | Some _ =>
      (update_receipts
         (filter (fun r => negb (String.eqb (Receipt.id r) receiptId))) st,
       if configured then [CallDelete receiptId] else [])
  end.

(** *** [addReceiptFromPhoto] *)

(** [{ ...r, storeName: v }] *)
Definition with_storeName (v : option string) (r : Receipt.t) : Receipt.t :=
  Receipt.mk (Receipt.id r) (Receipt.url r) (Receipt.status r) v
    (Receipt.storeCnpj r) (Receipt.storeAddress r) (Receipt.date r)
    (Receipt.totalAmount r) (Receipt.items r) (Receipt.error r)
    (Receipt.payer r) (Receipt.isSynced r) (Receipt.syncing r).

(** [{ ...r, storeAddress: v }] *)
Definition with_storeAddress (v : option string) (r : Receipt.t) : Receipt.t :=
  Receipt.mk (Receipt.id r) (Receipt.url r) (Receipt.status r)
    (Receipt.storeName r) (Receipt.storeCnpj r) v (Receipt.date r)
    (Receipt.totalAmount r) (Receipt.items r) (Receipt.error r)
    (Receipt.payer r) (Receipt.isSynced r) (Receipt.syncing r).

(** A variable assigned in the callback of [current.map]:
    [let x; current.map(r => { if (r.id === id) { x = f(r); return x; }
    return r; })] leaves in [x] the image of the last record with that id,
    or [undefined]. *)
Definition assigned_by_id (id : string) (f : Receipt.t -> Receipt.t)
  (l : list Receipt.t) : option Receipt.t :=
  fold_left
    (fun assigned r =>
       if String.eqb (Receipt.id r) id then Some (f r) else assigned)
    l None.

(** The record literal of [addReceiptFromPhoto]:
    [{ id: tempId, status: 'processing',
       storeName: 'Lendo URL da imagem...', isSynced: false }]. *)
Definition photoPlaceholder (tempId : string) : Receipt.t :=
  Receipt.mk tempId None processing (Some "Lendo URL da imagem...") None None
    None None None None None (Some false) None.

(** [addReceiptFromPhoto(photo)] up to its [await]; [tempId] is the value
    of [crypto.randomUUID()]. *)
Definition addReceiptFromPhoto (tempId : string) (st : Store) : Store :=
  update_receipts
    (fun currentReceipts => photoPlaceholder tempId :: currentReceipts) st.

(** [{ ...r, status: 'error', error: message, storeName: label }] *)
Definition failedPhoto (message label : string) (r : Receipt.t) : Receipt.t :=
  with_storeName (Some label)
    (Receipt.with_error (Some message) (Receipt.with_status errored r)).

(** [{ ...r, url: url, storeName: 'URL extraída, aguardando...' }] *)
Definition photoWithUrl (url : string) (r : Receipt.t) : Receipt.t :=
  with_storeName (Some "URL extraída, aguardando...")
    (Receipt.with_url (Some url) r).

(** [addReceiptFromPhoto] resumed with the url read from the image: the
    rest of the [try] block. *)
Definition addReceiptFromPhoto_fulfilled (configured : bool)
  (tempId url : string) (st : Store) : Store * list RemoteCall :=
  match find (fun r => strict_eq_string (Receipt.url r) url) (receipts st) with
  | Some _ =>
      (update_receipts
         (map_by_id tempId
            (failedPhoto "Esta nota fiscal já foi escaneada." "Nota Duplicada"))
         st,
       [])
  | None =>
      let receiptToSave := assigned_by_id tempId (photoWithUrl url) (receipts st) in
      (update_receipts (map_by_id tempId (photoWithUrl url)) st,
       match receiptToSave with
       | Some r => if configured then [CallSave r] else []
       | None => []
       end)
  end.

(** [addReceiptFromPhoto] resumed with the failure of the reading: the
    [catch] block. *)
Definition addReceiptFromPhoto_rejected (tempId : string) (error : Thrown)
  (st : Store) : Store :=
  let message :=
    message_of error "Falha desconhecida ao extrair URL da imagem." in
  update_receipts
    (map_by_id tempId (failedPhoto message "Falha na Extração da URL")) st.

(** *** [syncLocalDataToSheets] *)

(** [!r.isSynced] *)
Definition unsynced (r : Receipt.t) : bool :=
  negb (truthy_bool (Receipt.isSynced r)).

(** [syncLocalDataToSheets()] up to the subscription to [forkJoin]: the
    records are flagged one after the other, and one save is issued for each
    record that was not synced when the call began. *)
Definition syncLocalDataToSheets (configured : bool) (st : Store)
  : Store * list RemoteCall :=
  if negb configured then (st, [])
  else
    let localReceiptsToSync := filter unsynced (receipts st) in
    if Nat.eqb (List.length localReceiptsToSync) 0 then (st, [])
    else
      (fold_left
         (fun s receipt =>
            update_receipts
              (map_by_id (Receipt.id receipt) (Receipt.with_syncing (Some true)))
              s)
         localReceiptsToSync st,
       map CallSave localReceiptsToSync).




(** *** [updateReceipt], [updateStoreAddress], [reprocessReceipt] *)

Definition updateReceipt (configured : bool) (updatedReceipt : Receipt.t)
  (st : Store) : Store * list RemoteCall :=
  let receiptWithSyncState :=
    Receipt.with_isSynced (Some false) updatedReceipt in
  let st1 :=
    update_receipts
      (map_by_id (Receipt.id receiptWithSyncState)
         (fun _ => receiptWithSyncState)) st in
  if configured
  then retrySync configured (Receipt.id receiptWithSyncState) st1
  else (st1, []).

(** [ids.forEach(id => this.retrySync(id))], with the calls it issues. *)
Definition retrySyncEach (configured : bool) (ids : list string) (st : Store)
  : Store * list RemoteCall :=
  fold_left
    (fun acc id =>
       let (s, calls) := retrySync configured id (fst acc) in
       (s, snd acc ++ calls))
    ids (st, []).

Definition updateStoreAddress (configured : bool)
  (storeCnpj newAddress : string) (st : Store) : Store * list RemoteCall :=
  let receiptsToUpdateIds :=
    map Receipt.id
      (filter (fun r => strict_eq_string (Receipt.storeCnpj r) storeCnpj)
         (receipts st)) in
  if Nat.eqb (List.length receiptsToUpdateIds) 0 then (st, [])
  else
    let st1 :=
      update_receipts
        (map (fun r =>
                if strict_eq_string (Receipt.storeCnpj r) storeCnpj
                then Receipt.with_isSynced (Some false)
                       (with_storeAddress (Some newAddress) r)
                else r)) st in
    if configured then retrySyncEach configured receiptsToUpdateIds st1
    else (st1, []).

(** [{ ...r, status: 'processing', error: undefined,
      storeName: 'Reprocessando...' }] *)
Definition reprocessing (r : Receipt.t) : Receipt.t :=
  with_storeName (Some "Reprocessando...")
    (Receipt.with_error None (Receipt.with_status processing r)).

Definition reprocessReceipt (configured : bool) (receiptId : string)
  (st : Store) : Store * list RemoteCall :=
  let receiptToReprocess := assigned_by_id receiptId reprocessing (receipts st) in
  (update_receipts (map_by_id receiptId reprocessing) st,
   match receiptToReprocess with
   | Some r => if configured then [CallSave r] else []
   | None => []
   end).

(** *** The local snapshot

    The second effect registered in the constructor: what a later
    [localStorage.getItem] followed by [JSON.parse] yields, given what it
    yielded before.  [JSON.stringify] omits the properties that are
    [undefined], so a stored record reads back as it was. *)
Definition storageEffect (configured : bool) (localData : LocalSnapshot)
  (st : Store) : LocalSnapshot :=
  if negb configured && negb (isLoading st)
  then
    let receiptsToSave :=
      filter (fun r => negb (Status_eqb (Receipt.status r) processing))
        (receipts st) in
    Snapshot receiptsToSave
  else localData.

(** *** The service with its extractions in flight

    [extracting] records the calls of the extraction gateway that have been
    started by [processQueue] and have not settled yet; the service itself
    keeps only the [isProcessing] flag. *)
Record World : Type := mkWorld {
  store : Store;
  extracting : list Receipt.t
}.

Definition initialWorld : World := mkWorld initialStore [].

Definition started (r : option Receipt.t) : list Receipt.t :=
  match r with
  | Some x => [x]
  | None => []
  end.

(** One turn of the event loop.  Each constructor is one of the functions
    above run to its next suspension point; [step_edit] stands for the
    operations that only rewrite the list ([addReceiptFromPhoto],
    [updateReceipt], [updateStoreAddress], [reprocessReceipt],
    [syncLocalDataToSheets]). *)
Inductive step : World -> World -> Prop :=
| step_trigger w :
    step w (mkWorld (fst (queueTrigger (store w)))
              (extracting w ++ started (snd (queueTrigger (store w)))))
| step_processQueue w :
    step w (mkWorld (fst (processQueue (store w)))
              (extracting w ++ started (snd (processQueue (store w)))))
| step_fulfilled w configured pre r post parsedData :
    extracting w = pre ++ r :: post ->
    step w (mkWorld
              (fst (processQueue_fulfilled configured r parsedData (store w)))
              (pre ++ post))
| step_rejected w configured pre r post error :
    extracting w = pre ++ r :: post ->
    step w (mkWorld
              (fst (processQueue_rejected configured r error (store w)))
              (pre ++ post))
| step_saved w completed outcome :
    step w (mkWorld (processQueue_saved completed outcome (store w))
              (extracting w))
| step_initialLoad w configured localData :
    step w (mkWorld (fst (initialLoad configured localData (store w)))
              (extracting w))
| step_initialLoad_next w data :
    step w (mkWorld (initialLoad_next data (store w)) (extracting w))
| step_addReceipt w configured uuid url :
    step w (mkWorld (fst (addReceipt configured uuid url (store w)))
              (extracting w))
| step_retrySync w configured receiptId :
    step w (mkWorld (fst (retrySync configured receiptId (store w)))
              (extracting w))
| step_retrySync_settled w receiptId outcome :
    step w (mkWorld (retrySync_settled receiptId outcome (store w))
              (extracting w))
| step_updateReceiptUrl w receiptId newUrl :
    step w (mkWorld (fst (updateReceiptUrl receiptId newUrl (store w)))
              (extracting w))
| step_deleteReceipt w configured receiptId :
    step w (mkWorld (fst (deleteReceipt configured receiptId (store w)))
              (extracting w))
| step_edit w f :
    step w (mkWorld (update_receipts f (store w)) (extracting w)).

(** The states the service can be in, from its construction on. *)
Inductive reachable : World -> Prop :=
| reachable_initial : reachable initialWorld
| reachable_step w w' : reachable w -> step w w' -> reachable w'.

(** The flag is up exactly while one extraction is in flight. *)
Definition flag_guards_extraction (w : World) : Prop :=
  (isProcessing (store w) = false /\ extracting w = []) \/
  (isProcessing (store w) = true /\ exists r, extracting w = [r]).

(** ** The remote bridge ([google-sheets.service.ts]) *)

Module SheetsService.

Record t : Type := mk {
  scriptUrl : option string;
  connectionError : option string
}.

Definition set_connectionError (e : option string) (s : t) : t :=
  mk (scriptUrl s) e.

(** [!!this._scriptUrl()] *)
Definition isConfigured (s : t) : bool := truthy_string (scriptUrl s).

(** The [payload] object of a request. *)
Inductive Payload : Type :=
| GetPayload
| SavePayload (data : Receipt.t)
| DeletePayload (id : string)
| MigratePayload.

(** One JSONP request: the endpoint it goes to and what it carries. *)
Record Request : Type := mkRequest {
  endpoint : string;
  payload : Payload
}.

(** What [http.jsonp] does with a request. *)
Inductive HttpOutcome (T : Type) : Type :=
| Delivered (response : T)
| HttpFailed.
Arguments Delivered {T} response.
Arguments HttpFailed {T}.

(** [{ success, migratedCount, message }] *)
Record MigrateReply : Type := mkMigrateReply {
  migrate_success : bool;
  migratedCount : nat;
  migrate_message : string
}.

(** What a subscription to one of the service's observables does: the
    emission, the service afterwards, the requests sent. *)
Definition Run (T : Type) : Type := (Emission T * t * list Request)%type.

Definition notConfiguredError : string :=
  "O serviço do Google Sheets não está configurado.".

Definition quote : string := String (ascii_of_nat 34) EmptyString.

Definition userFriendlyError : string :=
  "Falha na comunicação com o Google Sheets. Verifique se a URL do script está correta, sua conexão com a internet, e se o script foi implantado com acesso para "
  ++ quote ++ "Qualquer pessoa" ++ quote ++ ".".

Definition jsonpRequest {T : Type} (payload : Payload)
  (outcome : HttpOutcome T) (s : t) : Run T :=
  if negb (isConfigured s) then (Failure notConfiguredError, s, [])
  else
    let currentScriptUrl :=
      match scriptUrl s with Some u => u | None => "" end in
    let request := mkRequest currentScriptUrl payload in
    match outcome with
    | Delivered response =>
        (Next response, set_connectionError None s, [request])
    | HttpFailed =>
        (Failure userFriendlyError,
         set_connectionError (Some userFriendlyError) s, [request])
    end.

(** [.pipe(catchError(error => of(fallback)))] *)
Definition catchError {T : Type} (fallback : T) (r : Run T) : Run T :=
  match r with
  | (Failure _, s, sent) => (Next fallback, s, sent)
  | (Next v, s, sent) => (Next v, s, sent)
  end.

Definition getReceipts (outcome : HttpOutcome (list Receipt.t)) (s : t)
  : Run (list Receipt.t) :=
  if negb (isConfigured s) then (Next [], s, [])
  else catchError [] (jsonpRequest GetPayload outcome s).

Definition saveReceipt (receipt : Receipt.t)
  (outcome : HttpOutcome (option Ack)) (s : t) : Run (option Ack) :=
  if negb (isConfigured s) then (Next None, s, [])
  else catchError None (jsonpRequest (SavePayload receipt) outcome s).

Definition deleteReceipt (receiptId : string)
  (outcome : HttpOutcome (option Ack)) (s : t) : Run (option Ack) :=
  if negb (isConfigured s) then (Next None, s, [])
  else catchError None (jsonpRequest (DeletePayload receiptId) outcome s).

Definition migrateOldData (outcome : HttpOutcome (option MigrateReply))
  (s : t) : Run (option MigrateReply) :=
  if negb (isConfigured s) then (Next None, s, [])
  else catchError None (jsonpRequest MigratePayload outcome s).

(** *** The script url

    [storage] is the value kept under [SCRIPT_URL_KEY] in local storage. *)

(** [constructor()] *)
Definition construct (savedUrl : option string) : t :=
  if truthy_string savedUrl then mk savedUrl None else mk None None.

(** [{ success, message }] *)
Record SetReply : Type := mkSetReply {
  set_success : bool;
  set_message : string
}.

Definition setScriptUrl (url : string) (s : t) (storage : option string)
  : SetReply * t * option string :=
  if negb (String.eqb url "")
     && String.prefix "https://script.google.com/macros/s/" url
  then (mkSetReply true "URL salva com sucesso!", mk (Some url) None, Some url)
  else (mkSetReply false "URL inválida. Verifique o formato.", s, storage).

Definition clearScriptUrl (s : t) (storage : option string)
  : t * option string :=
  (mk None (connectionError s), None).

End SheetsService.

(** *** Scenario data *)

(** The parsed fields of the add-then-complete scenario:
    [{ storeName: 'Loja A', totalAmount: 10.5, items: [] }]. *)
Definition lojaA : Parsed.t :=
  Parsed.mk (Some "Loja A") None None None (Some 10.5%Q) (Some []) None None
    None.

(** A record that [retrySync] accepts: completed, not synced, not
    syncing (the negation of the first guard of [retrySync]). *)
Definition awaiting_sync (r : Receipt.t) : bool :=
  Status_eqb (Receipt.status r) completed
  && negb (truthy_bool (Receipt.isSynced r))
  && negb (truthy_bool (Receipt.syncing r)).

(** A completed record that has not reached the remote store. *)
Definition unsyncedReceipt : Receipt.t :=
  Receipt.mk "id-1" (Some "http://x/1") completed (Some "Loja A") None None
    None (Some 10.5%Q) (Some []) None None (Some false) None.

(** ** The spreadsheet backend ([Code.gs])

    A sheet is its header row and its data rows.  A cell outside the stored
    part of a row reads as the empty string, as [getValues] reports it.
    Both a missing sheet and a sheet without content are the sheet with no
    header and no rows.  Cells keep what was written to them, and one request
    runs within one reading of the clock. *)

Module Backend.

(** A JavaScript value: what [JSON.parse] yields and what a cell holds. *)
Inductive Value : Type :=
| Undefined
| Null
| Bool (b : bool)
| Number (q : Q)
| Str (s : string)
| Arr (elements : list Value)
| Obj (properties : list (string * Value)).

(** A returned value or a raised exception. *)
Inductive Outcome (A : Type) : Type :=
| Returned (a : A)
| Threw (message : string).
Arguments Returned {A} a.
Arguments Threw {A} message.

Definition bind {A B : Type} (m : Outcome A) (k : A -> Outcome B)
  : Outcome B :=
  match m with
  | Returned a => k a
  | Threw e => Threw e
  end.

Notation "x <- m ;; k" := (bind m (fun x => k))
  (at level 61, m at next level, right associativity).

(** [xs.map(f)] where [f] may raise: the first exception ends the loop. *)
Fixpoint traverse {A B : Type} (f : A -> Outcome B) (xs : list A)
  : Outcome (list B) :=
  match xs with
  | [] => Returned []
  | x :: rest =>
      y <- f x ;;
      ys <- traverse f rest ;;
      Returned (y :: ys)
  end.

(** What the platform provides to one request. *)
Record Platform : Type := mkPlatform {
  JSON_stringify : Value -> string;
  (** [None]: [JSON.parse] raises a [SyntaxError]. *)
  JSON_parse : string -> option Value;
  (** [None]: the string converts to [NaN]. *)
  ToNumber : string -> option Q;
  (** [None]: [parseFloat] yields [NaN]. *)
  parseFloat : string -> option Q;
  (** [new Date().toISOString()] *)
  now : string;
  (** [Utilities.getUuid()] for column [j] of the [i]-th added row. *)
  getUuid : nat -> nat -> string
}.

(** *** Objects *)

Fixpoint lookup (key : string) (properties : list (string * Value)) : Value :=
  match properties with
  | [] => Undefined
  | (k, v) :: rest => if String.eqb k key then v else lookup key rest
  end.

(** [o[key]] where [o] is known not to be [null] or [undefined]. *)
Definition get (o : Value) (key : string) : Value :=
  match o with
  | Obj properties => lookup key properties
  | _ => Undefined
  end.

(** [o[key]] in general: reading a property of [null] or [undefined] raises
    a [TypeError]. *)
Definition prop (o : Value) (key : string) : Outcome Value :=
  match o with
  | Null | Undefined => Threw "TypeError"
  | _ => Returned (get o key)
  end.

(** [o[key] = v] on the property list of [o]. *)
Fixpoint assign (key : string) (v : Value) (properties : list (string * Value))
  : list (string * Value) :=
  match properties with
  | [] => [(key, v)]
  | (k, x) :: rest =>
      if String.eqb k key then (k, v) :: rest
      else (k, x) :: assign key v rest
  end.

(** [v !== undefined ? v : ''] *)
Definition orBlank (v : Value) : Value :=
  match v with
  | Undefined => Str ""
  | _ => v
  end.

(** [typeof v === 'object' && v !== null] *)
Definition is_object (v : Value) : bool :=
  match v with
  | Arr _ | Obj _ => true
  | _ => false
  end.

Definition bool_number (b : bool) : Q := if b then 1%Q else 0%Q.

(** [a == b] on primitive values.  The conversion of an array or of an
    object to a primitive is not modelled: with such an operand the
    comparison reads [false] here, and the statements about ids are made for
    ids that are primitive ([is_object id = false]). *)
Definition loose_eq (P : Platform) (a b : Value) : bool :=
  let number_string (q : Q) (s : string) :=
    match ToNumber P s with
    | Some n => Qeq_bool q n
    | None => false
    end in
  match a, b with
  | Undefined, Undefined | Undefined, Null
  | Null, Undefined | Null, Null => true
  | Bool x, Bool y => Bool.eqb x y
  | Number x, Number y => Qeq_bool x y
  | Str x, Str y => String.eqb x y
  | Number x, Str y => number_string x y
  | Str x, Number y => number_string y x
  | Bool x, Number y => Qeq_bool (bool_number x) y
  | Number x, Bool y => Qeq_bool x (bool_number y)
  | Bool x, Str y => number_string (bool_number x) y
  | Str x, Bool y => number_string (bool_number y) x
  | _, _ => false
  end.

(** *** Sheets *)

Record Sheet : Type := mkSheet {
  header : list string;
  rows : list (list Value)
}.

Record Spreadsheet : Type := mkSpreadsheet {
  Recibos : Sheet;
  Itens : Sheet
}.

Definition getLastRow (sheet : Sheet) : Z :=
  match header sheet, rows sheet with
  | [], [] => 0
  | _, _ => 1 + Z.of_nat (List.length (rows sheet))
  end.

Definition getLastColumn (sheet : Sheet) : nat :=
  fold_right Nat.max (List.length (header sheet))
    (map (@List.length Value) (rows sheet)).

(** The first [n] cells of a row, blank cells filled in. *)
Definition cells (n : nat) (row : list Value) : list Value :=
  firstn n (row ++ repeat (Str "") n).

(** [sheet.getRange(1, 1, 1, n).getValues()[0]] *)
Definition headerValues (n : nat) (sheet : Sheet) : list string :=
  firstn n (header sheet ++ repeat "" n).

(** [sheet.getRange(2, 1, lastRow - 1, lastColumn).getValues()] *)
Definition dataValues (sheet : Sheet) : list (list Value) :=
  map (cells (getLastColumn sheet)) (rows sheet).

(** [sheet.getRange(2, column, lastRow - 1, 1).getValues()], flattened. *)
Definition columnValues (column : Z) (sheet : Sheet) : list Value :=
  map (fun row => nth (Z.to_nat (column - 1)) row (Str "")) (rows sheet).

(** What a cell holds after a value is written to it. *)
Definition written (v : Value) : Value :=
  match v with
  | Undefined | Null => Str ""
  | _ => v
  end.

Fixpoint remove_nth {A : Type} (n : nat) (l : list A) : list A :=
  match n, l with
  | _, [] => []
  | O, _ :: rest => rest
  | S k, x :: rest => x :: remove_nth k rest
  end.

Fixpoint replace_nth {A : Type} (n : nat) (f : A -> A) (l : list A) : list A :=
  match n, l with
  | _, [] => []
  | O, x :: rest => f x :: rest
  | S k, x :: rest => x :: replace_nth k f rest
  end.

(** [sheet.deleteRow(row)] for a data row. *)
Definition deleteRow (row : Z) (sheet : Sheet) : Sheet :=
  mkSheet (header sheet) (remove_nth (Z.to_nat (row - 2)) (rows sheet)).

(** [sheet.appendRow(values)] on a sheet with a header. *)
Definition appendRow (values : list Value) (sheet : Sheet) : Sheet :=
  mkSheet (header sheet) (rows sheet ++ [map written values]).

(** [sheet.getRange(row, 1, 1, values.length).setValues([values])] for a
    data row. *)
Definition setRow (row : Z) (values : list Value) (sheet : Sheet) : Sheet :=
  mkSheet (header sheet)
    (replace_nth (Z.to_nat (row - 2))
       (fun old => map written values ++ skipn (List.length values) old)
       (rows sheet)).

(** [sheet.getRange(lastRow + 1, 1, n, width).setValues(rowsToAdd)] *)
Definition appendRows (rowsToAdd : list (list Value)) (sheet : Sheet) : Sheet :=
  mkSheet (header sheet) (rows sheet ++ map (map written) rowsToAdd).

Definition receiptHeaders : list string :=
  ["id"; "url"; "status"; "storeName"; "storeCnpj"; "storeAddress";
   "date"; "totalAmount"; "items"; "error"; "payer"; "timestamp"].

Definition itemHeaders : list string :=
  ["item_id"; "receipt_id"; "name"; "quantity"; "unit";
   "unitPrice"; "totalPrice"; "category"; "timestamp"].

(** [headers.every((header, i) => header === currentHeaders[i])] *)
Fixpoint headersMatch (headers currentHeaders : list string) : bool :=
  match headers, currentHeaders with
  | [], _ => true
  | h :: hs, c :: cs => String.eqb h c && headersMatch hs cs
  | _ :: _, [] => false
  end.

(** [getSheet(spreadsheet, sheetName, headers)] *)
Definition getSheet (sheet : Sheet) (headers : list string) : Sheet :=
  if (getLastRow sheet <? 1)%Z then mkSheet headers []
  else
    let currentHeaders := headerValues (List.length headers) sheet in
    if headersMatch headers currentHeaders then sheet
    else mkSheet (headers ++ skipn (List.length headers) (header sheet))
           (rows sheet).

(** The sheets as [doGet] opens them before it dispatches a save, a
    delete or a migration. *)
Definition openSheets (ss : Spreadsheet) : Spreadsheet :=
  mkSpreadsheet (getSheet (Recibos ss) receiptHeaders)
    (getSheet (Itens ss) itemHeaders).

(** [array.indexOf(x)] *)
Fixpoint indexOf_from (x : string) (l : list string) (i : Z) : Z :=
  match l with
  | [] => (-1)%Z
  | y :: rest => if String.eqb y x then i else indexOf_from x rest (i + 1)%Z
  end.

Definition indexOf (x : string) (l : list string) : Z := indexOf_from x l 0.

(** The loop of [findRowById], from index [i] on. *)
Fixpoint findRow_from (P : Platform) (id : Value) (idColumnValues : list Value)
  (i : Z) : Z :=
  match idColumnValues with
  | [] => (-1)%Z
  | v :: rest =>
      if loose_eq P v id then (i + 2)%Z
      else findRow_from P id rest (i + 1)%Z
  end.

Definition findRowById (P : Platform) (sheet : Sheet) (id : Value)
  (idColumnIndex : Z) : Z :=
  if (getLastRow sheet <? 2)%Z then (-1)%Z
  else findRow_from P id (columnValues idColumnIndex sheet) 0.

(** The loop of [deleteItemsByReceiptId]: indices [i - 1] down to [0]. *)
Fixpoint deleteItems_loop (P : Platform) (receiptId : Value)
  (receiptIdColumnValues : list Value) (i : nat) (sheet : Sheet) : Sheet :=
  match i with
  | O => sheet
  | S k =>
      deleteItems_loop P receiptId receiptIdColumnValues k
        (if loose_eq P (nth k receiptIdColumnValues (Str "")) receiptId
         then deleteRow (Z.of_nat k + 2) sheet
         else sheet)
  end.

Definition deleteItemsByReceiptId (P : Platform) (sheet : Sheet)
  (receiptId : Value) : Sheet :=
  if (getLastRow sheet <? 2)%Z then sheet
  else
    let headers := headerValues (getLastColumn sheet) sheet in
    let receiptIdColumnIndex := indexOf "receipt_id" headers in
    if (receiptIdColumnIndex =? -1)%Z then sheet
    else
      let receiptIdColumnValues :=
        columnValues (receiptIdColumnIndex + 1) sheet in
      deleteItems_loop P receiptId receiptIdColumnValues
        (List.length receiptIdColumnValues) sheet.

(** One cell of a new item row. *)
Definition itemCell (P : Platform) (receiptId : Value) (i : nat)
  (item : Value) (jh : nat * string) : Outcome Value :=
  let (j, h) := jh in
  if String.eqb h "item_id" then Returned (Str (getUuid P i j))
  else if String.eqb h "receipt_id" then Returned receiptId
  else if String.eqb h "timestamp" then Returned (Str (now P))
  else
    v <- prop item h ;;
    Returned (orBlank v).

(** A list with the index of each element. *)
Definition indexed {A : Type} (l : list A) : list (nat * A) :=
  combine (seq 0 (List.length l)) l.

(** [processAndSaveItems(itemsSheet, receiptId, items)] *)
Definition processAndSaveItems (P : Platform) (itemsSheet : Sheet)
  (receiptId : Value) (items : list Value) : Outcome unit * Sheet :=
  let sheet := deleteItemsByReceiptId P itemsSheet receiptId in
  if Nat.eqb (List.length items) 0 then (Returned tt, sheet)
  else
    let headers := headerValues (getLastColumn sheet) sheet in
    match
      traverse
        (fun it : nat * Value =>
           traverse (itemCell P receiptId (fst it) (snd it)) (indexed headers))
        (indexed items)
    with
    | Returned rowsToAdd => (Returned tt, appendRows rowsToAdd sheet)
    | Threw e => (Threw e, sheet)
    end.

(** One cell of the row [handleSaveOrUpdate] writes. *)
Definition receiptCell (P : Platform) (data : Value) (h : string) : Value :=
  if String.eqb h "timestamp" then Str (now P)
  else
    let value := get data h in
    if is_object value then Str (JSON_stringify P value)
    else orBlank value.

Definition saved (id : Value) : Value :=
  Obj [("success", Bool true); ("id", id);
       ("message", Str "Dados salvos com sucesso.")].

(** [handleSaveOrUpdate(callback, receiptsSheet, itemsSheet, data)]: the
    object handed to [createJsonResponse], and the sheets afterwards. *)
Definition handleSaveOrUpdate (P : Platform) (ss : Spreadsheet) (data : Value)
  : Outcome Value * Spreadsheet :=
  let receiptsSheet := Recibos ss in
  let sheetHeaders := headerValues (getLastColumn receiptsSheet) receiptsSheet in
  let idColumnIndex := (indexOf "id" sheetHeaders + 1)%Z in
  if (idColumnIndex =? 0)%Z
  then (Threw "A coluna 'id' não foi encontrada na planilha 'Recibos'.", ss)
  else
    let existingRowNumber :=
      findRowById P receiptsSheet (get data "id") idColumnIndex in
    let rowData := map (receiptCell P data) sheetHeaders in
    let receiptsSheet' :=
      if (existingRowNumber >? 0)%Z
      then setRow existingRowNumber rowData receiptsSheet
      else appendRow rowData receiptsSheet in
    match get data "items" with
    | Arr items =>
        match processAndSaveItems P (Itens ss) (get data "id") items with
        | (Returned _, itemsSheet') =>
            (Returned (saved (get data "id")),
             mkSpreadsheet receiptsSheet' itemsSheet')
        | (Threw e, itemsSheet') =>
            (Threw e, mkSpreadsheet receiptsSheet' itemsSheet')
        end
    | _ =>
        (Returned (saved (get data "id")),
         mkSpreadsheet receiptsSheet' (Itens ss))
    end.

(** [parseFloat(value) || 0] on a cell. *)
Definition parseFloat_or_0 (P : Platform) (value : Value) : Q :=
  match value with
  | Number q => q
  | Str s => match parseFloat P s with Some q => q | None => 0%Q end
  | _ => 0%Q
  end.

(** The value [handleGet] stores under [h] for a cell. *)
Definition listedValue (P : Platform) (h : string) (value : Value) : Value :=
  if String.eqb h "totalAmount"
     && negb (match value with Str s => String.eqb s "" | _ => false end)
  then Number (parseFloat_or_0 P value)
  else
    match value with
    | Str s =>
        if String.eqb h "items" && String.prefix "[" s
        then match JSON_parse P s with Some v => v | None => Arr [] end
        else value
    | _ => value
    end.

(** The callback of [data.map] in [handleGet]. *)
Definition listedReceipt (P : Platform) (sheetHeaders : list string)
  (row : list Value) : Value :=
  Obj (fold_left
         (fun receipt (ih : nat * string) =>
            assign (snd ih)
              (listedValue P (snd ih) (nth (fst ih) row Undefined)) receipt)
         (indexed sheetHeaders) []).

(** [handleGet(callback)]: the object handed to [createJsonResponse], and
    the sheets afterwards. *)
Definition handleGet (P : Platform) (ss : Spreadsheet) : Value * Spreadsheet :=
  let receiptsSheet := getSheet (Recibos ss) receiptHeaders in
  let ss' := mkSpreadsheet receiptsSheet (Itens ss) in
  if (getLastRow receiptsSheet <? 2)%Z then (Arr [], ss')
  else
    let sheetHeaders :=
      headerValues (getLastColumn receiptsSheet) receiptsSheet in
    let data := dataValues receiptsSheet in
    (Arr (map (listedReceipt P sheetHeaders) data), ss').

Definition deleted (id : Value) : Value :=
  Obj [("success", Bool true); ("id", id);
       ("message", Str "Recibo e itens associados deletados.")].

(** [handleDelete(callback, receiptsSheet, itemsSheet, id)] *)
Definition handleDelete (P : Platform) (ss : Spreadsheet) (id : Value)
  : Outcome Value * Spreadsheet :=
  let ID_COLUMN := 1%Z in
  let rowToDelete := findRowById P (Recibos ss) id ID_COLUMN in
  let receiptsSheet' :=
    if (rowToDelete >? 0)%Z then deleteRow rowToDelete (Recibos ss)
    else Recibos ss in
  let itemsSheet' := deleteItemsByReceiptId P (Itens ss) id in
  (Returned (deleted id), mkSpreadsheet receiptsSheet' itemsSheet').

(** *** Readings of a row *)

(** A row of [Recibos] carries [id]: its first cell is loosely equal to
    it. *)
Definition carries (P : Platform) (id : Value) (row : list Value) : bool :=
  loose_eq P (nth 0 row (Str "")) id.

(** A row of [Itens] refers to the receipt [id]: its second cell is loosely
    equal to it. *)
Definition refersTo (P : Platform) (id : Value) (row : list Value) : bool :=
  loose_eq P (nth 1 row (Str "")) id.

(** The row [handleSaveOrUpdate] writes for [data] on a sheet, as the
    cells hold it. *)
Definition receiptRow (P : Platform) (sheet : Sheet) (data : Value)
  : list Value :=
  map written
    (map (receiptCell P data) (headerValues (getLastColumn sheet) sheet)).

(** The cell [itemCell] computes when reading the item does not raise. *)
Definition itemCellOf (P : Platform) (receiptId : Value) (i : nat)
  (item : Value) (jh : nat * string) : Value :=
  let (j, h) := jh in
  if String.eqb h "item_id" then Str (getUuid P i j)
  else if String.eqb h "receipt_id" then receiptId
  else if String.eqb h "timestamp" then Str (now P)
  else orBlank (get item h).

(** The row [processAndSaveItems] adds for the [i]-th item, as the cells
    hold it. *)
Definition itemRow (P : Platform) (sheet : Sheet) (receiptId : Value)
  (it : nat * Value) : list Value :=
  map written
    (map (itemCellOf P receiptId (fst it) (snd it))
       (indexed (headerValues (getLastColumn sheet) sheet))).

(** *** The payload of a typed receipt *)

Definition field {A : Type} (key : string) (f : A -> Value) (o : option A)
  : list (string * Value) :=
  match o with
  | Some v => [(key, f v)]
  | None => []
  end.

Definition status_string (s : Status) : string :=
  match s with
  | processing => "processing"
  | completed => "completed"
  | errored => "error"
  end.

Definition item_value (i : Item.t) : Value :=
  Obj [("name", Str (Item.name i)); ("quantity", Number (Item.quantity i));
       ("unit", Str (Item.unit i)); ("unitPrice", Number (Item.unitPrice i));
       ("totalPrice", Number (Item.totalPrice i));
       ("category", Str (Item.category i))].

(** The [data] object the client sends for a receipt: the properties that
    are defined, as [JSON.stringify] keeps them. *)
Definition payload_of (r : Receipt.t) : Value :=
  Obj ([("id", Str (Receipt.id r))]
       ++ field "url" Str (Receipt.url r)
       ++ [("status", Str (status_string (Receipt.status r)))]
       ++ field "storeName" Str (Receipt.storeName r)
       ++ field "storeCnpj" Str (Receipt.storeCnpj r)
       ++ field "storeAddress" Str (Receipt.storeAddress r)
       ++ field "date" Str (Receipt.date r)
       ++ field "totalAmount" Number (Receipt.totalAmount r)
       ++ field "items" (fun l => Arr (map item_value l)) (Receipt.items r)
       ++ field "error" Str (Receipt.error r)
       ++ field "payer" Str (Receipt.payer r)
       ++ field "isSynced" Bool (Receipt.isSynced r)
       ++ field "syncing" Bool (Receipt.syncing r)).

End Backend.

(** ** The analytics projection ([analytics.service.ts]) *)

Module Analytics.

(** *** Strings *)

Definition is_space (c : ascii) : bool :=
  match nat_of_ascii c with
  | 9 | 10 | 11 | 12 | 13 | 32 => true
  | _ => false
  end.

Fixpoint trimStart (s : string) : string :=
  match s with
  | EmptyString => EmptyString
  | String c rest => if is_space c then trimStart rest else s
  end.

Definition reverse (s : string) : string :=
  string_of_list_ascii (rev (list_ascii_of_string s)).

(** [s.trim()] *)
Definition trim (s : string) : string :=
  reverse (trimStart (reverse (trimStart s))).

Definition lower (c : ascii) : ascii :=
  let n := nat_of_ascii c in
  if Nat.leb 65 n && Nat.leb n 90 then ascii_of_nat (n + 32) else c.

(** [s.toLowerCase()] *)
Fixpoint toLowerCase (s : string) : string :=
  match s with
  | EmptyString => EmptyString
  | String c rest => String (lower c) (toLowerCase rest)
  end.

(** [normalize = (name) => name.trim().toLowerCase()] *)
Definition normalize (name : string) : string := toLowerCase (trim name).

(** Every character of [s] is an ASCII character.  On such a string [trim]
    and [toLowerCase] are the methods of JavaScript: the further spaces
    that [trim] removes and the further letters that [toLowerCase] changes
    all lie outside ASCII. *)
Definition isAscii (s : string) : bool :=
  forallb (fun c => Nat.ltb (nat_of_ascii c) 128) (list_ascii_of_string s).

(** [s.split(sep)] for a one-character separator. *)
Fixpoint split (sep : ascii) (s : string) : list string :=
  match s with
  | EmptyString => [EmptyString]
  | String c rest =>
      if Ascii.eqb c sep then EmptyString :: split sep rest
      else match split sep rest with
           | part :: parts => String c part :: parts
           | [] => [String c EmptyString]
           end
  end.

Definition bar : ascii := "|"%char.

(** *** [Map] and [Set], in insertion order *)

Definition has {V : Type} (key : string) (m : list (string * V)) : bool :=
  existsb (fun kv => String.eqb (fst kv) key) m.

(** [m.set(key, v)] *)
Fixpoint set {V : Type} (key : string) (v : V) (m : list (string * V))
  : list (string * V) :=
  match m with
  | [] => [(key, v)]
  | (k, x) :: rest =>
      if String.eqb k key then (k, v) :: rest else (k, x) :: set key v rest
  end.

(** [m.get(key)] *)
Fixpoint get {V : Type} (key : string) (m : list (string * V)) : option V :=
  match m with
  | [] => None
  | (k, x) :: rest => if String.eqb k key then Some x else get key rest
  end.

(** [array.includes(x)] and [set.has(x)] *)
Definition includes (x : string) (l : list string) : bool :=
  existsb (String.eqb x) l.

(** [set.add(x)] *)
Definition add (x : string) (s : list string) : list string :=
  if includes x s then s else s ++ [x].

(** [new Set(array)] *)
Definition setOf (l : list string) : list string :=
  fold_left (fun s x => add x s) l [].

(** [set.delete(x)] *)
Definition delete (x : string) (s : list string) : list string :=
  filter (fun y => negb (String.eqb y x)) s.

(** *** Records *)

(** [interface ProductPurchase] *)
Module Purchase.
Record t : Type := mk {
  storeName : string;
  unitPrice : Q;
  date : string;
  quantity : Q;
  unit : string
}.
End Purchase.

(** [interface ProductPriceInfo] *)
Module Product.
Record t : Type := mk {
  name : string;
  category : string;
  purchases : list Purchase.t
}.
End Product.

(** A value of [latestPrices]. *)
Module PriceInfo.
Record t : Type := mk {
  storeName : string;
  unitPrice : Q
}.
End PriceInfo.

(** A value of [storeSimulation]. *)
Module StoreData.
Record t : Type := mk {
  total : Q;
  foundItems : list string;
  allItems : list string
}.
End StoreData.

(** An element of the result of [simulateShoppingList]. *)
Module Simulation.
Record t : Type := mk {
  storeName : string;
  total : Q;
  foundItems : nat;
  missingItems : list string
}.
End Simulation.

(** [Required<ReceiptData>], the element type of [completedReceipts()]. *)
Module Required.
Record t : Type := mk {
  id : string;
  url : string;
  status : Status;
  storeName : string;
  storeCnpj : string;
  storeAddress : string;
  date : string;
  totalAmount : Q;
  items : list Item.t;
  error : string;
  payer : string;
  isSynced : bool;
  syncing : bool
}.
End Required.

(** What the platform provides to the projection. *)
Record Platform : Type := mkPlatform {
  (** [new Date(s).getTime()]; [None] is [NaN]. *)
  getTime : string -> option Q;
  (** [a.localeCompare(b)] *)
  localeCompare : string -> string -> Q
}.

(** [array.sort(compare)]: the stable sort, by insertion.  [compare a b]
    is negative or zero when [a] may stay before [b].  It is the result of
    [array.sort] for a [consistent] comparator; for any other comparator the
    engine only promises a permutation, and nothing more is stated here. *)
Fixpoint insert {A : Type} (compare : A -> A -> Q) (x : A) (l : list A)
  : list A :=
  match l with
  | [] => [x]
  | y :: rest =>
      if Qle_bool (compare x y) 0 then x :: l
      else y :: insert compare x rest
  end.

Definition sort {A : Type} (compare : A -> A -> Q) (l : list A) : list A :=
  fold_right (insert compare) [] l.

(** A comparator on which [array.sort] can rely: swapping the arguments
    swaps the sign, and the order is transitive.  For such a comparator the
    result of the stable sort is determined, and [sort] computes it. *)
Definition consistent {A : Type} (compare : A -> A -> Q) : Prop :=
  (forall a b, (compare a b < 0)%Q <-> (0 < compare b a)%Q) /\
  (forall a b c,
     (compare a b <= 0)%Q -> (compare b c <= 0)%Q -> (compare a c <= 0)%Q).

(** *** [productsAnalytics] *)

(** [item.category || 'Outros'] *)
Definition categoryOf (item : Item.t) : string :=
  if String.eqb (Item.category item) "" then "Outros"
  else Item.category item.

(** The body of [receipt.items.forEach]. *)
Definition noteItem (receipt : Required.t)
  (productMap : list (string * Product.t)) (item : Item.t)
  : list (string * Product.t) :=
  let normalizedName := normalize (Item.name item) in
  let productMap1 :=
    if has normalizedName productMap then productMap
    else set normalizedName
           (Product.mk (Item.name item) (categoryOf item) []) productMap in
  match get normalizedName productMap1 with
  | Some productInfo =>
      set normalizedName
        (Product.mk (Product.name productInfo) (categoryOf item)
           (Product.purchases productInfo
            ++ [Purchase.mk (Required.storeName receipt)
                  (Item.unitPrice item) (Required.date receipt)
                  (Item.quantity item) (Item.unit item)]))
        productMap1
  | None => productMap1
  end.

(** [new Date(b.date).getTime() - new Date(a.date).getTime()]; a [NaN]
    counts as zero for the sort. *)
Definition byDateDescending (P : Platform) (a b : Purchase.t) : Q :=
  match getTime P (Purchase.date b), getTime P (Purchase.date a) with
  | Some tb, Some ta => (tb - ta)%Q
  | _, _ => 0%Q
  end.

(** [productsAnalytics], computed from the value of
    [completedReceipts()]. *)
Definition productsAnalytics (P : Platform)
  (completedReceipts : list Required.t) : list Product.t :=
  let productMap :=
    fold_left
      (fun m receipt => fold_left (noteItem receipt) (Required.items receipt) m)
      completedReceipts [] in
  let analytics :=
    map (fun kv =>
           Product.mk (Product.name (snd kv)) (Product.category (snd kv))
             (sort (byDateDescending P) (Product.purchases (snd kv))))
      productMap in
  sort (fun a b => localeCompare P (Product.name a) (Product.name b))
    analytics.

(** *** [simulateShoppingList] *)

(** The body of [product.purchases.forEach] that fills [latestPrices]. *)
Definition notePurchase (normalizedName : string)
  (latestPrices : list (string * PriceInfo.t)) (purchase : Purchase.t)
  : list (string * PriceInfo.t) :=
  let key := (normalizedName ++ "|" ++ Purchase.storeName purchase)%string in
  if has key latestPrices then latestPrices
  else set key
         (PriceInfo.mk (Purchase.storeName purchase)
            (Purchase.unitPrice purchase))
         latestPrices.

(** The body of [this.productsAnalytics().forEach]. *)
Definition noteProduct (normalizedItems : list string)
  (latestPrices : list (string * PriceInfo.t)) (product : Product.t)
  : list (string * PriceInfo.t) :=
  let normalizedName := normalize (Product.name product) in
  if includes normalizedName normalizedItems
  then fold_left (notePurchase normalizedName) (Product.purchases product)
         latestPrices
  else latestPrices.

(** The body of [latestPrices.forEach].  Every key holds the separator, so
    the split has the two parts the destructuring reads. *)
Definition notePrice (normalizedItems : list string)
  (storeSimulation : list (string * StoreData.t))
  (entry : string * PriceInfo.t) : list (string * StoreData.t) :=
  let (key, priceInfo) := entry in
  match split bar key with
  | itemName :: storeName :: _ =>
      let storeSimulation1 :=
        if has storeName storeSimulation then storeSimulation
        else set storeName (StoreData.mk 0%Q [] (setOf normalizedItems))
               storeSimulation in
      match get storeName storeSimulation1 with
      | Some storeData =>
          if includes itemName (StoreData.foundItems storeData)
          then storeSimulation1
          else set storeName
                 (StoreData.mk
                    (StoreData.total storeData + PriceInfo.unitPrice priceInfo)%Q
                    (add itemName (StoreData.foundItems storeData))
                    (StoreData.allItems storeData))
                 storeSimulation1
      | None => storeSimulation1
      end
  | _ => storeSimulation
  end.

(** The callback of [Array.from(storeSimulation.entries()).map]. *)
Definition report (items : list string) (entry : string * StoreData.t)
  : Simulation.t :=
  let (storeName, data) := entry in
  let missing :=
    fold_left (fun m item => delete item m) (StoreData.foundItems data)
      (StoreData.allItems data) in
  let missingOriginalNames :=
    map (fun normName =>
           match find (fun i => String.eqb (normalize i) normName) items with
           | Some originalItem =>
               if String.eqb originalItem "" then normName else originalItem
           | None => normName
           end) missing in
  Simulation.mk storeName (StoreData.total data)
    (List.length (StoreData.foundItems data)) missingOriginalNames.

(** The comparator of the final [sort]: negative when [a] goes first. *)
Definition compareStores (a b : Simulation.t) : Q :=
  if negb (Nat.eqb (Simulation.foundItems b) (Simulation.foundItems a))
  then (inject_Z (Z.of_nat (Simulation.foundItems b))
        - inject_Z (Z.of_nat (Simulation.foundItems a)))%Q
  else (Simulation.total a - Simulation.total b)%Q.

(** [simulateShoppingList(items)]; [productsAnalytics] is the value of the
    computed signal of that name. *)
Definition simulateShoppingList (productsAnalytics : list Product.t)
  (items : list string) : list Simulation.t :=
  let normalizedItems := map normalize items in
  let latestPrices :=
    fold_left (noteProduct normalizedItems) productsAnalytics [] in
  let storeSimulation :=
    fold_left (notePrice normalizedItems) latestPrices [] in
  let result := map (report items) storeSimulation in
  sort compareStores result.

(** *** The simulation in the words of the specification

    The definitions of this part follow the specification, not the code:
    they are what [simulateShoppingList] is compared with. *)

(** The name holds no vertical bar. *)
Definition barFree (s : string) : Prop := ~ In bar (list_ascii_of_string s).

(** The purchases of the products named [n], in purchase-history order. *)
Definition history (products : list Product.t) (n : string)
  : list Purchase.t :=
  flat_map Product.purchases
    (filter (fun product => String.eqb (normalize (Product.name product)) n)
       products).

(** The earliest-listed price of item [n] at store [S]. *)
Definition priceAt (products : list Product.t) (n S : string) : option Q :=
  option_map Purchase.unitPrice
    (find (fun p => String.eqb (Purchase.storeName p) S)
       (history products n)).

Definition priced (products : list Product.t) (S n : string) : bool :=
  match priceAt products n S with
  | Some _ => true
  | None => false
  end.

Definition priceOr0 (products : list Product.t) (S n : string) : Q :=
  match priceAt products n S with
  | Some q => q
  | None => 0%Q
  end.

(** The desired items, normalized, each once. *)
Definition desired (items : list string) : list string :=
  setOf (map normalize items).

(** The name under which a desired item was requested. *)
Definition originalName (items : list string) (normName : string) : string :=
  match find (fun i => String.eqb (normalize i) normName) items with
  | Some originalItem =>
      if String.eqb originalItem "" then normName else originalItem
  | None => normName
  end.

Definition sum (l : list Q) : Q := fold_left Qplus l 0%Q.

(** What the specification reports for store [S]. *)
Definition expectedReport (products : list Product.t) (items : list string)
  (S : string) : Simulation.t :=
  Simulation.mk S
    (sum (map (priceOr0 products S)
            (filter (priced products S) (desired items))))
    (List.length (filter (priced products S) (desired items)))
    (map (originalName items)
       (filter (fun n => negb (priced products S n)) (desired items))).

(** The purchases of the requested items, in purchase-history order, each
    with the normalized name of its item. *)
Definition offers (products : list Product.t) (items : list string)
  : list (string * Purchase.t) :=
  flat_map
    (fun product =>
       if includes (normalize (Product.name product)) (map normalize items)
       then map (fun p => (normalize (Product.name product), p))
              (Product.purchases product)
       else [])
    products.

(** The stores where a requested item was bought, each once, in the order
    of their first purchase. *)
Definition pricedStores (products : list Product.t) (items : list string)
  : list string :=
  setOf (map (fun o => Purchase.storeName (snd o)) (offers products items)).

(** The result the specification describes. *)
Definition expectedSimulation (products : list Product.t)
  (items : list string) : list Simulation.t :=
  sort compareStores
    (map (expectedReport products items) (pricedStores products items)).

(** *** The two maps of [simulateShoppingList], read as lists

    These describe the contents of [latestPrices] and [storeSimulation] in
    terms of the offers; the proofs relate them to the code. *)

(** The item and the store of an offer. *)
Definition pairOf (o : string * Purchase.t) : string * string :=
  (fst o, Purchase.storeName (snd o)).

Definition samePair (o o' : string * Purchase.t) : bool :=
  String.eqb (fst o) (fst o')
  && String.eqb (Purchase.storeName (snd o)) (Purchase.storeName (snd o')).

(** The first offer of each item at each store, in the order of the
    offers. *)
Definition firsts (l : list (string * Purchase.t))
  : list (string * Purchase.t) :=
  fold_left
    (fun acc o => if existsb (samePair o) acc then acc else acc ++ [o])
    l [].

(** The entry of [latestPrices] for an offer. *)
Definition entry (o : string * Purchase.t) : string * PriceInfo.t :=
  ((fst o ++ "|" ++ Purchase.storeName (snd o))%string,
   PriceInfo.mk (Purchase.storeName (snd o)) (Purchase.unitPrice (snd o))).

(** The offers at store [S]. *)
Definition group (F : list (string * Purchase.t)) (S : string)
  : list (string * Purchase.t) :=
  filter (fun o => String.eqb (Purchase.storeName (snd o)) S) F.

(** The stores of the offers, each once. *)
Definition stores (F : list (string * Purchase.t)) : list string :=
  setOf (map (fun o => Purchase.storeName (snd o)) F).

(** The value of [storeSimulation] for store [S]. *)
Definition gathered (N : list string) (F : list (string * Purchase.t))
  (S : string) : StoreData.t :=
  StoreData.mk
    (sum (map (fun o => Purchase.unitPrice (snd o)) (group F S)))
    (map fst (group F S))
    (setOf N).

(** *** Readings of the result *)

(** [a] is ranked at least as high as [b]: more requested items found, or
    as many and a total that is not higher. *)
Definition ranked (a b : Simulation.t) : Prop :=
  Simulation.foundItems b < Simulation.foundItems a \/
  (Simulation.foundItems a = Simulation.foundItems b /\
   (Simulation.total a <= Simulation.total b)%Q).

(** *** Totals and breakdowns *)

(** [totalReceipts] *)
Definition totalReceipts (completedReceipts : list Required.t) : nat :=
  List.length completedReceipts.

(** [const currentTotal = m.get(key) || 0; m.set(key, currentTotal + amount)] *)
Definition noteSpending (key : string) (amount : Q) (m : list (string * Q))
  : list (string * Q) :=
  let currentTotal :=
    match get key m with
    | Some v => if Qeq_bool v 0 then 0%Q else v
    | None => 0%Q
    end in
  set key (currentTotal + amount)%Q m.

(** [interface CategorySpending] *)
Module CategorySpending.
Record t : Type := mk {
  category : string;
  total : Q
}.
End CategorySpending.

(** [interface PayerSpending] *)
Module PayerSpending.
Record t : Type := mk {
  payer : string;
  total : Q
}.
End PayerSpending.

(** [spendingByCategory] *)
Definition spendingByCategory (completedReceipts : list Required.t)
  : list CategorySpending.t :=
  let categoryMap :=
    fold_left
      (fun m receipt =>
         fold_left
           (fun m item => noteSpending (categoryOf item) (Item.totalPrice item) m)
           (Required.items receipt) m)
      completedReceipts [] in
  sort (fun a b => (CategorySpending.total b - CategorySpending.total a)%Q)
    (map (fun kv => CategorySpending.mk (fst kv) (snd kv)) categoryMap).

(** [receipt.payer || 'Não especificado'] *)
Definition payerOf (receipt : Required.t) : string :=
  if String.eqb (Required.payer receipt) "" then "Não especificado"
  else Required.payer receipt.

(** [spendingByPayer] *)
Definition spendingByPayer (completedReceipts : list Required.t)
  : list PayerSpending.t :=
  let payerMap :=
    fold_left
      (fun m receipt =>
         noteSpending (payerOf receipt) (Required.totalAmount receipt) m)
      completedReceipts [] in
  sort (fun a b => (PayerSpending.total b - PayerSpending.total a)%Q)
    (map (fun kv => PayerSpending.mk (fst kv) (snd kv)) payerMap).

(** *** [getRecurringItems] *)

(** A value of [frequencyMap]. *)
Module Frequency.
Record t : Type := mk {
  name : string;
  count : nat
}.
End Frequency.

(** The body of [receipt.items.forEach] in [getRecurringItems]. *)
Definition noteOccurrence (frequencyMap : list (string * Frequency.t))
  (item : Item.t) : list (string * Frequency.t) :=
  let normalizedName := normalize (Item.name item) in
  if has normalizedName frequencyMap
  then
    match get normalizedName frequencyMap with
    | Some existing =>
        set normalizedName
          (Frequency.mk (Frequency.name existing) (S (Frequency.count existing)))
          frequencyMap
    | None => frequencyMap
    end
  else set normalizedName (Frequency.mk (Item.name item) 1) frequencyMap.

(** [getRecurringItems(limit)] for a [limit] that is a natural number. *)
Definition getRecurringItems (limit : nat) (completed : list Required.t)
  : list string :=
  let frequencyMap :=
    fold_left
      (fun m receipt => fold_left noteOccurrence (Required.items receipt) m)
      completed [] in
  map Frequency.name
    (firstn limit
       (sort
          (fun a b =>
             (inject_Z (Z.of_nat (Frequency.count b))
              - inject_Z (Z.of_nat (Frequency.count a)))%Q)
          (filter (fun item => Nat.ltb 1 (Frequency.count item))
             (map snd frequencyMap)))).

(** *** [productStatsMap] *)

(** [interface ProductPriceStats] *)
Module Stats.
Record t : Type := mk {
  name : string;
  category : string;
  averagePrice : Q;
  minPrice : Q;
  maxPrice : Q;
  lastPrice : Q;
  purchaseCount : nat;
  lastPurchase : option Purchase.t
}.
End Stats.

(** [Math.min(a, b)] and [Math.max(a, b)] *)
Definition min2 (a b : Q) : Q := if Qle_bool a b then a else b.
Definition max2 (a b : Q) : Q := if Qle_bool a b then b else a.

(** [Math.min(...prices)] and [Math.max(...prices)] for a list that is
    not empty. *)
Definition minimum (first : Q) (rest : list Q) : Q := fold_left min2 rest first.
Definition maximum (first : Q) (rest : list Q) : Q := fold_left max2 rest first.

(** The body of [this.productsAnalytics().forEach] in [productStatsMap]. *)
Definition noteStats (statsMap : list (string * Stats.t)) (product : Product.t)
  : list (string * Stats.t) :=
  match Product.purchases product with
  | [] => statsMap
  | lastPurchase :: others =>
      let prices := map Purchase.unitPrice (Product.purchases product) in
      let total := fold_left Qplus prices 0%Q in
      set (normalize (Product.name product))
        (Stats.mk (Product.name product) (Product.category product)
           (total / inject_Z (Z.of_nat (List.length prices)))%Q
           (minimum (Purchase.unitPrice lastPurchase)
              (map Purchase.unitPrice others))
           (maximum (Purchase.unitPrice lastPurchase)
              (map Purchase.unitPrice others))
           (Purchase.unitPrice lastPurchase)
           (List.length prices)
           (Some lastPurchase))
        statsMap
  end.

(** [productStatsMap], computed from the value of [productsAnalytics()]. *)
Definition productStatsMap (productsAnalytics : list Product.t)
  : list (string * Stats.t) :=
  fold_left noteStats productsAnalytics [].

(** *** Readings of the projections *)

(** All items of the receipts, in order. *)
Definition allItems (completedReceipts : list Required.t) : list Item.t :=
  flat_map Required.items completedReceipts.

(** The time of a purchase, when its date can be read. *)
Definition timeOf (P : Platform) (p : Purchase.t) : Q :=
  match getTime P (Purchase.date p) with
  | Some t => t
  | None => 0%Q
  end.

(** A map of totals built from keyed amounts, as the three breakdowns
    build it. *)
Definition tally (entries : list (string * Q)) : list (string * Q) :=
  fold_left (fun m e => noteSpending (fst e) (snd e) m) entries [].

(** How often a normalized name occurs among the items. *)
Definition occurrences (k : string) (items : list Item.t) : nat :=
  List.length
    (filter (fun item => String.eqb (normalize (Item.name item)) k) items).

(** The first item with a normalized name. *)
Definition firstNamed (k : string) (items : list Item.t) : option Item.t :=
  find (fun item => String.eqb (normalize (Item.name item)) k) items.

(** The purchases of the product with a normalized name, in the order of
    the receipts and of their items. *)
Definition purchasesOf (completedReceipts : list Required.t) (k : string)
  : list Purchase.t :=
  flat_map
    (fun receipt =>
       map (fun item =>
              Purchase.mk (Required.storeName receipt) (Item.unitPrice item)
                (Required.date receipt) (Item.quantity item) (Item.unit item))
         (filter (fun item => String.eqb (normalize (Item.name item)) k)
            (Required.items receipt)))
    completedReceipts.

(** What [frequencyMap] holds after the items [done]. *)
Definition counted (m : list (string * Frequency.t)) (done : list Item.t)
  : Prop :=
  NoDup (map fst m) /\
  forall k,
    match get k m with
    | Some f =>
        Frequency.count f = occurrences k done /\
        exists item, firstNamed k done = Some item /\
                     Frequency.name f = Item.name item
    | None => occurrences k done = 0
    end.

(** The items of the receipts, each with its receipt. *)
Definition pairs (completedReceipts : list Required.t)
  : list (Required.t * Item.t) :=
  flat_map (fun receipt => map (pair receipt) (Required.items receipt))
    completedReceipts.

(** The purchase that [noteItem] records for an item of a receipt. *)
Definition bought (ri : Required.t * Item.t) : Purchase.t :=
  Purchase.mk (Required.storeName (fst ri)) (Item.unitPrice (snd ri))
    (Required.date (fst ri)) (Item.quantity (snd ri)) (Item.unit (snd ri)).

Definition named (k : string) (ri : Required.t * Item.t) : bool :=
  String.eqb (normalize (Item.name (snd ri))) k.

(** What [productMap] holds after the items [done]. *)
Definition grouped (m : list (string * Product.t))
  (done : list (Required.t * Item.t)) : Prop :=
  NoDup (map fst m) /\
  forall k,
    match get k m with
    | Some product =>
        Product.purchases product = map bought (filter (named k) done) /\
        exists first, find (named k) done = Some first /\
                      Product.name product = Item.name (snd first)
    | None => filter (named k) done = []
    end.

(** The count, the last purchase and the range of prices of [s] are those
    of the purchases [l]. *)
Definition summarizes (s : Stats.t) (l : list Purchase.t) : Prop :=
  Stats.purchaseCount s = List.length l /\
  Stats.lastPurchase s = hd_error l /\
  (forall p, hd_error l = Some p -> Stats.lastPrice s = Purchase.unitPrice p) /\
  (forall p, In p l ->
     (Stats.minPrice s <= Purchase.unitPrice p)%Q /\
     (Purchase.unitPrice p <= Stats.maxPrice s)%Q) /\
  (exists p, In p l /\ Purchase.unitPrice p = Stats.minPrice s) /\
  (exists p, In p l /\ Purchase.unitPrice p = Stats.maxPrice s).

(** *** [spendingByMonth] *)

(** [interface MonthlySpending] *)
Module MonthlySpending.
Record t : Type := mk {
  month : string;
  total : Q
}.
End MonthlySpending.

(** [array.slice(-n)] *)
Definition lastN {A : Type} (n : nat) (l : list A) : list A :=
  skipn (List.length l - n) l.

(** [spendingByMonth]; [monthOf date] is the key the platform's [Date]
    gives to a date, the year and the month in local time. *)
Definition spendingByMonth (P : Platform) (monthOf : string -> string)
  (completedReceipts : list Required.t) : list MonthlySpending.t :=
  let monthlyMap :=
    fold_left
      (fun m receipt =>
         noteSpending (monthOf (Required.date receipt))
           (Required.totalAmount receipt) m)
      completedReceipts [] in
  lastN 6
    (sort
       (fun a b =>
          localeCompare P (MonthlySpending.month a) (MonthlySpending.month b))
       (map (fun kv => MonthlySpending.mk (fst kv) (snd kv)) monthlyMap)).

(** *** [storeAnalytics] *)

(** [interface StoreAnalytics] *)
Module StoreStats.
Record t : Type := mk {
  storeName : string;
  storeCnpj : string;
  storeAddress : string;
  totalSpent : Q;
  receiptCount : nat;
  averageReceiptTotal : Q;
  firstPurchaseDate : string;
  lastPurchaseDate : string
}.
End StoreStats.

(** [receipt.storeCnpj || receipt.storeName] *)
Definition storeKey (receipt : Required.t) : string :=
  if String.eqb (Required.storeCnpj receipt) "" then Required.storeName receipt
  else Required.storeCnpj receipt.

(** The body of [this.completedReceipts().forEach] in [storeAnalytics];
    a value of [storeMap] is its list of receipts. *)
Definition noteReceipt (storeMap : list (string * list Required.t))
  (receipt : Required.t) : list (string * list Required.t) :=
  let key := storeKey receipt in
  let storeMap1 :=
    if has key storeMap then storeMap else set key [] storeMap in
  match get key storeMap1 with
  | Some receipts => set key (receipts ++ [receipt]) storeMap1
  | None => storeMap1
  end.

(** [new Date(a.date).getTime() - new Date(b.date).getTime()]; a [NaN]
    counts as zero for the sort. *)
Definition byDateAscending (P : Platform) (a b : Required.t) : Q :=
  match getTime P (Required.date a), getTime P (Required.date b) with
  | Some ta, Some tb => (ta - tb)%Q
  | _, _ => 0%Q
  end.

(** The body of [storeMap.forEach]. *)
Definition noteStore (P : Platform) (analytics : list StoreStats.t)
  (receipts : list Required.t) : list StoreStats.t :=
  match receipts with
  | [] => analytics
  | any :: _ =>
      let sortedReceipts := sort (byDateAscending P) receipts in
      let first := hd any sortedReceipts in
      let totalSpent :=
        fold_left (fun sum r => (sum + Required.totalAmount r)%Q)
          sortedReceipts 0%Q in
      let receiptCount := List.length sortedReceipts in
      analytics
      ++ [StoreStats.mk (Required.storeName first) (Required.storeCnpj first)
            (Required.storeAddress first) totalSpent receiptCount
            (totalSpent / inject_Z (Z.of_nat receiptCount))%Q
            (Required.date first)
            (Required.date (last sortedReceipts any))]
  end.

(** [storeAnalytics], computed from the value of [completedReceipts()]. *)
Definition storeAnalytics (P : Platform) (completedReceipts : list Required.t)
  : list StoreStats.t :=
  let storeMap := fold_left noteReceipt completedReceipts [] in
  let analytics := fold_left (noteStore P) (map snd storeMap) [] in
  sort (fun a b => (StoreStats.totalSpent b - StoreStats.totalSpent a)%Q)
    analytics.

(** What [storeMap] holds after the receipts [done]. *)
Definition filed (m : list (string * list Required.t))
  (done : list Required.t) : Prop :=
  NoDup (map fst m) /\
  forall k,
    match get k m with
    | Some receipts =>
        receipts = filter (fun r => String.eqb (storeKey r) k) done /\
        receipts <> []
    | None => filter (fun r => String.eqb (storeKey r) k) done = []
    end.

(** The time of a receipt, when its date can be read. *)
Definition timeOfReceipt (P : Platform) (r : Required.t) : Q :=
  match getTime P (Required.date r) with
  | Some t => t
  | None => 0%Q
  end.

(** The count, the name and the dates of the entry [s] of
    [storeAnalytics] are those of the receipts [l] of one store. *)
Definition describes (P : Platform) (s : StoreStats.t) (l : list Required.t)
  : Prop :=
  StoreStats.receiptCount s = List.length l /\
  exists first final,
    In first l /\ In final l /\
    StoreStats.storeName s = Required.storeName first /\
    StoreStats.storeCnpj s = Required.storeCnpj first /\
    StoreStats.storeAddress s = Required.storeAddress first /\
    StoreStats.firstPurchaseDate s = Required.date first /\
    StoreStats.lastPurchaseDate s = Required.date final /\
    ((forall r, In r l -> getTime P (Required.date r) <> None) ->
     forall r, In r l ->
       (timeOfReceipt P first <= timeOfReceipt P r)%Q /\
       (timeOfReceipt P r <= timeOfReceipt P final)%Q).

(** *** Sample purchase histories *)

Definition purchase (storeName : string) (unitPrice : Q) : Purchase.t :=
  Purchase.mk storeName unitPrice "2024-05-01T12:00:00" 1 "UN".

(** [[{ name: 'Leite', store: 'A', price: 5 }]] *)
Definition leiteAtA : list Product.t :=
  [Product.mk "Leite" "Laticínios" [purchase "A" 5]].

(** A completed receipt of one item. *)
Definition receiptOf (id storeName itemName : string) (unitPrice : Q)
  : Required.t :=
  Required.mk id "http://x/1" completed storeName "" ""
    "2024-05-01T12:00:00" unitPrice
    [Item.mk itemName 1 "UN" unitPrice unitPrice "Laticínios"]
    "" "" true false.

(** *** A sample platform

    The two dates of the sample receipts as [new Date(s).getTime()] reads
    them, in milliseconds; any other text is not read as a date here.  Two
    names compare as their characters do. *)
Definition sampleTime (date : string) : option Q :=
  if String.eqb date "2024-05-01T12:00:00.000Z"
  then Some (inject_Z 1714564800000)
  else if String.eqb date "2024-06-01T12:00:00.000Z"
  then Some (inject_Z 1717243200000)
  else None.

Definition sampleCompare (a b : string) : Q :=
  match String.compare a b with
  | Lt => (-1)%Q
  | Eq => 0%Q
  | Gt => 1%Q
  end.

Definition samplePlatform : Platform := mkPlatform sampleTime sampleCompare.

(** A completed receipt of one item, bought on a given date. *)
Definition receiptOn (id storeName date itemName : string) (unitPrice : Q)
  : Required.t :=
  Required.mk id "http://x/1" completed storeName "" "" date unitPrice
    [Item.mk itemName 1 "UN" unitPrice unitPrice "Laticínios"]
    "" "" true false.

(** Milk bought in May at store A and in June at store B, under two
    spellings of its name. *)
Definition leiteTwice : list Required.t :=
  [receiptOn "r-1" "A" "2024-05-01T12:00:00.000Z" "Leite" 5;
   receiptOn "r-2" "B" "2024-06-01T12:00:00.000Z" " LEITE " 4].

(** Two products bought at two stores. *)
Definition basket : list Product.t :=
  [Product.mk "Leite" "Laticínios"
     [purchase "A" 5; purchase "B" 4; purchase "A" 3];
   Product.mk "Pao" "Padaria" [purchase "B" 2]].

(** One product bought at two stores whose names share the text before a
    vertical bar. *)
Definition leiteAtTwoBranches : list Product.t :=
  [Product.mk "Leite" "Laticínios"
     [purchase "Loja|Centro" 5; purchase "Loja|Norte" 7]].

End Analytics.

(** ** The geocoding cache ([geocoding.service.ts]) *)

Module Geocoding.

(** [interface Coordinates]; [None] is [NaN]. *)
Record Coordinates : Type := mkCoordinates {
  lat : option Q;
  lon : option Q
}.

(** [interface NominatimResponse] *)
Record NominatimResponse : Type := mkNominatimResponse {
  response_lat : string;
  response_lon : string;
  display_name : string
}.

(** [getCoordinates(address)] up to the subscription: the cached
    coordinates, or the query of the request that a subscription sends. *)
Definition getCoordinates (cache : list (string * Coordinates))
  (address : string) : Coordinates + string :=
  match Analytics.get address cache with
  | Some cachedCoords => inl cachedCoords
  | None => inr address
  end.

(** The operators applied to what the request delivers: the value the
    observable emits, and the cache afterwards. *)
Definition getCoordinates_response (parseFloat : string -> option Q)
  (address : string)
  (outcome : SheetsService.HttpOutcome (list NominatimResponse))
  (cache : list (string * Coordinates))
  : option Coordinates * list (string * Coordinates) :=
  match outcome with
  | SheetsService.Delivered (first :: _) =>
      let coords :=
        mkCoordinates (parseFloat (response_lat first))
          (parseFloat (response_lon first)) in
      (Some coords, Analytics.set address coords cache)
  | SheetsService.Delivered [] => (None, cache)
  | SheetsService.HttpFailed => (None, cache)
  end.

End Geocoding.

(** ** The extraction gateway ([gemini.service.ts])

    The two calls of the gateway, from the point where the model has
    answered or a step of the [try] block has raised. *)

Module Gemini.

(** A value caught by the [catch] blocks of the gateway, as they tell
    values apart. *)
Inductive Caught : Type :=
| HttpErrorResponse (status : Z) (message : string)
| ErrorInstance (message : string)
| MessageObject (message : string)
| StringValue (text : string)
| Opaque.

(** What the [try] block has reached when it ends or raises. *)
Inductive Attempt : Type :=
| Answered (text : string)
| Raised (error : Caught).

(** The computation of [underlyingErrorMessage]. *)
Definition underlyingErrorMessage (error : Caught) : string :=
  match error with
  | HttpErrorResponse _ message => message
  | ErrorInstance message => message
  | MessageObject message => message
  | StringValue text => text
  | Opaque => "Ocorreu um erro desconhecido."
  end.

(** [s.includes(part)] *)
Fixpoint includes (part s : string) : bool :=
  String.prefix part s
  || match s with
     | EmptyString => false
     | String _ rest => includes part rest
     end.

Definition noUrlFound : string :=
  "Nenhuma URL válida foi encontrada na imagem.".

(** [extractUrlFromImage(photo)], from the answer of the model on: the url,
    or the value the promise is rejected with. *)
Definition extractUrlFromImage (attempt : Attempt) : Thrown + string :=
  let fromCatch (error : Caught) : Thrown + string :=
    let message := underlyingErrorMessage error in
    if includes noUrlFound message then inl (ErrorObject message)
    else inl (ErrorObject ("Falha ao extrair URL da imagem: " ++ message)) in
  match attempt with
  | Answered text =>
      let url := Analytics.trim text in
      if String.eqb url "" || negb (String.prefix "http" url)
      then fromCatch (ErrorInstance noUrlFound)
      else inr url
  | Raised error => fromCatch error
  end.

(** The decimal digits of an integer. *)
Definition decimal (n : Z) : string :=
  DecimalString.NilZero.string_of_int (Z.to_int n).

(** The [catch] block of [extractReceiptDataFromUrl]: the value the promise
    is rejected with. *)
Definition extractReceiptDataFromUrl_rejection (error : Caught) : Thrown :=
  match error with
  | HttpErrorResponse status _ =>
      let userMessage := "Falha ao buscar os dados da URL da nota fiscal. " in
      if (status =? 0)%Z
      then ErrorObject
             (userMessage
              ++ "Pode ser um problema de rede, CORS, ou o site pode estar offline.")
      else ErrorObject
             (userMessage
              ++ "O servidor respondeu com o código " ++ decimal status ++ ".")
  | _ =>
      ErrorObject
        ("Erro no processamento com a IA: " ++ underlyingErrorMessage error)
  end.

End Gemini.

(** [await this.geminiService.extractUrlFromImage(photo)] in
    [addReceiptFromPhoto]: the [try] block goes on with the url, the [catch]
    block takes a rejection. *)
Definition addReceiptFromPhoto_settled (configured : bool) (tempId : string)
  (result : Thrown + string) (st : Store) : Store * list RemoteCall :=
  match result with
  | inr url => addReceiptFromPhoto_fulfilled configured tempId url st
  | inl error => (addReceiptFromPhoto_rejected tempId error st, [])
  end.

(** ** The entry point of the backend ([doGet], [handleMigration])

    The spreadsheet is taken to be accessible.  The text that an exception
    of the platform carries is the text of its [Threw]; for a payload that
    [JSON.parse] rejects it is written [SyntaxError]. *)

Module Router.
Import Backend.

(** [!!v] *)
Definition truthy (v : Value) : bool :=
  match v with
  | Undefined | Null => false
  | Bool b => b
  | Number q => negb (Qeq_bool q 0)
  | Str s => negb (String.eqb s "")
  | Arr _ | Obj _ => true
  end.

(** [v === s] for a string literal [s]. *)
Definition is_string (v : Value) (s : string) : bool :=
  match v with
  | Str x => String.eqb x s
  | _ => false
  end.

(** [typeof itemsJson === 'string' && itemsJson.trim().startsWith('[')
     && itemsJson.trim() !== '[]'] *)
Definition holdsItems (itemsJson : Value) : bool :=
  match itemsJson with
  | Str s =>
      String.prefix "[" (Analytics.trim s)
      && negb (String.eqb (Analytics.trim s) "[]")
  | _ => false
  end.

Definition decimal (n : nat) : string :=
  DecimalString.NilZero.string_of_uint (Nat.to_uint n).

(** [{ success: true, migratedCount, message }] *)
Definition migrated (migratedCount : nat) (message : string) : Value :=
  Obj [("success", Bool true);
       ("migratedCount", Number (inject_Z (Z.of_nat migratedCount)));
       ("message", Str message)].

(** The body of [receiptsToMigrate.forEach]: the count and the sheet of
    items after one row.  The rows that reach the loop hold a string in the
    column of the items. *)
Definition migrateRow (P : Platform) (idColumnIndex itemsColumnIndex : nat)
  (acc : nat * Sheet) (row : list Value) : nat * Sheet :=
  let (migratedCount, itemsSheet) := acc in
  let receiptId := nth idColumnIndex row Undefined in
  match nth itemsColumnIndex row Undefined with
  | Str text =>
      match JSON_parse P text with
      | Some (Arr items) =>
          if truthy receiptId && negb (Nat.eqb (List.length items) 0)
          then
            match processAndSaveItems P itemsSheet receiptId items with
            | (Returned _, itemsSheet') => (S migratedCount, itemsSheet')
            | (Threw _, itemsSheet') => (migratedCount, itemsSheet')
            end
          else acc
      | _ => acc
      end
  | _ => acc
  end.

(** [handleMigration(callback, receiptsSheet, itemsSheet)] *)
Definition handleMigration (P : Platform) (ss : Spreadsheet)
  : Outcome Value * Spreadsheet :=
  let receiptsSheet := Recibos ss in
  if (getLastRow receiptsSheet <? 2)%Z
  then (Returned (migrated 0 "Nenhum recibo para migrar."), ss)
  else
    let receiptHeaders :=
      headerValues (getLastColumn receiptsSheet) receiptsSheet in
    let receiptData := dataValues receiptsSheet in
    let idColumnIndex := indexOf "id" receiptHeaders in
    let itemsColumnIndex := indexOf "items" receiptHeaders in
    if (idColumnIndex =? -1)%Z || (itemsColumnIndex =? -1)%Z
    then
      (Threw "As colunas 'id' e 'items' são necessárias na aba 'Recibos' para a migração.",
       ss)
    else
      let receiptsToMigrate :=
        filter
          (fun row => holdsItems (nth (Z.to_nat itemsColumnIndex) row Undefined))
          receiptData in
      if Nat.eqb (List.length receiptsToMigrate) 0
      then
        (Returned
           (migrated 0 "Nenhum recibo continha dados de itens para processar."),
         ss)
      else
        let (migratedCount, itemsSheet) :=
          fold_left
            (migrateRow P (Z.to_nat idColumnIndex) (Z.to_nat itemsColumnIndex))
            receiptsToMigrate (0, Itens ss) in
        (Returned
           (migrated migratedCount
              (decimal migratedCount
               ++ " recibo(s) tiveram seus itens migrados/atualizados com sucesso.")),
         mkSpreadsheet receiptsSheet itemsSheet).

(** [{ error: message }] *)
Definition invalid (message : string) : Value := Obj [("error", Str message)].

(** [{ error: 'Falha ao processar a requisição.', details: error.message }] *)
Definition failed (details : string) : Value :=
  Obj [("error", Str "Falha ao processar a requisição.");
       ("details", Str details)].

(** A handler run inside the [try] block of [doGet]. *)
Definition guarded (run : Outcome Value * Spreadsheet) : Value * Spreadsheet :=
  match run with
  | (Returned reply, ss) => (reply, ss)
  | (Threw message, ss) => (failed message, ss)
  end.

Definition dq : string := String (ascii_of_nat 34) EmptyString.

(** [doGet(e)]: the object handed to [createJsonResponse], and the sheets
    afterwards.  [payload] is [e.parameter.payload]; [display] is the
    conversion of a value to the string of a template literal. *)
Definition doGet (P : Platform) (display : Value -> string)
  (payload : option string) (ss : Spreadsheet) : Value * Spreadsheet :=
  if negb (truthy_string payload)
  then
    (invalid
       ("Requisição inválida. O parâmetro " ++ dq ++ "payload" ++ dq
        ++ " está ausente."),
     ss)
  else
    match JSON_parse P (match payload with Some text => text | None => "" end)
    with
    | None => (failed "SyntaxError", ss)
    | Some payload =>
        match prop payload "action" with
        | Threw message => (failed message, ss)
        | Returned action =>
            if negb (truthy action)
            then
              (invalid
                 ("O payload da requisição não contém o parâmetro " ++ dq
                  ++ "action" ++ dq ++ "."),
               ss)
            else if is_string action "get" then handleGet P ss
            else
              let opened := openSheets ss in
              if is_string action "delete"
              then
                if negb (truthy (get payload "id"))
                then
                  (invalid
                     ("Parâmetro " ++ dq ++ "id" ++ dq
                      ++ " ausente para a ação de deletar."),
                   opened)
                else guarded (handleDelete P opened (get payload "id"))
              else if is_string action "migrate"
              then guarded (handleMigration P opened)
              else if is_string action "save"
              then
                if negb (truthy (get payload "data"))
                then
                  (invalid
                     ("Parâmetro " ++ dq ++ "data" ++ dq
                      ++ " ausente para a ação de salvar."),
                   opened)
                else
                  let receiptData := get payload "data" in
                  if negb (truthy (get receiptData "id"))
                  then
                    (invalid
                       ("Objeto " ++ dq ++ "data" ++ dq ++ " não contém um "
                        ++ dq ++ "id" ++ dq ++ "."),
                     opened)
                  else guarded (handleSaveOrUpdate P opened receiptData)
              else
                (invalid
                   ("Ação " ++ dq ++ display action ++ dq ++ " é inválida."),
                 opened)
        end
    end.

(** [createJsonResponse(callbackFunction, dataObject)]: the text of the
    response. *)
Definition createJsonResponse (P : Platform) (callbackFunction : option string)
  (dataObject : Value) : string :=
  if negb (truthy_string callbackFunction) then JSON_stringify P dataObject
  else
    (match callbackFunction with Some f => f | None => "" end)
    ++ "(" ++ JSON_stringify P dataObject ++ ");".

(** *** Readings of a request *)

(** The request passes the checks of [doGet]: its payload parses to a
    value with an action, and the parameters of the action are there. *)
Definition accepted (P : Platform) (payload : option string) : bool :=
  match payload with
  | Some text =>
      negb (String.eqb text "")
      && match JSON_parse P text with
         | Some request =>
             match prop request "action" with
             | Returned action =>
                 is_string action "get"
                 || is_string action "migrate"
                 || (is_string action "delete" && truthy (get request "id"))
                 || (is_string action "save"
                     && truthy (get request "data")
                     && truthy (get (get request "data") "id"))
             | Threw _ => false
             end
         | None => false
         end
  | None => false
  end.

(** The reply is one of the two error objects of [doGet]. *)
Definition is_error (reply : Value) : Prop :=
  exists message, reply = invalid message \/ reply = failed message.

(** The cells of a new item row under the nine headers of [Itens]. *)
Definition itemValues (P : Platform) (receiptId : Value) (it : nat * Value)
  : list Value :=
  map written
    (map (itemCellOf P receiptId (fst it) (snd it)) (indexed itemHeaders)).

(** The rows of a sheet of items that refer to [A] hold [A] itself in
    their second cell. *)
Definition settled (P : Platform) (A : Value) (sheet : Sheet) : Prop :=
  forall x, In x (rows sheet) -> refersTo P A x = true ->
            nth 1 x (Str "") = A.

(** A row of [Recibos] that the loop of [handleMigration] leaves aside: its
    list of items is not a text that begins with a bracket, or the text does
    not parse to an array with elements, or the row has no id. *)
Definition skipped (P : Platform) (row : list Value) : bool :=
  match nth 8 row (Str "") with
  | Str text =>
      negb (holdsItems (Str text))
      || match JSON_parse P text with
         | Some (Arr (_ :: _)) => negb (truthy (nth 0 row (Str "")))
         | _ => true
         end
  | _ => true
  end.

End Router.

(** ** A reference platform

    A JSON printer and parser for values built from [null], booleans,
    integers, strings without escapes, arrays and objects, and the other
    platform functions restricted to integers.  It is used to run the
    backend on concrete requests; the properties of the backend are stated
    for every platform. *)

Module Reference.
Import Backend.

Definition dquote : ascii := ascii_of_nat 34.

Definition quoted (s : string) : string :=
  String dquote (s ++ String dquote EmptyString)%string.

Fixpoint join (parts : list string) : string :=
  match parts with
  | [] => EmptyString
  | [p] => p
  | p :: rest => (p ++ "," ++ join rest)%string
  end.

Definition print_number (q : Q) : string :=
  DecimalString.NilZero.string_of_int (Z.to_int (Qnum q)).

Fixpoint stringify (v : Value) : string :=
  match v with
  | Undefined => "null"
  | Null => "null"
  | Bool true => "true"
  | Bool false => "false"
  | Number q => print_number q
  | Str s => quoted s
  | Arr elements => ("[" ++ join (map stringify elements) ++ "]")%string
  | Obj properties =>
      ("{"
       ++ join (map (fun kv => (quoted (fst kv) ++ ":" ++ stringify (snd kv))%string)
                 properties)
       ++ "}")%string
  end.

Definition is_digit (c : ascii) : bool :=
  let n := nat_of_ascii c in Nat.leb 48 n && Nat.leb n 57.

(** The characters up to the closing quote, and what follows it. *)
Fixpoint read_string (s : list ascii) : option (string * list ascii) :=
  match s with
  | [] => None
  | c :: rest =>
      if Ascii.eqb c dquote then Some (EmptyString, rest)
      else match read_string rest with
           | Some (str, rest') => Some (String c str, rest')
           | None => None
           end
  end.

Fixpoint read_digits (s : list ascii) : string * list ascii :=
  match s with
  | c :: rest =>
      if is_digit c
      then let (d, rest') := read_digits rest in (String c d, rest')
      else (EmptyString, s)
  | [] => (EmptyString, [])
  end.

Definition number_of (digits : string) : option Q :=
  match DecimalString.NilZero.int_of_string digits with
  | Some i => Some (inject_Z (Z.of_int i))
  | None => None
  end.

Definition starts (lit : string) (s : list ascii) : option (list ascii) :=
  let l := list_ascii_of_string lit in
  if list_eq_dec ascii_dec (firstn (List.length l) s) l
  then Some (skipn (List.length l) s)
  else None.

Fixpoint parse_value (fuel : nat) (s : list ascii)
  : option (Value * list ascii) :=
  match fuel with
  | O => None
  | S n =>
      match s with
      | [] => None
      | c :: rest =>
          if Ascii.eqb c dquote then
            match read_string rest with
            | Some (str, rest') => Some (Str str, rest')
            | None => None
            end
          else if Ascii.eqb c "[" then
            match rest with
            | c' :: rest' =>
                if Ascii.eqb c' "]" then Some (Arr [], rest')
                else match parse_elements n rest with
                     | Some (l, rest'') => Some (Arr l, rest'')
                     | None => None
                     end
            | [] => None
            end
          else if Ascii.eqb c "{" then
            match rest with
            | c' :: rest' =>
                if Ascii.eqb c' "}" then Some (Obj [], rest')
                else match parse_members n rest with
                     | Some (l, rest'') => Some (Obj l, rest'')
                     | None => None
                     end
            | [] => None
            end
          else if is_digit c || Ascii.eqb c "-" then
            let (d, rest') := read_digits rest in
            match number_of (String c d) with
            | Some q => Some (Number q, rest')
            | None => None
            end
          else
            match starts "true" s, starts "false" s, starts "null" s with
            | Some r, _, _ => Some (Bool true, r)
            | _, Some r, _ => Some (Bool false, r)
            | _, _, Some r => Some (Null, r)
            | _, _, _ => None
            end
      end
  end
with parse_elements (fuel : nat) (s : list ascii)
  : option (list Value * list ascii) :=
  match fuel with
  | O => None
  | S n =>
      match parse_value n s with
      | Some (v, c :: rest) =>
          if Ascii.eqb c "]" then Some ([v], rest)
          else if Ascii.eqb c "," then
            match parse_elements n rest with
            | Some (l, rest') => Some (v :: l, rest')
            | None => None
            end
          else None
      | _ => None
      end
  end
with parse_members (fuel : nat) (s : list ascii)
  : option (list (string * Value) * list ascii) :=
  match fuel with
  | O => None
  | S n =>
      match s with
      | q :: rest =>
          if Ascii.eqb q dquote then
            match read_string rest with
            | Some (key, colon :: rest') =>
                if Ascii.eqb colon ":" then
                  match parse_value n rest' with
                  | Some (v, c :: rest'') =>
                      if Ascii.eqb c "}" then Some ([(key, v)], rest'')
                      else if Ascii.eqb c "," then
                        match parse_members n rest'' with
                        | Some (l, rest3) => Some ((key, v) :: l, rest3)
                        | None => None
                        end
                      else None
                  | _ => None
                  end
                else None
            | _ => None
            end
          else None
      | [] => None
      end
  end.

Definition parse (text : string) : option Value :=
  let s := list_ascii_of_string text in
  match parse_value (S (List.length s)) s with
  | Some (v, []) => Some v
  | _ => None
  end.

Definition integer (text : string) : option Q :=
  match text with
  | EmptyString => None
  | _ =>
      let (d, rest) := read_digits (list_ascii_of_string text) in
      match rest with
      | [] => number_of d
      | _ => None
      end
  end.

Definition uuid (i j : nat) : string :=
  ("item-"
   ++ DecimalString.NilZero.string_of_uint (Nat.to_uint i) ++ "-"
   ++ DecimalString.NilZero.string_of_uint (Nat.to_uint j))%string.

Definition platform : Platform :=
  mkPlatform stringify parse integer integer "2024-05-01T12:00:00.000Z" uuid.

(** The receipt of the backend's own test suite, with integer amounts. *)
Definition twoItems : list Item.t :=
  [Item.mk "Produto Teste 1" 1 "UN" 100 100 "Testes";
   Item.mk "Produto Teste 2" 2 "UN" 25 50 "Testes"].

Definition testReceipt : Receipt.t :=
  Receipt.mk "test-1" (Some "http://example.com/test") completed
    (Some "Loja de Teste") (Some "12.345.678/0001-99")
    (Some "Rua do Teste, 123") (Some "2024-05-01T12:00:00.000Z")
    (Some 150%Q) (Some twoItems) None (Some "Pagador Teste") None None.

Definition emptySpreadsheet : Spreadsheet :=
  mkSpreadsheet (mkSheet [] []) (mkSheet [] []).

(** A receipt of the old layout: its items are kept as text in its row of
    [Recibos], and [Itens] has no row for it. *)
Definition legacyRow : list Value :=
  [Str "legacy-1"; Str "http://example.com/legacy"; Str "completed";
   Str "Loja Antiga"; Str ""; Str ""; Str "2024-04-01T10:00:00.000Z";
   Number 150; Str (stringify (Arr (map item_value twoItems)))].

Definition legacySpreadsheet : Spreadsheet :=
  mkSpreadsheet (mkSheet receiptHeaders [legacyRow]) (mkSheet itemHeaders []).

End Reference.

(* ================================================================== *)
(** * Properties *)

(** ** Auxiliary facts *)

Lemma Status_eqb_eq (a b : Status) : Status_eqb a b = true <-> a = b.
Proof. destruct a, b; simpl; split; congruence. Qed.

Lemma strict_eq_string_true (p : option string) (s : string) :
  strict_eq_string p s = true <-> p = Some s.
Proof.
  destruct p as [v|]; simpl.
  - rewrite String.eqb_eq. split; congruence.
  - split; discriminate.
Qed.

Lemma find_none_iff {A : Type} (f : A -> bool) (l : list A) :
  find f l = None <-> forall x, In x l -> f x = false.
Proof.
  split.
  - intros H x Hx. exact (find_none f l H x Hx).
  - induction l as [|a l IH]; simpl; intros H; [reflexivity|].
    rewrite (H a (or_introl eq_refl)). apply IH.
    intros x Hx. apply H. now right.
Qed.

Lemma nonempty_urls_In (l : list Receipt.t) (u : string) :
  In u (nonempty_urls l) <->
  u <> "" /\ exists r, In r l /\ Receipt.url r = Some u.
Proof.
  induction l as [|a l IH]; simpl.
  - split; [tauto | intros [_ [r [[] _]]]].
  - destruct (Receipt.url a) as [v|] eqn:Hv.
    + destruct (String.eqb v "") eqn:Hempty.
      * apply String.eqb_eq in Hempty. subst v. rewrite IH. split.
        -- intros [Hu [r [Hr Hurl]]]. split; [exact Hu|].
           exists r. split; [now right | exact Hurl].
        -- intros [Hu [r [[Hr|Hr] Hurl]]].
           ++ subst r. rewrite Hv in Hurl. congruence.
           ++ split; [exact Hu|]. now exists r.
      * apply String.eqb_neq in Hempty. simpl. rewrite IH. split.
        -- intros [Heq | [Hu [r [Hr Hurl]]]].
           ++ subst v. split; [exact Hempty|]. exists a. split; [now left | exact Hv].
           ++ split; [exact Hu|]. exists r. split; [now right | exact Hurl].
        -- intros [Hu [r [[Hr|Hr] Hurl]]].
           ++ subst r. left. congruence.
           ++ right. split; [exact Hu|]. now exists r.
    + rewrite IH. split.
      * intros [Hu [r [Hr Hurl]]]. split; [exact Hu|].
        exists r. split; [now right | exact Hurl].
      * intros [Hu [r [[Hr|Hr] Hurl]]].
        -- subst r. congruence.
        -- split; [exact Hu|]. now exists r.
Qed.

(** [addReceipt] rejects a url that some record already carries. *)
Lemma addReceipt_duplicate (configured : bool) (uuid u : string) (st : Store) :
  (exists r, In r (receipts st) /\ Receipt.url r = Some u) ->
  addReceipt configured uuid u st = (st, []).
Proof.
  intros [r [Hr Hurl]]. unfold addReceipt.
  destruct (find _ (receipts st)) eqn:Hfind; [reflexivity|].
  rewrite find_none_iff in Hfind. specialize (Hfind r Hr).
  rewrite Hurl in Hfind. simpl in Hfind.
  rewrite String.eqb_refl in Hfind. discriminate.
Qed.

(** [addReceipt] keeps the non-empty urls of the list distinct. *)
Lemma addReceipt_urls_unique (configured : bool) (uuid u : string)
  (st : Store) :
  urls_unique (receipts st) ->
  urls_unique (receipts (fst (addReceipt configured uuid u st))).
Proof.
  unfold urls_unique, addReceipt. intros Huniq.
  destruct (find _ (receipts st)) eqn:Hfind; simpl; [exact Huniq|].
  destruct (String.eqb u ""); [exact Huniq|].
  constructor; [|exact Huniq].
  rewrite nonempty_urls_In. intros [_ [r [Hr Hurl]]].
  rewrite find_none_iff in Hfind. specialize (Hfind r Hr).
  rewrite Hurl in Hfind. simpl in Hfind.
  rewrite String.eqb_refl in Hfind. discriminate.
Qed.

Lemma addReceipts_urls_unique (calls : list AddCall) (st : Store) :
  urls_unique (receipts st) ->
  urls_unique (receipts (addReceipts calls st)).
Proof.
  revert st. induction calls as [|c calls IH]; simpl; intros st H.
  - exact H.
  - apply IH. now apply addReceipt_urls_unique.
Qed.

(** ** C1: url uniqueness at insertion *)

(** C1. Whatever sequence of [addReceipt] calls the service receives after
    its construction, no two records of the list share a non-empty url, and
    each call keeps that property of any list that has it; [addReceipt u]
    leaves the state unchanged and issues no remote call when some record
    already carries [u]; two calls with "http://x/1" leave a list of
    length 1. *)
Theorem addReceipt_url_uniqueness :
  (forall calls : list AddCall,
      urls_unique (receipts (addReceipts calls initialStore))) /\
  (forall (configured : bool) (uuid u : string) (st : Store),
      urls_unique (receipts st) ->
      urls_unique (receipts (fst (addReceipt configured uuid u st)))) /\
  (forall (configured : bool) (uuid u : string) (st : Store) (r : Receipt.t),
      In r (receipts st) -> Receipt.url r = Some u ->
      addReceipt configured uuid u st = (st, [])) /\
  (forall (c1 c2 : bool) (uuid1 uuid2 : string),
      List.length (receipts
                (fst (addReceipt c2 uuid2 "http://x/1"
                        (fst (addReceipt c1 uuid1 "http://x/1"
                                initialStore))))) = 1).
Proof.
  split; [|split; [|split]].
  - intros calls. apply addReceipts_urls_unique. constructor.
  - exact addReceipt_urls_unique.
  - intros configured uuid u st r Hr Hurl.
    apply addReceipt_duplicate. now exists r.
  - intros c1 c2 uuid1 uuid2. reflexivity.
Qed.

Lemma addReceipt_url_uniqueness_witness :
  addReceipt true "id-2" "http://x/1"
    (fst (addReceipt true "id-1" "http://x/1" initialStore))
  = (fst (addReceipt true "id-1" "http://x/1" initialStore), []).
Proof.
  apply (proj1 (proj2 (proj2 addReceipt_url_uniqueness)) true "id-2"
           "http://x/1"
           (fst (addReceipt true "id-1" "http://x/1" initialStore))
           (newReceipt "id-1" "http://x/1")).
  - simpl. left. reflexivity.
  - reflexivity.
Defined.

(** ** C2: one extraction at a time *)

Lemma find_first {A : Type} (f : A -> bool) (l : list A) (r : A) :
  find f l = Some r ->
  f r = true /\
  exists pre post, l = pre ++ r :: post /\ forall x, In x pre -> f x = false.
Proof.
  induction l as [|a l IH]; simpl; [discriminate|].
  destruct (f a) eqn:Ha.
  - intros [= <-]. split; [exact Ha|].
    exists [], l. split; [reflexivity | intros x []].
  - intros H. destruct (IH H) as [Hr [pre [post [Hl Hpre]]]].
    split; [exact Hr|]. exists (a :: pre), post. split.
    + simpl. now rewrite Hl.
    + intros x [<-|Hx]; [exact Ha | now apply Hpre].
Qed.

Lemma existsb_find {A : Type} (f : A -> bool) (l : list A) :
  existsb f l = true -> exists r, find f l = Some r.
Proof.
  induction l as [|a l IH]; simpl; [discriminate|].
  destruct (f a); [now exists a | exact IH].
Qed.

Lemma queued_url (r : Receipt.t) :
  queued r = true ->
  Receipt.status r = processing /\ truthy_string (Receipt.url r) = true.
Proof.
  unfold queued. rewrite andb_true_iff, Status_eqb_eq. tauto.
Qed.

(** [processQueue] returns early, or raises the flag and starts one
    extraction. *)
Lemma processQueue_cases (st : Store) :
  processQueue st = (st, None) \/
  (isProcessing st = false /\
   exists r, find queued (receipts st) = Some r /\
             processQueue st = (set_isProcessing true st, Some r)).
Proof.
  unfold processQueue. destruct (isProcessing st) eqn:Hp; [now left|].
  destruct (find queued (receipts st)) as [r|] eqn:Hf; [|now left].
  destruct (find_first _ _ _ Hf) as [Hq _].
  apply queued_url in Hq. destruct Hq as [_ ->]. simpl.
  right. split; [reflexivity|]. now exists r.
Qed.

Lemma queueTrigger_cases (st : Store) :
  queueTrigger st = (st, None) \/
  (isProcessing st = false /\
   exists r, find queued (receipts st) = Some r /\
             queueTrigger st = (set_isProcessing true st, Some r)).
Proof.
  unfold queueTrigger.
  destruct (existsb queued (receipts st) && negb (isProcessing st));
    [apply processQueue_cases | now left].
Qed.

Lemma retrySync_isProcessing (configured : bool) (receiptId : string)
  (st : Store) :
  isProcessing (fst (retrySync configured receiptId st)) = isProcessing st.
Proof.
  unfold retrySync. destruct (find _ _); [|reflexivity].
  destruct (_ || _); [reflexivity|]. destruct configured; reflexivity.
Qed.

Lemma step_preserves_guard (w w' : World) :
  step w w' -> flag_guards_extraction w -> flag_guards_extraction w'.
Proof.
  unfold flag_guards_extraction.
  intros Hstep Hinv. destruct Hstep; simpl.
  - destruct (queueTrigger_cases (store w)) as [-> | [Hp [r [_ ->]]]]; simpl.
    + rewrite app_nil_r. exact Hinv.
    + right. split; [reflexivity|].
      destruct Hinv as [[_ ->] | [Hq _]]; [now exists r | congruence].
  - destruct (processQueue_cases (store w)) as [-> | [Hp [r [_ ->]]]]; simpl.
    + rewrite app_nil_r. exact Hinv.
    + right. split; [reflexivity|].
      destruct Hinv as [[_ ->] | [Hq _]]; [now exists r | congruence].
  - left. split; [reflexivity|].
    destruct Hinv as [[_ He] | [_ [x He]]]; rewrite He in H.
    + destruct pre; discriminate.
    + destruct pre as [|a [|b pre]]; simpl in H; try discriminate.
      injection H as _ <-. reflexivity.
  - left. split; [reflexivity|].
    destruct Hinv as [[_ He] | [_ [x He]]]; rewrite He in H.
    + destruct pre; discriminate.
    + destruct pre as [|a [|b pre]]; simpl in H; try discriminate.
      injection H as _ <-. reflexivity.
  - destruct outcome as [response|m]; simpl; [|exact Hinv].
    destruct (ack_success response); exact Hinv.
  - unfold initialLoad. destruct configured; simpl; [exact Hinv|].
    destruct localData; exact Hinv.
  - exact Hinv.
  - unfold addReceipt. destruct (find _ _); exact Hinv.
  - rewrite retrySync_isProcessing. exact Hinv.
  - destruct outcome as [response|m]; simpl; [|exact Hinv].
    destruct (ack_success response); exact Hinv.
  - exact Hinv.
  - unfold deleteReceipt. destruct (find _ _); exact Hinv.
  - exact Hinv.
Qed.

Lemma reachable_guard (w : World) :
  reachable w -> flag_guards_extraction w.
Proof.
  induction 1 as [|w w' _ IH Hstep].
  - left. split; reflexivity.
  - exact (step_preserves_guard w w' Hstep IH).
Qed.

(** C2. In every reachable state at most one extraction is in flight, and
    one is in flight exactly when the flag is up.  The trigger starts an
    extraction only with the flag down and for the first record of the list
    with status [processing] and a non-empty url; with the flag down and
    such a record present it does start one; with the flag up both the
    trigger and [processQueue] change nothing and start nothing. *)
Theorem serialized_extraction :
  (forall w, reachable w ->
     List.length (extracting w) <= 1 /\
     (isProcessing (store w) = true <-> exists r, extracting w = [r])) /\
  (forall st st' r, queueTrigger st = (st', Some r) ->
     isProcessing st = false /\ st' = set_isProcessing true st /\
     Receipt.status r = processing /\
     truthy_string (Receipt.url r) = true /\
     exists pre post,
       receipts st = pre ++ r :: post /\
       forall x, In x pre -> queued x = false) /\
  (forall st, isProcessing st = false ->
     existsb queued (receipts st) = true ->
     exists r, queueTrigger st = (set_isProcessing true st, Some r)) /\
  (forall st, isProcessing st = true ->
     queueTrigger st = (st, None) /\ processQueue st = (st, None)).
Proof.
  split; [|split; [|split]].
  - intros w Hw. destruct (reachable_guard w Hw) as [[Hp He] | [Hp [r He]]];
      rewrite He, Hp; simpl; split; try lia.
    + split; [discriminate | intros [r Hr]; discriminate].
    + split; [now exists r | reflexivity].
  - intros st st' r H.
    destruct (queueTrigger_cases st) as [H0 | [Hp [r0 [Hf H1]]]];
      rewrite H in *; [discriminate|].
    injection H1 as -> ->.
    destruct (find_first _ _ _ Hf) as [Hq Hsplit].
    apply queued_url in Hq. destruct Hq as [Hs Hu]. auto.
  - intros st Hp Hex. unfold queueTrigger. rewrite Hex, Hp. simpl.
    destruct (existsb_find _ _ Hex) as [r Hf].
    destruct (processQueue_cases st) as [H0 | [_ [r0 [_ H1]]]];
      [|now exists r0].
    unfold processQueue in H0. rewrite Hp, Hf in H0.
    destruct (find_first _ _ _ Hf) as [Hq _].
    apply queued_url in Hq. destruct Hq as [_ Hu]. rewrite Hu in H0.
    discriminate.
  - intros st Hp. unfold queueTrigger, processQueue. rewrite Hp.
    rewrite andb_false_r. split; reflexivity.
Qed.

Lemma serialized_extraction_witness :
  let w :=
    mkWorld
      (set_isProcessing true
         (fst (addReceipt false "id-1" "http://x/1" initialStore)))
      [newReceipt "id-1" "http://x/1"] in
  List.length (extracting w) <= 1 /\
  (isProcessing (store w) = true <-> exists r, extracting w = [r]).
Proof.
  intros w. apply (proj1 serialized_extraction w).
  apply reachable_step with
    (w := mkWorld (fst (addReceipt false "id-1" "http://x/1" initialStore)) []).
  - apply reachable_step with (w := initialWorld).
    + apply reachable_initial.
    + exact (step_addReceipt initialWorld false "id-1" "http://x/1").
  - exact (step_trigger
             (mkWorld (fst (addReceipt false "id-1" "http://x/1" initialStore))
                [])).
Defined.

(** ** C3: what one extraction step leaves behind *)

Lemma nth_error_map_by_id (id : string) (f : Receipt.t -> Receipt.t)
  (l : list Receipt.t) (i : nat) :
  nth_error (map_by_id id f l) i =
  option_map (fun r => if String.eqb (Receipt.id r) id then f r else r)
    (nth_error l i).
Proof. unfold map_by_id. apply nth_error_map. Qed.

Lemma map_by_id_length (id : string) (f : Receipt.t -> Receipt.t)
  (l : list Receipt.t) :
  List.length (map_by_id id f l) = List.length l.
Proof. unfold map_by_id. apply length_map. Qed.

(** C3. When the gateway succeeds, every record with the selected id is
    replaced by the selected record with the extracted fields merged in,
    status [completed] and [isSynced = false]: a field that the extraction
    carries takes its value, a field that it lacks keeps the value of the
    selected record, and the id, the url and the error are those of the
    selected record.  The save is issued only if the remote is configured,
    and only its confirmed success turns [isSynced] into [true].  When the
    gateway fails, with an error or with any other value, those records
    become the selected record with status [error] and the failure's
    message (the fallback text when the value is not an error), and that
    record is saved if the remote is configured.  Both continuations clear
    the flag and leave the other records alone.  In the scenario the record
    ends completed with store "Loja A" and total 10.5. *)
Theorem extraction_step_postcondition :
  (forall configured selected parsedData st,
     let done := completedReceipt selected parsedData in
     let st' := fst (processQueue_fulfilled configured selected parsedData st) in
     isProcessing st' = false /\
     snd (processQueue_fulfilled configured selected parsedData st)
       = (if configured then [CallSave done] else []) /\
     List.length (receipts st') = List.length (receipts st) /\
     (forall i r, nth_error (receipts st) i = Some r ->
        nth_error (receipts st') i =
        Some (if String.eqb (Receipt.id r) (Receipt.id selected)
              then done else r)) /\
     Receipt.id done = Receipt.id selected /\
     Receipt.url done = Receipt.url selected /\
     Receipt.status done = completed /\
     Receipt.isSynced done = Some false /\
     (forall v, Parsed.storeName parsedData = Some v ->
                Receipt.storeName done = Some v) /\
     (forall v, Parsed.storeCnpj parsedData = Some v ->
                Receipt.storeCnpj done = Some v) /\
     (forall v, Parsed.storeAddress parsedData = Some v ->
                Receipt.storeAddress done = Some v) /\
     (forall v, Parsed.date parsedData = Some v ->
                Receipt.date done = Some v) /\
     (forall v, Parsed.totalAmount parsedData = Some v ->
                Receipt.totalAmount done = Some v) /\
     (forall v, Parsed.items parsedData = Some v ->
                Receipt.items done = Some v) /\
     (forall v, Parsed.payer parsedData = Some v ->
                Receipt.payer done = Some v) /\
     (forall v, Parsed.syncing parsedData = Some v ->
                Receipt.syncing done = Some v) /\
     (Parsed.storeName parsedData = None ->
      Receipt.storeName done = Receipt.storeName selected) /\
     (Parsed.storeCnpj parsedData = None ->
      Receipt.storeCnpj done = Receipt.storeCnpj selected) /\
     (Parsed.storeAddress parsedData = None ->
      Receipt.storeAddress done = Receipt.storeAddress selected) /\
     (Parsed.date parsedData = None ->
      Receipt.date done = Receipt.date selected) /\
     (Parsed.totalAmount parsedData = None ->
      Receipt.totalAmount done = Receipt.totalAmount selected) /\
     (Parsed.items parsedData = None ->
      Receipt.items done = Receipt.items selected) /\
     (Parsed.payer parsedData = None ->
      Receipt.payer done = Receipt.payer selected) /\
     (Parsed.syncing parsedData = None ->
      Receipt.syncing done = Receipt.syncing selected) /\
     Receipt.error done = Receipt.error selected) /\
  (forall done response st,
     ack_success response = true ->
     let st' := processQueue_saved done (Next response) st in
     isProcessing st' = isProcessing st /\
     forall i r, nth_error (receipts st) i = Some r ->
       nth_error (receipts st') i =
       Some (if String.eqb (Receipt.id r) (Receipt.id done)
             then Receipt.with_isSynced (Some true) r else r)) /\
  (forall done outcome st,
     (forall response, outcome = Next response ->
                       ack_success response = false) ->
     processQueue_saved done outcome st = st) /\
  (forall configured selected error st,
     let message := message_of error "Falha desconhecida no processamento." in
     let failed := errorReceipt selected message in
     let st' := fst (processQueue_rejected configured selected error st) in
     isProcessing st' = false /\
     snd (processQueue_rejected configured selected error st)
       = (if configured then [CallSave failed] else []) /\
     List.length (receipts st') = List.length (receipts st) /\
     (forall i r, nth_error (receipts st) i = Some r ->
        nth_error (receipts st') i =
        Some (if String.eqb (Receipt.id r) (Receipt.id selected)
              then failed else r)) /\
     Receipt.status failed = errored /\
     Receipt.error failed = Some message /\
     (forall text, error = ErrorObject text -> message = text) /\
     (error = OtherValue ->
      message = "Falha desconhecida no processamento.") /\
     Receipt.with_error (Receipt.error selected)
       (Receipt.with_status (Receipt.status selected) failed) = selected) /\
  (forall configured uuid,
     let st0 := fst (addReceipt configured uuid "http://x/1" initialStore) in
     exists queuedReceipt st1,
       receipts st0 = [queuedReceipt] /\
       Receipt.status queuedReceipt = processing /\
       queueTrigger st0 = (st1, Some queuedReceipt) /\
       exists r,
         receipts (fst (processQueue_fulfilled configured queuedReceipt
                          lojaA st1)) = [r] /\
         Receipt.status r = completed /\
         Receipt.storeName r = Some "Loja A" /\
         Receipt.totalAmount r = Some 10.5%Q /\
         Receipt.items r = Some []).
Proof.
  split; [|split; [|split; [|split]]].
  - intros configured selected parsedData st done st'.
    repeat split; try reflexivity;
      try (intros v H; simpl; now rewrite H);
      try (intros H; simpl; now rewrite H).
    + apply map_by_id_length.
    + intros i r Hr. subst st'. simpl.
      rewrite nth_error_map_by_id, Hr. reflexivity.
  - intros done response st Hok st'. subst st'. simpl. rewrite Hok.
    split; [reflexivity|]. intros i r Hr. simpl.
    rewrite nth_error_map_by_id, Hr. reflexivity.
  - intros done outcome st H. destruct outcome as [response|m]; simpl.
    + now rewrite (H response eq_refl).
    + reflexivity.
  - intros configured selected error st message failed st'.
    split; [reflexivity|]. split; [reflexivity|].
    split; [apply map_by_id_length|]. split; [|split; [|split; [|split; [|split]]]].
    + intros i r Hr. subst st'. simpl.
      rewrite nth_error_map_by_id, Hr. reflexivity.
    + reflexivity.
    + reflexivity.
    + intros text ->. reflexivity.
    + intros ->. reflexivity.
    + now destruct selected.
  - intros configured uuid st0.
    exists (newReceipt uuid "http://x/1"), (set_isProcessing true st0).
    split; [reflexivity|]. split; [reflexivity|]. split; [reflexivity|].
    exists (completedReceipt (newReceipt uuid "http://x/1") lojaA).
    split; [|repeat split].
    subst st0. simpl. rewrite String.eqb_refl. reflexivity.
Qed.

Lemma extraction_step_postcondition_witness :
  processQueue_saved (newReceipt "id-1" "http://x/1")
    (Next (Some (AckReply false "id-1")))
    (mkStore [newReceipt "id-1" "http://x/1"] false false)
  = mkStore [newReceipt "id-1" "http://x/1"] false false.
Proof.
  apply (proj1 (proj2 (proj2 extraction_step_postcondition))).
  intros response [= <-]. reflexivity.
Defined.

(** ** C4: sanitization on initial load *)

Lemma sanitize_status (r : Receipt.t) :
  Receipt.status (sanitize r) <> processing /\
  Receipt.isSynced (sanitize r) = Some true.
Proof. unfold sanitize. destruct (Receipt.status r) eqn:H; simpl; rewrite ?H; split; congruence. Qed.

(** C4. With the remote configured, [initialLoad] raises the loading flag
    and issues one list request; when the list arrives, the in-memory list
    becomes the fetched list, record by record, where a record that was
    [processing] has status [error] and the fixed message, every other
    record keeps its fields, and all are marked synced; no record of the
    new list is [processing]; the loading flag is cleared. *)
Theorem initialLoad_sanitizes :
  forall (localData : LocalSnapshot) (data : list Receipt.t) (st : Store),
    let st1 := fst (initialLoad true localData st) in
    let st2 := initialLoad_next data st1 in
    snd (initialLoad true localData st) = [CallGet] /\
    isLoading st1 = true /\
    receipts st1 = receipts st /\
    isLoading st2 = false /\
    List.length (receipts st2) = List.length data /\
    (forall i r, nth_error data i = Some r ->
       Receipt.status r = processing ->
       nth_error (receipts st2) i =
       Some (Receipt.with_isSynced (Some true)
               (Receipt.with_error (Some staleProcessingMessage)
                  (Receipt.with_status errored r)))) /\
    (forall i r, nth_error data i = Some r ->
       Receipt.status r <> processing ->
       nth_error (receipts st2) i =
       Some (Receipt.with_isSynced (Some true) r)) /\
    (forall r', In r' (receipts st2) ->
       Receipt.status r' <> processing /\ Receipt.isSynced r' = Some true).
Proof.
  intros localData data st st1 st2. subst st1 st2. simpl.
  repeat split.
  - apply length_map.
  - intros i r Hr Hs. rewrite nth_error_map, Hr. simpl.
    unfold sanitize. now rewrite Hs.
  - intros i r Hr Hs. rewrite nth_error_map, Hr. simpl.
    unfold sanitize. destruct (Receipt.status r); congruence.
  - apply in_map_iff in H. destruct H as [r [<- _]]. apply sanitize_status.
  - apply in_map_iff in H. destruct H as [r [<- _]]. apply sanitize_status.
Qed.

Lemma initialLoad_sanitizes_witness :
  nth_error
    (receipts
       (initialLoad_next [newReceipt "id-1" "http://x/1"]
          (fst (initialLoad true NoSnapshot initialStore)))) 0
  = Some (Receipt.with_isSynced (Some true)
            (Receipt.with_error (Some staleProcessingMessage)
               (Receipt.with_status errored
                  (newReceipt "id-1" "http://x/1")))).
Proof.
  apply (proj1 (proj2 (proj2 (proj2 (proj2 (proj2
           (initialLoad_sanitizes NoSnapshot
              [newReceipt "id-1" "http://x/1"] initialStore))))))).
  - reflexivity.
  - reflexivity.
Defined.

(** ** C5: the contract of [retrySync] *)

Lemma retrySync_guard (r : Receipt.t) :
  negb (Status_eqb (Receipt.status r) completed)
  || truthy_bool (Receipt.isSynced r) || truthy_bool (Receipt.syncing r)
  = negb (awaiting_sync r).
Proof.
  unfold awaiting_sync.
  destruct (Status_eqb _ _), (truthy_bool (Receipt.isSynced r)),
    (truthy_bool (Receipt.syncing r)); reflexivity.
Qed.

Lemma find_map_by_id (id : string) (f : Receipt.t -> Receipt.t)
  (l : list Receipt.t) :
  (forall r, Receipt.id (f r) = Receipt.id r) ->
  find (fun r => String.eqb (Receipt.id r) id) (map_by_id id f l) =
  option_map f (find (fun r => String.eqb (Receipt.id r) id) l).
Proof.
  intros Hid. induction l as [|a l IH]; simpl; [reflexivity|].
  destruct (String.eqb (Receipt.id a) id) eqn:Ha.
  - rewrite Hid, Ha. reflexivity.
  - rewrite Ha. exact IH.
Qed.

(** C5 as stated fails: with the remote not configured, [retrySync] on a
    completed, unsynced, idle record neither marks it nor issues a save. *)
Lemma retrySync_unconfigured_counterexample :
  ~ (forall (configured : bool) (receiptId : string) (st : Store)
            (r : Receipt.t),
        find (fun x => String.eqb (Receipt.id x) receiptId) (receipts st)
          = Some r ->
        awaiting_sync r = true ->
        snd (retrySync configured receiptId st) = [CallSave r]).
Proof.
  intros H.
  specialize (H false "id-1" (mkStore [unsyncedReceipt] false false)
                unsyncedReceipt eq_refl eq_refl).
  discriminate H.
Qed.

(** C5, amended. [retrySync] changes nothing and issues nothing unless the
    record found for the id is completed, not synced and not syncing, and
    the remote is configured; in that case it marks the records with that id
    [syncing = true] and issues exactly one save, of the record found.
    When that save settles with confirmed success the records with that id
    have [isSynced = true] and [syncing = false]; when it settles in any
    other way they have [syncing = false] and [isSynced] as before, so
    after a failed attempt the record is accepted by [retrySync] again. *)
Theorem retrySync_contract :
  (forall configured receiptId st,
     (forall r,
        find (fun x => String.eqb (Receipt.id x) receiptId) (receipts st)
          = Some r ->
        awaiting_sync r = true -> configured = false) ->
     retrySync configured receiptId st = (st, [])) /\
  (forall receiptId st r,
     find (fun x => String.eqb (Receipt.id x) receiptId) (receipts st)
       = Some r ->
     awaiting_sync r = true ->
     let st' := fst (retrySync true receiptId st) in
     snd (retrySync true receiptId st) = [CallSave r] /\
     isLoading st' = isLoading st /\ isProcessing st' = isProcessing st /\
     forall i x, nth_error (receipts st) i = Some x ->
       nth_error (receipts st') i =
       Some (if String.eqb (Receipt.id x) receiptId
             then Receipt.with_syncing (Some true) x else x)) /\
  (forall receiptId response st,
     ack_success response = true ->
     forall i x, nth_error (receipts st) i = Some x ->
       exists x',
         nth_error (receipts (retrySync_settled receiptId (Next response) st))
           i = Some x' /\
         (Receipt.id x = receiptId ->
            Receipt.isSynced x' = Some true /\
            Receipt.syncing x' = Some false /\
            Receipt.with_syncing (Receipt.syncing x)
              (Receipt.with_isSynced (Receipt.isSynced x) x') = x) /\
         (Receipt.id x <> receiptId -> x' = x)) /\
  (forall receiptId outcome st,
     (forall response, outcome = Next response ->
                       ack_success response = false) ->
     forall i x, nth_error (receipts st) i = Some x ->
       exists x',
         nth_error (receipts (retrySync_settled receiptId outcome st)) i
           = Some x' /\
         (Receipt.id x = receiptId ->
            Receipt.isSynced x' = Receipt.isSynced x /\
            Receipt.syncing x' = Some false /\
            Receipt.with_syncing (Receipt.syncing x) x' = x) /\
         (Receipt.id x <> receiptId -> x' = x)) /\
  (forall receiptId outcome st r,
     find (fun x => String.eqb (Receipt.id x) receiptId) (receipts st)
       = Some r ->
     awaiting_sync r = true ->
     (forall response, outcome = Next response ->
                       ack_success response = false) ->
     exists r',
       find (fun x => String.eqb (Receipt.id x) receiptId)
         (receipts (retrySync_settled receiptId outcome
                      (fst (retrySync true receiptId st)))) = Some r' /\
       Receipt.isSynced r' = Receipt.isSynced r /\
       Receipt.syncing r' = Some false /\
       awaiting_sync r' = true).
Proof.
  assert (Hfail : forall receiptId outcome st,
     (forall response, outcome = Next response ->
                       ack_success response = false) ->
     retrySync_settled receiptId outcome st =
     update_receipts
       (map_by_id receiptId (Receipt.with_syncing (Some false))) st).
  { intros receiptId outcome st H. destruct outcome as [response|m]; simpl.
    - now rewrite (H response eq_refl).
    - reflexivity. }
  split; [|split; [|split; [|split]]].
  - intros configured receiptId st H. unfold retrySync.
    destruct (find _ (receipts st)) as [r|] eqn:Hf; [|reflexivity].
    rewrite retrySync_guard.
    destruct (awaiting_sync r) eqn:Ha; [|reflexivity]. simpl.
    rewrite (H r eq_refl Ha). reflexivity.
  - intros receiptId st r Hf Ha st'. subst st'. unfold retrySync.
    rewrite Hf, retrySync_guard, Ha. simpl.
    repeat split. intros i x Hx.
    rewrite nth_error_map_by_id, Hx. reflexivity.
  - intros receiptId response st Hok i x Hx. simpl. rewrite Hok. simpl.
    rewrite nth_error_map_by_id, Hx. simpl.
    destruct (String.eqb (Receipt.id x) receiptId) eqn:He.
    + eexists. split; [reflexivity|]. split.
      * intros _. destruct x; repeat split.
      * apply String.eqb_eq in He. congruence.
    + exists x. split; [reflexivity|]. split; [|reflexivity].
      apply String.eqb_neq in He. congruence.
  - intros receiptId outcome st H i x Hx. rewrite (Hfail _ _ _ H). simpl.
    rewrite nth_error_map_by_id, Hx. simpl.
    destruct (String.eqb (Receipt.id x) receiptId) eqn:He.
    + eexists. split; [reflexivity|]. split.
      * intros _. destruct x; repeat split.
      * apply String.eqb_eq in He. congruence.
    + exists x. split; [reflexivity|]. split; [|reflexivity].
      apply String.eqb_neq in He. congruence.
  - intros receiptId outcome st r Hf Ha H. rewrite (Hfail _ _ _ H).
    unfold retrySync. rewrite Hf, retrySync_guard, Ha. simpl.
    rewrite !find_map_by_id by reflexivity. rewrite Hf. simpl.
    eexists. split; [reflexivity|]. repeat split.
    unfold awaiting_sync in *. simpl.
    apply andb_true_iff in Ha. destruct Ha as [Ha _]. rewrite Ha.
    reflexivity.
Qed.

Lemma retrySync_contract_witness :
  retrySync false "id-1" (mkStore [unsyncedReceipt] false false)
  = (mkStore [unsyncedReceipt] false false, []).
Proof.
  apply (proj1 retrySync_contract). intros r _ _. reflexivity.
Defined.

(** ** C6: the bridge never raises *)

Lemma isConfigured_url (s : SheetsService.t) :
  SheetsService.isConfigured s = true ->
  exists u, SheetsService.scriptUrl s = Some u /\ u <> "".
Proof.
  unfold SheetsService.isConfigured, truthy_string.
  destruct (SheetsService.scriptUrl s) as [u|]; [|discriminate].
  intros H. exists u. split; [reflexivity|].
  intros ->. discriminate.
Qed.

Ltac bridge_unfold :=
  unfold SheetsService.getReceipts, SheetsService.saveReceipt,
    SheetsService.deleteReceipt, SheetsService.migrateOldData,
    SheetsService.jsonpRequest, SheetsService.catchError.

(** C6. Each of the four bridge operations emits a value and never an
    error.  Not configured, it emits its fallback ([[]] for [getReceipts],
    [null] for the others), sends no request and leaves the service as it
    was.  Configured and with the call failing, it emits the same fallback
    after one request to the configured endpoint, and the only change to the
    service is the connection-error message. *)
Theorem bridge_total_fallback :
  (forall outcome s,
     (exists v, fst (fst (SheetsService.getReceipts outcome s)) = Next v) /\
     (SheetsService.isConfigured s = false ->
      SheetsService.getReceipts outcome s = (Next [], s, [])) /\
     (forall u, SheetsService.scriptUrl s = Some u -> u <> "" ->
      SheetsService.getReceipts SheetsService.HttpFailed s =
      (Next [],
       SheetsService.set_connectionError
         (Some SheetsService.userFriendlyError) s,
       [SheetsService.mkRequest u SheetsService.GetPayload]))) /\
  (forall receipt outcome s,
     (exists v,
        fst (fst (SheetsService.saveReceipt receipt outcome s)) = Next v) /\
     (SheetsService.isConfigured s = false ->
      SheetsService.saveReceipt receipt outcome s = (Next None, s, [])) /\
     (forall u, SheetsService.scriptUrl s = Some u -> u <> "" ->
      SheetsService.saveReceipt receipt SheetsService.HttpFailed s =
      (Next None,
       SheetsService.set_connectionError
         (Some SheetsService.userFriendlyError) s,
       [SheetsService.mkRequest u (SheetsService.SavePayload receipt)]))) /\
  (forall receiptId outcome s,
     (exists v,
        fst (fst (SheetsService.deleteReceipt receiptId outcome s))
        = Next v) /\
     (SheetsService.isConfigured s = false ->
      SheetsService.deleteReceipt receiptId outcome s = (Next None, s, [])) /\
     (forall u, SheetsService.scriptUrl s = Some u -> u <> "" ->
      SheetsService.deleteReceipt receiptId SheetsService.HttpFailed s =
      (Next None,
       SheetsService.set_connectionError
         (Some SheetsService.userFriendlyError) s,
       [SheetsService.mkRequest u (SheetsService.DeletePayload receiptId)]))) /\
  (forall outcome s,
     (exists v,
        fst (fst (SheetsService.migrateOldData outcome s)) = Next v) /\
     (SheetsService.isConfigured s = false ->
      SheetsService.migrateOldData outcome s = (Next None, s, [])) /\
     (forall u, SheetsService.scriptUrl s = Some u -> u <> "" ->
      SheetsService.migrateOldData SheetsService.HttpFailed s =
      (Next None,
       SheetsService.set_connectionError
         (Some SheetsService.userFriendlyError) s,
       [SheetsService.mkRequest u SheetsService.MigratePayload]))).
Proof.
  assert (Hcfg : forall s u, SheetsService.scriptUrl s = Some u -> u <> "" ->
                             SheetsService.isConfigured s = true).
  { intros s u Hs Hu. unfold SheetsService.isConfigured. rewrite Hs. simpl.
    apply String.eqb_neq in Hu. now rewrite Hu. }
  repeat split.
  all: try (bridge_unfold;
            destruct (SheetsService.isConfigured s); simpl;
            [destruct outcome; simpl|]; eexists; reflexivity).
  all: try (intros Hoff; bridge_unfold; rewrite Hoff; reflexivity).
  all: intros u Hs Hu; bridge_unfold; rewrite (Hcfg s u Hs Hu), Hs;
    reflexivity.
Qed.

Lemma bridge_total_fallback_witness :
  SheetsService.saveReceipt unsyncedReceipt SheetsService.HttpFailed
    (SheetsService.mk (Some "https://script.google.com/macros/s/abc/exec")
       None)
  = (Next None,
     SheetsService.mk (Some "https://script.google.com/macros/s/abc/exec")
       (Some SheetsService.userFriendlyError),
     [SheetsService.mkRequest "https://script.google.com/macros/s/abc/exec"
        (SheetsService.SavePayload unsyncedReceipt)]).
Proof.
  apply (proj2 (proj2 (proj1 (proj2 bridge_total_fallback)
                         unsyncedReceipt SheetsService.HttpFailed
                         (SheetsService.mk
                            (Some "https://script.google.com/macros/s/abc/exec")
                            None)))).
  - reflexivity.
  - discriminate.
Defined.

(** ** C10: editing a url bypasses the uniqueness check *)

Lemma nonempty_urls_app (l1 l2 : list Receipt.t) :
  nonempty_urls (l1 ++ l2) = nonempty_urls l1 ++ nonempty_urls l2.
Proof.
  induction l1 as [|a l1 IH]; simpl; [reflexivity|].
  destruct (Receipt.url a) as [u|]; [|exact IH].
  destruct (String.eqb u ""); [exact IH | simpl; now rewrite IH].
Qed.

Lemma shared_url_not_unique (l : list Receipt.t) (i j : nat)
  (a b : Receipt.t) (u : string) :
  i < j -> nth_error l i = Some a -> nth_error l j = Some b ->
  Receipt.url a = Some u -> Receipt.url b = Some u -> u <> "" ->
  ~ urls_unique l.
Proof.
  intros Hij Ha Hb Hua Hub Hu Huniq.
  destruct (nth_error_split l i Ha) as [l1 [l2 [-> Hlen]]].
  rewrite nth_error_app2 in Hb by lia.
  replace (j - List.length l1) with (S (j - i - 1)) in Hb by lia.
  simpl in Hb. apply nth_error_In in Hb.
  unfold urls_unique in Huniq. rewrite nonempty_urls_app in Huniq.
  simpl in Huniq. rewrite Hua in Huniq.
  apply String.eqb_neq in Hu. rewrite Hu in Huniq.
  apply NoDup_remove_2 in Huniq. apply Huniq.
  apply in_or_app. right. apply nonempty_urls_In.
  apply String.eqb_neq in Hu. split; [exact Hu|]. now exists b.
Qed.

(** A list with two records and distinct urls. *)
Lemma two_receipts_unique :
  urls_unique [newReceipt "id-1" "http://x/1"; newReceipt "id-2" "http://x/2"].
Proof.
  unfold urls_unique. simpl. constructor.
  - simpl. intros [H|[]]. discriminate.
  - constructor; [intros [] | constructor].
Qed.

(** C10. [updateReceiptUrl id newUrl] issues no remote call, leaves the
    flags alone and rewrites the list position by position: a record with
    that id gets [url = newUrl] and keeps every other field, any other
    record is unchanged.  It checks nothing: whenever the list holds a
    record with that id and, elsewhere, a record whose url is the non-empty
    [newUrl], the new list has two records sharing that url; so the
    uniqueness that [addReceipt] maintains does not survive
    [updateReceiptUrl]. *)
Theorem updateReceiptUrl_bypasses_uniqueness :
  (forall receiptId newUrl st,
     let st' := fst (updateReceiptUrl receiptId newUrl st) in
     snd (updateReceiptUrl receiptId newUrl st) = [] /\
     isLoading st' = isLoading st /\
     isProcessing st' = isProcessing st /\
     List.length (receipts st') = List.length (receipts st) /\
     forall i r, nth_error (receipts st) i = Some r ->
       exists r',
         nth_error (receipts st') i = Some r' /\
         (Receipt.id r = receiptId ->
            Receipt.url r' = Some newUrl /\
            Receipt.with_url (Receipt.url r) r' = r) /\
         (Receipt.id r <> receiptId -> r' = r)) /\
  (forall receiptId newUrl st i j ri rj,
     i <> j ->
     nth_error (receipts st) i = Some ri -> Receipt.id ri = receiptId ->
     nth_error (receipts st) j = Some rj -> Receipt.url rj = Some newUrl ->
     newUrl <> "" ->
     let st' := fst (updateReceiptUrl receiptId newUrl st) in
     (exists ri' rj',
        nth_error (receipts st') i = Some ri' /\
        nth_error (receipts st') j = Some rj' /\
        Receipt.url ri' = Some newUrl /\ Receipt.url rj' = Some newUrl) /\
     ~ urls_unique (receipts st')) /\
  (exists receiptId newUrl st,
     urls_unique (receipts st) /\
     ~ urls_unique (receipts (fst (updateReceiptUrl receiptId newUrl st)))).
Proof.
  assert (Hpair : forall receiptId newUrl st i j ri rj,
     i <> j ->
     nth_error (receipts st) i = Some ri -> Receipt.id ri = receiptId ->
     nth_error (receipts st) j = Some rj -> Receipt.url rj = Some newUrl ->
     exists ri' rj',
        nth_error (receipts (fst (updateReceiptUrl receiptId newUrl st))) i
          = Some ri' /\
        nth_error (receipts (fst (updateReceiptUrl receiptId newUrl st))) j
          = Some rj' /\
        Receipt.url ri' = Some newUrl /\ Receipt.url rj' = Some newUrl).
  { intros receiptId newUrl st i j ri rj Hij Hi Hid Hj Hurl. simpl.
    rewrite !nth_error_map_by_id, Hi, Hj. simpl.
    apply String.eqb_eq in Hid. rewrite Hid.
    eexists. eexists. split; [reflexivity|]. split; [reflexivity|].
    split; [reflexivity|].
    destruct (String.eqb (Receipt.id rj) receiptId); [reflexivity|exact Hurl]. }
  split; [|split].
  - intros receiptId newUrl st st'. subst st'. simpl.
    repeat split.
    + apply map_by_id_length.
    + intros i r Hr. rewrite nth_error_map_by_id, Hr. simpl.
      destruct (String.eqb (Receipt.id r) receiptId) eqn:He.
      * eexists. split; [reflexivity|]. split.
        -- intros _. destruct r; split; reflexivity.
        -- apply String.eqb_eq in He. congruence.
      * exists r. split; [reflexivity|]. split; [|reflexivity].
        apply String.eqb_neq in He. congruence.
  - intros receiptId newUrl st i j ri rj Hij Hi Hid Hj Hurl Hne st'.
    destruct (Hpair receiptId newUrl st i j ri rj Hij Hi Hid Hj Hurl)
      as [ri' [rj' [Hi' [Hj' [Hui Huj]]]]].
    split; [now exists ri', rj'|]. subst st'.
    destruct (Nat.lt_total i j) as [Hlt|[Heq|Hgt]]; [|congruence|].
    + exact (shared_url_not_unique _ i j ri' rj' newUrl Hlt Hi' Hj' Hui Huj Hne).
    + exact (shared_url_not_unique _ j i rj' ri' newUrl Hgt Hj' Hi' Huj Hui Hne).
  - exists "id-2", "http://x/1",
      (mkStore [newReceipt "id-1" "http://x/1"; newReceipt "id-2" "http://x/2"]
         false false).
    split; [exact two_receipts_unique|].
    apply (shared_url_not_unique _ 0 1
             (newReceipt "id-1" "http://x/1")
             (newReceipt "id-2" "http://x/1") "http://x/1");
      try reflexivity; [lia | discriminate].
Qed.

Lemma updateReceiptUrl_bypasses_uniqueness_witness :
  ~ urls_unique
      (receipts
         (fst (updateReceiptUrl "id-2" "http://x/1"
                 (mkStore [newReceipt "id-1" "http://x/1";
                           newReceipt "id-2" "http://x/2"] false false)))).
Proof.
  apply (proj2 (proj1 (proj2 updateReceiptUrl_bypasses_uniqueness)
                  "id-2" "http://x/1"
                  (mkStore [newReceipt "id-1" "http://x/1";
                            newReceipt "id-2" "http://x/2"] false false)
                  1 0 (newReceipt "id-2" "http://x/2")
                  (newReceipt "id-1" "http://x/1")
                  ltac:(discriminate) eq_refl eq_refl eq_refl eq_refl
                  ltac:(discriminate))).
Defined.

(** ** The backend: sheets *)

Module BackendFacts.
Import Backend.

Lemma firstn_repeat_le {A : Type} (x : A) (n m : nat) :
  n <= m -> firstn n (repeat x m) = repeat x n.
Proof.
  revert m. induction n as [|n IH]; intros m Hm; [reflexivity|].
  destruct m as [|m]; [lia|]. simpl. f_equal. apply IH. lia.
Qed.

Lemma firstn_padded_gen {A : Type} (x : A) (l : list A) (n m : nat) :
  List.length l <= n -> n <= List.length l + m ->
  firstn n (l ++ repeat x m) = l ++ repeat x (n - List.length l).
Proof.
  revert n. induction l as [|a l IH]; simpl; intros n Hn Hm.
  - rewrite Nat.sub_0_r. now apply firstn_repeat_le.
  - destruct n as [|n]; [lia|]. simpl. f_equal. apply IH; lia.
Qed.

Lemma firstn_padded {A : Type} (x : A) (l : list A) (n : nat) :
  List.length l <= n ->
  firstn n (l ++ repeat x n) = l ++ repeat x (n - List.length l).
Proof. intros H. apply firstn_padded_gen; lia. Qed.

Lemma cells_full (n : nat) (row : list Value) :
  List.length row = n -> cells n row = row.
Proof.
  intros H. unfold cells. rewrite firstn_padded by lia.
  rewrite H, Nat.sub_diag. apply app_nil_r.
Qed.

Lemma getLastColumn_header (sheet : Sheet) :
  List.length (header sheet) <= getLastColumn sheet.
Proof.
  unfold getLastColumn. induction (rows sheet) as [|r rs IH]; simpl; lia.
Qed.

Lemma getLastColumn_row (sheet : Sheet) (row : list Value) :
  In row (rows sheet) -> List.length row <= getLastColumn sheet.
Proof.
  unfold getLastColumn. induction (rows sheet) as [|r rs IH]; simpl.
  - intros [].
  - intros [<-|H]; [lia | specialize (IH H); lia].
Qed.

Lemma getLastColumn_bound (h : list string) (rs : list (list Value))
  (n : nat) :
  List.length h <= n ->
  (forall row, In row rs -> List.length row <= n) ->
  getLastColumn (mkSheet h rs) <= n.
Proof.
  unfold getLastColumn. simpl. intros Hh. induction rs as [|r rs IH]; simpl.
  - intros _. exact Hh.
  - intros H. assert (List.length r <= n) by (apply H; now left).
    assert (fold_right Nat.max (List.length h)
              (map (@List.length Value) rs) <= n)
      by (apply IH; intros row Hr; apply H; now right).
    lia.
Qed.

(** The header row as the handlers read it: the stored header, padded to
    the width of the sheet. *)
Lemma headerValues_width (sheet : Sheet) :
  headerValues (getLastColumn sheet) sheet =
  header sheet
  ++ repeat "" (getLastColumn sheet - List.length (header sheet)).
Proof.
  unfold headerValues. apply firstn_padded. apply getLastColumn_header.
Qed.

Lemma headerValues_length (sheet : Sheet) :
  List.length (headerValues (getLastColumn sheet) sheet)
  = getLastColumn sheet.
Proof.
  rewrite headerValues_width, length_app, repeat_length.
  pose proof (getLastColumn_header sheet). lia.
Qed.

Lemma getLastRow_header (sheet : Sheet) :
  header sheet <> [] ->
  getLastRow sheet = (1 + Z.of_nat (List.length (rows sheet)))%Z.
Proof.
  unfold getLastRow. destruct (header sheet); [congruence | reflexivity].
Qed.

Lemma getLastRow_blank (sheet : Sheet) :
  (getLastRow sheet <? 1)%Z = true -> header sheet = [] /\ rows sheet = [].
Proof.
  unfold getLastRow. destruct (header sheet), (rows sheet); simpl;
    try (intros _; split; reflexivity); intros H; apply Z.ltb_lt in H; lia.
Qed.

Lemma headersMatch_refl (hs rest : list string) :
  headersMatch hs (hs ++ rest) = true.
Proof.
  induction hs as [|h hs IH]; simpl; [reflexivity|].
  now rewrite String.eqb_refl, IH.
Qed.

Lemma headersMatch_prefix (hs current pad : list string) :
  Forall (fun h => h <> "") hs ->
  Forall (fun c => c = "") pad ->
  headersMatch hs (firstn (List.length hs) (current ++ pad)) = true ->
  exists extra, current = hs ++ extra.
Proof.
  intros Hne Hpad. revert current.
  induction Hne as [|h hs Hh Hne IH]; intros current; simpl.
  - intros _. now exists current.
  - destruct current as [|c current]; simpl.
    + destruct pad as [|p pad]; simpl; [discriminate|].
      inversion Hpad; subst. intros H. apply andb_true_iff in H.
      destruct H as [H _]. apply String.eqb_eq in H. congruence.
    + intros H. apply andb_true_iff in H. destruct H as [Hc H].
      apply String.eqb_eq in Hc. subst c.
      destruct (IH current H) as [extra ->]. now exists extra.
Qed.

(** [getSheet] leaves a sheet whose header starts with the expected
    headers, and keeps the data rows. *)
Lemma getSheet_header (sheet : Sheet) (hs : list string) :
  Forall (fun h => h <> "") hs ->
  (exists extra, header (getSheet sheet hs) = hs ++ extra) /\
  rows (getSheet sheet hs) = rows sheet.
Proof.
  intros Hne. unfold getSheet.
  destruct (getLastRow sheet <? 1)%Z eqn:Hblank.
  - apply getLastRow_blank in Hblank. destruct Hblank as [_ ->]. simpl.
    split; [exists []; now rewrite app_nil_r | reflexivity].
  - destruct (headersMatch _ _) eqn:Hm; simpl.
    + split; [|reflexivity]. unfold headerValues in Hm.
      apply (headersMatch_prefix hs (header sheet)
               (repeat "" (List.length hs)) Hne); [|exact Hm].
      clear. induction (List.length hs); simpl; constructor; auto.
    + split; [now eexists | reflexivity].
Qed.

(** On such a sheet [getSheet] changes nothing. *)
Lemma getSheet_fixed (sheet : Sheet) (hs extra : list string) :
  hs <> [] -> header sheet = hs ++ extra -> getSheet sheet hs = sheet.
Proof.
  intros Hhs Hh. unfold getSheet.
  rewrite getLastRow_header by (rewrite Hh; destruct hs; [congruence | discriminate]).
  replace (1 + Z.of_nat (List.length (rows sheet)) <? 1)%Z with false
    by (symmetry; apply Z.ltb_ge; lia).
  unfold headerValues. rewrite Hh, <- app_assoc, firstn_app.
  rewrite firstn_all, Nat.sub_diag. simpl. rewrite app_nil_r.
  replace hs with (hs ++ []) at 2 by apply app_nil_r.
  now rewrite headersMatch_refl.
Qed.

Lemma receiptHeaders_nonempty : Forall (fun h => h <> "") receiptHeaders.
Proof. repeat constructor; discriminate. Qed.

Lemma itemHeaders_nonempty : Forall (fun h => h <> "") itemHeaders.
Proof. repeat constructor; discriminate. Qed.

(** *** Lists *)

Lemma remove_nth_app {A : Type} (pre : list A) (x : A) (post : list A) :
  remove_nth (List.length pre) (pre ++ x :: post) = pre ++ post.
Proof. induction pre as [|a pre IH]; simpl; [reflexivity | now rewrite IH]. Qed.

Lemma replace_nth_app {A : Type} (f : A -> A) (pre : list A) (x : A)
  (post : list A) :
  replace_nth (List.length pre) f (pre ++ x :: post) = pre ++ f x :: post.
Proof. induction pre as [|a pre IH]; simpl; [reflexivity | now rewrite IH]. Qed.

Lemma indexed_from_In {A : Type} (l : list A) (start j : nat) (x : A) :
  In (j, x) (combine (seq start (List.length l)) l) ->
  start <= j /\ nth_error l (j - start) = Some x.
Proof.
  revert start. induction l as [|a l IH]; simpl; intros start; [intros []|].
  intros [H|H].
  - injection H as <- <-. rewrite Nat.sub_diag. split; [lia | reflexivity].
  - destruct (IH (S start) H) as [Hle Hn]. split; [lia|].
    replace (j - start) with (S (j - S start)) by lia. exact Hn.
Qed.

Lemma indexed_In {A : Type} (l : list A) (j : nat) (x : A) :
  In (j, x) (indexed l) -> nth_error l j = Some x.
Proof.
  intros H. apply indexed_from_In in H. now rewrite Nat.sub_0_r in H.
Qed.

Lemma indexed_map_snd {A : Type} (l : list A) : map snd (indexed l) = l.
Proof.
  unfold indexed. generalize 0.
  induction l as [|a l IH]; simpl; intros n; [reflexivity | now rewrite IH].
Qed.

Lemma indexed_length {A : Type} (l : list A) :
  List.length (indexed l) = List.length l.
Proof. rewrite <- (indexed_map_snd l) at 2. now rewrite length_map. Qed.

Lemma indexed_nth_error {A : Type} (l : list A) (i : nat) (x : A) :
  nth_error l i = Some x -> nth_error (indexed l) i = Some (i, x).
Proof.
  unfold indexed. replace (i, x) with (0 + i, x) by reflexivity.
  generalize 0. revert i.
  induction l as [|a l IH]; simpl; intros [|i] n; simpl; try discriminate.
  - intros [= <-]. now rewrite Nat.add_0_r.
  - intros H. rewrite (IH i (S n) H). f_equal. f_equal. lia.
Qed.

(** *** Exceptions *)

Lemma traverse_returned {A B : Type} (f : A -> Outcome B) (g : A -> B)
  (xs : list A) :
  (forall x, In x xs -> f x = Returned (g x)) ->
  traverse f xs = Returned (map g xs).
Proof.
  induction xs as [|x xs IH]; simpl; intros H; [reflexivity|].
  rewrite (H x (or_introl eq_refl)). simpl.
  rewrite IH by (intros y Hy; apply H; now right). reflexivity.
Qed.

(** *** Objects *)

Lemma lookup_assign_same (key : string) (v : Value)
  (properties : list (string * Value)) :
  lookup key (assign key v properties) = v.
Proof.
  induction properties as [|[k x] rest IH]; simpl.
  - now rewrite String.eqb_refl.
  - destruct (String.eqb k key) eqn:Hk; simpl; rewrite Hk; [reflexivity | exact IH].
Qed.

Lemma lookup_assign_other (key k : string) (v : Value)
  (properties : list (string * Value)) :
  k <> key -> lookup key (assign k v properties) = lookup key properties.
Proof.
  intros Hne. induction properties as [|[k' x] rest IH]; simpl.
  - apply String.eqb_neq in Hne. now rewrite Hne.
  - destruct (String.eqb k' k) eqn:Hk; simpl.
    + apply String.eqb_eq in Hk. subst k'.
      apply String.eqb_neq in Hne. now rewrite Hne.
    + destruct (String.eqb k' key); [reflexivity | exact IH].
Qed.

(** Assigning a run of properties where every assignment to [key] stores
    [v]: afterwards [key] reads as [v], provided it was assigned or read as
    [v] before. *)
Lemma lookup_assigned (key : string) (v : Value)
  (kvs : list (string * Value)) (properties : list (string * Value)) :
  (forall x, In (key, x) kvs -> x = v) ->
  In key (map fst kvs) \/ lookup key properties = v ->
  lookup key
    (fold_left (fun acc kv => assign (fst kv) (snd kv) acc) kvs properties)
  = v.
Proof.
  revert properties. induction kvs as [|[k x] kvs IH]; simpl;
    intros properties Hall Hin.
  - destruct Hin as [[]|H]; exact H.
  - apply IH; [intros y Hy; apply Hall; now right|].
    destruct (String.eqb k key) eqn:Hk.
    + apply String.eqb_eq in Hk. subst k. right.
      rewrite lookup_assign_same. apply Hall. now left.
    + apply String.eqb_neq in Hk. destruct Hin as [[H|H]|H].
      * congruence.
      * now left.
      * right. now rewrite lookup_assign_other.
Qed.

(** *** [findRowById] and [deleteItemsByReceiptId] *)

Lemma findRow_from_none (P : Platform) (id : Value) (col : list Value)
  (i : Z) :
  (forall v, In v col -> loose_eq P v id = false) ->
  findRow_from P id col i = (-1)%Z.
Proof.
  revert i. induction col as [|v col IH]; simpl; intros i H; [reflexivity|].
  rewrite (H v (or_introl eq_refl)). apply IH.
  intros x Hx. apply H. now right.
Qed.

Lemma findRow_from_first (P : Platform) (id : Value) (pre : list Value)
  (v : Value) (post : list Value) (i : Z) :
  (forall x, In x pre -> loose_eq P x id = false) ->
  loose_eq P v id = true ->
  findRow_from P id (pre ++ v :: post) i
  = (i + Z.of_nat (List.length pre) + 2)%Z.
Proof.
  revert i. induction pre as [|a pre IH]; simpl; intros i Hpre Hv.
  - rewrite Hv. lia.
  - rewrite (Hpre a (or_introl eq_refl)).
    rewrite IH by (auto; intros x Hx; apply Hpre; now right). lia.
Qed.

(** With a header in place, [findRowById] is its loop over the column. *)
Lemma findRowById_loop (P : Platform) (sheet : Sheet) (id : Value)
  (column : Z) :
  header sheet <> [] ->
  findRowById P sheet id column
  = findRow_from P id (columnValues column sheet) 0.
Proof.
  intros Hh. unfold findRowById. rewrite getLastRow_header by exact Hh.
  destruct (rows sheet) as [|r rs] eqn:Hr.
  - unfold columnValues. rewrite Hr. reflexivity.
  - replace (1 + Z.of_nat (List.length (r :: rs)) <? 2)%Z with false;
      [reflexivity|].
    symmetry. apply Z.ltb_ge. simpl List.length. lia.
Qed.

(** Either no row carries the id, or the rows split at the first one that
    does. *)
Lemma first_carrier (P : Platform) (id : Value) (rs : list (list Value)) :
  (forall row, In row rs -> carries P id row = false) \/
  (exists pre x post,
     rs = pre ++ x :: post /\ carries P id x = true /\
     forall row, In row pre -> carries P id row = false).
Proof.
  destruct (find (carries P id) rs) as [x|] eqn:Hf.
  - right. destruct (find_first _ _ _ Hf) as [Hx [pre [post [Hs Hpre]]]].
    now exists pre, x, post.
  - left. now apply find_none_iff.
Qed.

Lemma findRowById_none (P : Platform) (sheet : Sheet) (id : Value) :
  header sheet <> [] ->
  (forall row, In row (rows sheet) -> carries P id row = false) ->
  findRowById P sheet id 1 = (-1)%Z.
Proof.
  intros Hh Hnone. rewrite findRowById_loop by exact Hh.
  apply findRow_from_none. unfold columnValues. intros v Hv.
  apply in_map_iff in Hv. destruct Hv as [row [<- Hrow]].
  exact (Hnone row Hrow).
Qed.

Lemma findRowById_first (P : Platform) (sheet : Sheet) (id : Value)
  (pre : list (list Value)) (x : list Value) (post : list (list Value)) :
  header sheet <> [] ->
  rows sheet = pre ++ x :: post -> carries P id x = true ->
  (forall row, In row pre -> carries P id row = false) ->
  findRowById P sheet id 1 = (Z.of_nat (List.length pre) + 2)%Z.
Proof.
  intros Hh Hs Hx Hpre. rewrite findRowById_loop by exact Hh.
  unfold columnValues. rewrite Hs, map_app. simpl map.
  rewrite findRow_from_first.
  - rewrite length_map. lia.
  - intros v Hv. apply in_map_iff in Hv. destruct Hv as [row [<- Hrow]].
    exact (Hpre row Hrow).
  - exact Hx.
Qed.

(** The loop of [deleteItemsByReceiptId] filters the rows. *)
Lemma deleteItems_loop_filter (P : Platform) (id : Value) (h : list string)
  (f : list Value -> Value) (pre post : list (list Value)) :
  deleteItems_loop P id (map f (pre ++ post)) (List.length pre)
    (mkSheet h
       (pre ++ filter (fun row => negb (loose_eq P (f row) id)) post))
  = mkSheet h (filter (fun row => negb (loose_eq P (f row) id)) (pre ++ post)).
Proof.
  revert post. induction pre as [|x pre IH] using rev_ind; intros post.
  - reflexivity.
  - rewrite length_app. simpl List.length.
    rewrite Nat.add_1_r. simpl deleteItems_loop.
    rewrite <- !app_assoc. cbn [app].
    replace (nth (List.length pre) (map f (pre ++ x :: post)) (Str ""))
      with (f x).
    2:{ rewrite map_app. simpl map.
        rewrite app_nth2 by (rewrite length_map; lia).
        rewrite length_map, Nat.sub_diag. reflexivity. }
    specialize (IH (x :: post)). simpl filter in IH.
    destruct (loose_eq P (f x) id) eqn:Hx; simpl negb in IH; cbv iota in IH.
    + unfold deleteRow. simpl header. simpl rows.
      replace (Z.to_nat (Z.of_nat (List.length pre) + 2 - 2))
        with (List.length pre) by lia.
      rewrite remove_nth_app. exact IH.
    + exact IH.
Qed.

Lemma deleteItemsByReceiptId_filter (P : Platform) (sheet : Sheet)
  (id : Value) (extra : list string) :
  header sheet = itemHeaders ++ extra ->
  deleteItemsByReceiptId P sheet id
  = mkSheet (header sheet)
      (filter (fun row => negb (refersTo P id row)) (rows sheet)).
Proof.
  intros Hh. unfold deleteItemsByReceiptId.
  rewrite getLastRow_header by (rewrite Hh; discriminate).
  destruct (rows sheet) as [|r rs] eqn:Hr.
  - simpl. destruct sheet; simpl in *. now subst.
  - replace (1 + Z.of_nat (List.length (r :: rs)) <? 2)%Z with false
      by (symmetry; apply Z.ltb_ge; simpl List.length; lia).
    rewrite headerValues_width, Hh. simpl indexOf. cbv iota.
    unfold columnValues. rewrite length_map. simpl Z.to_nat.
    rewrite Hr. change (Pos.to_nat 1) with 1.
    pose proof (deleteItems_loop_filter P id (itemHeaders ++ extra)
                  (fun row => nth 1 row (Str "")) (r :: rs) []) as H.
    simpl filter in H. rewrite !app_nil_r in H.
    destruct sheet as [h rws]. simpl in *. subst h rws. exact H.
Qed.

(** *** [handleSaveOrUpdate] *)

Lemma receiptRow_length (P : Platform) (sheet : Sheet) (data : Value) :
  List.length (receiptRow P sheet data) = getLastColumn sheet.
Proof.
  unfold receiptRow. rewrite !length_map. apply headerValues_length.
Qed.

Lemma indexOf_id (sheet : Sheet) (extra : list string) :
  header sheet = receiptHeaders ++ extra ->
  indexOf "id" (headerValues (getLastColumn sheet) sheet) = 0%Z.
Proof. intros Hh. rewrite headerValues_width, Hh. reflexivity. Qed.

(** What a save leaves in [Recibos]. *)
Lemma save_Recibos (P : Platform) (ss : Spreadsheet) (data : Value)
  (extra : list string) :
  header (Recibos ss) = receiptHeaders ++ extra ->
  Recibos (snd (handleSaveOrUpdate P ss data)) =
  let row :=
    map (receiptCell P data)
      (headerValues (getLastColumn (Recibos ss)) (Recibos ss)) in
  if (findRowById P (Recibos ss) (get data "id") 1 >? 0)%Z
  then setRow (findRowById P (Recibos ss) (get data "id") 1) row (Recibos ss)
  else appendRow row (Recibos ss).
Proof.
  intros Hh. unfold handleSaveOrUpdate. rewrite (indexOf_id _ _ Hh).
  simpl Z.eqb. cbv iota. simpl Z.add.
  destruct (get data "items"); try reflexivity.
  destruct (processAndSaveItems _ _ _ _) as [[?|?] ?]; reflexivity.
Qed.

(** What a save leaves in [Itens]. *)
Lemma save_Itens (P : Platform) (ss : Spreadsheet) (data : Value)
  (extra : list string) :
  header (Recibos ss) = receiptHeaders ++ extra ->
  Itens (snd (handleSaveOrUpdate P ss data)) =
  match get data "items" with
  | Arr items =>
      snd (processAndSaveItems P (Itens ss) (get data "id") items)
  | _ => Itens ss
  end.
Proof.
  intros Hh. unfold handleSaveOrUpdate. rewrite (indexOf_id _ _ Hh).
  simpl Z.eqb. cbv iota.
  destruct (get data "items"); try reflexivity.
  destruct (processAndSaveItems _ _ _ _) as [[?|?] ?]; reflexivity.
Qed.

(** The reply of a save. *)
Lemma save_reply (P : Platform) (ss : Spreadsheet) (data : Value)
  (extra : list string) :
  header (Recibos ss) = receiptHeaders ++ extra ->
  (forall items, get data "items" = Arr items ->
     fst (processAndSaveItems P (Itens ss) (get data "id") items)
     = Returned tt) ->
  fst (handleSaveOrUpdate P ss data) = Returned (saved (get data "id")).
Proof.
  intros Hh Hitems. unfold handleSaveOrUpdate. rewrite (indexOf_id _ _ Hh).
  simpl Z.eqb. cbv iota.
  destruct (get data "items") as [| | | | |items|] eqn:Hget; try reflexivity.
  specialize (Hitems items eq_refl).
  destruct (processAndSaveItems _ _ _ _) as [[u|e] sh]; simpl in *;
    [reflexivity | discriminate].
Qed.

Lemma save_unknown_id (P : Platform) (ss : Spreadsheet) (data : Value)
  (extra : list string) :
  header (Recibos ss) = receiptHeaders ++ extra ->
  (forall row, In row (rows (Recibos ss)) ->
               carries P (get data "id") row = false) ->
  Recibos (snd (handleSaveOrUpdate P ss data)) =
  mkSheet (header (Recibos ss))
    (rows (Recibos ss) ++ [receiptRow P (Recibos ss) data]).
Proof.
  intros Hh Hnone. rewrite (save_Recibos P ss data extra Hh). cbv zeta.
  rewrite findRowById_none by (auto; rewrite Hh; discriminate).
  reflexivity.
Qed.

Lemma save_existing_id (P : Platform) (ss : Spreadsheet) (data : Value)
  (extra : list string) (pre : list (list Value)) (x : list Value)
  (post : list (list Value)) :
  header (Recibos ss) = receiptHeaders ++ extra ->
  rows (Recibos ss) = pre ++ x :: post ->
  carries P (get data "id") x = true ->
  (forall row, In row pre -> carries P (get data "id") row = false) ->
  Recibos (snd (handleSaveOrUpdate P ss data)) =
  mkSheet (header (Recibos ss))
    (pre ++ receiptRow P (Recibos ss) data :: post).
Proof.
  intros Hh Hs Hx Hpre. rewrite (save_Recibos P ss data extra Hh). cbv zeta.
  rewrite (findRowById_first P (Recibos ss) (get data "id") pre x post)
    by (auto; rewrite Hh; discriminate).
  replace (Z.of_nat (List.length pre) + 2 >? 0)%Z with true
    by (symmetry; apply Z.gtb_lt; lia).
  unfold setRow.
  replace (Z.to_nat (Z.of_nat (List.length pre) + 2 - 2))
    with (List.length pre) by lia.
  rewrite Hs, replace_nth_app. f_equal. f_equal. f_equal.
  rewrite skipn_all2; [apply app_nil_r|].
  rewrite length_map, headerValues_length.
  apply getLastColumn_row. rewrite Hs. apply in_or_app. right. now left.
Qed.

(** A save keeps the header of [Recibos] and its width, and the row it
    wrote is among the rows. *)
Lemma save_Recibos_shape (P : Platform) (ss : Spreadsheet) (data : Value)
  (extra : list string) :
  header (Recibos ss) = receiptHeaders ++ extra ->
  let sheet' := Recibos (snd (handleSaveOrUpdate P ss data)) in
  header sheet' = header (Recibos ss) /\
  getLastColumn sheet' = getLastColumn (Recibos ss) /\
  In (receiptRow P (Recibos ss) data) (rows sheet').
Proof.
  intros Hh sheet'.
  assert (Hshape : forall rs,
            (forall row, In row rs ->
               row = receiptRow P (Recibos ss) data \/
               In row (rows (Recibos ss))) ->
            In (receiptRow P (Recibos ss) data) rs ->
            getLastColumn (mkSheet (header (Recibos ss)) rs)
            = getLastColumn (Recibos ss)).
  { intros rs Hrs Hin. apply Nat.le_antisymm.
    - apply getLastColumn_bound; [apply getLastColumn_header|].
      intros row Hrow. destruct (Hrs row Hrow) as [->|Hold].
      + rewrite receiptRow_length. lia.
      + now apply getLastColumn_row.
    - rewrite <- (receiptRow_length P (Recibos ss) data).
      apply (getLastColumn_row (mkSheet (header (Recibos ss)) rs)).
      exact Hin. }
  subst sheet'.
  destruct (first_carrier P (get data "id") (rows (Recibos ss)))
    as [Hnone | [pre [x [post [Hs [Hx Hpre]]]]]].
  - rewrite (save_unknown_id P ss data extra Hh Hnone). simpl.
    split; [reflexivity|]. split.
    + apply Hshape.
      * intros row Hrow. apply in_app_or in Hrow.
        destruct Hrow as [H|[<-|[]]]; [now right | now left].
      * apply in_or_app. right. now left.
    + apply in_or_app. right. now left.
  - rewrite (save_existing_id P ss data extra pre x post Hh Hs Hx Hpre).
    simpl. split; [reflexivity|]. split.
    + apply Hshape.
      * intros row Hrow. apply in_app_or in Hrow.
        destruct Hrow as [H|[<-|H]]; [right | now left | right];
          rewrite Hs; apply in_or_app; [now left | right; now right].
      * apply in_or_app. right. now left.
    + apply in_or_app. right. now left.
Qed.

(** *** [handleGet] *)

(** In the object listed for a row that a save wrote, every property named
    by a header is what [handleGet] makes of the cell the save computed for
    that name. *)
Lemma listedReceipt_get (P : Platform) (H : list string) (data : Value)
  (key : string) :
  In key H ->
  get (listedReceipt P H (map written (map (receiptCell P data) H))) key
  = listedValue P key (written (receiptCell P data key)).
Proof.
  intros Hin. unfold listedReceipt, get.
  set (row := map written (map (receiptCell P data) H)).
  set (g := fun ih : nat * string =>
              (snd ih, listedValue P (snd ih) (nth (fst ih) row Undefined))).
  assert (Hfold : forall l acc,
            fold_left
              (fun receipt (ih : nat * string) =>
                 assign (snd ih)
                   (listedValue P (snd ih) (nth (fst ih) row Undefined))
                   receipt) l acc
            = fold_left (fun acc kv => assign (fst kv) (snd kv) acc)
                (map g l) acc).
  { induction l as [|a l IH]; intros acc; simpl; [reflexivity | apply IH]. }
  rewrite Hfold. apply lookup_assigned.
  - intros x Hx. apply in_map_iff in Hx. destruct Hx as [[j h] [Heq Hjh]].
    unfold g in Heq. simpl in Heq. injection Heq as -> <-.
    apply indexed_In in Hjh. f_equal.
    subst row. rewrite map_map.
    apply nth_error_nth.
    rewrite nth_error_map, Hjh. reflexivity.
  - left. rewrite map_map. unfold g. simpl.
    change (fun x : nat * string => snd x) with (@snd nat string).
    now rewrite indexed_map_snd.
Qed.

Lemma handleGet_lists (P : Platform) (ss : Spreadsheet) (extra : list string)
  (row : list Value) :
  header (Recibos ss) = receiptHeaders ++ extra ->
  In row (rows (Recibos ss)) ->
  exists listing,
    fst (handleGet P ss) = Arr listing /\
    In (listedReceipt P
          (headerValues (getLastColumn (Recibos ss)) (Recibos ss))
          (cells (getLastColumn (Recibos ss)) row)) listing.
Proof.
  intros Hh Hrow. unfold handleGet.
  rewrite (getSheet_fixed (Recibos ss) receiptHeaders extra)
    by (auto; discriminate).
  rewrite getLastRow_header by (rewrite Hh; discriminate).
  replace (1 + Z.of_nat (List.length (rows (Recibos ss))) <? 2)%Z with false.
  - eexists. split; [reflexivity|]. simpl. unfold dataValues.
    apply in_map. now apply in_map.
  - symmetry. apply Z.ltb_ge. destruct (rows (Recibos ss)); [destruct Hrow|].
    simpl List.length. lia.
Qed.

(** *** [processAndSaveItems] *)

Lemma itemCell_returned (P : Platform) (id : Value) (i : nat) (item : Value)
  (jh : nat * string) :
  item <> Null -> item <> Undefined ->
  itemCell P id i item jh = Returned (itemCellOf P id i item jh).
Proof.
  intros Hn Hu. destruct jh as [j h]. unfold itemCell, itemCellOf.
  destruct (String.eqb h "item_id"); [reflexivity|].
  destruct (String.eqb h "receipt_id"); [reflexivity|].
  destruct (String.eqb h "timestamp"); [reflexivity|].
  destruct item; try congruence; reflexivity.
Qed.

(** With items that are neither [null] nor [undefined],
    [processAndSaveItems] returns, and leaves the rows that do not refer to
    the receipt followed by one new row per item, in the order of the
    items. *)
Lemma processAndSaveItems_rows (P : Platform) (sheet : Sheet) (id : Value)
  (items : list Value) (extra : list string) :
  header sheet = itemHeaders ++ extra ->
  (forall item, In item items -> item <> Null /\ item <> Undefined) ->
  let kept :=
    mkSheet (header sheet)
      (filter (fun row => negb (refersTo P id row)) (rows sheet)) in
  processAndSaveItems P sheet id items =
  (Returned tt,
   mkSheet (header sheet)
     (rows kept ++ map (itemRow P kept id) (indexed items))).
Proof.
  intros Hh Hitems kept. unfold processAndSaveItems.
  rewrite (deleteItemsByReceiptId_filter P sheet id extra Hh). fold kept.
  destruct items as [|item items]; simpl Nat.eqb; cbv iota.
  - simpl. now rewrite app_nil_r.
  - rewrite (traverse_returned _
               (fun it : nat * Value =>
                  map (itemCellOf P id (fst it) (snd it))
                    (indexed (headerValues (getLastColumn kept) kept)))).
    + unfold appendRows. simpl header. f_equal. f_equal. f_equal.
      rewrite map_map. reflexivity.
    + intros [i it] Hit. simpl. apply traverse_returned.
      intros jh _. apply indexed_In in Hit. apply nth_error_In in Hit.
      destruct (Hitems it Hit). now apply itemCell_returned.
Qed.

Lemma firstn_indexed_app {A : Type} (l1 l2 : list A) (start : nat) :
  firstn (List.length l1)
    (combine (seq start (List.length (l1 ++ l2))) (l1 ++ l2))
  = combine (seq start (List.length l1)) l1.
Proof.
  revert start. induction l1 as [|a l1 IH]; intros start; [reflexivity|].
  simpl. f_equal. apply IH.
Qed.

(** The first nine cells of the row added for a typed item. *)
Lemma itemRow_typed (P : Platform) (sheet : Sheet) (id : Value) (i : nat)
  (it : Item.t) (extra : list string) :
  header sheet = itemHeaders ++ extra ->
  id <> Null -> id <> Undefined ->
  firstn 9 (itemRow P sheet id (i, item_value it)) =
  [Str (getUuid P i 0); id; Str (Item.name it); Number (Item.quantity it);
   Str (Item.unit it); Number (Item.unitPrice it);
   Number (Item.totalPrice it); Str (Item.category it); Str (now P)].
Proof.
  intros Hh Hn Hu. unfold itemRow.
  rewrite headerValues_width, Hh, <- app_assoc.
  rewrite !firstn_map. unfold indexed.
  change 9 with (List.length itemHeaders).
  rewrite firstn_indexed_app. simpl.
  destruct id; try congruence; reflexivity.
Qed.

Lemma payload_id (r : Receipt.t) :
  get (payload_of r) "id" = Str (Receipt.id r).
Proof. reflexivity. Qed.

Lemma payload_items (r : Receipt.t) :
  get (payload_of r) "items"
  = match Receipt.items r with
    | Some l => Arr (map item_value l)
    | None => Undefined
    end.
Proof.
  destruct r as [id url status storeName storeCnpj storeAddress date
                   totalAmount items error payer isSynced syncing].
  unfold payload_of, get. simpl.
  destruct url, storeName, storeCnpj, storeAddress, date, totalAmount;
    simpl; destruct items; simpl; try reflexivity;
    destruct error, payer, isSynced, syncing; reflexivity.
Qed.

Lemma openSheets_headers (ss : Spreadsheet) :
  (exists extra, header (Recibos (openSheets ss)) = receiptHeaders ++ extra) /\
  (exists extra, header (Itens (openSheets ss)) = itemHeaders ++ extra).
Proof.
  split; simpl.
  - apply (getSheet_header (Recibos ss) receiptHeaders receiptHeaders_nonempty).
  - apply (getSheet_header (Itens ss) itemHeaders itemHeaders_nonempty).
Qed.

Lemma typed_items_objects (items : list Item.t) (item : Value) :
  In item (map item_value items) -> item <> Null /\ item <> Undefined.
Proof.
  intros H. apply in_map_iff in H. destruct H as [it [<- _]].
  split; discriminate.
Qed.

(** ** C7: save, then list; upsert; replacement of item rows *)

(** C7. On the sheets as [doGet] opens them, for every platform: saving a
    receipt that carries items (two, or any other number) returns the
    success reply, and a listing made afterwards holds a receipt with the
    same id whose [items] is the array that was saved, element by element
    and in the same order,
    whenever the platform's [JSON.parse] reads back what its
    [JSON.stringify] printed for that array and the print starts with a
    bracket.  For an id that is a primitive value (the ids of the client
    are strings), a save whose id no row carries appends its row to
    [Recibos]; a save whose id some row carries overwrites the first such
    row and leaves the rows before and after it as they were; the row
    written for a receipt carries its id.  The rows of [Itens] after a save that carries
    items are the earlier rows that do not refer to the receipt, in their
    order, followed by one row per saved item, in the order of the items. *)
Theorem save_list_roundtrip_upsert :
  (forall P ss r items,
     Receipt.items r = Some items ->
     JSON_parse P (JSON_stringify P (Arr (map item_value items)))
       = Some (Arr (map item_value items)) ->
     String.prefix "[" (JSON_stringify P (Arr (map item_value items)))
       = true ->
     let save := handleSaveOrUpdate P (openSheets ss) (payload_of r) in
     fst save = Returned (saved (Str (Receipt.id r))) /\
     exists listing receipt,
       fst (handleGet P (snd save)) = Arr listing /\
       In receipt listing /\
       get receipt "id" = Str (Receipt.id r) /\
       get receipt "items" = Arr (map item_value items)) /\
  (forall P ss data,
     let before := Recibos (openSheets ss) in
     let after := Recibos (snd (handleSaveOrUpdate P (openSheets ss) data)) in
     is_object (get data "id") = false ->
     (forall row, In row (rows before) ->
                  carries P (get data "id") row = false) ->
     header after = header before /\
     rows after = rows before ++ [receiptRow P before data]) /\
  (forall P ss data pre x post,
     let before := Recibos (openSheets ss) in
     let after := Recibos (snd (handleSaveOrUpdate P (openSheets ss) data)) in
     is_object (get data "id") = false ->
     rows before = pre ++ x :: post ->
     carries P (get data "id") x = true ->
     (forall row, In row pre -> carries P (get data "id") row = false) ->
     header after = header before /\
     rows after = pre ++ receiptRow P before data :: post) /\
  (forall P ss r,
     carries P (Str (Receipt.id r))
       (receiptRow P (Recibos (openSheets ss)) (payload_of r)) = true) /\
  (forall P ss r items,
     Receipt.items r = Some items ->
     let before := Itens (openSheets ss) in
     let after :=
       Itens (snd (handleSaveOrUpdate P (openSheets ss) (payload_of r))) in
     exists newRows,
       rows after =
       filter (fun row => negb (refersTo P (Str (Receipt.id r)) row))
         (rows before) ++ newRows /\
       List.length newRows = List.length items /\
       forall i it, nth_error items i = Some it ->
         exists row,
           nth_error newRows i = Some row /\
           firstn 9 row =
           [Str (getUuid P i 0); Str (Receipt.id r); Str (Item.name it);
            Number (Item.quantity it); Str (Item.unit it);
            Number (Item.unitPrice it); Number (Item.totalPrice it);
            Str (Item.category it); Str (now P)]).
Proof.
  split; [|split; [|split; [|split]]].
  - intros P ss r items Hitems Hparse Hprefix save. subst save.
    destruct (openSheets_headers ss) as [[extraR HR] [extraI HI]].
    set (ss0 := openSheets ss) in *.
    set (data := payload_of r).
    assert (Hget : get data "items" = Arr (map item_value items)).
    { subst data. now rewrite payload_items, Hitems. }
    split.
    + rewrite (save_reply P ss0 data extraR HR); [reflexivity|].
      intros its Hits. rewrite Hget in Hits. injection Hits as <-.
      rewrite (processAndSaveItems_rows P (Itens ss0) _ _ extraI HI
                 (typed_items_objects items)). reflexivity.
    + destruct (save_Recibos_shape P ss0 data extraR HR)
        as [Hh [Hw Hin]].
      set (ss1 := snd (handleSaveOrUpdate P ss0 data)) in *.
      destruct (handleGet_lists P ss1 extraR
                  (receiptRow P (Recibos ss0) data))
        as [listing [Hlist Hrec]]; [now rewrite Hh | exact Hin |].
      rewrite Hw in Hrec.
      rewrite cells_full in Hrec by apply receiptRow_length.
      assert (HH : headerValues (getLastColumn (Recibos ss0)) (Recibos ss1)
                   = headerValues (getLastColumn (Recibos ss0)) (Recibos ss0)).
      { unfold headerValues. now rewrite Hh. }
      rewrite HH in Hrec.
      set (H := headerValues (getLastColumn (Recibos ss0)) (Recibos ss0))
        in *.
      assert (Hheaders : forall key, In key receiptHeaders -> In key H).
      { intros key Hkey. subst H. rewrite headerValues_width, HR.
        apply in_or_app. left. apply in_or_app. now left. }
      eexists. eexists. split; [exact Hlist|]. split; [exact Hrec|].
      unfold receiptRow. fold H. split.
      * rewrite listedReceipt_get by (apply Hheaders; simpl; tauto).
        reflexivity.
      * rewrite listedReceipt_get by (apply Hheaders; simpl; tauto).
        unfold receiptCell. simpl String.eqb. cbv iota.
        rewrite Hget. simpl. unfold listedValue. simpl String.eqb.
        simpl andb. cbv iota. rewrite Hprefix, Hparse. reflexivity.
  - intros P ss data before after _ Hnone. subst before after.
    destruct (openSheets_headers ss) as [[extraR HR] _].
    rewrite (save_unknown_id P (openSheets ss) data extraR HR Hnone).
    split; reflexivity.
  - intros P ss data pre x post before after _ Hs Hx Hpre.
    subst before after.
    destruct (openSheets_headers ss) as [[extraR HR] _].
    rewrite (save_existing_id P (openSheets ss) data extraR pre x post
               HR Hs Hx Hpre).
    split; reflexivity.
  - intros P ss r.
    destruct (openSheets_headers ss) as [[extraR HR] _].
    unfold carries, receiptRow.
    rewrite headerValues_width, HR. simpl. apply String.eqb_refl.
  - intros P ss r items Hitems before after. subst before after.
    destruct (openSheets_headers ss) as [[extraR HR] [extraI HI]].
    set (ss0 := openSheets ss) in *.
    rewrite (save_Itens P ss0 (payload_of r) extraR HR).
    rewrite payload_items, Hitems, payload_id.
    rewrite (processAndSaveItems_rows P (Itens ss0) _ _ extraI HI
               (typed_items_objects items)).
    cbv zeta. simpl snd. simpl rows.
    eexists. split; [reflexivity|]. split.
    + now rewrite length_map, indexed_length, length_map.
    + intros i it Hit. eexists. split.
      * rewrite nth_error_map.
        rewrite (indexed_nth_error (map item_value items) i (item_value it))
          by (rewrite nth_error_map, Hit; reflexivity).
        reflexivity.
      * apply (itemRow_typed P _ (Str (Receipt.id r)) i it extraI);
          [exact HI | discriminate | discriminate].
Qed.

Lemma save_list_roundtrip_upsert_witness :
  let save :=
    handleSaveOrUpdate Reference.platform
      (openSheets Reference.emptySpreadsheet)
      (payload_of Reference.testReceipt) in
  fst save = Returned (saved (Str "test-1")) /\
  exists listing receipt,
    fst (handleGet Reference.platform (snd save)) = Arr listing /\
    In receipt listing /\
    get receipt "id" = Str "test-1" /\
    get receipt "items" = Arr (map item_value Reference.twoItems).
Proof.
  apply (proj1 save_list_roundtrip_upsert Reference.platform
           Reference.emptySpreadsheet Reference.testReceipt
           Reference.twoItems); reflexivity.
Defined.

End BackendFacts.

(** ** C8: deleting what is not there *)

Lemma find_id_filtered (receiptId : string) (l : list Receipt.t) :
  find (fun r => String.eqb (Receipt.id r) receiptId)
    (filter (fun r => negb (String.eqb (Receipt.id r) receiptId)) l) = None.
Proof.
  apply find_none_iff. intros x Hx. apply filter_In in Hx.
  destruct Hx as [_ Hx]. now apply negb_true_iff in Hx.
Qed.

Lemma deleteReceipt_absent (configured : bool) (receiptId : string)
  (st : Store) :
  find (fun r => String.eqb (Receipt.id r) receiptId) (receipts st) = None ->
  deleteReceipt configured receiptId st = (st, []).
Proof. intros H. unfold deleteReceipt. now rewrite H. Qed.

(** C8. In the service, [deleteReceipt] with an id that no record of the
    list has changes nothing and issues no remote call, and a second
    [deleteReceipt] with the same id is such a call.  In the backend, on
    the sheets as [doGet] opens them, [handleDelete] always returns its
    success reply, and a second [handleDelete] with the same id returns it
    again.  For an id that is a primitive value (the ids of the client are
    strings): when no row of [Recibos] carries the id it leaves [Recibos] as
    it was; in every case the rows of [Itens] that remain are the earlier
    rows that do not refer to the id, so none refers to it; and the second
    [handleDelete] leaves [Itens] as the first one left it. *)
Theorem delete_idempotent :
  (forall configured receiptId st,
     (forall r, In r (receipts st) -> Receipt.id r <> receiptId) ->
     deleteReceipt configured receiptId st = (st, [])) /\
  (forall c1 c2 receiptId st,
     let st1 := fst (deleteReceipt c1 receiptId st) in
     (forall r, In r (receipts st1) -> Receipt.id r <> receiptId) /\
     deleteReceipt c2 receiptId st1 = (st1, [])) /\
  (forall P ss id,
     let before := Backend.openSheets ss in
     let after := snd (Backend.handleDelete P before id) in
     fst (Backend.handleDelete P before id)
       = Backend.Returned (Backend.deleted id) /\
     fst (Backend.handleDelete P (Backend.openSheets after) id)
       = Backend.Returned (Backend.deleted id) /\
     Backend.header (Backend.Itens after)
       = Backend.header (Backend.Itens before) /\
     (Backend.is_object id = false ->
      ((forall row, In row (Backend.rows (Backend.Recibos before)) ->
                    Backend.carries P id row = false) ->
       Backend.Recibos after = Backend.Recibos before) /\
      Backend.rows (Backend.Itens after)
        = filter (fun row => negb (Backend.refersTo P id row))
            (Backend.rows (Backend.Itens before)) /\
      (forall row, In row (Backend.rows (Backend.Itens after)) ->
                   Backend.refersTo P id row = false) /\
      Backend.Itens
        (snd (Backend.handleDelete P (Backend.openSheets after) id))
        = Backend.Itens after)).
Proof.
  split; [|split].
  - intros configured receiptId st Habsent. apply deleteReceipt_absent.
    apply find_none_iff. intros r Hr. apply String.eqb_neq.
    exact (Habsent r Hr).
  - intros c1 c2 receiptId st st1.
    assert (Hnone : find (fun r => String.eqb (Receipt.id r) receiptId)
                      (receipts st1) = None).
    { subst st1. unfold deleteReceipt.
      destruct (find _ (receipts st)) eqn:Hf; simpl;
        [apply find_id_filtered | exact Hf]. }
    split.
    + intros r Hr. apply String.eqb_neq.
      exact (proj1 (find_none_iff _ _) Hnone r Hr).
    + now apply deleteReceipt_absent.
  - intros P ss id before after.
    destruct (BackendFacts.openSheets_headers ss)
      as [[extraR HR] [extraI HI]].
    assert (Hitens : Backend.Itens after =
                     Backend.mkSheet (Backend.header (Backend.Itens before))
                       (filter (fun row => negb (Backend.refersTo P id row))
                          (Backend.rows (Backend.Itens before)))).
    { subst after before. unfold Backend.handleDelete.
      apply (BackendFacts.deleteItemsByReceiptId_filter P _ id extraI HI). }
    assert (HI' : Backend.header (Backend.Itens after)
                  = Backend.itemHeaders ++ extraI).
    { rewrite Hitens. exact HI. }
    split; [reflexivity|]. split; [reflexivity|].
    split; [now rewrite Hitens|]. intros _.
    split; [|split; [|split]].
    + intros Hnone. subst after before. unfold Backend.handleDelete.
      rewrite BackendFacts.findRowById_none;
        [reflexivity | | exact Hnone].
      intros H0. rewrite H0 in HR. discriminate HR.
    + now rewrite Hitens.
    + rewrite Hitens. intros row Hrow. apply filter_In in Hrow.
      destruct Hrow as [_ Hrow]. now apply negb_true_iff in Hrow.
    + unfold Backend.handleDelete at 1. unfold Backend.openSheets.
      cbn [snd Backend.Itens].
      rewrite (BackendFacts.getSheet_fixed (Backend.Itens after)
                 Backend.itemHeaders extraI) by (try discriminate; exact HI').
      rewrite (BackendFacts.deleteItemsByReceiptId_filter P _ id extraI HI').
      rewrite Hitens. cbn [Backend.header Backend.rows]. f_equal.
      apply forallb_filter_id. apply forallb_forall.
      intros row Hrow. apply filter_In in Hrow. tauto.
Qed.

Lemma delete_idempotent_witness :
  deleteReceipt true "id-9" (mkStore [unsyncedReceipt] false false)
  = (mkStore [unsyncedReceipt] false false, []).
Proof.
  apply (proj1 delete_idempotent).
  intros r [<-|[]]. discriminate.
Defined.

(** ** C9: the shopping-list simulation *)

Module AnalyticsFacts.
Import Analytics.

Lemma compareStores_ranked (a b : Simulation.t) :
  Qle_bool (compareStores a b) 0 = true <-> ranked a b.
Proof.
  rewrite Qle_bool_iff. unfold compareStores, ranked.
  destruct (Nat.eqb (Simulation.foundItems b) (Simulation.foundItems a))
    eqn:He; simpl.
  - apply Nat.eqb_eq in He. split.
    + intros H. right. split; [lia | lra].
    + intros [H|[_ H]]; [lia | lra].
  - apply Nat.eqb_neq in He. split.
    + intros H. left.
      assert (Hz : (Z.of_nat (Simulation.foundItems b)
                    <= Z.of_nat (Simulation.foundItems a))%Z).
      { rewrite Zle_Qle. lra. }
      lia.
    + intros [H|[H _]]; [|lia].
      assert (Hq : (inject_Z (Z.of_nat (Simulation.foundItems b))
                    <= inject_Z (Z.of_nat (Simulation.foundItems a)))%Q).
      { rewrite <- Zle_Qle. lia. }
      lra.
Qed.

Lemma ranked_total (a b : Simulation.t) :
  Qle_bool (compareStores a b) 0 = false -> ranked b a.
Proof.
  intros H. unfold ranked.
  destruct (Nat.lt_trichotomy (Simulation.foundItems a)
              (Simulation.foundItems b)) as [Hlt|[Heq|Hgt]].
  - now left.
  - right. split; [lia|].
    destruct (Qlt_le_dec (Simulation.total b) (Simulation.total a))
      as [Hq|Hq]; [lra|].
    assert (Hr : ranked a b) by (right; split; [exact Heq | exact Hq]).
    apply compareStores_ranked in Hr. congruence.
  - assert (Hr : ranked a b) by (left; exact Hgt).
    apply compareStores_ranked in Hr. congruence.
Qed.

Lemma insert_perm {A : Type} (compare : A -> A -> Q) (x : A) (l : list A) :
  Permutation (insert compare x l) (x :: l).
Proof.
  induction l as [|y l IH]; simpl; [reflexivity|].
  destruct (Qle_bool (compare x y) 0); [reflexivity|].
  rewrite IH. apply perm_swap.
Qed.

Lemma sort_perm {A : Type} (compare : A -> A -> Q) (l : list A) :
  Permutation (sort compare l) l.
Proof.
  induction l as [|x l IH]; simpl; [reflexivity|].
  unfold sort in *. simpl. rewrite insert_perm. now constructor.
Qed.

Lemma insert_sorted (x : Simulation.t) (l : list Simulation.t) :
  Sorted ranked l -> Sorted ranked (insert compareStores x l).
Proof.
  induction 1 as [|y l Hs IH Hhd]; simpl.
  - repeat constructor.
  - destruct (Qle_bool (compareStores x y) 0) eqn:Hc.
    + constructor; [now constructor|]. constructor.
      now apply compareStores_ranked.
    + constructor; [exact IH|].
      destruct l as [|z l]; simpl.
      * constructor. now apply ranked_total.
      * destruct (Qle_bool (compareStores x z) 0).
        -- constructor. now apply ranked_total.
        -- constructor. now inversion Hhd.
Qed.

Lemma sort_sorted (l : list Simulation.t) :
  Sorted ranked (sort compareStores l).
Proof.
  induction l as [|x l IH]; [constructor|].
  unfold sort in *. simpl. now apply insert_sorted.
Qed.

(** *** Maps and sets *)

Lemma includes_In (x : string) (l : list string) :
  includes x l = true <-> In x l.
Proof.
  unfold includes. rewrite existsb_exists. split.
  - intros [y [Hy He]]. apply String.eqb_eq in He. now subst.
  - intros H. exists x. split; [exact H | apply String.eqb_refl].
Qed.

Lemma includes_not_In (x : string) (l : list string) :
  includes x l = false <-> ~ In x l.
Proof.
  rewrite <- includes_In. destruct (includes x l); split; congruence.
Qed.

Lemma has_In {V : Type} (k : string) (m : list (string * V)) :
  has k m = true <-> In k (map fst m).
Proof.
  unfold has. rewrite existsb_exists, in_map_iff. split.
  - intros [kv [Hkv He]]. apply String.eqb_eq in He. now exists kv.
  - intros [kv [He Hkv]]. exists kv. split; [exact Hkv|].
    now apply String.eqb_eq.
Qed.

Lemma has_not_In {V : Type} (k : string) (m : list (string * V)) :
  has k m = false <-> ~ In k (map fst m).
Proof.
  rewrite <- has_In. destruct (has k m); split; congruence.
Qed.

Lemma set_absent {V : Type} (k : string) (v : V) (m : list (string * V)) :
  has k m = false -> set k v m = m ++ [(k, v)].
Proof.
  induction m as [|[k' x] m IH]; simpl; intros H; [reflexivity|].
  apply orb_false_iff in H. destruct H as [Hk H].
  rewrite Hk. now rewrite IH.
Qed.

Lemma set_last {V : Type} (k : string) (v x : V) (m : list (string * V)) :
  has k m = false -> set k v (m ++ [(k, x)]) = m ++ [(k, v)].
Proof.
  induction m as [|[k' y] m IH]; simpl; intros H.
  - now rewrite String.eqb_refl.
  - apply orb_false_iff in H. destruct H as [Hk H].
    rewrite Hk. now rewrite IH.
Qed.

Lemma get_last {V : Type} (k : string) (x : V) (m : list (string * V)) :
  has k m = false -> get k (m ++ [(k, x)]) = Some x.
Proof.
  induction m as [|[k' y] m IH]; simpl; intros H.
  - now rewrite String.eqb_refl.
  - apply orb_false_iff in H. destruct H as [Hk H].
    rewrite Hk. now apply IH.
Qed.

(** A map that lists [f S] under every key [S] of a list. *)
Lemma get_listed {V : Type} (f : string -> V) (l : list string) (S : string) :
  In S l -> get S (map (fun S' => (S', f S')) l) = Some (f S).
Proof.
  induction l as [|a l IH]; simpl; [intros []|].
  destruct (String.eqb a S) eqn:He.
  - apply String.eqb_eq in He. now subst.
  - intros [H|H]; [apply String.eqb_neq in He; congruence | now apply IH].
Qed.

Lemma has_listed {V : Type} (f : string -> V) (l : list string) (S : string) :
  has S (map (fun S' => (S', f S')) l) = includes S l.
Proof.
  unfold has, includes. induction l as [|a l IH]; simpl; [reflexivity|].
  now rewrite IH, String.eqb_sym.
Qed.

Lemma set_listed {V : Type} (f : string -> V) (l : list string) (S : string)
  (v : V) :
  NoDup l -> In S l ->
  set S v (map (fun S' => (S', f S')) l)
  = map (fun S' => (S', if String.eqb S' S then v else f S')) l.
Proof.
  induction 1 as [|a l Ha Hl IH]; simpl; [intros []|].
  destruct (String.eqb a S) eqn:He.
  - intros _. apply String.eqb_eq in He. subst a. f_equal.
    apply map_ext_in. intros b Hb.
    destruct (String.eqb b S) eqn:Hb'; [|reflexivity].
    apply String.eqb_eq in Hb'. congruence.
  - intros [H|H]; [apply String.eqb_neq in He; congruence|].
    f_equal. now apply IH.
Qed.

Lemma fold_left_snoc {A B : Type} (f : A -> B -> A) (l : list B) (x : B)
  (a : A) :
  fold_left f (l ++ [x]) a = f (fold_left f l a) x.
Proof. now rewrite fold_left_app. Qed.

Lemma setOf_snoc (l : list string) (x : string) :
  setOf (l ++ [x]) = add x (setOf l).
Proof. unfold setOf. now rewrite fold_left_snoc. Qed.

Lemma In_add (x y : string) (s : list string) :
  In y (add x s) <-> y = x \/ In y s.
Proof.
  unfold add. destruct (includes x s) eqn:Hx.
  - apply includes_In in Hx. split; [now right | intros [->|H]; assumption].
  - rewrite in_app_iff. simpl. split; [intros [H|[H|[]]]; auto | intros [H|H]; auto].
Qed.

Lemma In_setOf (x : string) (l : list string) : In x (setOf l) <-> In x l.
Proof.
  induction l as [|a l IH] using rev_ind; [reflexivity|].
  rewrite setOf_snoc, In_add, IH, in_app_iff. simpl.
  split; [intros [->|H]; auto | intros [H|[H|[]]]; auto].
Qed.

Lemma NoDup_add (x : string) (s : list string) :
  NoDup s -> NoDup (add x s).
Proof.
  intros H. unfold add. destruct (includes x s) eqn:Hx; [exact H|].
  apply includes_not_In in Hx.
  apply NoDup_app; [exact H | repeat constructor; intros [] |].
  intros y Hy [<-|[]]. contradiction.
Qed.

Lemma NoDup_setOf (l : list string) : NoDup (setOf l).
Proof.
  induction l as [|a l IH] using rev_ind; [constructor|].
  rewrite setOf_snoc. now apply NoDup_add.
Qed.

(** *** Keys *)

Lemma barFree_cons (c : ascii) (s : string) :
  barFree (String c s) <-> c <> bar /\ barFree s.
Proof.
  unfold barFree. simpl. split.
  - intros H. split; [intros ->; apply H; now left | intros H'; apply H; now right].
  - intros [Hc Hs] [H|H]; [congruence | contradiction].
Qed.

Lemma split_barFree (s : string) : barFree s -> split bar s = [s].
Proof.
  induction s as [|c s IH]; simpl; intros H; [reflexivity|].
  apply barFree_cons in H. destruct H as [Hc Hs].
  apply Ascii.eqb_neq in Hc. rewrite Hc, (IH Hs). reflexivity.
Qed.

(** Splitting a key gives back the item when the item holds no bar, and
    then the pieces of the store name. *)
Lemma split_key (n S : string) :
  barFree n -> split bar (n ++ "|" ++ S) = n :: split bar S.
Proof.
  induction n as [|c n IH]; simpl; intros H; [reflexivity|].
  apply barFree_cons in H. destruct H as [Hc Hn].
  apply Ascii.eqb_neq in Hc. rewrite Hc. simpl in IH. rewrite (IH Hn).
  reflexivity.
Qed.

Lemma append_cancel (n x y : string) : (n ++ x = n ++ y)%string -> x = y.
Proof.
  induction n as [|c n IH]; simpl; intros H; [exact H|].
  injection H as H. now apply IH.
Qed.

Lemma key_inj (n n' S S' : string) :
  barFree n -> barFree n' ->
  (n ++ "|" ++ S = n' ++ "|" ++ S')%string -> n = n' /\ S = S'.
Proof.
  intros Hn Hn' H.
  assert (Hs : split bar (n ++ "|" ++ S) = split bar (n' ++ "|" ++ S'))
    by now rewrite H.
  rewrite (split_key n S Hn), (split_key n' S' Hn') in Hs.
  injection Hs as -> _. split; [reflexivity|].
  apply append_cancel in H. now injection H.
Qed.

(** *** Offers and their first occurrences *)

Lemma samePair_eq (o o' : string * Purchase.t) :
  samePair o o' = true <-> pairOf o = pairOf o'.
Proof.
  unfold samePair, pairOf. rewrite andb_true_iff, !String.eqb_eq.
  split; [intros [-> ->]; reflexivity | intros [= -> ->]; auto].
Qed.

Lemma existsb_samePair (o : string * Purchase.t)
  (l : list (string * Purchase.t)) :
  existsb (samePair o) l = true <-> In (pairOf o) (map pairOf l).
Proof.
  rewrite existsb_exists, in_map_iff. split.
  - intros [o' [Ho' He]]. apply samePair_eq in He. now exists o'.
  - intros [o' [He Ho']]. exists o'. split; [exact Ho'|].
    now apply samePair_eq.
Qed.

Lemma firsts_snoc (l : list (string * Purchase.t)) (o : string * Purchase.t) :
  firsts (l ++ [o])
  = if existsb (samePair o) (firsts l) then firsts l else firsts l ++ [o].
Proof. unfold firsts. now rewrite fold_left_snoc. Qed.

(** [firsts] keeps offers of the list, one for each pair of the list, and
    no pair twice. *)
Lemma firsts_spec (l : list (string * Purchase.t)) :
  (forall o, In o (firsts l) -> In o l) /\
  (forall pr, In pr (map pairOf (firsts l)) <-> In pr (map pairOf l)) /\
  NoDup (map pairOf (firsts l)).
Proof.
  induction l as [|x l [Hin [Hpairs Hnd]]] using rev_ind.
  - split; [intros o []|]. split; [reflexivity | constructor].
  - rewrite firsts_snoc.
    destruct (existsb (samePair x) (firsts l)) eqn:Hx.
    + apply existsb_samePair in Hx. split; [|split].
      * intros o Ho. apply in_or_app. left. now apply Hin.
      * intros pr. rewrite Hpairs, map_app, in_app_iff. simpl.
        split; [auto | intros [H|[<-|[]]]; [exact H | now apply Hpairs]].
      * exact Hnd.
    + assert (Hx' : ~ In (pairOf x) (map pairOf (firsts l))).
      { intros H. apply existsb_samePair in H. congruence. }
      split; [|split].
      * intros o Ho. apply in_app_or in Ho. apply in_or_app.
        destruct Ho as [Ho|Ho]; [left; now apply Hin | now right].
      * intros pr. rewrite !map_app, !in_app_iff, Hpairs. reflexivity.
      * rewrite map_app. apply NoDup_app; [exact Hnd | repeat constructor; intros [] |].
        intros pr Hpr [<-|[]]. contradiction.
Qed.

(** An offer kept by [firsts] is the first offer of the list for its
    pair. *)
Lemma firsts_first (l : list (string * Purchase.t)) (o : string * Purchase.t) :
  In o (firsts l) -> find (samePair o) l = Some o.
Proof.
  revert o. induction l as [|x l IH] using rev_ind; intros o; [intros []|].
  rewrite firsts_snoc.
  assert (Hfind : forall f, find f (l ++ [x])
                  = match find f l with
                    | Some y => Some y
                    | None => if f x then Some x else None
                    end).
  { intros f. clear. induction l as [|a l IH]; simpl; [reflexivity|].
    destruct (f a); [reflexivity | exact IH]. }
  rewrite Hfind.
  destruct (existsb (samePair x) (firsts l)) eqn:Hx.
  - intros Ho. now rewrite (IH o Ho).
  - intros Ho. apply in_app_or in Ho. destruct Ho as [Ho|[<-|[]]].
    + now rewrite (IH o Ho).
    + destruct (find (samePair x) l) as [y|] eqn:Hf.
      * exfalso. destruct (find_first _ _ _ Hf) as [Hy [pre [post [-> _]]]].
        assert (Hin : In (pairOf x) (map pairOf (firsts (pre ++ y :: post)))).
        { apply (proj1 (proj2 (firsts_spec _))).
          apply samePair_eq in Hy. rewrite Hy. apply in_map.
          apply in_or_app. right. now left. }
        apply existsb_samePair in Hin. congruence.
      * assert (Hr : samePair x x = true) by now apply samePair_eq.
        now rewrite Hr.
Qed.

(** *** First map: [latestPrices] *)

Lemma noteProduct_offers (products : list Product.t) (items : list string)
  (acc : list (string * PriceInfo.t)) :
  fold_left (noteProduct (map normalize items)) products acc
  = fold_left (fun lp o => notePurchase (fst o) lp (snd o))
      (offers products items) acc.
Proof.
  revert acc. induction products as [|product products IH]; intros acc;
    [reflexivity|].
  unfold offers. simpl. rewrite fold_left_app. fold (offers products items).
  rewrite <- IH. f_equal. unfold noteProduct.
  destruct (includes _ _); [|reflexivity].
  generalize (Product.purchases product). intros ps. revert acc.
  induction ps as [|p ps IHp]; intros acc; [reflexivity | apply IHp].
Qed.

Lemma has_entry (o : string * Purchase.t) (acc : list (string * Purchase.t)) :
  barFree (fst o) -> (forall o', In o' acc -> barFree (fst o')) ->
  has (fst (entry o)) (map entry acc) = existsb (samePair o) acc.
Proof.
  intros Ho Hacc. unfold has. induction acc as [|a acc IH]; [reflexivity|].
  cbn [existsb map]. rewrite IH by (intros o' Ho'; apply Hacc; now right).
  f_equal. unfold entry at 1 2. cbn [fst].
  destruct (samePair o a) eqn:Hs.
  - apply samePair_eq in Hs. unfold pairOf in Hs. injection Hs as Hn HS.
    apply String.eqb_eq. now rewrite Hn, HS.
  - apply String.eqb_neq. intros He. symmetry in He.
    apply key_inj in He; [|exact Ho | apply Hacc; now left].
    destruct He as [Hn HS].
    assert (samePair o a = true)
      by (apply samePair_eq; unfold pairOf; now rewrite Hn, HS).
    congruence.
Qed.

(** [latestPrices] holds the entries of the first offers, in their
    order. *)
Lemma latestPrices_firsts (l : list (string * Purchase.t)) :
  (forall o, In o l -> barFree (fst o)) ->
  fold_left (fun lp o => notePurchase (fst o) lp (snd o)) l []
  = map entry (firsts l).
Proof.
  induction l as [|x l IH] using rev_ind; intros Hbar; [reflexivity|].
  rewrite fold_left_snoc, firsts_snoc.
  rewrite IH by (intros o Ho; apply Hbar; apply in_or_app; now left).
  unfold notePurchase. change (fst x ++ "|" ++ Purchase.storeName (snd x))%string
    with (fst (entry x)).
  rewrite has_entry.
  - destruct (existsb (samePair x) (firsts l)) eqn:Hx; [reflexivity|].
    rewrite set_absent.
    + now rewrite map_app.
    + rewrite has_entry, Hx; [reflexivity | |].
      * apply Hbar. apply in_or_app. right. now left.
      * intros o' Ho'. apply Hbar. apply in_or_app. left.
        now apply (proj1 (firsts_spec l)).
  - apply Hbar. apply in_or_app. right. now left.
  - intros o' Ho'. apply Hbar. apply in_or_app. left.
    now apply (proj1 (firsts_spec l)).
Qed.

(** *** Second map: [storeSimulation] *)

(** One step of [latestPrices.forEach] on the entry of an offer whose item
    and store hold no bar. *)
Lemma notePrice_entry (N : list string)
  (sim : list (string * StoreData.t)) (o : string * Purchase.t) :
  barFree (fst o) -> barFree (Purchase.storeName (snd o)) ->
  notePrice N sim (entry o) =
  let S := Purchase.storeName (snd o) in
  let sim1 :=
    if has S sim then sim
    else set S (StoreData.mk 0%Q [] (setOf N)) sim in
  match get S sim1 with
  | Some d =>
      if includes (fst o) (StoreData.foundItems d) then sim1
      else set S
             (StoreData.mk
                (StoreData.total d + Purchase.unitPrice (snd o))%Q
                (add (fst o) (StoreData.foundItems d))
                (StoreData.allItems d)) sim1
  | None => sim1
  end.
Proof.
  intros Hn HS. unfold notePrice, entry.
  rewrite (split_key _ _ Hn), (split_barFree _ HS). reflexivity.
Qed.

Lemma group_snoc (F : list (string * Purchase.t)) (o : string * Purchase.t)
  (S : string) :
  group (F ++ [o]) S
  = group F S
    ++ (if String.eqb (Purchase.storeName (snd o)) S then [o] else []).
Proof. unfold group. rewrite filter_app. reflexivity. Qed.

Lemma group_nil (F : list (string * Purchase.t)) (S : string) :
  ~ In S (map (fun o => Purchase.storeName (snd o)) F) -> group F S = [].
Proof.
  unfold group. induction F as [|a F IH]; simpl; intros H; [reflexivity|].
  destruct (String.eqb (Purchase.storeName (snd a)) S) eqn:He.
  - apply String.eqb_eq in He. exfalso. apply H. now left.
  - apply IH. intros H'. apply H. now right.
Qed.

Lemma stores_snoc (F : list (string * Purchase.t)) (o : string * Purchase.t) :
  stores (F ++ [o]) = add (Purchase.storeName (snd o)) (stores F).
Proof. unfold stores. rewrite map_app. cbn [map]. apply setOf_snoc. Qed.

Lemma sum_snoc (l : list Q) (q : Q) : sum (l ++ [q]) = (sum l + q)%Q.
Proof. unfold sum. now rewrite fold_left_snoc. Qed.

Lemma gathered_other (N : list string) (F : list (string * Purchase.t))
  (o : string * Purchase.t) (S : string) :
  S <> Purchase.storeName (snd o) ->
  gathered N (F ++ [o]) S = gathered N F S.
Proof.
  intros H. unfold gathered. rewrite group_snoc.
  replace (String.eqb (Purchase.storeName (snd o)) S) with false
    by (symmetry; apply String.eqb_neq; congruence).
  now rewrite app_nil_r.
Qed.

(** [storeSimulation] lists, for each store of the first offers, the sum
    of their prices and their items, in their order. *)
Lemma storeSimulation_gathered (N : list string)
  (F : list (string * Purchase.t)) :
  NoDup (map pairOf F) ->
  (forall o, In o F ->
     barFree (fst o) /\ barFree (Purchase.storeName (snd o))) ->
  fold_left (notePrice N) (map entry F) []
  = map (fun S => (S, gathered N F S)) (stores F).
Proof.
  induction F as [|o F IH] using rev_ind; intros Hnd Hbar; [reflexivity|].
  rewrite map_app in Hnd. apply NoDup_app_remove_r in Hnd as HndF.
  assert (Hnew : ~ In (pairOf o) (map pairOf F)).
  { intros H. apply (NoDup_remove_2 _ _ _ Hnd). now rewrite app_nil_r. }
  rewrite map_app. simpl map. rewrite fold_left_snoc.
  rewrite IH by (auto; intros o' Ho'; apply Hbar; apply in_or_app; now left).
  assert (Hlast : In o (F ++ [o])) by (apply in_or_app; right; now left).
  destruct (Hbar o Hlast) as [Hn HS].
  rewrite (notePrice_entry N _ o Hn HS). cbv zeta.
  set (S := Purchase.storeName (snd o)).
  rewrite has_listed, stores_snoc. fold S. unfold add.
  destruct (includes S (stores F)) eqn:Hin.
  - apply includes_In in Hin.
    rewrite (get_listed (gathered N F) _ _ Hin).
    assert (Hfound : includes (fst o)
                       (StoreData.foundItems (gathered N F S)) = false).
    { apply includes_not_In. simpl. intros H. apply in_map_iff in H.
      destruct H as [o' [Hfst Hg]]. unfold group in Hg.
      apply filter_In in Hg. destruct Hg as [Ho' HS'].
      apply String.eqb_eq in HS'. apply Hnew. apply in_map_iff.
      exists o'. split; [|exact Ho']. unfold pairOf. now rewrite Hfst, HS'. }
    rewrite Hfound.
    rewrite (set_listed (gathered N F) _ S _ (NoDup_setOf _) Hin).
    apply map_ext_in. intros S' HS'. f_equal.
    destruct (String.eqb S' S) eqn:He.
    + apply String.eqb_eq in He. subst S'. unfold gathered.
      rewrite group_snoc. fold S. rewrite String.eqb_refl.
      rewrite !map_app. cbn [map]. rewrite sum_snoc.
      cbn [StoreData.total StoreData.foundItems StoreData.allItems].
      reflexivity.
    + apply String.eqb_neq in He. symmetry. now apply gathered_other.
  - apply includes_not_In in Hin as Hnot.
    assert (Hhas : has S (map (fun S0 => (S0, gathered N F S0)) (stores F))
                   = false) by now rewrite has_listed.
    rewrite (set_absent _ _ _ Hhas), (get_last _ _ _ Hhas).
    simpl includes. cbv iota. simpl StoreData.total.
    rewrite (set_last _ _ _ _ Hhas). rewrite map_app. simpl map. f_equal.
    + apply map_ext_in. intros S' HS'. f_equal. symmetry.
      apply gathered_other. intros ->. contradiction.
    + f_equal. f_equal. unfold gathered. rewrite group_snoc. fold S.
      rewrite String.eqb_refl.
      rewrite group_nil by (unfold stores in Hnot; now rewrite In_setOf in Hnot).
      reflexivity.
Qed.

(** *** Reports *)

Lemma fold_delete (found D : list string) :
  fold_left (fun m item => delete item m) found D
  = filter (fun n => negb (includes n found)) D.
Proof.
  revert D. induction found as [|a found IH]; intros D; simpl.
  - induction D as [|d D IHD]; simpl; [reflexivity | now rewrite <- IHD].
  - rewrite IH. unfold delete. clear IH.
    induction D as [|d D IHD]; simpl; [reflexivity|].
    destruct (String.eqb d a); simpl; [exact IHD|].
    destruct (includes d found); simpl; [exact IHD | now rewrite IHD].
Qed.

(** Sums do not depend on the order of the summands. *)
Lemma Qplus_swap (a x y : Q) : (a + x + y)%Q = (a + y + x)%Q.
Proof.
  destruct a as [an ad], x as [xn xd], y as [yn yd].
  unfold Qplus. simpl. f_equal.
  - rewrite !Pos2Z.inj_mul. ring.
  - rewrite <- !Pos.mul_assoc. f_equal. apply Pos.mul_comm.
Qed.

Lemma sum_perm (l l' : list Q) :
  Permutation l l' -> sum l = sum l'.
Proof.
  intros H. unfold sum. generalize 0%Q.
  induction H as [|x l l' _ IH|x y l|l l' l'' _ IH1 _ IH2]; intros a; simpl.
  - reflexivity.
  - apply IH.
  - now rewrite Qplus_swap.
  - now rewrite IH1.
Qed.

(** *** Offers and the purchase history *)

Lemma find_app {A : Type} (f : A -> bool) (l1 l2 : list A) :
  find f (l1 ++ l2)
  = match find f l1 with
    | Some x => Some x
    | None => find f l2
    end.
Proof.
  induction l1 as [|a l1 IH]; simpl; [reflexivity|].
  destruct (f a); [reflexivity | exact IH].
Qed.

Lemma find_extensional {A : Type} (f g : A -> bool) (l : list A) :
  (forall x, f x = g x) -> find f l = find g l.
Proof.
  intros H. induction l as [|a l IH]; simpl; [reflexivity|].
  now rewrite H, IH.
Qed.

Lemma offers_cons (product : Product.t) (products : list Product.t)
  (items : list string) :
  offers (product :: products) items
  = (if includes (normalize (Product.name product)) (map normalize items)
     then map (fun p => (normalize (Product.name product), p))
            (Product.purchases product)
     else [])
    ++ offers products items.
Proof. reflexivity. Qed.

Lemma history_cons (product : Product.t) (products : list Product.t)
  (n : string) :
  history (product :: products) n
  = (if String.eqb (normalize (Product.name product)) n
     then Product.purchases product else [])
    ++ history products n.
Proof.
  unfold history. simpl.
  destruct (String.eqb (normalize (Product.name product)) n); reflexivity.
Qed.

(** The first offer of item [n] at store [S] is the first purchase at [S]
    in the history of [n]. *)
Lemma offers_find (products : list Product.t) (items : list string)
  (n S : string) :
  In n (map normalize items) ->
  find (fun o => String.eqb (fst o) n
                 && String.eqb (Purchase.storeName (snd o)) S)
    (offers products items)
  = option_map (fun p => (n, p))
      (find (fun p => String.eqb (Purchase.storeName p) S)
         (history products n)).
Proof.
  intros Hn. induction products as [|product products IH]; [reflexivity|].
  rewrite offers_cons, history_cons, !find_app, IH. clear IH.
  destruct (String.eqb (normalize (Product.name product)) n) eqn:He.
  - apply String.eqb_eq in He. rewrite He.
    apply includes_In in Hn. rewrite Hn.
    generalize (Product.purchases product). intros ps.
    induction ps as [|p ps IHp]; simpl; [reflexivity|].
    rewrite String.eqb_refl. simpl.
    destruct (String.eqb (Purchase.storeName p) S); [reflexivity | exact IHp].
  - simpl.
    replace (find _ (if includes _ _ then _ else _)) with
      (@None (string * Purchase.t)); [reflexivity|].
    symmetry. apply find_none_iff. intros o Ho.
    destruct (includes _ _); [|destruct Ho].
    apply in_map_iff in Ho. destruct Ho as [p [<- _]]. simpl.
    now rewrite He.
Qed.

Lemma offers_In (products : list Product.t) (items : list string)
  (o : string * Purchase.t) :
  In o (offers products items) ->
  In (fst o) (map normalize items) /\
  exists product,
    In product products /\ In (snd o) (Product.purchases product).
Proof.
  unfold offers. rewrite in_flat_map. intros [product [Hp Ho]].
  destruct (includes _ _) eqn:Hi; [|destruct Ho].
  apply in_map_iff in Ho. destruct Ho as [p [<- Hpp]]. simpl.
  split; [now apply includes_In | now exists product].
Qed.

(** The offer kept for a pair carries the earliest-listed price. *)
Lemma firsts_priceAt (products : list Product.t) (items : list string)
  (o : string * Purchase.t) :
  In o (firsts (offers products items)) ->
  priceAt products (fst o) (Purchase.storeName (snd o))
  = Some (Purchase.unitPrice (snd o)).
Proof.
  intros Ho. pose proof (firsts_first _ _ Ho) as Hf.
  pose proof (proj1 (firsts_spec _) o Ho) as Hin.
  destruct (offers_In _ _ _ Hin) as [Hn _].
  pose proof (offers_find products items (fst o)
                (Purchase.storeName (snd o)) Hn) as Hof.
  assert (Hext : find (samePair o) (offers products items)
                 = find (fun o' => String.eqb (fst o') (fst o)
                                   && String.eqb (Purchase.storeName (snd o'))
                                        (Purchase.storeName (snd o)))
                     (offers products items)).
  { apply find_extensional. intros o'. unfold samePair.
    now rewrite (String.eqb_sym (fst o)),
      (String.eqb_sym (Purchase.storeName (snd o))). }
  rewrite Hext, Hof in Hf. unfold priceAt.
  destruct (find _ (history products (fst o))) as [p|]; [|discriminate].
  simpl in *. injection Hf as Hf. destruct o as [n p']. simpl in *.
  now injection Hf as ->.
Qed.

(** The items found at a store are the requested items that have a price
    there. *)
Lemma found_priced (products : list Product.t) (items : list string)
  (S n : string) :
  In n (map fst (group (firsts (offers products items)) S)) <->
  In n (map normalize items) /\ priced products S n = true.
Proof.
  split.
  - intros H. apply in_map_iff in H. destruct H as [o [<- Ho]].
    unfold group in Ho. apply filter_In in Ho. destruct Ho as [Ho HS].
    apply String.eqb_eq in HS. subst S. split.
    + apply (offers_In products items o).
      now apply (proj1 (firsts_spec _)).
    + unfold priced. now rewrite (firsts_priceAt products items o Ho).
  - intros [Hn Hp]. unfold priced, priceAt in Hp.
    destruct (find _ (history products n)) as [p|] eqn:Hf; [|discriminate].
    pose proof (offers_find products items n S Hn) as Hof.
    rewrite Hf in Hof. simpl in Hof.
    destruct (find_first _ _ _ Hof) as [Hnp [pre [post [Hsplit _]]]].
    simpl in Hnp. apply andb_true_iff in Hnp. destruct Hnp as [_ HS].
    apply String.eqb_eq in HS.
    assert (Hpair : In (n, S) (map pairOf (firsts (offers products items)))).
    { apply (proj1 (proj2 (firsts_spec _))). rewrite Hsplit.
      apply in_map_iff. exists (n, p). split.
      - unfold pairOf. simpl. now rewrite HS.
      - apply in_or_app. right. now left. }
    apply in_map_iff in Hpair. destruct Hpair as [o [Hpo Ho]].
    unfold pairOf in Hpo. injection Hpo as Hfst Hstore.
    apply in_map_iff. exists o. split; [exact Hfst|].
    unfold group. apply filter_In. split; [exact Ho|].
    now apply String.eqb_eq.
Qed.

Lemma found_NoDup (F : list (string * Purchase.t)) (S : string) :
  NoDup (map pairOf F) -> NoDup (map fst (group F S)).
Proof.
  unfold group. induction F as [|a F IH]; simpl; intros H; [constructor|].
  inversion H as [|x l Ha HF]; subst.
  destruct (String.eqb (Purchase.storeName (snd a)) S) eqn:He;
    [|now apply IH].
  simpl. constructor; [|now apply IH].
  intros Hin. apply Ha. apply in_map_iff in Hin.
  destruct Hin as [o [Hfst Ho]]. apply filter_In in Ho.
  destruct Ho as [Ho HS]. apply in_map_iff. exists o. split; [|exact Ho].
  apply String.eqb_eq in He, HS. unfold pairOf. now rewrite Hfst, HS, He.
Qed.

(** The report the code makes for a store is the report the specification
    describes. *)
Lemma report_expected (products : list Product.t) (items : list string)
  (S : string) :
  report items
    (S, gathered (map normalize items) (firsts (offers products items)) S)
  = expectedReport products items S.
Proof.
  set (F := firsts (offers products items)).
  assert (Hperm : Permutation (map fst (group F S))
                    (filter (priced products S) (desired items))).
  { apply NoDup_Permutation.
    - apply found_NoDup. apply (proj2 (proj2 (firsts_spec _))).
    - apply NoDup_filter. apply NoDup_setOf.
    - intros n. unfold F. rewrite found_priced, filter_In.
      unfold desired. now rewrite In_setOf. }
  unfold report, expectedReport, gathered.
  cbn [StoreData.total StoreData.foundItems StoreData.allItems].
  f_equal.
  - rewrite <- (sum_perm _ _ (Permutation_map (priceOr0 products S) Hperm)).
    f_equal. rewrite map_map. apply map_ext_in. intros o Ho.
    unfold group in Ho. apply filter_In in Ho. destruct Ho as [Ho HS].
    apply String.eqb_eq in HS. unfold priceOr0. rewrite <- HS.
    now rewrite (firsts_priceAt products items o Ho).
  - now apply Permutation_length.
  - rewrite fold_delete. fold (desired items).
    change (fun normName : string =>
              match find (fun i => String.eqb (normalize i) normName) items with
              | Some originalItem =>
                  if String.eqb originalItem "" then normName else originalItem
              | None => normName
              end) with (originalName items).
    f_equal. apply filter_ext_in. intros n Hn. f_equal.
    unfold desired in Hn. rewrite In_setOf in Hn.
    destruct (priced products S n) eqn:Hp.
    + apply includes_In. apply found_priced. now split.
    + apply includes_not_In. intros H. apply found_priced in H.
      destruct H as [_ H]. congruence.
Qed.

Lemma stores_firsts (l : list (string * Purchase.t)) :
  stores (firsts l) = setOf (map (fun o => Purchase.storeName (snd o)) l).
Proof.
  induction l as [|x l IH] using rev_ind; [reflexivity|].
  rewrite firsts_snoc, map_app. cbn [map]. rewrite setOf_snoc, <- IH.
  destruct (existsb (samePair x) (firsts l)) eqn:Hx.
  - apply existsb_samePair in Hx. apply in_map_iff in Hx.
    destruct Hx as [o [Hpo Ho]]. unfold pairOf in Hpo.
    injection Hpo as _ HS.
    unfold add. replace (includes _ _) with true; [reflexivity|].
    symmetry. apply includes_In. unfold stores. apply In_setOf.
    apply in_map_iff. now exists o.
  - apply stores_snoc.
Qed.

(** Where no requested name and no store name holds a bar,
    [simulateShoppingList] computes what the specification describes. *)
Lemma simulateShoppingList_barFree (products : list Product.t)
  (items : list string) :
  (forall item, In item items -> barFree (normalize item)) ->
  (forall product p,
     In product products -> In p (Product.purchases product) ->
     barFree (Purchase.storeName p)) ->
  simulateShoppingList products items = expectedSimulation products items.
Proof.
  intros Hitems Hstores.
  assert (Hbar : forall o, In o (offers products items) ->
                   barFree (fst o) /\ barFree (Purchase.storeName (snd o))).
  { intros o Ho. destruct (offers_In _ _ _ Ho) as [Hn [product [Hp Hpp]]].
    split.
    - apply in_map_iff in Hn. destruct Hn as [item [<- Hitem]].
      now apply Hitems.
    - now apply (Hstores product). }
  unfold simulateShoppingList, expectedSimulation.
  rewrite noteProduct_offers.
  rewrite latestPrices_firsts by (intros o Ho; now apply Hbar).
  rewrite storeSimulation_gathered.
  - rewrite map_map. f_equal. unfold pricedStores.
    rewrite <- stores_firsts. apply map_ext. intros S.
    apply report_expected.
  - apply (proj2 (proj2 (firsts_spec _))).
  - intros o Ho. apply Hbar. now apply (proj1 (firsts_spec _)).
Qed.

Lemma byDateDescending_same (P : Platform) (a b : Purchase.t) :
  Purchase.date a = Purchase.date b ->
  Qle_bool (byDateDescending P a b) 0 = true.
Proof.
  intros H. unfold byDateDescending. rewrite H.
  destruct (getTime P (Purchase.date b)) as [t|]; [|reflexivity].
  apply Qle_bool_iff. lra.
Qed.

(** The purchase histories the sample receipts give rise to. *)
Lemma productsAnalytics_samples (P : Platform) :
  productsAnalytics P [receiptOf "r1" "A" "Leite" 5] = leiteAtA /\
  productsAnalytics P
    [receiptOf "r1" "Loja|Centro" "Leite" 5;
     receiptOf "r2" "Loja|Norte" "Leite" 7] = leiteAtTwoBranches.
Proof.
  split; [reflexivity|].
  unfold productsAnalytics. simpl.
  rewrite byDateDescending_same by reflexivity. reflexivity.
Qed.

(** C9. What [simulateShoppingList] computes.  For the product "Leite"
    bought at store "A" for 5 and the request ["Leite"], the result is the
    single entry for store "A" with total 5, one item found and none
    missing.  For the same product bought at "Loja|Centro" for 5 and at
    "Loja|Norte" for 7, the result is a single entry, named "Loja", with
    total 5: the two stores are reported as one store that has neither of
    their names.  Both histories are what [productsAnalytics] computes from
    completed receipts, on every platform.  Every result is ordered by
    items found, descending, then by total, ascending.  Where no requested
    name and no store name holds a vertical bar, the result is the one the
    specification describes: one report per store where a requested item
    was bought, summing once per requested item the earliest-listed price
    at that store, counting those items, listing the others under the
    names they were requested with, ranked. *)
Theorem simulateShoppingList_computes :
  simulateShoppingList leiteAtA ["Leite"]
    = [Simulation.mk "A" 5 1 []] /\
  simulateShoppingList leiteAtTwoBranches ["Leite"]
    = [Simulation.mk "Loja" 5 1 []] /\
  expectedSimulation leiteAtTwoBranches ["Leite"]
    = [Simulation.mk "Loja|Centro" 5 1 [];
       Simulation.mk "Loja|Norte" 7 1 []] /\
  (forall P,
     simulateShoppingList
       (productsAnalytics P [receiptOf "r1" "A" "Leite" 5]) ["Leite"]
       = [Simulation.mk "A" 5 1 []] /\
     simulateShoppingList
       (productsAnalytics P
          [receiptOf "r1" "Loja|Centro" "Leite" 5;
           receiptOf "r2" "Loja|Norte" "Leite" 7]) ["Leite"]
       = [Simulation.mk "Loja" 5 1 []]) /\
  (forall products items,
     Sorted ranked (simulateShoppingList products items)) /\
  (forall products items,
     (forall item, In item items -> barFree (normalize item)) ->
     (forall product p,
        In product products -> In p (Product.purchases product) ->
        barFree (Purchase.storeName p)) ->
     simulateShoppingList products items
     = expectedSimulation products items).
Proof.
  split; [reflexivity|]. split; [reflexivity|]. split; [reflexivity|].
  split; [|split].
  - intros P. destruct (productsAnalytics_samples P) as [-> ->].
    split; reflexivity.
  - intros products items. unfold simulateShoppingList. apply sort_sorted.
  - exact simulateShoppingList_barFree.
Qed.

Lemma simulateShoppingList_computes_witness :
  simulateShoppingList basket ["  LEITE "; "pao"; "Cafe"]
  = expectedSimulation basket ["  LEITE "; "pao"; "Cafe"].
Proof.
  apply (proj2 (proj2 (proj2 (proj2 (proj2 simulateShoppingList_computes))))).
  - intros item [<-|[<-|[<-|[]]]]; unfold barFree; simpl;
      intuition discriminate.
  - intros product p [<-|[<-|[]]]; simpl.
    + intros [<-|[<-|[<-|[]]]]; unfold barFree; simpl;
        intuition discriminate.
    + intros [<-|[]]; unfold barFree; simpl; intuition discriminate.
Defined.

End AnalyticsFacts.

(** ** The receipt service: photos, batches and edits *)

Lemma nonempty_urls_map (f : Receipt.t -> Receipt.t) (l : list Receipt.t) :
  (forall r, Receipt.url (f r) = Receipt.url r) ->
  nonempty_urls (map f l) = nonempty_urls l.
Proof.
  intros Hf. induction l as [|a l IH]; simpl; [reflexivity|].
  rewrite Hf, IH. reflexivity.
Qed.

Lemma nonempty_urls_map_by_id (id : string) (f : Receipt.t -> Receipt.t)
  (l : list Receipt.t) :
  (forall r, Receipt.url (f r) = Receipt.url r) ->
  nonempty_urls (map_by_id id f l) = nonempty_urls l.
Proof.
  intros Hf. apply nonempty_urls_map. intros r.
  destruct (String.eqb (Receipt.id r) id); [apply Hf | reflexivity].
Qed.

Lemma map_by_id_absent (id : string) (f : Receipt.t -> Receipt.t)
  (l : list Receipt.t) :
  ~ In id (map Receipt.id l) -> map_by_id id f l = l.
Proof.
  induction l as [|a l IH]; simpl; intros H; [reflexivity|].
  destruct (String.eqb (Receipt.id a) id) eqn:Ha.
  - apply String.eqb_eq in Ha. tauto.
  - f_equal. apply IH. tauto.
Qed.

Lemma map_by_id_app (id : string) (f : Receipt.t -> Receipt.t)
  (l1 l2 : list Receipt.t) :
  map_by_id id f (l1 ++ l2) = map_by_id id f l1 ++ map_by_id id f l2.
Proof. unfold map_by_id. apply map_app. Qed.

Lemma NoDup_app_parts {A : Type} (l1 l2 : list A) :
  NoDup (l1 ++ l2) ->
  NoDup l1 /\ NoDup l2 /\ forall x, In x l1 -> ~ In x l2.
Proof.
  induction l1 as [|a l1 IH]; simpl; intros H.
  - repeat split; [constructor | exact H | tauto].
  - inversion H as [|? ? Hn Hd]; subst.
    destruct (IH Hd) as [H1 [H2 H3]].
    repeat split; [|exact H2|].
    + constructor; [|exact H1]. intros Hi. apply Hn, in_or_app. now left.
    + intros x [<-|Hx] Hx2; [apply Hn, in_or_app; now right|].
      exact (H3 x Hx Hx2).
Qed.

Lemma NoDup_app_intro {A : Type} (l1 l2 : list A) :
  NoDup l1 -> NoDup l2 -> (forall x, In x l1 -> ~ In x l2) ->
  NoDup (l1 ++ l2).
Proof.
  induction l1 as [|a l1 IH]; simpl; intros H1 H2 H; [exact H2|].
  inversion H1; subst. constructor.
  - intros Hi. apply in_app_or in Hi. destruct Hi as [Hi|Hi]; [tauto|].
    exact (H a (or_introl eq_refl) Hi).
  - apply IH; auto.
Qed.

(** X1. Attaching the url read from a photo keeps the non-empty urls of
    the list pairwise distinct, provided the ids of the list are pairwise
    distinct. *)
Theorem addReceiptFromPhoto_keeps_urls_unique (configured : bool)
  (tempId url : string) (st : Store) :
  urls_unique (receipts st) ->
  NoDup (map Receipt.id (receipts st)) ->
  urls_unique
    (receipts (fst (addReceiptFromPhoto_fulfilled configured tempId url st))).
Proof.
  unfold addReceiptFromPhoto_fulfilled, urls_unique. intros Hu Hid.
  destruct (find _ (receipts st)) as [existing|] eqn:Hf; simpl.
  - rewrite nonempty_urls_map_by_id; [exact Hu | reflexivity].
  - rewrite find_none_iff in Hf.
    assert (Hfresh : ~ In url (nonempty_urls (receipts st))).
    { rewrite nonempty_urls_In. intros [_ [r [Hr Hurl]]].
      specialize (Hf r Hr). rewrite Hurl in Hf. simpl in Hf.
      now rewrite String.eqb_refl in Hf. }
    destruct (in_dec string_dec tempId (map Receipt.id (receipts st)))
      as [Hin|Hout]; [|now rewrite map_by_id_absent].
    apply in_map_iff in Hin. destruct Hin as [r [Hr Hin]].
    apply in_split in Hin. destruct Hin as [pre [post Hl]].
    rewrite Hl in Hu, Hid, Hfresh |- *.
    rewrite map_app in Hid. simpl in Hid.
    pose proof (NoDup_remove_2 _ _ _ Hid) as Hnot.
    rewrite Hr in Hnot.
    rewrite map_by_id_app. simpl. rewrite Hr, String.eqb_refl.
    rewrite !map_by_id_absent
      by (intros Hi; apply Hnot, in_or_app; tauto).
    rewrite nonempty_urls_app in Hu, Hfresh |- *.
    simpl in Hu, Hfresh |- *.
    assert (Hrest : NoDup (nonempty_urls pre ++ nonempty_urls post)).
    { destruct (Receipt.url r) as [u|]; [|exact Hu].
      destruct (String.eqb u ""); [exact Hu|].
      exact (NoDup_remove_1 _ _ _ Hu). }
    assert (Hnew : ~ In url (nonempty_urls pre ++ nonempty_urls post)).
    { intros Hi. apply Hfresh. apply in_app_or in Hi. apply in_or_app.
      destruct Hi as [Hi|Hi]; [now left | right].
      destruct (Receipt.url r) as [u|]; [|exact Hi].
      destruct (String.eqb u ""); [exact Hi | now right]. }
    destruct (String.eqb url ""); [exact Hrest|].
    apply NoDup_app_parts in Hrest. destruct Hrest as [H1 [H2 H3]].
    apply NoDup_app_intro; [exact H1 | |].
    + constructor; [|exact H2]. intros Hi. apply Hnew, in_or_app. now right.
    + intros x Hx [<-|Hx2]; [apply Hnew, in_or_app; now left|].
      exact (H3 x Hx Hx2).
Qed.

Lemma addReceiptFromPhoto_keeps_urls_unique_witness :
  urls_unique
    (receipts
       (fst (addReceiptFromPhoto_fulfilled true "t-1" "http://x/2"
               (addReceiptFromPhoto "t-1"
                  (mkStore [newReceipt "id-1" "http://x/1"] false false))))).
Proof.
  apply addReceiptFromPhoto_keeps_urls_unique.
  - unfold urls_unique. simpl. repeat constructor. simpl. tauto.
  - simpl. repeat constructor; simpl; [|tauto].
    intros [H|[]]. discriminate H.
Defined.

(** X2. A photo whose reading fails ends as an error record, whatever the
    list holds by then: every record with the placeholder's id bears the
    failure's message, or the fallback text, and is out of the queue, and
    the other records and the urls are untouched.  A photo whose url is
    already carried by a record ends in the same way with the message of
    the duplicate, and no save is issued for it. *)
Theorem addReceiptFromPhoto_settles_in_error (configured : bool)
  (tempId url : string) (error : Thrown) (st : Store) :
  let failed := addReceiptFromPhoto_rejected tempId error st in
  let duplicate := addReceiptFromPhoto_fulfilled configured tempId url st in
  (List.length (receipts failed) = List.length (receipts st) /\
   nonempty_urls (receipts failed) = nonempty_urls (receipts st) /\
   (forall i r, nth_error (receipts st) i = Some r ->
      Receipt.id r <> tempId ->
      nth_error (receipts failed) i = Some r) /\
   (forall r, In r (receipts failed) -> Receipt.id r = tempId ->
      Receipt.status r = errored /\
      Receipt.error r =
        Some (message_of error
                "Falha desconhecida ao extrair URL da imagem.") /\
      Receipt.storeName r = Some "Falha na Extração da URL" /\
      queued r = false)) /\
  (forall existing,
     In existing (receipts st) ->
     Receipt.url existing = Some url ->
     snd duplicate = [] /\
     List.length (receipts (fst duplicate)) = List.length (receipts st) /\
     nonempty_urls (receipts (fst duplicate)) = nonempty_urls (receipts st) /\
     (forall i r, nth_error (receipts st) i = Some r ->
        Receipt.id r <> tempId ->
        nth_error (receipts (fst duplicate)) i = Some r) /\
     (forall r, In r (receipts (fst duplicate)) -> Receipt.id r = tempId ->
        Receipt.status r = errored /\
        Receipt.error r = Some "Esta nota fiscal já foi escaneada." /\
        Receipt.storeName r = Some "Nota Duplicada" /\
        queued r = false)).
Proof.
  intros failed duplicate.
  assert (Hother : forall message label i r,
            nth_error (receipts st) i = Some r ->
            Receipt.id r <> tempId ->
            nth_error (map_by_id tempId (failedPhoto message label)
                         (receipts st)) i = Some r).
  { intros message label i r Hi Hne. rewrite nth_error_map_by_id, Hi. simpl.
    destruct (String.eqb (Receipt.id r) tempId) eqn:E;
      [apply String.eqb_eq in E; contradiction | reflexivity]. }
  assert (Hmarked : forall message label r,
            In r (map_by_id tempId (failedPhoto message label) (receipts st)) ->
            Receipt.id r = tempId ->
            Receipt.status r = errored /\
            Receipt.error r = Some message /\
            Receipt.storeName r = Some label /\
            queued r = false).
  { intros message label r Hr Hid. unfold map_by_id in Hr.
    apply in_map_iff in Hr. destruct Hr as [r0 [Hr0 _]].
    destruct (String.eqb (Receipt.id r0) tempId) eqn:E.
    - subst r. repeat split.
    - subst r0. rewrite Hid, String.eqb_refl in E. discriminate E. }
  split.
  - subst failed. unfold addReceiptFromPhoto_rejected.
    cbn [update_receipts set_receipts receipts].
    split; [apply map_by_id_length|].
    split; [apply nonempty_urls_map_by_id; reflexivity|].
    split; [apply Hother | apply Hmarked].
  - intros existing Hin Hurl.
    assert (Hfound : exists e,
               find (fun r => strict_eq_string (Receipt.url r) url)
                 (receipts st) = Some e).
    { apply existsb_find. apply existsb_exists. exists existing.
      split; [exact Hin|]. rewrite Hurl. simpl. apply String.eqb_refl. }
    destruct Hfound as [e He].
    subst duplicate. unfold addReceiptFromPhoto_fulfilled. rewrite He.
    cbn [fst snd update_receipts set_receipts receipts].
    split; [reflexivity|]. split; [apply map_by_id_length|].
    split; [apply nonempty_urls_map_by_id; reflexivity|].
    split; [apply Hother | apply Hmarked].
Qed.

Lemma addReceiptFromPhoto_settles_in_error_witness :
  Forall
    (fun r =>
       Receipt.status r = errored /\
       Receipt.error r = Some "Falha desconhecida ao extrair URL da imagem.")
    (receipts
       (addReceiptFromPhoto_rejected "t-1" OtherValue
          (addReceiptFromPhoto "t-1" initialStore))) /\
  snd (addReceiptFromPhoto_fulfilled true "t-1" "http://x/1"
         (addReceiptFromPhoto "t-1"
            (mkStore [newReceipt "id-1" "http://x/1"] false false))) = [].
Proof.
  split.
  - apply Forall_forall. intros r Hr.
    pose proof (addReceiptFromPhoto_settles_in_error true "t-1" "http://x/1"
                  OtherValue (addReceiptFromPhoto "t-1" initialStore)) as H.
    cbv zeta in H. destruct H as [[_ [_ [_ H]]] _].
    destruct (H r Hr) as [H1 [H2 _]]; [|now split].
    simpl in Hr. destruct Hr as [<-|[]]. reflexivity.
  - pose proof (addReceiptFromPhoto_settles_in_error true "t-1" "http://x/1"
                  OtherValue
                  (addReceiptFromPhoto "t-1"
                     (mkStore [newReceipt "id-1" "http://x/1"] false false)))
      as H.
    cbv zeta in H. destruct H as [_ H].
    apply (H (newReceipt "id-1" "http://x/1")).
    + simpl. right. now left.
    + reflexivity.
Defined.

(** A placeholder that is still in the list when a new, non-empty url
    arrives becomes a queued record carrying that url. *)
Lemma photo_ready (configured : bool) (tempId url : string) (st1 : Store) :
  url <> "" ->
  (forall r, In r (receipts st1) -> Receipt.url r <> Some url) ->
  In (photoPlaceholder tempId) (receipts st1) ->
  receipts (fst (addReceiptFromPhoto_fulfilled configured tempId url st1))
  = map_by_id tempId (photoWithUrl url) (receipts st1) /\
  In (photoWithUrl url (photoPlaceholder tempId))
    (receipts (fst (addReceiptFromPhoto_fulfilled configured tempId url st1))) /\
  queued (photoWithUrl url (photoPlaceholder tempId)) = true.
Proof.
  intros Hne Hfresh Hin.
  assert (Hnone :
    find (fun r => strict_eq_string (Receipt.url r) url) (receipts st1)
    = None).
  { apply find_none_iff. intros r Hr.
    destruct (strict_eq_string (Receipt.url r) url) eqn:E; [|reflexivity].
    apply strict_eq_string_true in E. now apply Hfresh in E. }
  assert (Hl : receipts
                 (fst (addReceiptFromPhoto_fulfilled configured tempId url st1))
               = map_by_id tempId (photoWithUrl url) (receipts st1)).
  { unfold addReceiptFromPhoto_fulfilled. now rewrite Hnone. }
  split; [exact Hl|]. split.
  - rewrite Hl. unfold map_by_id. apply in_map_iff.
    exists (photoPlaceholder tempId). split; [|exact Hin].
    cbn [photoPlaceholder Receipt.id]. now rewrite String.eqb_refl.
  - unfold queued. simpl. apply String.eqb_neq in Hne. now rewrite Hne.
Qed.

(** X3. A photo placeholder has no url, so adding it does not change what
    the queue trigger starts.  When the url arrives, whatever the list has
    become by then ([st1]), a placeholder that is still in the list becomes
    a queued record carrying the url, provided the url is not empty and no
    record carries it.  An idle service then starts an extraction at the
    next run of the trigger: that of the first queued record, which is the
    placeholder when no other record is queued and the ids are pairwise
    distinct. *)
Theorem photo_enters_queue_with_url (configured : bool) (tempId url : string)
  (st st1 : Store) :
  snd (queueTrigger (addReceiptFromPhoto tempId st)) = snd (queueTrigger st) /\
  (url <> "" ->
   (forall r, In r (receipts st1) -> Receipt.url r <> Some url) ->
   In (photoPlaceholder tempId) (receipts st1) ->
   let st' := fst (addReceiptFromPhoto_fulfilled configured tempId url st1) in
   let ready := photoWithUrl url (photoPlaceholder tempId) in
   In ready (receipts st') /\
   queued ready = true /\
   (isProcessing st1 = false ->
    exists started,
      find queued (receipts st') = Some started /\
      queueTrigger st' = (set_isProcessing true st', Some started)) /\
   (isProcessing st1 = false ->
    NoDup (map Receipt.id (receipts st1)) ->
    (forall r, In r (receipts st1) -> Receipt.id r <> tempId ->
       queued r = false) ->
    queueTrigger st' = (set_isProcessing true st', Some ready))).
Proof.
  split.
  - unfold queueTrigger, processQueue, addReceiptFromPhoto. simpl.
    destruct (existsb queued (receipts st) && negb (isProcessing st));
      [|reflexivity].
    destruct (isProcessing st); [reflexivity|].
    destruct (find queued (receipts st)) as [r|]; [|reflexivity].
    destruct (negb (truthy_string (Receipt.url r))); reflexivity.
  - intros Hne Hfresh Hin st' ready.
    destruct (photo_ready configured tempId url st1 Hne Hfresh Hin)
      as [Hl [Hready Hq]].
    fold st' in Hl, Hready. fold ready in Hready, Hq.
    assert (Hidle : isProcessing st' = isProcessing st1).
    { subst st'. unfold addReceiptFromPhoto_fulfilled.
      destruct (find _ (receipts st1)); reflexivity. }
    assert (Hstart : forall started,
              isProcessing st1 = false ->
              find queued (receipts st') = Some started ->
              queueTrigger st' = (set_isProcessing true st', Some started)).
    { intros started H0 Hf. unfold queueTrigger, processQueue.
      rewrite Hidle, H0, Hf.
      assert (He : existsb queued (receipts st') = true).
      { apply existsb_exists. exists ready. now split. }
      rewrite He. cbn [andb negb].
      apply find_some in Hf. destruct Hf as [_ Hs].
      apply queued_url in Hs. destruct Hs as [_ Hs]. now rewrite Hs. }
    split; [exact Hready|]. split; [exact Hq|]. split.
    + intros H0.
      destruct (existsb_find queued (receipts st')) as [started Hf].
      { apply existsb_exists. exists ready. now split. }
      exists started. split; [exact Hf | now apply Hstart].
    + intros H0 Hnd Hothers. apply Hstart; [exact H0|].
      rewrite Hl. clear Hl Hready Hidle Hstart Hfresh.
      induction (receipts st1) as [|a l IH]; [destruct Hin|].
      cbn [map_by_id map find]. fold (map_by_id tempId (photoWithUrl url) l).
      cbn [map] in Hnd. inversion Hnd as [|? ? Hn Hd]; subst.
      destruct (String.eqb (Receipt.id a) tempId) eqn:E.
      * apply String.eqb_eq in E.
        assert (Ha : a = photoPlaceholder tempId).
        { destruct Hin as [Ha|Ha]; [exact Ha|]. exfalso. apply Hn.
          apply in_map_iff. exists (photoPlaceholder tempId).
          split; [now rewrite E | exact Ha]. }
        rewrite Ha. fold ready. now rewrite Hq.
      * rewrite (Hothers a (or_introl eq_refl))
          by (now apply String.eqb_neq).
        apply IH; [|exact Hd|].
        -- destruct Hin as [Ha|Ha]; [|exact Ha]. subst a.
           cbn [photoPlaceholder Receipt.id] in E.
           now rewrite String.eqb_refl in E.
        -- intros r Hr. apply Hothers. now right.
Qed.

Lemma photo_enters_queue_with_url_witness :
  let arrived :=
    fst (addReceipt false "id-9" "http://x/9"
           (addReceiptFromPhoto "t-1"
              (mkStore [unsyncedReceipt] false false))) in
  let st' :=
    fst (addReceiptFromPhoto_fulfilled true "t-1" "http://x/2" arrived) in
  In (photoWithUrl "http://x/2" (photoPlaceholder "t-1")) (receipts st') /\
  queueTrigger
    (fst (addReceiptFromPhoto_fulfilled true "t-1" "http://x/2"
            (addReceiptFromPhoto "t-1"
               (mkStore [unsyncedReceipt] false false))))
  = (set_isProcessing true
       (fst (addReceiptFromPhoto_fulfilled true "t-1" "http://x/2"
               (addReceiptFromPhoto "t-1"
                  (mkStore [unsyncedReceipt] false false)))),
     Some (photoWithUrl "http://x/2" (photoPlaceholder "t-1"))).
Proof.
  cbv zeta. split.
  - apply (photo_enters_queue_with_url true "t-1" "http://x/2" initialStore
             (fst (addReceipt false "id-9" "http://x/9"
                     (addReceiptFromPhoto "t-1"
                        (mkStore [unsyncedReceipt] false false))))).
    + discriminate.
    + simpl. intros r [<-|[<-|[<-|[]]]]; discriminate.
    + simpl. right. now left.
  - apply (photo_enters_queue_with_url true "t-1" "http://x/2" initialStore
             (addReceiptFromPhoto "t-1"
                (mkStore [unsyncedReceipt] false false))).
    + discriminate.
    + simpl. intros r [<-|[<-|[]]]; discriminate.
    + simpl. now left.
    + reflexivity.
    + simpl. repeat constructor; simpl; [|tauto].
      intros [H|[]]. discriminate H.
    + simpl. intros r [<-|[<-|[]]] Hne; [now elim Hne | reflexivity].
Defined.

(** *** Batches *)

(** The ids of a batch. *)
Lemma flag_batch (batch : list Receipt.t) (st : Store) :
  receipts
    (fold_left
       (fun s receipt =>
          update_receipts
            (map_by_id (Receipt.id receipt) (Receipt.with_syncing (Some true)))
            s)
       batch st) =
  map (fun r =>
         if existsb (fun b => String.eqb (Receipt.id r) (Receipt.id b)) batch
         then Receipt.with_syncing (Some true) r else r)
    (receipts st).
Proof.
  revert st. induction batch as [|b batch IH]; intros st; cbn [fold_left].
  - cbn [existsb]. now rewrite map_id.
  - rewrite IH. cbn [update_receipts set_receipts receipts].
    unfold map_by_id. rewrite map_map. apply map_ext. intros r.
    cbn [existsb].
    destruct (String.eqb (Receipt.id r) (Receipt.id b)) eqn:E; cbn [orb].
    + cbn [Receipt.with_syncing Receipt.id].
      destruct (existsb _ batch); reflexivity.
    + reflexivity.
Qed.

Lemma syncLocalDataToSheets_flags (st : Store) :
  receipts (fst (syncLocalDataToSheets true st)) =
  map (fun r =>
         if existsb (fun b => String.eqb (Receipt.id r) (Receipt.id b))
              (filter unsynced (receipts st))
         then Receipt.with_syncing (Some true) r else r)
    (receipts st).
Proof.
  unfold syncLocalDataToSheets. cbn [negb].
  destruct (filter unsynced (receipts st)) as [|b batch] eqn:Hb.
  - cbn. now rewrite map_id.
  - cbn [List.length Nat.eqb fst]. apply flag_batch.
Qed.

Lemma find_map_same_id (k : string) (g : Receipt.t -> Receipt.t)
  (l : list Receipt.t) :
  (forall r, Receipt.id (g r) = Receipt.id r) ->
  find (fun r => String.eqb (Receipt.id r) k) (map g l) =
  option_map g (find (fun r => String.eqb (Receipt.id r) k) l).
Proof.
  intros Hg. induction l as [|a l IH]; simpl; [reflexivity|].
  rewrite Hg. destruct (String.eqb (Receipt.id a) k); [reflexivity | exact IH].
Qed.




(** *** Edits *)

Lemma find_replaced (u : Receipt.t) (l : list Receipt.t) :
  find (fun r => String.eqb (Receipt.id r) (Receipt.id u))
    (map_by_id (Receipt.id u) (fun _ => u) l) =
  if existsb (fun r => String.eqb (Receipt.id r) (Receipt.id u)) l
  then Some u else None.
Proof.
  induction l as [|a l IH]; simpl; [reflexivity|].
  destruct (String.eqb (Receipt.id a) (Receipt.id u)) eqn:E; simpl.
  - now rewrite String.eqb_refl.
  - now rewrite E.
Qed.

Lemma map_by_id_replaced (u : Receipt.t) (f : Receipt.t -> Receipt.t)
  (l : list Receipt.t) :
  Receipt.id (f u) = Receipt.id u ->
  map_by_id (Receipt.id u) f (map_by_id (Receipt.id u) (fun _ => u) l) =
  map_by_id (Receipt.id u) (fun _ => f u) l.
Proof.
  intros Hid. unfold map_by_id. rewrite map_map. apply map_ext. intros r.
  destruct (String.eqb (Receipt.id r) (Receipt.id u)) eqn:E.
  - now rewrite String.eqb_refl.
  - now rewrite E.
Qed.

(** X6. [updateReceipt] replaces every record with the edited record's id
    by the edit marked as not synced.  A save of the edit is issued exactly
    when the remote store is configured, the id is in the list, and the edit
    is completed and not flagged as syncing; the record is then flagged as
    syncing.  In every other case nothing is sent. *)
Theorem updateReceipt_saves_edit (configured : bool)
  (updatedReceipt : Receipt.t) (st : Store) :
  let edit := Receipt.with_isSynced (Some false) updatedReceipt in
  let sent :=
    configured
    && existsb
         (fun r => String.eqb (Receipt.id r) (Receipt.id updatedReceipt))
         (receipts st)
    && Status_eqb (Receipt.status updatedReceipt) completed
    && negb (truthy_bool (Receipt.syncing updatedReceipt)) in
  snd (updateReceipt configured updatedReceipt st) =
    (if sent then [CallSave edit] else []) /\
  receipts (fst (updateReceipt configured updatedReceipt st)) =
    map_by_id (Receipt.id updatedReceipt)
      (fun _ => if sent then Receipt.with_syncing (Some true) edit else edit)
      (receipts st).
Proof.
  intros edit sent. subst sent. unfold updateReceipt. fold edit.
  change (Receipt.id edit) with (Receipt.id updatedReceipt).
  destruct configured; cbn [andb]; [|split; reflexivity].
  unfold retrySync.
  cbn [update_receipts set_receipts receipts].
  change (Receipt.id updatedReceipt) with (Receipt.id edit).
  rewrite find_replaced.
  destruct (existsb _ (receipts st)) eqn:Hex; cbn [andb];
    [|split; reflexivity].
  change (Receipt.status edit) with (Receipt.status updatedReceipt).
  change (Receipt.syncing edit) with (Receipt.syncing updatedReceipt).
  change (truthy_bool (Receipt.isSynced edit)) with false.
  destruct (Status_eqb (Receipt.status updatedReceipt) completed);
    cbn [negb orb andb]; [|split; reflexivity].
  destruct (truthy_bool (Receipt.syncing updatedReceipt));
    cbn [negb orb andb fst snd]; [split; reflexivity|].
  split; [reflexivity|].
  cbn [update_receipts set_receipts receipts].
  now rewrite map_by_id_replaced.
Qed.

Lemma retrySync_touches_syncing (configured : bool) (receiptId : string)
  (st : Store) :
  map (Receipt.with_syncing None)
    (receipts (fst (retrySync configured receiptId st))) =
  map (Receipt.with_syncing None) (receipts st).
Proof.
  unfold retrySync.
  destruct (find _ (receipts st)) as [r|]; [|reflexivity].
  destruct (_ || _); [reflexivity|].
  destruct (negb configured); [reflexivity|].
  cbn [fst update_receipts set_receipts receipts]. unfold map_by_id.
  rewrite map_map. apply map_ext. intros a.
  destruct (String.eqb (Receipt.id a) receiptId); reflexivity.
Qed.

Lemma retrySyncEach_touches_syncing (configured : bool) (ids : list string)
  (st : Store) :
  map (Receipt.with_syncing None)
    (receipts (fst (retrySyncEach configured ids st))) =
  map (Receipt.with_syncing None) (receipts st).
Proof.
  unfold retrySyncEach.
  change st with (fst (st, @nil RemoteCall)) at 2.
  generalize (st, @nil RemoteCall). induction ids as [|id ids IH];
    intros acc; cbn [fold_left]; [reflexivity|].
  rewrite IH. clear IH.
  pose proof (retrySync_touches_syncing configured id (fst acc)) as H.
  destruct (retrySync configured id (fst acc)) as [s calls]. exact H.
Qed.

Lemma find_by_id_unique (l : list Receipt.t) (b : Receipt.t) :
  NoDup (map Receipt.id l) -> In b l ->
  find (fun r => String.eqb (Receipt.id r) (Receipt.id b)) l = Some b.
Proof.
  induction l as [|a l IH]; simpl; intros Hnd Hin; [contradiction|].
  inversion Hnd as [|? ? Hn Hd]; subst.
  destruct Hin as [->|Hin]; [now rewrite String.eqb_refl|].
  destruct (String.eqb (Receipt.id a) (Receipt.id b)) eqn:E.
  - apply String.eqb_eq in E. exfalso. apply Hn. rewrite E.
    now apply in_map.
  - now apply IH.
Qed.

Lemma map_by_id_ids (id : string) (f : Receipt.t -> Receipt.t)
  (l : list Receipt.t) :
  (forall r, Receipt.id (f r) = Receipt.id r) ->
  map Receipt.id (map_by_id id f l) = map Receipt.id l.
Proof.
  intros Hf. unfold map_by_id. rewrite map_map. apply map_ext. intros r.
  destruct (String.eqb (Receipt.id r) id); [apply Hf | reflexivity].
Qed.

Lemma map_by_id_In_other (id : string) (f : Receipt.t -> Receipt.t)
  (l : list Receipt.t) (b : Receipt.t) :
  In b l -> Receipt.id b <> id -> In b (map_by_id id f l).
Proof.
  intros Hin Hne. unfold map_by_id. apply in_map_iff. exists b.
  split; [|exact Hin].
  destruct (String.eqb (Receipt.id b) id) eqn:E; [|reflexivity].
  apply String.eqb_eq in E. contradiction.
Qed.

(** The saves of a round of [retrySync] over records with distinct ids. *)
Lemma retrySyncEach_calls (batch : list Receipt.t) :
  forall (acc : Store * list RemoteCall),
  NoDup (map Receipt.id (receipts (fst acc))) ->
  NoDup (map Receipt.id batch) ->
  (forall b, In b batch -> In b (receipts (fst acc))) ->
  snd (fold_left
         (fun acc id =>
            let (s, calls) := retrySync true id (fst acc) in
            (s, snd acc ++ calls))
         (map Receipt.id batch) acc) =
  snd acc ++ map CallSave (filter awaiting_sync batch).
Proof.
  induction batch as [|b batch IH]; intros acc Hst Hb Hin;
    cbn [map fold_left filter]; [now rewrite app_nil_r|].
  inversion Hb as [|? ? Hn Hd]; subst.
  assert (Hfind := find_by_id_unique _ b Hst (Hin b (or_introl eq_refl))).
  unfold retrySync at 2. rewrite Hfind, retrySync_guard.
  destruct (awaiting_sync b) eqn:Ha; cbn [negb].
  - rewrite IH; cbn [fst snd update_receipts set_receipts receipts].
    + cbn [map]. now rewrite <- app_assoc.
    + now rewrite map_by_id_ids.
    + exact Hd.
    + intros b' Hb'. apply map_by_id_In_other; [apply Hin; now right|].
      intros E. apply Hn. rewrite <- E. now apply in_map.
  - rewrite IH; cbn [fst snd].
    + now rewrite app_nil_r.
    + exact Hst.
    + exact Hd.
    + intros b' Hb'. apply Hin. now right.
Qed.

Lemma NoDup_map_filter {A B : Type} (key : A -> B) (keep : A -> bool)
  (records : list A) (Hkeys : NoDup (map key records)) :
  NoDup (map key (filter keep records)).
Proof.
  induction records as [|r records IH]; simpl in *; [constructor|].
  inversion Hkeys as [|? ? Hn Hd]; subst.
  destruct (keep r); simpl; [|now apply IH].
  constructor; [|now apply IH].
  intros Hi. apply Hn. apply in_map_iff in Hi. destruct Hi as [x [Hx Hi]].
  apply filter_In in Hi. rewrite <- Hx. apply in_map. tauto.
Qed.

(** X7. [updateStoreAddress] gives the new address to every record of the
    store and marks it as not synced; apart from the syncing flag no other
    record changes.  With no record of that store, or without a configured
    remote store, nothing is sent; otherwise, when the ids of the list are
    pairwise distinct, one save is issued for each completed record of the
    store that is not already syncing, in list order, carrying the new
    address. *)
Theorem updateStoreAddress_edits_and_saves (configured : bool)
  (storeCnpj newAddress : string) (st : Store) :
  let ofStore r := strict_eq_string (Receipt.storeCnpj r) storeCnpj in
  let edit r :=
    Receipt.with_isSynced (Some false)
      (with_storeAddress (Some newAddress) r) in
  let after := updateStoreAddress configured storeCnpj newAddress st in
  map (Receipt.with_syncing None) (receipts (fst after)) =
    map (fun r => Receipt.with_syncing None (if ofStore r then edit r else r))
      (receipts st) /\
  (configured = false -> snd after = []) /\
  (NoDup (map Receipt.id (receipts st)) ->
   configured = true ->
   snd after =
     map CallSave
       (filter (fun r => Status_eqb (Receipt.status r) completed
                         && negb (truthy_bool (Receipt.syncing r)))
          (map edit (filter ofStore (receipts st))))).
Proof.
  intros ofStore edit after. subst after. unfold updateStoreAddress.
  fold ofStore. fold edit.
  destruct (filter ofStore (receipts st)) as [|b batch] eqn:Hb.
  - cbn [map List.length Nat.eqb fst snd filter].
    assert (Hnone : forall r, In r (receipts st) -> ofStore r = false).
    { intros r Hr. destruct (ofStore r) eqn:E; [|reflexivity].
      assert (Hi : In r (filter ofStore (receipts st)))
        by (apply filter_In; now split).
      rewrite Hb in Hi. destruct Hi. }
    split; [|split; reflexivity].
    apply map_ext_in. intros r Hr. now rewrite (Hnone r Hr).
  - rewrite <- Hb. clear Hb b batch.
    destruct (Nat.eqb _ 0) eqn:Hz.
    { apply Nat.eqb_eq in Hz. rewrite length_map in Hz.
      apply length_zero_iff_nil in Hz. rewrite Hz. cbn [fst snd map filter].
      assert (Hnone : forall r, In r (receipts st) -> ofStore r = false).
      { intros r Hr. destruct (ofStore r) eqn:E; [|reflexivity].
        assert (Hi : In r (filter ofStore (receipts st)))
          by (apply filter_In; now split).
        rewrite Hz in Hi. destruct Hi. }
      split; [|split; reflexivity].
      apply map_ext_in. intros r Hr. now rewrite (Hnone r Hr). }
    destruct configured.
    + split; [|split; [discriminate|]].
      * rewrite retrySyncEach_touches_syncing.
        cbn [update_receipts set_receipts receipts]. now rewrite map_map.
      * intros Hnd _. unfold retrySyncEach.
        set (st1 := update_receipts _ st).
        assert (Hids : map Receipt.id (filter ofStore (receipts st)) =
                       map Receipt.id (map edit (filter ofStore (receipts st)))).
        { rewrite map_map. reflexivity. }
        rewrite Hids.
        rewrite (retrySyncEach_calls _ (st1, [])).
        -- cbn [snd app]. f_equal. apply filter_ext_in. intros r Hr.
           apply in_map_iff in Hr. destruct Hr as [r0 [<- _]].
           unfold awaiting_sync. cbn. now rewrite andb_true_r.
        -- subst st1. cbn [fst update_receipts set_receipts receipts].
           rewrite map_map.
           rewrite (map_ext _ Receipt.id); [exact Hnd|]. intros r.
           destruct (strict_eq_string (Receipt.storeCnpj r) storeCnpj);
             reflexivity.
        -- rewrite <- Hids. now apply NoDup_map_filter.
        -- intros r Hr. subst st1.
           cbn [fst update_receipts set_receipts receipts].
           apply in_map_iff in Hr. destruct Hr as [r0 [<- Hr0]].
           apply filter_In in Hr0. destruct Hr0 as [Hin Hof].
           apply in_map_iff. exists r0. split; [|exact Hin].
           unfold ofStore in Hof. now rewrite Hof.
    + cbn [fst snd update_receipts set_receipts receipts].
      split; [now rewrite map_map | split; [reflexivity | discriminate]].
Qed.

Lemma updateStoreAddress_edits_and_saves_witness :
  snd (updateStoreAddress true "12.345" "Rua Nova, 1"
         (mkStore
            [Receipt.with_isSynced (Some true)
               (completedReceipt (newReceipt "id-2" "http://x/2")
                  (Parsed.mk (Some "Loja A") (Some "12.345") None None
                     (Some 10.5%Q) (Some []) None None None));
             newReceipt "id-1" "http://x/1"] false false)) =
  [CallSave
     (Receipt.with_isSynced (Some false)
        (with_storeAddress (Some "Rua Nova, 1")
           (Receipt.with_isSynced (Some true)
              (completedReceipt (newReceipt "id-2" "http://x/2")
                 (Parsed.mk (Some "Loja A") (Some "12.345") None None
                    (Some 10.5%Q) (Some []) None None None)))))].
Proof.
  apply (updateStoreAddress_edits_and_saves true "12.345" "Rua Nova, 1").
  - simpl. repeat constructor; simpl; [|tauto].
    intros [H|[]]. discriminate H.
  - reflexivity.
Defined.

Lemma find_requeued (receiptId : string) (l : list Receipt.t) :
  existsb queued l = false ->
  find queued (map_by_id receiptId reprocessing l) =
  option_map reprocessing
    (find (fun r => String.eqb (Receipt.id r) receiptId
                    && truthy_string (Receipt.url r)) l).
Proof.
  induction l as [|a l IH]; simpl; intros H; [reflexivity|].
  apply orb_false_iff in H. destruct H as [Ha Hl].
  destruct (String.eqb (Receipt.id a) receiptId); cbn [andb].
  - change (queued (reprocessing a)) with (truthy_string (Receipt.url a)).
    destruct (truthy_string (Receipt.url a)); [reflexivity | now apply IH].
  - rewrite Ha. now apply IH.
Qed.

(** X8. On an idle service with an empty queue, [reprocessReceipt] puts
    the first record with the given id that has a non-empty url back into
    extraction at the next run of the trigger, with its error cleared.  A
    record without url is set to processing as well, but it is never
    extracted. *)
Theorem reprocessReceipt_requeues (configured : bool) (receiptId : string)
  (st : Store) :
  isProcessing st = false ->
  existsb queued (receipts st) = false ->
  let st' := fst (reprocessReceipt configured receiptId st) in
  snd (queueTrigger st') =
    option_map reprocessing
      (find (fun r => String.eqb (Receipt.id r) receiptId
                      && truthy_string (Receipt.url r)) (receipts st)) /\
  (forall r, In r (receipts st') -> Receipt.id r = receiptId ->
     Receipt.status r = processing /\ Receipt.error r = None) /\
  ((forall r, In r (receipts st) -> Receipt.id r = receiptId ->
      truthy_string (Receipt.url r) = false) ->
   queueTrigger st' = (st', None)).
Proof.
  intros Hidle Hq st'.
  assert (Hfind := find_requeued receiptId (receipts st) Hq).
  assert (Hfirst : snd (queueTrigger st') =
            option_map reprocessing
              (find (fun r => String.eqb (Receipt.id r) receiptId
                              && truthy_string (Receipt.url r)) (receipts st))
          /\ (find queued (receipts st') = None -> queueTrigger st' = (st', None))).
  { subst st'. unfold reprocessReceipt, queueTrigger, processQueue.
    cbn [fst update_receipts set_receipts receipts isProcessing].
    rewrite Hidle. cbn [negb]. rewrite andb_true_r.
    destruct (existsb queued (map_by_id receiptId reprocessing (receipts st)))
      eqn:Hex.
    - rewrite Hfind.
      destruct (find _ (receipts st)) as [r|] eqn:Hf; cbn [option_map].
      + apply find_some in Hf. destruct Hf as [_ Hf].
        apply andb_true_iff in Hf. destruct Hf as [_ Hu].
        change (Receipt.url (reprocessing r)) with (Receipt.url r).
        rewrite Hu. split; [reflexivity | discriminate].
      + split; reflexivity.
    - split; [|reflexivity].
      destruct (find _ (receipts st)) as [r|] eqn:Hf; [|reflexivity].
      cbn [option_map] in Hfind.
      apply find_some in Hfind. destruct Hfind as [Hin Hqr].
      assert (Ht : existsb queued
                     (map_by_id receiptId reprocessing (receipts st)) = true)
        by (apply existsb_exists; eexists; split; eassumption).
      rewrite Ht in Hex. discriminate Hex. }
  destruct Hfirst as [H1 H2]. split; [exact H1|]. split.
  - intros r Hr Hid. subst st'. unfold reprocessReceipt in Hr.
    cbn [fst update_receipts set_receipts receipts] in Hr.
    unfold map_by_id in Hr. apply in_map_iff in Hr.
    destruct Hr as [r0 [Hr0 _]].
    destruct (String.eqb (Receipt.id r0) receiptId) eqn:E.
    + subst r. split; reflexivity.
    + subst r0. rewrite Hid, String.eqb_refl in E. discriminate E.
  - intros Hnourl. apply H2.
    subst st'. unfold reprocessReceipt.
    cbn [fst update_receipts set_receipts receipts]. rewrite Hfind.
    assert (Hn : find (fun r => String.eqb (Receipt.id r) receiptId
                                && truthy_string (Receipt.url r))
                   (receipts st) = None).
    { apply find_none_iff. intros r Hr.
      destruct (String.eqb (Receipt.id r) receiptId) eqn:E; [|reflexivity].
      apply String.eqb_eq in E. now rewrite (Hnourl r Hr E). }
    now rewrite Hn.
Qed.

Lemma reprocessReceipt_requeues_witness :
  snd (queueTrigger
         (fst (reprocessReceipt true "id-1"
                 (mkStore
                    [errorReceipt (newReceipt "id-1" "http://x/1") "falhou"]
                    false false)))) =
  Some (reprocessing (errorReceipt (newReceipt "id-1" "http://x/1") "falhou")).
Proof.
  apply (reprocessReceipt_requeues true "id-1"
           (mkStore [errorReceipt (newReceipt "id-1" "http://x/1") "falhou"]
              false false));
    reflexivity.
Defined.

(** X9. Without a remote store, what the service keeps in local storage
    is the list without the records that are still processing: after a
    reload the list holds exactly the other records, in order and marked as
    not synced, and the queue is empty.  While the service is loading, or
    with a remote store configured, the stored snapshot is left alone. *)
Theorem local_snapshot_drops_processing (localData : LocalSnapshot)
  (st st0 : Store) :
  isLoading st = false ->
  let reloaded :=
    fst (initialLoad false (storageEffect false localData st) st0) in
  receipts reloaded =
    map (Receipt.with_isSynced (Some false))
      (filter (fun r => negb (Status_eqb (Receipt.status r) processing))
         (receipts st)) /\
  existsb queued (receipts reloaded) = false /\
  isLoading reloaded = false /\
  snd (initialLoad false (storageEffect false localData st) st0) = [] /\
  storageEffect true localData st = localData /\
  storageEffect false localData (set_isLoading true st) = localData.
Proof.
  intros Hload reloaded. subst reloaded. unfold storageEffect.
  rewrite Hload. cbn [negb andb isLoading set_isLoading].
  unfold initialLoad.
  cbn [fst snd set_isLoading set_receipts receipts isLoading].
  repeat split.
  induction (receipts st) as [|a l IH]; [reflexivity|].
  cbn [filter]. destruct (Status_eqb (Receipt.status a) processing) eqn:E;
    cbn [negb]; [exact IH|].
  cbn [map existsb]. rewrite IH.
  unfold queued. cbn [Receipt.with_isSynced Receipt.status].
  now rewrite E.
Qed.

Lemma local_snapshot_drops_processing_witness :
  receipts
    (fst (initialLoad false
            (storageEffect false NoSnapshot
               (mkStore [newReceipt "id-2" "http://x/2"; unsyncedReceipt]
                  false false))
            initialStore)) =
  [unsyncedReceipt].
Proof.
  apply (local_snapshot_drops_processing NoSnapshot
           (mkStore [newReceipt "id-2" "http://x/2"; unsyncedReceipt]
              false false) initialStore).
  reflexivity.
Defined.


(** ** The script url and the extraction gateway *)

Lemma prefix_nonempty (p s : string) :
  p <> "" -> String.prefix p s = true -> s <> "".
Proof.
  intros Hp H ->. destruct p; [now apply Hp | discriminate H].
Qed.

(** X10. [setScriptUrl] accepts exactly the urls that begin with the
    address of the script host.  An accepted url configures the service,
    clears the connection error and is stored, so that a service constructed
    later from the storage is the same service; a rejected url changes
    neither the service nor the storage.  After [clearScriptUrl] the service
    is not configured, now and after a reload, and its operations send no
    request. *)
Theorem setScriptUrl_persists (url : string) (s : SheetsService.t)
  (storage : option string) (receipt : Receipt.t) (receiptId : string)
  (listing : SheetsService.HttpOutcome (list Receipt.t))
  (outcome : SheetsService.HttpOutcome (option Ack))
  (migration : SheetsService.HttpOutcome (option SheetsService.MigrateReply)) :
  let after := SheetsService.setScriptUrl url s storage in
  let cleared := SheetsService.clearScriptUrl s storage in
  (if String.prefix "https://script.google.com/macros/s/" url
   then
     SheetsService.set_success (fst (fst after)) = true /\
     snd (fst after) = SheetsService.mk (Some url) None /\
     SheetsService.isConfigured (snd (fst after)) = true /\
     SheetsService.construct (snd after) = snd (fst after)
   else
     SheetsService.set_success (fst (fst after)) = false /\
     snd (fst after) = s /\ snd after = storage) /\
  SheetsService.isConfigured (fst cleared) = false /\
  SheetsService.isConfigured (SheetsService.construct (snd cleared)) = false /\
  SheetsService.getReceipts listing (fst cleared)
  = (Next [], fst cleared, []) /\
  SheetsService.saveReceipt receipt outcome (fst cleared)
  = (Next None, fst cleared, []) /\
  SheetsService.deleteReceipt receiptId outcome (fst cleared)
  = (Next None, fst cleared, []) /\
  SheetsService.migrateOldData migration (fst cleared)
  = (Next None, fst cleared, []).
Proof.
  intros after cleared. subst after cleared.
  unfold SheetsService.setScriptUrl, SheetsService.clearScriptUrl.
  split; [|repeat split].
  destruct (String.prefix _ url) eqn:Hp.
  - assert (Hne : url <> "") by (eapply prefix_nonempty; [|exact Hp]; discriminate).
    apply String.eqb_neq in Hne. rewrite Hne. cbn [negb andb fst snd].
    unfold SheetsService.isConfigured, SheetsService.construct.
    cbn [SheetsService.scriptUrl truthy_string]. rewrite Hne.
    repeat split.
  - rewrite andb_false_r. repeat split.
Qed.

(** X11. For an answer of the model written in ASCII: the url that
    [extractUrlFromImage] returns is the trimmed answer, and it begins with
    [http]; every other outcome is an [Error].  So a photo whose answer is
    not a url ends with exactly the message that no url was found, and when
    the answer is a url that no record carries, a placeholder that is still
    in the list, whatever the list has become by then, becomes a queued
    record carrying that url. *)
Theorem extractUrlFromImage_validates (attempt : Gemini.Attempt)
  (Hascii : forall text, attempt = Gemini.Answered text ->
                         Analytics.isAscii text = true) :
  (forall url, Gemini.extractUrlFromImage attempt = inr url ->
     String.prefix "http" url = true /\ url <> "" /\
     exists text, attempt = Gemini.Answered text /\ url = Analytics.trim text) /\
  (forall error, Gemini.extractUrlFromImage attempt = inl error ->
     exists message, error = ErrorObject message) /\
  (forall text, attempt = Gemini.Answered text ->
     String.prefix "http" (Analytics.trim text) = false ->
     forall configured tempId st1,
       addReceiptFromPhoto_settled configured tempId
         (Gemini.extractUrlFromImage attempt) st1 =
       (update_receipts
          (map_by_id tempId
             (failedPhoto Gemini.noUrlFound "Falha na Extração da URL")) st1,
        [])) /\
  (forall text, attempt = Gemini.Answered text ->
     String.prefix "http" (Analytics.trim text) = true ->
     forall configured tempId st1,
       (forall r, In r (receipts st1) ->
          Receipt.url r <> Some (Analytics.trim text)) ->
       In (photoPlaceholder tempId) (receipts st1) ->
       let st' :=
         fst (addReceiptFromPhoto_settled configured tempId
                (Gemini.extractUrlFromImage attempt) st1) in
       let ready := photoWithUrl (Analytics.trim text) (photoPlaceholder tempId) in
       In ready (receipts st') /\ queued ready = true).
Proof.
  clear Hascii. split; [|split; [|split]].
  - intros url H. destruct attempt as [text|error]; simpl in H.
    + destruct (String.eqb (Analytics.trim text) "") eqn:He; simpl in H.
      { discriminate H. }
      destruct (String.prefix "http" (Analytics.trim text)) eqn:Hp;
        simpl in H.
      * injection H as <-. apply String.eqb_neq in He.
        repeat split; [exact Hp | exact He | now exists text].
      * discriminate H.
    + destruct (Gemini.includes _ _); discriminate H.
  - intros error H. destruct attempt as [text|e]; simpl in H.
    + destruct (_ || _); [|discriminate H].
      injection H as <-; now eexists.
    + destruct (Gemini.includes _ _); injection H as <-; now eexists.
  - intros text -> Hp configured tempId st1. simpl.
    rewrite Hp. cbn [negb]. rewrite orb_true_r. reflexivity.
  - intros text -> Hp configured tempId st1 Hfresh Hin st' ready.
    assert (Hne : Analytics.trim text <> "")
      by (eapply prefix_nonempty; [|exact Hp]; discriminate).
    assert (Hst : st' = fst (addReceiptFromPhoto_fulfilled configured tempId
                               (Analytics.trim text) st1)).
    { subst st'. cbn [Gemini.extractUrlFromImage]. rewrite Hp. cbn [negb].
      rewrite orb_false_r. apply String.eqb_neq in Hne. rewrite Hne.
      reflexivity. }
    rewrite Hst.
    now destruct (photo_ready configured tempId (Analytics.trim text) st1
                    Hne Hfresh Hin) as [_ H].
Qed.

Lemma extractUrlFromImage_validates_witness :
  In (photoWithUrl "http://x/2" (photoPlaceholder "t-1"))
    (receipts
       (fst (addReceiptFromPhoto_settled true "t-1"
               (Gemini.extractUrlFromImage (Gemini.Answered " http://x/2 "))
               (fst (addReceipt false "id-9" "http://x/9"
                       (addReceiptFromPhoto "t-1"
                          (mkStore [unsyncedReceipt] false false))))))) /\
  queued (photoWithUrl "http://x/2" (photoPlaceholder "t-1")) = true.
Proof.
  assert (Hascii : forall text,
            Gemini.Answered " http://x/2 " = Gemini.Answered text ->
            Analytics.isAscii text = true)
    by (intros text [= <-]; reflexivity).
  destruct (extractUrlFromImage_validates (Gemini.Answered " http://x/2 ")
              Hascii) as [_ [_ [_ H]]].
  apply (H " http://x/2 " eq_refl eq_refl true "t-1"
           (fst (addReceipt false "id-9" "http://x/9"
                   (addReceiptFromPhoto "t-1"
                      (mkStore [unsyncedReceipt] false false))))).
  - simpl. intros r [<-|[<-|[<-|[]]]]; discriminate.
  - simpl. right. now left.
Defined.

Lemma prefix_append (p s : string) : String.prefix p (p ++ s) = true.
Proof.
  induction p as [|c p IH]; simpl; [now destruct s|].
  destruct (ascii_dec c c) as [_|H]; [exact IH | now elim H].
Qed.

(** X12. Every failure of [extractReceiptDataFromUrl] is an [Error] whose
    message names the stage that failed: the download of the page, exactly
    when the failure is an http error response, or the processing of its
    content.  The queue stores this message on the record: its own fallback
    text is never used for a failure of the gateway. *)
Theorem extraction_failure_names_stage (error : Gemini.Caught)
  (configured : bool) (r : Receipt.t) (st : Store) :
  exists message,
    Gemini.extractReceiptDataFromUrl_rejection error = ErrorObject message /\
    (String.prefix "Falha ao buscar os dados da URL da nota fiscal. " message
     = true <->
     exists status text, error = Gemini.HttpErrorResponse status text) /\
    (String.prefix "Erro no processamento com a IA: " message = true <->
     forall status text, error <> Gemini.HttpErrorResponse status text) /\
    processQueue_rejected configured r
      (Gemini.extractReceiptDataFromUrl_rejection error) st =
    (set_isProcessing false
       (update_receipts
          (map_by_id (Receipt.id r) (fun _ => errorReceipt r message)) st),
     if configured then [CallSave (errorReceipt r message)] else []).
Proof.
  destruct error as [status text|m|m|t|];
    cbn [Gemini.extractReceiptDataFromUrl_rejection].
  1: destruct (status =? 0)%Z.
  all: eexists; split; [reflexivity|].
  all: split; [|split; [|reflexivity]].
  all: try (split; [intros _; now eexists _, _ | intros _; apply prefix_append]).
  all: try (split; [intros H; discriminate H
                   | intros [s [x H]]; discriminate H]).
  all: try (split; [intros H; discriminate H
                   | intros H; exfalso; now apply (H status text)]).
  all: split; [intros _ s x; discriminate | intros _; apply prefix_append].
Qed.

(** ** The backend: entry point, repair, migration *)

Module RouterFacts.
Import Backend BackendFacts Router.

(** X13. [getSheet] repairs the header row and nothing else: the data rows
    and the columns after the expected headers are kept, the expected
    headers come first afterwards, and a second call changes nothing. *)
Theorem getSheet_repairs_header_only (sheet : Sheet) (hs : list string) :
  hs <> [] ->
  Forall (fun h => h <> "") hs ->
  rows (getSheet sheet hs) = rows sheet /\
  firstn (List.length hs) (header (getSheet sheet hs)) = hs /\
  skipn (List.length hs) (header (getSheet sheet hs))
  = skipn (List.length hs) (header sheet) /\
  getSheet (getSheet sheet hs) hs = getSheet sheet hs.
Proof.
  intros Hne Hnames.
  destruct (getSheet_header sheet hs Hnames) as [[extra Hh] Hr].
  split; [exact Hr|]. split; [|split].
  - rewrite Hh, firstn_app, Nat.sub_diag, firstn_all. simpl.
    now rewrite app_nil_r.
  - unfold getSheet.
    destruct (getLastRow sheet <? 1)%Z eqn:Hb.
    + apply getLastRow_blank in Hb. destruct Hb as [-> _]. simpl.
      now rewrite skipn_all, skipn_nil.
    + destruct (headersMatch hs _); [reflexivity|]. simpl.
      rewrite skipn_app, Nat.sub_diag, skipn_all. reflexivity.
  - exact (getSheet_fixed _ hs extra Hne Hh).
Qed.

Lemma getSheet_repairs_header_only_witness :
  rows (getSheet (mkSheet ["uuid"; "link"] [[Str "r-1"; Str "http://x/1"]])
          receiptHeaders)
  = [[Str "r-1"; Str "http://x/1"]].
Proof.
  apply (getSheet_repairs_header_only
           (mkSheet ["uuid"; "link"] [[Str "r-1"; Str "http://x/1"]])
           receiptHeaders).
  - discriminate.
  - exact receiptHeaders_nonempty.
Defined.

Lemma openSheets_rows (ss : Spreadsheet) :
  rows (Recibos (openSheets ss)) = rows (Recibos ss) /\
  rows (Itens (openSheets ss)) = rows (Itens ss).
Proof.
  unfold openSheets. cbn [Recibos Itens]. split.
  - apply getSheet_header, receiptHeaders_nonempty.
  - apply getSheet_header, itemHeaders_nonempty.
Qed.

Lemma handleGet_rows (P : Platform) (ss : Spreadsheet) :
  rows (Recibos (snd (handleGet P ss))) = rows (Recibos ss) /\
  Itens (snd (handleGet P ss)) = Itens ss.
Proof.
  unfold handleGet.
  destruct (getLastRow _ <? 2)%Z; cbn [snd Recibos Itens];
    (split; [apply getSheet_header, receiptHeaders_nonempty | reflexivity]).
Qed.

(** X14. A request that does not pass the checks of [doGet] (no payload,
    a payload that does not parse, no action, an unknown action, a delete
    without id, a save without data or without an id in it) is answered
    with an error object and writes no data row.  Listing the receipts
    writes no data row either. *)
Theorem doGet_rejects_without_writing (P : Platform)
  (display : Value -> string) (payload : option string) (ss : Spreadsheet) :
  (accepted P payload = false ->
   is_error (fst (doGet P display payload ss)) /\
   rows (Recibos (snd (doGet P display payload ss))) = rows (Recibos ss) /\
   rows (Itens (snd (doGet P display payload ss))) = rows (Itens ss)) /\
  (forall text request,
     payload = Some text -> text <> "" ->
     JSON_parse P text = Some request ->
     get request "action" = Str "get" ->
     doGet P display payload ss = handleGet P ss /\
     rows (Recibos (snd (doGet P display payload ss))) = rows (Recibos ss) /\
     rows (Itens (snd (doGet P display payload ss))) = rows (Itens ss)).
Proof.
  destruct (openSheets_rows ss) as [HoR HoI].
  split.
  - unfold accepted, doGet.
    destruct payload as [text|]; cbn [truthy_string negb].
    2:{ intros _. split; [eexists; left; reflexivity | now split]. }
    destruct (String.eqb text "") eqn:Ht; cbn [negb andb].
    { intros _. split; [eexists; left; reflexivity | now split]. }
    destruct (JSON_parse P text) as [request|].
    2:{ intros _. split; [eexists; right; reflexivity | now split]. }
    destruct (prop request "action") as [action|message].
    2:{ intros _. split; [eexists; right; reflexivity | now split]. }
    destruct (truthy action) eqn:Hta; cbn [negb].
    2:{ intros _. split; [eexists; left; reflexivity | now split]. }
    destruct (is_string action "get"); cbn [orb]; [discriminate|].
    destruct (is_string action "delete") eqn:Hd; cbn [orb andb].
    { destruct (is_string action "migrate"); cbn [orb]; [discriminate|].
      destruct (truthy (get request "id")); cbn [negb orb];
        [discriminate|].
      intros _. split; [eexists; left; reflexivity | now split]. }
    destruct (is_string action "migrate"); cbn [orb]; [discriminate|].
    destruct (is_string action "save"); cbn [andb].
    2:{ intros _. split; [eexists; left; reflexivity | now split]. }
    destruct (truthy (get request "data")); cbn [negb andb].
    2:{ intros _. split; [eexists; left; reflexivity | now split]. }
    destruct (truthy (get (get request "data") "id")); cbn [negb];
      [discriminate|].
    intros _. split; [eexists; left; reflexivity | now split].
  - intros text request -> Hne Hp Ha.
    assert (Hd : doGet P display (Some text) ss = handleGet P ss).
    { unfold doGet. cbn [truthy_string].
      apply String.eqb_neq in Hne. rewrite Hne. cbn [negb]. rewrite Hp.
      assert (Hprop : prop request "action" = Returned (Str "get")).
      { unfold prop. rewrite Ha.
        destruct request; try reflexivity; discriminate Ha. }
      rewrite Hprop. reflexivity. }
    rewrite Hd. split; [reflexivity|].
    destruct (handleGet_rows P ss) as [H1 H2]. split; [exact H1|].
    now rewrite H2.
Qed.

Lemma doGet_rejects_without_writing_witness :
  is_error
    (fst (doGet Reference.platform Reference.stringify
            (Some (Reference.stringify
                     (Obj [("action", Str "save");
                           ("data", Obj [("url", Str "http://x/1")])])))
            Reference.emptySpreadsheet)).
Proof.
  apply (doGet_rejects_without_writing Reference.platform Reference.stringify
           (Some (Reference.stringify
                    (Obj [("action", Str "save");
                          ("data", Obj [("url", Str "http://x/1")])])))
           Reference.emptySpreadsheet).
  vm_compute. reflexivity.
Defined.


Lemma loose_eq_refl (P : Platform) (v : Value) :
  is_object v = false -> loose_eq P v v = true.
Proof.
  destruct v; simpl; intros H; try reflexivity; try discriminate H.
  - apply Bool.eqb_reflx.
  - apply Qeq_bool_iff. reflexivity.
  - apply String.eqb_refl.
Qed.

Lemma written_truthy (v : Value) : truthy v = true -> written v = v.
Proof. destruct v; simpl; intros H; try reflexivity; discriminate H. Qed.

Lemma receiptRow_carries (P : Platform) (sheet : Sheet) (data : Value)
  (extra : list string) :
  header sheet = receiptHeaders ++ extra ->
  truthy (get data "id") = true ->
  is_object (get data "id") = false ->
  carries P (get data "id") (receiptRow P sheet data) = true.
Proof.
  intros Hh Ht Ho. unfold carries, receiptRow.
  rewrite headerValues_width, Hh. cbn [receiptHeaders app map nth].
  unfold receiptCell. cbn [String.eqb Ascii.eqb Bool.eqb]. rewrite Ho.
  assert (Hb : orBlank (get data "id") = get data "id")
    by (destruct (get data "id"); try reflexivity; discriminate Ht).
  rewrite Hb, (written_truthy _ Ht). now apply loose_eq_refl.
Qed.

Lemma itemRow_refers (P : Platform) (sheet : Sheet) (id : Value)
  (it : nat * Value) (extra : list string) :
  header sheet = itemHeaders ++ extra ->
  nth 1 (itemRow P sheet id it) (Str "") = written id.
Proof.
  intros Hh. unfold itemRow. rewrite headerValues_width, Hh.
  unfold indexed. cbn [itemHeaders app List.length seq combine map nth].
  reflexivity.
Qed.

Lemma filter_refers_new (P : Platform) (sheet : Sheet) (id : Value)
  (its : list (nat * Value)) (extra : list string) :
  header sheet = itemHeaders ++ extra ->
  truthy id = true -> is_object id = false ->
  filter (fun row => negb (refersTo P id row)) (map (itemRow P sheet id) its)
  = [] /\
  filter (refersTo P id) (map (itemRow P sheet id) its)
  = map (itemRow P sheet id) its.
Proof.
  intros Hh Ht Ho.
  assert (Hr : forall it, refersTo P id (itemRow P sheet id it) = true).
  { intros it. unfold refersTo.
    rewrite (itemRow_refers P sheet id it extra Hh), (written_truthy _ Ht).
    now apply loose_eq_refl. }
  induction its as [|it its [IH1 IH2]]; [split; reflexivity|].
  cbn [map filter]. rewrite Hr. cbn [negb]. split; [exact IH1|].
  now rewrite IH2.
Qed.

Lemma filter_twice {A : Type} (p : A -> bool) (l : list A) :
  filter p (filter p l) = filter p l.
Proof.
  apply forallb_filter_id. apply forallb_forall. intros x Hx.
  apply filter_In in Hx. tauto.
Qed.

Lemma handleDelete_sheets (P : Platform) (ss : Spreadsheet) (id : Value) :
  snd (handleDelete P ss id) =
  mkSpreadsheet
    (if (findRowById P (Recibos ss) id 1 >? 0)%Z
     then deleteRow (findRowById P (Recibos ss) id 1) (Recibos ss)
     else Recibos ss)
    (deleteItemsByReceiptId P (Itens ss) id).
Proof. reflexivity. Qed.

(** X15. Deleting a receipt right after saving it leaves the sheets as
    deleting it without the save would: the row that the save wrote or
    replaced is the row that the delete removes, and the item rows that the
    save wrote are removed with the older ones. *)
Theorem delete_after_save_is_delete (P : Platform) (ss : Spreadsheet)
  (data : Value) (extraR extraI : list string) :
  header (Recibos ss) = receiptHeaders ++ extraR ->
  header (Itens ss) = itemHeaders ++ extraI ->
  truthy (get data "id") = true ->
  is_object (get data "id") = false ->
  (forall items item, get data "items" = Arr items -> In item items ->
     item <> Null /\ item <> Undefined) ->
  fst (handleSaveOrUpdate P ss data) = Returned (saved (get data "id")) /\
  snd (handleDelete P (snd (handleSaveOrUpdate P ss data)) (get data "id"))
  = snd (handleDelete P ss (get data "id")).
Proof.
  intros HR HI Ht Ho Hitems.
  assert (HneR : header (Recibos ss) <> [])
    by (intros H0; rewrite H0 in HR; discriminate HR).
  split.
  { apply (save_reply P ss data extraR HR). intros items Hi.
    now rewrite (processAndSaveItems_rows P (Itens ss) (get data "id") items extraI HI
                   (fun item => Hitems items item Hi)). }
  rewrite !handleDelete_sheets. f_equal.
  - pose proof (receiptRow_carries P (Recibos ss) data extraR HR Ht Ho)
      as Hcarr.
    destruct (first_carrier P (get data "id") (rows (Recibos ss)))
      as [Hnone | [pre [x [post [Hrows [Hx Hpre]]]]]].
    + rewrite (save_unknown_id P ss data extraR HR Hnone).
      rewrite (findRowById_first P _ (get data "id") (rows (Recibos ss))
                 (receiptRow P (Recibos ss) data) []);
        [| exact HneR | reflexivity | exact Hcarr | exact Hnone].
      rewrite (findRowById_none P (Recibos ss) (get data "id") HneR Hnone).
      replace (Z.of_nat (List.length (rows (Recibos ss))) + 2 >? 0)%Z
        with true by (symmetry; apply Z.gtb_lt; lia).
      cbn [Z.gtb Z.compare]. unfold deleteRow. cbn [header rows].
      replace (Z.to_nat (Z.of_nat (List.length (rows (Recibos ss))) + 2 - 2))
        with (List.length (rows (Recibos ss))) by lia.
      rewrite remove_nth_app, app_nil_r. now destruct (Recibos ss).
    + rewrite (save_existing_id P ss data extraR pre x post HR Hrows Hx Hpre).
      rewrite (findRowById_first P _ (get data "id") pre
                 (receiptRow P (Recibos ss) data) post);
        [| exact HneR | reflexivity | exact Hcarr | exact Hpre].
      rewrite (findRowById_first P (Recibos ss) (get data "id") pre x post
                 HneR Hrows Hx Hpre).
      replace (Z.of_nat (List.length pre) + 2 >? 0)%Z
        with true by (symmetry; apply Z.gtb_lt; lia).
      unfold deleteRow. cbn [header rows]. rewrite Hrows.
      replace (Z.to_nat (Z.of_nat (List.length pre) + 2 - 2))
        with (List.length pre) by lia.
      now rewrite !remove_nth_app.
  - rewrite (save_Itens P ss data extraR HR).
    rewrite (deleteItemsByReceiptId_filter P (Itens ss) (get data "id") extraI HI).
    destruct (get data "items") as [| | | | |items|] eqn:Hi;
      try apply (deleteItemsByReceiptId_filter P (Itens ss) (get data "id") extraI HI).
    rewrite (processAndSaveItems_rows P (Itens ss) (get data "id") items extraI HI
               (fun item => Hitems items item eq_refl)).
    cbn [snd].
    rewrite (deleteItemsByReceiptId_filter P _ (get data "id") extraI) by exact HI.
    cbn [header rows]. f_equal.
    rewrite filter_app, filter_twice.
    destruct (filter_refers_new P
                (mkSheet (header (Itens ss))
                   (filter (fun row => negb (refersTo P (get data "id") row))
                      (rows (Itens ss))))
                (get data "id") (indexed items) extraI HI Ht Ho) as [Hnew _].
    rewrite Hnew. apply app_nil_r.
Qed.

Lemma delete_after_save_is_delete_witness :
  snd (handleDelete Reference.platform
         (snd (handleSaveOrUpdate Reference.platform
                 (openSheets Reference.emptySpreadsheet)
                 (payload_of Reference.testReceipt)))
         (get (payload_of Reference.testReceipt) "id"))
  = snd (handleDelete Reference.platform
           (openSheets Reference.emptySpreadsheet)
           (get (payload_of Reference.testReceipt) "id")).
Proof.
  apply (delete_after_save_is_delete Reference.platform
           (openSheets Reference.emptySpreadsheet)
           (payload_of Reference.testReceipt) [] []).
  - reflexivity.
  - reflexivity.
  - reflexivity.
  - reflexivity.
  - intros items item Hi Hin. vm_compute in Hi. injection Hi as <-.
    simpl in Hin.
    destruct Hin as [<-|[<-|[]]]; split; discriminate.
Defined.


Lemma traverse_threw {A B : Type} (f : A -> Outcome B) (xs : list A)
  (x : A) (e : string) :
  In x xs -> f x = Threw e -> exists e', traverse f xs = Threw e'.
Proof.
  induction xs as [|a xs IH]; simpl; intros Hin Hx; [contradiction|].
  destruct (f a) as [y|e'] eqn:Ha; simpl; [|now exists e'].
  destruct Hin as [->|Hin]; [congruence|].
  destruct (IH Hin Hx) as [e' ->]. now exists e'.
Qed.

Lemma itemRow_threw (P : Platform) (sheet : Sheet) (id item : Value)
  (i : nat) (extra : list string) :
  header sheet = itemHeaders ++ extra ->
  item = Null \/ item = Undefined ->
  traverse (itemCell P id i item)
    (indexed (headerValues (getLastColumn sheet) sheet))
  = Threw "TypeError".
Proof.
  intros Hh Hitem. rewrite headerValues_width, Hh. unfold indexed.
  cbn [itemHeaders app List.length seq combine traverse itemCell
       String.eqb Ascii.eqb Bool.eqb bind].
  destruct Hitem as [-> | ->]; reflexivity.
Qed.

(** X16. A save whose list of items holds [null], for an id that is a
    primitive value, is answered with the error object, yet it is not
    undone: the row of the receipt has been written by then, and the item
    rows the receipt had are gone while none of the new ones is written. *)
Theorem save_with_unreadable_item_is_partial (P : Platform)
  (ss : Spreadsheet) (data : Value) (items : list Value)
  (extraR extraI : list string) :
  header (Recibos ss) = receiptHeaders ++ extraR ->
  header (Itens ss) = itemHeaders ++ extraI ->
  get data "items" = Arr items ->
  In Null items ->
  is_object (get data "id") = false ->
  let run := guarded (handleSaveOrUpdate P ss data) in
  is_error (fst run) /\
  In (receiptRow P (Recibos ss) data) (rows (Recibos (snd run))) /\
  rows (Itens (snd run))
  = filter (fun row => negb (refersTo P (get data "id") row))
      (rows (Itens ss)).
Proof.
  intros HR HI Hi Hnull _ run.
  assert (Hp : exists e,
             processAndSaveItems P (Itens ss) (get data "id") items =
             (Threw e,
              mkSheet (header (Itens ss))
                (filter (fun row => negb (refersTo P (get data "id") row))
                   (rows (Itens ss))))).
  { unfold processAndSaveItems.
    rewrite (deleteItemsByReceiptId_filter P _ _ extraI HI).
    destruct items as [|item items]; [destruct Hnull|].
    cbn [List.length Nat.eqb].
    apply In_nth_error in Hnull. destruct Hnull as [i Hnth].
    apply indexed_nth_error in Hnth. apply nth_error_In in Hnth.
    destruct (traverse_threw
                (fun it : nat * Value =>
                   traverse (itemCell P (get data "id") (fst it) (snd it))
                     (indexed
                        (headerValues
                           (getLastColumn
                              (mkSheet (header (Itens ss))
                                 (filter
                                    (fun row =>
                                       negb (refersTo P (get data "id") row))
                                    (rows (Itens ss)))))
                           (mkSheet (header (Itens ss))
                              (filter
                                 (fun row =>
                                    negb (refersTo P (get data "id") row))
                                 (rows (Itens ss)))))))
                (indexed (item :: items)) (i, Null) "TypeError" Hnth)
      as [e He].
    { cbn [fst snd]. apply (itemRow_threw P _ _ Null i extraI);
        [exact HI | now left]. }
    rewrite He. now exists e. }
  destruct Hp as [e Hp].
  pose proof (save_Recibos_shape P ss data extraR HR) as [_ [_ Hin]].
  pose proof (save_Itens P ss data extraR HR) as Hit.
  rewrite Hi, Hp in Hit. cbn [snd] in Hit.
  assert (Hfst : fst (handleSaveOrUpdate P ss data) = Threw e).
  { unfold handleSaveOrUpdate. rewrite (indexOf_id _ _ HR).
    cbn [Z.add Z.eqb Pos.add]. rewrite Hi, Hp. reflexivity. }
  subst run. unfold guarded.
  destruct (handleSaveOrUpdate P ss data) as [o ss'].
  cbn [fst snd] in *. subst o. cbn [fst snd].
  split; [exists e; now right|]. split; [exact Hin|].
  now rewrite Hit.
Qed.

Lemma save_with_unreadable_item_is_partial_witness :
  is_error
    (fst (guarded
            (handleSaveOrUpdate Reference.platform
               (openSheets Reference.emptySpreadsheet)
               (Obj [("id", Str "r-1"); ("items", Arr [Null])])))).
Proof.
  apply (save_with_unreadable_item_is_partial Reference.platform
           (openSheets Reference.emptySpreadsheet)
           (Obj [("id", Str "r-1"); ("items", Arr [Null])]) [Null] [] []).
  - reflexivity.
  - reflexivity.
  - reflexivity.
  - now left.
  - reflexivity.
Defined.


(** *** Migration *)

Lemma loose_eq_sym (P : Platform) (a b : Value) :
  loose_eq P a b = loose_eq P b a.
Proof.
  assert (Hq : forall x y, Qeq_bool x y = Qeq_bool y x).
  { intros x y. destruct (Qeq_bool x y) eqn:E.
    - symmetry. apply Qeq_bool_iff. symmetry. now apply Qeq_bool_iff.
    - symmetry. destruct (Qeq_bool y x) eqn:E'; [|reflexivity].
      apply Qeq_bool_iff in E'. symmetry in E'. apply Qeq_bool_iff in E'.
      congruence. }
  destruct a as [| |x|x|x|x|x], b as [| |y|y|y|y|y]; simpl;
    try reflexivity; try apply Hq; try apply String.eqb_sym;
    try (destruct (ToNumber P _); [apply Hq | reflexivity]).
  now destruct x, y.
Qed.

Lemma nth_cells (k n : nat) (row : list Value) (d : Value) :
  k < n -> nth k (cells n row) d = nth k row (Str "").
Proof.
  intros Hk. unfold cells. rewrite nth_firstn.
  replace (k <? n) with true by (symmetry; apply Nat.ltb_lt; exact Hk).
  destruct (Nat.lt_ge_cases k (List.length row)) as [Hl|Hl].
  - rewrite app_nth1 by exact Hl. now apply nth_indep.
  - rewrite app_nth2 by exact Hl. rewrite (nth_overflow row) by exact Hl.
    apply nth_repeat_lt. lia.
Qed.

Lemma indexOf_items (sheet : Sheet) (extra : list string) :
  header sheet = receiptHeaders ++ extra ->
  indexOf "items" (headerValues (getLastColumn sheet) sheet) = 8%Z.
Proof. intros Hh. rewrite headerValues_width, Hh. reflexivity. Qed.

Lemma traverse_Forall2 {A B : Type} (f : A -> Outcome B) (xs : list A)
  (ys : list B) :
  traverse f xs = Returned ys -> Forall2 (fun x y => f x = Returned y) xs ys.
Proof.
  revert ys. induction xs as [|x xs IH]; simpl; intros ys H.
  - injection H as <-. constructor.
  - destruct (f x) as [y|e] eqn:Hx; simpl in H; [|discriminate H].
    destruct (traverse f xs) as [ys'|e]; simpl in H; [|discriminate H].
    injection H as <-. constructor; [exact Hx | now apply IH].
Qed.

(** What [processAndSaveItems] leaves, whether it returns or raises. *)
Lemma processAndSaveItems_cases (P : Platform) (sheet : Sheet) (id : Value)
  (items : list Value) (extra : list string) :
  header sheet = itemHeaders ++ extra ->
  exists news,
    snd (processAndSaveItems P sheet id items) =
    mkSheet (header sheet)
      (filter (fun row => negb (refersTo P id row)) (rows sheet) ++ news) /\
    forall row, In row news -> nth 1 row (Str "") = written id.
Proof.
  intros Hh. unfold processAndSaveItems.
  rewrite (deleteItemsByReceiptId_filter P sheet id extra Hh).
  set (kept := mkSheet (header sheet) _).
  destruct (Nat.eqb (List.length items) 0).
  { exists []. split; [now rewrite app_nil_r | intros row []]. }
  destruct (traverse _ (indexed items)) as [rowsToAdd|e] eqn:Ht.
  2:{ exists []. split; [now rewrite app_nil_r | intros row []]. }
  exists (map (map written) rowsToAdd). split; [reflexivity|].
  intros row Hrow. apply in_map_iff in Hrow.
  destruct Hrow as [cellsOf [<- Hin]].
  apply traverse_Forall2 in Ht.
  assert (Hall : forall xs ys,
            Forall2
              (fun (x : nat * Value) (y : list Value) =>
                 traverse (itemCell P id (fst x) (snd x))
                   (indexed (headerValues (getLastColumn kept) kept))
                 = Returned y) xs ys ->
            forall y, In y ys -> nth 1 (map written y) (Str "") = written id).
  { intros xs ys H. induction H as [|x y xs ys Hxy _ IH];
      intros z Hz; [destruct Hz|].
    destruct Hz as [<-|Hz]; [|now apply IH].
    revert Hxy. rewrite headerValues_width.
    generalize (getLastColumn kept - List.length (header kept)).
    intros n. subst kept. cbn [header]. rewrite Hh. unfold indexed.
    cbn [itemHeaders app List.length seq combine traverse itemCell
         String.eqb Ascii.eqb Bool.eqb bind].
    destruct (prop (snd x) "name"); cbn [bind]; [|discriminate].
    destruct (prop (snd x) "quantity"); cbn [bind]; [|discriminate].
    destruct (prop (snd x) "unit"); cbn [bind]; [|discriminate].
    destruct (prop (snd x) "unitPrice"); cbn [bind]; [|discriminate].
    destruct (prop (snd x) "totalPrice"); cbn [bind]; [|discriminate].
    destruct (prop (snd x) "category"); cbn [bind]; [|discriminate].
    destruct (traverse _ _); cbn [bind]; [|discriminate].
    intros [= <-]. reflexivity. }
  exact (Hall _ _ Ht cellsOf Hin).
Qed.

Lemma filter_filter_keep {A : Type} (p q : A -> bool) (l : list A) :
  (forall x, In x l -> p x = true -> q x = true) ->
  filter p (filter q l) = filter p l.
Proof.
  induction l as [|a l IH]; simpl; intros H; [reflexivity|].
  destruct (q a) eqn:Hq; simpl.
  - destruct (p a); [f_equal|]; apply IH; intros x Hx; apply H; now right.
  - destruct (p a) eqn:Hp.
    + rewrite (H a (or_introl eq_refl) Hp) in Hq. discriminate Hq.
    + apply IH. intros x Hx. apply H. now right.
Qed.

Lemma filter_none {A : Type} (p : A -> bool) (l : list A) :
  (forall x, In x l -> p x = false) -> filter p l = [].
Proof.
  induction l as [|a l IH]; simpl; intros H; [reflexivity|].
  rewrite (H a (or_introl eq_refl)). apply IH. intros x Hx. apply H.
  now right.
Qed.

Lemma migrateRow_header (P : Platform) (acc : nat * Sheet)
  (row : list Value) (extra : list string) :
  header (snd acc) = itemHeaders ++ extra ->
  header (snd (migrateRow P 0 8 acc row)) = itemHeaders ++ extra /\
  fst acc <= fst (migrateRow P 0 8 acc row).
Proof.
  intros Hh. destruct acc as [n sheet]. unfold migrateRow.
  cbn [fst snd] in *.
  destruct (nth 8 row Undefined) as [| |b|q|text|l|l];
    try (cbn [fst snd]; split; [exact Hh | lia]).
  destruct (JSON_parse P text) as [[| | | | |items|]|];
    try (cbn [fst snd]; split; [exact Hh | lia]).
  destruct (_ && _); [|cbn [fst snd]; split; [exact Hh | lia]].
  destruct (processAndSaveItems_cases P sheet (nth 0 row Undefined) items
              extra Hh) as [news [Hs _]].
  destruct (processAndSaveItems _ _ _ _) as [[u|e] sheet'];
    cbn [fst snd] in *; subst sheet'; cbn [header]; split;
    try exact Hh; lia.
Qed.

Lemma migrateRows_header (P : Platform) (l : list (list Value))
  (acc : nat * Sheet) (extra : list string) :
  header (snd acc) = itemHeaders ++ extra ->
  header (snd (fold_left (migrateRow P 0 8) l acc)) = itemHeaders ++ extra /\
  fst acc <= fst (fold_left (migrateRow P 0 8) l acc).
Proof.
  revert acc. induction l as [|row l IH]; intros acc Hh; cbn [fold_left].
  - split; [exact Hh | lia].
  - destruct (migrateRow_header P acc row extra Hh) as [H1 H2].
    destruct (IH _ H1) as [H3 H4]. split; [exact H3 | lia].
Qed.

Lemma migrateRow_keeps (P : Platform) (A : Value) (acc : nat * Sheet)
  (row : list Value) (extra : list string) :
  header (snd acc) = itemHeaders ++ extra ->
  loose_eq P (nth 0 row Undefined) A = false ->
  settled P A (snd acc) ->
  filter (refersTo P A) (rows (snd (migrateRow P 0 8 acc row)))
  = filter (refersTo P A) (rows (snd acc)) /\
  settled P A (snd (migrateRow P 0 8 acc row)).
Proof.
  intros Hh Hne Hset. destruct acc as [n sheet]. unfold migrateRow.
  cbn [fst snd] in *.
  destruct (nth 8 row Undefined) as [| |b|q|text|l|l];
    try (split; [reflexivity | exact Hset]).
  destruct (JSON_parse P text) as [[| | | | |items|]|];
    try (split; [reflexivity | exact Hset]).
  destruct (truthy (nth 0 row Undefined)) eqn:Ht; cbn [andb];
    [|split; [reflexivity | exact Hset]].
  destruct (negb _); [|split; [reflexivity | exact Hset]].
  destruct (processAndSaveItems_cases P sheet (nth 0 row Undefined) items
              extra Hh) as [news [Hs Hnews]].
  rewrite (written_truthy _ Ht) in Hnews.
  assert (Hnew : forall x, In x news -> refersTo P A x = false).
  { intros x Hx. unfold refersTo. now rewrite (Hnews x Hx). }
  assert (Hrows :
    filter (refersTo P A)
      (filter (fun r => negb (refersTo P (nth 0 row Undefined) r))
         (rows sheet) ++ news)
    = filter (refersTo P A) (rows sheet)).
  { rewrite filter_app, (filter_none _ news Hnew), app_nil_r.
    apply filter_filter_keep. intros x Hx HA.
    unfold refersTo at 1. rewrite (Hset x Hx HA), loose_eq_sym, Hne.
    reflexivity. }
  assert (Hset' : settled P A
            (mkSheet (header sheet)
               (filter (fun r => negb (refersTo P (nth 0 row Undefined) r))
                  (rows sheet) ++ news))).
  { intros x Hx HA. cbn [rows] in Hx. apply in_app_or in Hx.
    destruct Hx as [Hx|Hx].
    - apply filter_In in Hx. now apply Hset.
    - rewrite (Hnew x Hx) in HA. discriminate HA. }
  destruct (processAndSaveItems _ _ _ _) as [[u|e] sheet'];
    cbn [fst snd] in *; subst sheet'; cbn [rows]; split; assumption.
Qed.

Lemma migrateRows_keep (P : Platform) (A : Value) (l : list (list Value))
  (acc : nat * Sheet) (extra : list string) :
  header (snd acc) = itemHeaders ++ extra ->
  (forall row, In row l -> loose_eq P (nth 0 row Undefined) A = false) ->
  settled P A (snd acc) ->
  filter (refersTo P A) (rows (snd (fold_left (migrateRow P 0 8) l acc)))
  = filter (refersTo P A) (rows (snd acc)).
Proof.
  revert acc. induction l as [|row l IH]; intros acc Hh Hne Hset;
    cbn [fold_left]; [reflexivity|].
  destruct (migrateRow_keeps P A acc row extra Hh
              (Hne row (or_introl eq_refl)) Hset) as [H1 H2].
  rewrite IH; [exact H1 | | | exact H2].
  - apply migrateRow_header. exact Hh.
  - intros r Hr. apply Hne. now right.
Qed.

Lemma itemRow_first9 (P : Platform) (sheet : Sheet) (id : Value)
  (it : nat * Value) (extra : list string) :
  header sheet = itemHeaders ++ extra ->
  firstn 9 (itemRow P sheet id it) = itemValues P id it.
Proof.
  intros Hh. unfold itemRow, itemValues.
  rewrite headerValues_width, Hh, <- app_assoc.
  rewrite !firstn_map. unfold indexed.
  change 9 with (List.length itemHeaders).
  now rewrite firstn_indexed_app.
Qed.

(** X17. Migration rebuilds the item rows of a receipt from the list kept
    in its row of [Recibos]: for the last row that carries a given id, if
    its list of items parses to a non-empty array of objects, the rows of
    [Itens] that refer to the id afterwards are exactly the rows of these
    items, in order, whatever referred to the id before.  [Recibos] is not
    changed and the reply counts at least this receipt. *)
Theorem handleMigration_rebuilds_items (P : Platform) (ss : Spreadsheet)
  (extraR extraI : list string) (R1 R2 : list (list Value))
  (r : list Value) (text : string) (items : list Value) :
  header (Recibos ss) = receiptHeaders ++ extraR ->
  header (Itens ss) = itemHeaders ++ extraI ->
  rows (Recibos ss) = R1 ++ r :: R2 ->
  truthy (nth 0 r (Str "")) = true ->
  is_object (nth 0 r (Str "")) = false ->
  nth 8 r (Str "") = Str text ->
  holdsItems (Str text) = true ->
  JSON_parse P text = Some (Arr items) ->
  items <> [] ->
  (forall item, In item items -> item <> Null /\ item <> Undefined) ->
  (forall row, In row R2 -> carries P (nth 0 r (Str "")) row = false) ->
  (exists n message,
     fst (handleMigration P ss) = Returned (migrated (S n) message)) /\
  Recibos (snd (handleMigration P ss)) = Recibos ss /\
  header (Itens (snd (handleMigration P ss))) = header (Itens ss) /\
  map (firstn 9)
    (filter (refersTo P (nth 0 r (Str "")))
       (rows (Itens (snd (handleMigration P ss)))))
  = map (itemValues P (nth 0 r (Str ""))) (indexed items).
Proof.
  intros HR HI Hrows Ht Ho Hcell Hholds Hparse Hne Hitems HR2.
  set (A := nth 0 r (Str "")) in *.
  set (n := getLastColumn (Recibos ss)).
  assert (Hn : 12 <= n).
  { subst n. pose proof (getLastColumn_header (Recibos ss)) as H.
    rewrite HR, length_app in H. simpl in H. lia. }
  assert (HneR : header (Recibos ss) <> [])
    by (intros H0; rewrite H0 in HR; discriminate HR).
  unfold handleMigration.
  rewrite (getLastRow_header _ HneR), Hrows, length_app.
  cbn [List.length].
  replace (1 + Z.of_nat (List.length R1 + S (List.length R2)) <? 2)%Z
    with false by (symmetry; apply Z.ltb_ge; lia).
  rewrite (indexOf_id _ _ HR), (indexOf_items _ _ HR).
  cbn [Z.eqb orb].
  change (Z.to_nat 0) with 0. change (Z.to_nat 8) with 8.
  unfold dataValues. fold n. rewrite Hrows, map_app, filter_app.
  cbn [map filter].
  assert (H8 : nth 8 (cells n r) Undefined = Str text)
    by (rewrite nth_cells by lia; exact Hcell).
  assert (H0 : nth 0 (cells n r) Undefined = A)
    by (rewrite nth_cells by lia; reflexivity).
  rewrite H8, Hholds.
  set (F1 := filter _ (map (cells n) R1)).
  set (F2 := filter _ (map (cells n) R2)).
  replace (Nat.eqb (List.length (F1 ++ cells n r :: F2)) 0) with false
    by (rewrite length_app; cbn [List.length]; symmetry;
        apply Nat.eqb_neq; lia).
  rewrite fold_left_app. cbn [fold_left].
  set (acc1 := fold_left (migrateRow P 0 8) F1 (0, Itens ss)).
  destruct (migrateRows_header P F1 (0, Itens ss) extraI HI) as [Hh1 _].
  fold acc1 in Hh1.
  (* the step of the row itself *)
  set (kept := mkSheet (header (snd acc1))
                 (filter (fun row => negb (refersTo P A row))
                    (rows (snd acc1)))).
  assert (Hstep : migrateRow P 0 8 acc1 (cells n r) =
                  (S (fst acc1),
                   mkSheet (header (snd acc1))
                     (rows kept ++ map (itemRow P kept A) (indexed items)))).
  { unfold migrateRow. destruct acc1 as [c1 s1]. cbn [fst snd] in *.
    rewrite H8, Hparse, H0, Ht.
    replace (Nat.eqb (List.length items) 0) with false
      by (symmetry; apply Nat.eqb_neq; destruct items;
          [congruence | discriminate]).
    cbn [negb andb].
    now rewrite (processAndSaveItems_rows P s1 A items extraI Hh1 Hitems). }
  rewrite Hstep.
  set (acc2 := (S (fst acc1), _)).
  assert (Hh2 : header (snd acc2) = itemHeaders ++ extraI) by exact Hh1.
  assert (Hkept : header kept = itemHeaders ++ extraI) by exact Hh1.
  destruct (filter_refers_new P kept A (indexed items) extraI Hkept Ht Ho)
    as [_ Hnews].
  assert (HA2 : filter (refersTo P A) (rows (snd acc2))
                = map (itemRow P kept A) (indexed items)).
  { subst acc2. cbn [snd rows]. rewrite filter_app, Hnews.
    subst kept. cbn [rows].
    rewrite (filter_none (refersTo P A)); [reflexivity|].
    intros x Hx. apply filter_In in Hx. destruct Hx as [_ Hx].
    now apply negb_true_iff in Hx. }
  assert (Hset2 : settled P A (snd acc2)).
  { intros x Hx HAx.
    assert (Hin : In x (filter (refersTo P A) (rows (snd acc2))))
      by (apply filter_In; now split).
    rewrite HA2 in Hin. apply in_map_iff in Hin.
    destruct Hin as [it [<- _]].
    rewrite (itemRow_refers P kept A it extraI Hkept).
    now apply written_truthy. }
  assert (HF2 : forall row, In row F2 ->
                  loose_eq P (nth 0 row Undefined) A = false).
  { intros row Hrow. subst F2. apply filter_In in Hrow.
    destruct Hrow as [Hrow _]. apply in_map_iff in Hrow.
    destruct Hrow as [row0 [<- Hrow0]]. rewrite nth_cells by lia.
    exact (HR2 row0 Hrow0). }
  pose proof (migrateRows_keep P A F2 acc2 extraI Hh2 HF2 Hset2) as Hfinal.
  destruct (migrateRows_header P F2 acc2 extraI Hh2) as [Hh3 Hc3].
  destruct (fold_left (migrateRow P 0 8) F2 acc2) as [count sheet] eqn:Hfold.
  cbn [fst snd Recibos Itens] in *.
  split; [|split; [reflexivity|split]].
  - destruct count as [|c]; [subst acc2; cbn [fst] in Hc3; lia|].
    now eexists _, _.
  - now rewrite Hh3, HI.
  - rewrite Hfinal, HA2, map_map. apply map_ext. intros it.
    exact (itemRow_first9 P kept A it extraI Hkept).
Qed.

Lemma handleMigration_rebuilds_items_witness :
  map (firstn 9)
    (filter (refersTo Reference.platform (Str "legacy-1"))
       (rows (Itens (snd (handleMigration Reference.platform
                            Reference.legacySpreadsheet)))))
  = map (itemValues Reference.platform (Str "legacy-1"))
      (indexed (map item_value Reference.twoItems)).
Proof.
  apply (handleMigration_rebuilds_items Reference.platform
           Reference.legacySpreadsheet [] [] [] [] Reference.legacyRow
           (Reference.stringify (Arr (map item_value Reference.twoItems)))
           (map item_value Reference.twoItems)).
  - reflexivity.
  - reflexivity.
  - reflexivity.
  - reflexivity.
  - reflexivity.
  - reflexivity.
  - vm_compute. reflexivity.
  - vm_compute. reflexivity.
  - discriminate.
  - intros item Hin. now apply (typed_items_objects Reference.twoItems).
  - intros row [].
Defined.

End RouterFacts.

(** ** The analytics projection: breakdowns, recurring items, statistics *)

Module ProjectionFacts.
Import Analytics AnalyticsFacts.

(** *** Maps *)

Lemma get_set {V : Type} (k k' : string) (v : V) (m : list (string * V)) :
  get k' (set k v m) = if String.eqb k k' then Some v else get k' m.
Proof.
  induction m as [|[k0 x] m IH]; simpl.
  - reflexivity.
  - destruct (String.eqb k0 k) eqn:E0; simpl.
    + apply String.eqb_eq in E0. subst k0.
      destruct (String.eqb k k'); reflexivity.
    + destruct (String.eqb k0 k') eqn:E1; [|exact IH].
      apply String.eqb_eq in E1. subst k0.
      rewrite String.eqb_sym, E0. reflexivity.
Qed.

Lemma keys_set {V : Type} (k : string) (v : V) (m : list (string * V)) :
  map fst (set k v m) = if has k m then map fst m else map fst m ++ [k].
Proof.
  unfold has. induction m as [|[k0 x] m IH]; simpl; [reflexivity|].
  destruct (String.eqb k0 k) eqn:E; simpl; [reflexivity|].
  rewrite IH. destruct (existsb _ m); reflexivity.
Qed.

Lemma NoDup_keys_set {V : Type} (k : string) (v : V) (m : list (string * V)) :
  NoDup (map fst m) -> NoDup (map fst (set k v m)).
Proof.
  intros H. rewrite keys_set. destruct (has k m) eqn:E; [exact H|].
  apply NoDup_app_intro; [exact H | repeat constructor; intros [] |].
  intros x Hx [<-|[]]. apply has_In in Hx. congruence.
Qed.

Lemma In_keys_set {V : Type} (k k' : string) (v : V) (m : list (string * V)) :
  In k' (map fst (set k v m)) <-> k' = k \/ In k' (map fst m).
Proof.
  rewrite keys_set. destruct (has k m) eqn:E.
  - apply has_In in E. split; [tauto | intros [->|H]; assumption].
  - rewrite in_app_iff. simpl. split; [intros [H|[H|[]]]; auto | ].
    intros [->|H]; [right; now left | now left].
Qed.

Lemma get_In {V : Type} (k : string) (v : V) (m : list (string * V)) :
  NoDup (map fst m) -> In (k, v) m -> get k m = Some v.
Proof.
  induction m as [|[k0 x] m IH]; simpl; intros Hnd Hin; [contradiction|].
  inversion Hnd as [|? ? Hn Hd]; subst.
  destruct Hin as [[= -> ->]|Hin]; [now rewrite String.eqb_refl|].
  destruct (String.eqb k0 k) eqn:E; [|now apply IH].
  apply String.eqb_eq in E. subst k0. exfalso. apply Hn.
  apply in_map_iff. now exists (k, v).
Qed.

Lemma get_Some_In {V : Type} (k : string) (v : V) (m : list (string * V)) :
  get k m = Some v -> In (k, v) m.
Proof.
  induction m as [|[k0 x] m IH]; simpl; [discriminate|].
  destruct (String.eqb k0 k) eqn:E.
  - apply String.eqb_eq in E. subst k0. intros [= ->]. now left.
  - intros H. right. now apply IH.
Qed.

Lemma fold_left_flat_map {A B C : Type} (f : A -> C -> A) (g : B -> list C)
  (l : list B) (a : A) :
  fold_left (fun acc x => fold_left f (g x) acc) l a
  = fold_left f (flat_map g l) a.
Proof.
  revert a. induction l as [|x l IH]; intros a; simpl; [reflexivity|].
  now rewrite fold_left_app, IH.
Qed.

Lemma fold_left_mapped {A B C : Type} (f : A -> C -> A) (g : B -> C)
  (l : list B) (a : A) :
  fold_left (fun acc x => f acc (g x)) l a = fold_left f (map g l) a.
Proof.
  revert a. induction l as [|x l IH]; intros a; simpl; [reflexivity|].
  apply IH.
Qed.

(** *** Keys of a breakdown *)

Lemma tally_from (entries : list (string * Q)) (m : list (string * Q)) :
  let m' := fold_left (fun m e => noteSpending (fst e) (snd e) m) entries m in
  (NoDup (map fst m) -> NoDup (map fst m')) /\
  (forall k, In k (map fst m') <->
             In k (map fst m) \/ In k (map fst entries)).
Proof.
  revert m. induction entries as [|[k a] entries IH]; intros m; cbn zeta.
  - cbn [fold_left map]. split; [tauto|]. intros k. simpl. tauto.
  - cbn [fold_left fst snd].
    destruct (IH (noteSpending k a m)) as [H1 H2]. split.
    + intros Hnd. apply H1. unfold noteSpending. now apply NoDup_keys_set.
    + intros k'. rewrite H2. unfold noteSpending at 1. rewrite In_keys_set.
      simpl. split.
      * intros [[->|H]|H]; auto.
      * intros [H|[->|H]]; auto.
Qed.

Lemma tally_spec (entries : list (string * Q)) :
  NoDup (map fst (tally entries)) /\
  (forall k, In k (map fst (tally entries)) <-> In k (map fst entries)).
Proof.
  destruct (tally_from entries []) as [H1 H2]. fold (tally entries) in *.
  split; [apply H1; constructor|].
  intros k. rewrite H2. simpl. tauto.
Qed.

(** The keys of a breakdown that is a sorted copy of a map of totals. *)
Lemma breakdown_keys {A B : Type} (entries : list (string * Q))
  (mk : string * Q -> B) (key : B -> string) (keyOf : A -> string)
  (sources : list A) (breakdown : list B) :
  (forall kv, key (mk kv) = fst kv) ->
  map fst entries = map keyOf sources ->
  Permutation breakdown (map mk (tally entries)) ->
  NoDup (map key breakdown) /\
  (forall k, In k (map key breakdown) <->
             exists x, In x sources /\ keyOf x = k).
Proof.
  intros Hkey Hk Hperm.
  destruct (tally_spec entries) as [Hnd Hkeys].
  assert (Hmk : map key (map mk (tally entries)) = map fst (tally entries)).
  { rewrite map_map. apply map_ext. exact Hkey. }
  split.
  - eapply Permutation_NoDup;
      [apply Permutation_map, Permutation_sym, Hperm|].
    rewrite Hmk. exact Hnd.
  - intros k. split.
    + intros Hin.
      apply (Permutation_in _ (Permutation_map key Hperm)) in Hin.
      rewrite Hmk in Hin. apply Hkeys in Hin. rewrite Hk in Hin.
      apply in_map_iff in Hin. destruct Hin as [x [Hx Hin]]. now exists x.
    + intros [x [Hin Hx]].
      apply (Permutation_in _
               (Permutation_map key (Permutation_sym Hperm))).
      rewrite Hmk. apply Hkeys. rewrite Hk. apply in_map_iff. now exists x.
Qed.

(** *** Sorting *)

Lemma insert_sorted_by {A : Type} (compare : A -> A -> Q) (R : A -> A -> Prop)
  (x : A) (l : list A) :
  (forall a b, Qle_bool (compare a b) 0 = true -> R a b) ->
  (forall a b, Qle_bool (compare a b) 0 = false -> R b a) ->
  Sorted R l -> Sorted R (insert compare x l).
Proof.
  intros Hle Hgt. induction l as [|y l IH]; intros Hs; simpl.
  - repeat constructor.
  - destruct (Qle_bool (compare x y) 0) eqn:E.
    + constructor; [exact Hs|]. constructor. now apply Hle.
    + inversion Hs as [|? ? Hs' Hhd]; subst.
      constructor; [now apply IH|].
      destruct l as [|z l]; simpl.
      * constructor. now apply Hgt.
      * destruct (Qle_bool (compare x z) 0); constructor.
        -- now apply Hgt.
        -- now inversion Hhd.
Qed.

Lemma sort_sorted_by {A : Type} (compare : A -> A -> Q) (R : A -> A -> Prop)
  (l : list A) :
  (forall a b, Qle_bool (compare a b) 0 = true -> R a b) ->
  (forall a b, Qle_bool (compare a b) 0 = false -> R b a) ->
  Sorted R (sort compare l).
Proof.
  intros Hle Hgt. induction l as [|x l IH]; simpl; [constructor|].
  now apply insert_sorted_by.
Qed.

Lemma descending_le (x y : Q) :
  (Qle_bool (y - x) 0 = true -> y <= x)%Q /\
  (Qle_bool (y - x) 0 = false -> x <= y)%Q.
Proof.
  split; intros H.
  - apply Qle_bool_iff in H. lra.
  - destruct (Qlt_le_dec 0 (y - x)) as [Hl|Hl]; [lra|].
    apply Qle_bool_iff in Hl. congruence.
Qed.

(** X18. The breakdown by category lists each category of an item of the
    completed receipts once, and nothing else, an item without category
    counting as [Outros].  The breakdown by payer lists each payer of a
    completed receipt once, and nothing else, a receipt without payer
    counting as not specified. *)
Theorem spending_breakdowns_list_each_key_once
  (completedReceipts : list Required.t) :
  let byCategory := spendingByCategory completedReceipts in
  let byPayer := spendingByPayer completedReceipts in
  let items := allItems completedReceipts in
  NoDup (map CategorySpending.category byCategory) /\
  (forall c, In c (map CategorySpending.category byCategory) <->
             exists item, In item items /\ categoryOf item = c) /\
  NoDup (map PayerSpending.payer byPayer) /\
  (forall p, In p (map PayerSpending.payer byPayer) <->
             exists receipt, In receipt completedReceipts /\
                             payerOf receipt = p).
Proof.
  intros byCategory byPayer items.
  assert (Hc : NoDup (map CategorySpending.category byCategory) /\
               (forall c, In c (map CategorySpending.category byCategory) <->
                          exists item, In item items /\ categoryOf item = c)).
  { apply (breakdown_keys
             (map (fun item => (categoryOf item, Item.totalPrice item)) items)
             (fun kv => CategorySpending.mk (fst kv) (snd kv))).
    - reflexivity.
    - rewrite map_map. reflexivity.
    - subst byCategory items. unfold spendingByCategory, tally, allItems.
      rewrite fold_left_flat_map.
      rewrite (fold_left_mapped
                 (fun m e => noteSpending (fst e) (snd e) m)
                 (fun item => (categoryOf item, Item.totalPrice item))).
      apply sort_perm. }
  assert (Hp : NoDup (map PayerSpending.payer byPayer) /\
               (forall p, In p (map PayerSpending.payer byPayer) <->
                          exists receipt, In receipt completedReceipts /\
                                          payerOf receipt = p)).
  { apply (breakdown_keys
             (map (fun receipt =>
                     (payerOf receipt, Required.totalAmount receipt))
                completedReceipts)
             (fun kv => PayerSpending.mk (fst kv) (snd kv))).
    - reflexivity.
    - rewrite map_map. reflexivity.
    - subst byPayer. unfold spendingByPayer, tally.
      rewrite (fold_left_mapped
                 (fun m e => noteSpending (fst e) (snd e) m)
                 (fun receipt =>
                    (payerOf receipt, Required.totalAmount receipt))).
      apply sort_perm. }
  destruct Hc as [Hc1 Hc2]. destruct Hp as [Hp1 Hp2].
  split; [exact Hc1|]. split; [exact Hc2|]. split; [exact Hp1 | exact Hp2].
Qed.


(** *** Recurring items *)

Lemma has_get {V : Type} (k : string) (m : list (string * V)) :
  has k m = match get k m with Some _ => true | None => false end.
Proof.
  unfold has. induction m as [|[k0 x] m IH]; simpl; [reflexivity|].
  destruct (String.eqb k0 k); [reflexivity | exact IH].
Qed.

Lemma In_set {V : Type} (k : string) (v : V) (m : list (string * V))
  (e : string * V) :
  In e (set k v m) -> e = (k, v) \/ In e m.
Proof.
  induction m as [|[k0 x] m IH]; simpl.
  - intros [<-|[]]. now left.
  - destruct (String.eqb k0 k) eqn:E; simpl.
    + apply String.eqb_eq in E. subst k0. intros [<-|H]; auto.
    + intros [<-|H]; auto. destruct (IH H); auto.
Qed.

Lemma length_set {V : Type} (k : string) (v : V) (m : list (string * V)) :
  List.length (set k v m) <= S (List.length m).
Proof.
  induction m as [|[k0 x] m IH]; simpl; [lia|].
  destruct (String.eqb k0 k); simpl; lia.
Qed.

Lemma occurrences_snoc (k : string) (done : list Item.t) (item : Item.t) :
  occurrences k (done ++ [item]) =
  occurrences k done
  + (if String.eqb (normalize (Item.name item)) k then 1 else 0).
Proof.
  unfold occurrences. rewrite filter_app, length_app. simpl.
  destruct (String.eqb _ k); reflexivity.
Qed.

Lemma firstNamed_snoc (k : string) (done : list Item.t) (item : Item.t) :
  firstNamed k (done ++ [item]) =
  match firstNamed k done with
  | Some x => Some x
  | None => if String.eqb (normalize (Item.name item)) k then Some item
            else None
  end.
Proof.
  unfold firstNamed. rewrite find_app.
  destruct (find _ done); [reflexivity|]. simpl.
  destruct (String.eqb _ k); reflexivity.
Qed.

Lemma firstNamed_none (k : string) (done : list Item.t) :
  occurrences k done = 0 -> firstNamed k done = None.
Proof.
  unfold occurrences, firstNamed. intros H. apply find_none_iff.
  intros x Hx. destruct (String.eqb _ k) eqn:E; [|reflexivity].
  assert (Hin : In x (filter (fun item =>
                                String.eqb (normalize (Item.name item)) k)
                        done)) by (apply filter_In; now split).
  destruct (filter _ done); [destruct Hin | discriminate H].
Qed.

Lemma firstNamed_key (k : string) (items : list Item.t) (item : Item.t) :
  firstNamed k items = Some item ->
  In item items /\ normalize (Item.name item) = k.
Proof.
  unfold firstNamed. intros H. apply find_some in H.
  destruct H as [Hin H]. split; [exact Hin | now apply String.eqb_eq].
Qed.

Lemma counted_step (m : list (string * Frequency.t)) (done : list Item.t)
  (item : Item.t) :
  counted m done -> counted (noteOccurrence m item) (done ++ [item]).
Proof.
  intros [Hnd Hget]. unfold noteOccurrence.
  set (k0 := normalize (Item.name item)).
  rewrite has_get. pose proof (Hget k0) as H0.
  destruct (get k0 m) as [existing|] eqn:Hg.
  - destruct H0 as [Hc [first [Hf Hn]]]. split.
    + now apply NoDup_keys_set.
    + intros k. rewrite get_set, occurrences_snoc, firstNamed_snoc.
      fold k0. destruct (String.eqb k0 k) eqn:E.
      * apply String.eqb_eq in E. subst k. rewrite Hf.
        cbn [Frequency.count Frequency.name]. split; [lia|].
        now exists first.
      * specialize (Hget k). destruct (get k m) as [f|].
        -- destruct Hget as [Hc' [first' [Hf' Hn']]]. rewrite Hf'.
           split; [lia | now exists first'].
        -- lia.
  - split.
    + now apply NoDup_keys_set.
    + intros k. rewrite get_set, occurrences_snoc, firstNamed_snoc.
      fold k0. destruct (String.eqb k0 k) eqn:E.
      * apply String.eqb_eq in E. subst k.
        rewrite (firstNamed_none _ _ H0), H0.
        cbn [Frequency.count Frequency.name]. split; [reflexivity|].
        now exists item.
      * specialize (Hget k). destruct (get k m) as [f|].
        -- destruct Hget as [Hc' [first' [Hf' Hn']]]. rewrite Hf'.
           split; [lia | now exists first'].
        -- lia.
Qed.

Lemma counted_fold (items : list Item.t) (m : list (string * Frequency.t))
  (done : list Item.t) :
  counted m done ->
  counted (fold_left noteOccurrence items m) (done ++ items) /\
  List.length (fold_left noteOccurrence items m)
  <= List.length m + List.length items.
Proof.
  revert m done. induction items as [|item items IH]; intros m done H;
    cbn [fold_left].
  - rewrite app_nil_r. split; [exact H | simpl; lia].
  - destruct (IH _ _ (counted_step m done item H)) as [H1 H2].
    rewrite <- app_assoc in H1. split; [exact H1|].
    cbn [List.length].
    assert (List.length (noteOccurrence m item) <= S (List.length m)).
    { unfold noteOccurrence. destruct (has _ m).
      - destruct (get _ m); [apply length_set | lia].
      - apply length_set. }
    lia.
Qed.

Lemma NoDup_firstn {A : Type} (n : nat) (l : list A) :
  NoDup l -> NoDup (firstn n l).
Proof.
  intros H. rewrite <- (firstn_skipn n l) in H.
  now apply NoDup_app_parts in H.
Qed.

Lemma Sorted_map_in {A B : Type} (f : A -> B) (R : A -> A -> Prop)
  (R' : B -> B -> Prop) (l : list A) :
  (forall a b, In a l -> In b l -> R a b -> R' (f a) (f b)) ->
  Sorted R l -> Sorted R' (map f l).
Proof.
  induction l as [|x l IH]; intros H Hs; simpl; [constructor|].
  inversion Hs as [|? ? Hs' Hhd]; subst. constructor.
  - apply IH; [|exact Hs']. intros a b Ha Hb. apply H; now right.
  - destruct l as [|y l]; simpl; constructor.
    inversion Hhd; subst. apply H; simpl; auto.
Qed.

Lemma count_descending (a b : nat) :
  (Qle_bool (inject_Z (Z.of_nat b) - inject_Z (Z.of_nat a)) 0 = true ->
   b <= a) /\
  (Qle_bool (inject_Z (Z.of_nat b) - inject_Z (Z.of_nat a)) 0 = false ->
   a <= b).
Proof.
  split; intros H.
  - apply Qle_bool_iff in H.
    assert (Hq : (inject_Z (Z.of_nat b) <= inject_Z (Z.of_nat a))%Q) by lra.
    rewrite <- Zle_Qle in Hq. lia.
  - destruct (Qlt_le_dec 0 (inject_Z (Z.of_nat b) - inject_Z (Z.of_nat a)))
      as [Hl|Hl].
    + assert (Hq : (inject_Z (Z.of_nat a) <= inject_Z (Z.of_nat b))%Q) by lra.
      rewrite <- Zle_Qle in Hq. lia.
    + apply Qle_bool_iff in Hl. congruence.
Qed.

(** X19. For items whose names are written in ASCII, [getRecurringItems]
    lists the products bought more than once, each once, under the spelling
    of their first purchase, the most frequent first, and cut to the limit:
    a name is listed (without limit) exactly when its normalized form occurs
    at least twice among the items of the completed receipts. *)
Theorem getRecurringItems_lists_repeated (limit : nat)
  (completed : list Required.t)
  (Hascii : forall item, In item (allItems completed) ->
                         isAscii (Item.name item) = true) :
  let items := allItems completed in
  let unlimited := getRecurringItems (List.length items) completed in
  getRecurringItems limit completed = firstn limit unlimited /\
  List.length (getRecurringItems limit completed) <= limit /\
  NoDup (map normalize unlimited) /\
  (forall name, In name unlimited ->
     2 <= occurrences (normalize name) items /\
     exists item, firstNamed (normalize name) items = Some item /\
                  Item.name item = name) /\
  (forall item, In item items ->
     2 <= occurrences (normalize (Item.name item)) items ->
     In (normalize (Item.name item)) (map normalize unlimited)) /\
  Sorted (fun a b => occurrences (normalize b) items
                     <= occurrences (normalize a) items) unlimited.
Proof.
  intros items unlimited.
  set (m := fold_left noteOccurrence items []).
  assert (Hm : counted m items /\ List.length m <= List.length items).
  { destruct (counted_fold items [] []) as [H1 H2].
    - split; [constructor | intros k; reflexivity].
    - split; [exact H1 | exact H2]. }
  destruct Hm as [[Hnd Hget] Hlen].
  set (compare := fun a b : Frequency.t =>
                    (inject_Z (Z.of_nat (Frequency.count b))
                     - inject_Z (Z.of_nat (Frequency.count a)))%Q).
  set (recurring := filter (fun item => Nat.ltb 1 (Frequency.count item))
                      (map snd m)).
  assert (Hdef : forall n, getRecurringItems n completed =
                           map Frequency.name (firstn n (sort compare recurring))).
  { intros n. unfold getRecurringItems. rewrite fold_left_flat_map.
    reflexivity. }
  assert (Hperm : Permutation (sort compare recurring) recurring)
    by apply sort_perm.
  assert (Hshort : List.length (sort compare recurring) <= List.length items).
  { rewrite (Permutation_length Hperm). subst recurring.
    pose proof (filter_length_le (fun item => Nat.ltb 1 (Frequency.count item))
                  (map snd m)) as H.
    rewrite length_map in H. lia. }
  assert (Hun : unlimited = map Frequency.name (sort compare recurring)).
  { subst unlimited. rewrite Hdef. now rewrite firstn_all2. }
  (* every value of the map, with its key *)
  assert (Hval : forall f, In f (map snd m) ->
            Frequency.count f
            = occurrences (normalize (Frequency.name f)) items /\
            In (normalize (Frequency.name f)) (map fst m) /\
            exists item,
              firstNamed (normalize (Frequency.name f)) items = Some item /\
              Item.name item = Frequency.name f).
  { intros f Hf. apply in_map_iff in Hf. destruct Hf as [[k f'] [Hk Hin]].
    simpl in Hk. subst f'. pose proof (Hget k) as Hk.
    rewrite (get_In k f m Hnd Hin) in Hk.
    destruct Hk as [Hc [first [Hfirst Hn]]].
    destruct (firstNamed_key _ _ _ Hfirst) as [_ Hkey].
    assert (Hnorm : normalize (Frequency.name f) = k) by now rewrite Hn.
    rewrite Hnorm. split; [exact Hc|]. split.
    - apply in_map_iff. now exists (k, f).
    - exists first. now split. }
  assert (Hkeys : map (fun f => normalize (Frequency.name f)) (map snd m)
                  = map fst m).
  { rewrite map_map. apply map_ext_in. intros [k f] Hin. simpl.
    pose proof (Hget k) as Hk. rewrite (get_In k f m Hnd Hin) in Hk.
    destruct Hk as [_ [first [Hfirst Hn]]].
    destruct (firstNamed_key _ _ _ Hfirst) as [_ Hkey]. now rewrite Hn. }
  assert (Hin_rec : forall f, In f (sort compare recurring) ->
                      In f (map snd m) /\ 2 <= Frequency.count f).
  { intros f Hf. apply (Permutation_in _ Hperm) in Hf. subst recurring.
    apply filter_In in Hf. destruct Hf as [Hf Hc].
    apply Nat.ltb_lt in Hc. split; [exact Hf | lia]. }
  split; [|split; [|split; [|split; [|split]]]].
  - rewrite Hdef, Hun. now rewrite firstn_map.
  - rewrite Hdef, length_map. apply firstn_le_length.
  - rewrite Hun, map_map.
    eapply Permutation_NoDup;
      [apply Permutation_map, Permutation_sym, Hperm|].
    subst recurring.
    apply (NoDup_map_filter (fun f => normalize (Frequency.name f))).
    rewrite Hkeys. exact Hnd.
  - intros name Hname. rewrite Hun in Hname. apply in_map_iff in Hname.
    destruct Hname as [f [<- Hf]]. destruct (Hin_rec f Hf) as [Hv Hc].
    destruct (Hval f Hv) as [Hocc [_ Hfirst]]. split; [lia | exact Hfirst].
  - intros item Hitem Hocc. set (k := normalize (Item.name item)) in *.
    pose proof (Hget k) as Hk.
    destruct (get k m) as [f|] eqn:Hg; [|lia].
    destruct Hk as [Hc [first [Hfirst Hn]]].
    destruct (firstNamed_key _ _ _ Hfirst) as [_ Hkey].
    rewrite Hun, map_map. apply in_map_iff. exists f. split.
    + now rewrite Hn.
    + apply (Permutation_in _ (Permutation_sym Hperm)). subst recurring.
      apply filter_In. split.
      * apply in_map_iff. exists (k, f). split; [reflexivity|].
        now apply get_Some_In.
      * apply Nat.ltb_lt. lia.
  - rewrite Hun.
    apply (Sorted_map_in Frequency.name
             (fun a b => Frequency.count b <= Frequency.count a)).
    + intros a b Ha Hb Hab.
      destruct (Hin_rec a Ha) as [Hva _]. destruct (Hin_rec b Hb) as [Hvb _].
      destruct (Hval a Hva) as [<- _]. destruct (Hval b Hvb) as [<- _].
      exact Hab.
    + apply sort_sorted_by; intros a b; apply count_descending.
Qed.

Lemma getRecurringItems_lists_repeated_witness :
  Forall
    (fun name =>
       2 <= occurrences (normalize name) (allItems leiteTwice) /\
       exists item,
         firstNamed (normalize name) (allItems leiteTwice) = Some item /\
         Item.name item = name)
    (getRecurringItems 2 leiteTwice).
Proof.
  assert (Hascii : forall item, In item (allItems leiteTwice) ->
                                isAscii (Item.name item) = true)
    by (intros item [<-|[<-|[]]]; reflexivity).
  pose proof (getRecurringItems_lists_repeated 2 leiteTwice Hascii) as H.
  cbv zeta in H. destruct H as [_ [_ [_ [H _]]]].
  apply Forall_forall. exact H.
Defined.


(** *** Products and their purchases *)

Lemma set_set {V : Type} (k : string) (v v' : V) (m : list (string * V)) :
  set k v' (set k v m) = set k v' m.
Proof.
  induction m as [|[k0 x] m IH]; simpl.
  - now rewrite String.eqb_refl.
  - destruct (String.eqb k0 k) eqn:E; simpl; rewrite E; [reflexivity|].
    now rewrite IH.
Qed.

Lemma noteItem_set (receipt : Required.t) (m : list (string * Product.t))
  (item : Item.t) :
  noteItem receipt m item =
  set (normalize (Item.name item))
    (Product.mk
       (match get (normalize (Item.name item)) m with
        | Some product => Product.name product
        | None => Item.name item
        end)
       (categoryOf item)
       ((match get (normalize (Item.name item)) m with
         | Some product => Product.purchases product
         | None => []
         end) ++ [bought (receipt, item)]))
    m.
Proof.
  unfold noteItem. rewrite has_get.
  destruct (get (normalize (Item.name item)) m) as [product|] eqn:Hg.
  - rewrite Hg. reflexivity.
  - rewrite get_set, String.eqb_refl. cbn [Product.name Product.purchases].
    now rewrite set_set.
Qed.

Lemma pairs_fold (completedReceipts : list Required.t)
  (m : list (string * Product.t)) :
  fold_left
    (fun m receipt => fold_left (noteItem receipt) (Required.items receipt) m)
    completedReceipts m
  = fold_left (fun m ri => noteItem (fst ri) m (snd ri))
      (pairs completedReceipts) m.
Proof.
  revert m. induction completedReceipts as [|r rs IH]; intros m;
    [reflexivity|].
  cbn [fold_left pairs flat_map]. rewrite fold_left_app, IH. f_equal.
  generalize (Required.items r). intros items. revert m.
  induction items as [|item items IHi]; intros m; [reflexivity|].
  cbn [map fold_left fst snd]. apply IHi.
Qed.

Lemma grouped_step (m : list (string * Product.t))
  (done : list (Required.t * Item.t)) (ri : Required.t * Item.t) :
  grouped m done -> grouped (noteItem (fst ri) m (snd ri)) (done ++ [ri]).
Proof.
  intros [Hnd Hget]. rewrite noteItem_set.
  set (k0 := normalize (Item.name (snd ri))).
  split; [now apply NoDup_keys_set|].
  intros k. rewrite get_set, filter_app, find_app. cbn [filter find].
  change (named k ri) with (String.eqb k0 k).
  destruct (String.eqb k0 k) eqn:E.
  - apply String.eqb_eq in E. subst k. pose proof (Hget k0) as H0.
    destruct (get k0 m) as [product|].
    + destruct H0 as [Hp [first [Hf Hn]]].
      cbn [Product.purchases Product.name]. rewrite Hp, Hf, map_app.
      destruct ri as [r i]. split; [reflexivity | now exists first].
    + cbn [Product.purchases Product.name]. rewrite H0.
      assert (Hnone : find (named k0) done = None).
      { apply find_none_iff. intros x Hx.
        destruct (named k0 x) eqn:Ex; [|reflexivity].
        assert (Hin : In x (filter (named k0) done))
          by (apply filter_In; now split).
        rewrite H0 in Hin. destruct Hin. }
      rewrite Hnone. destruct ri as [r i].
      split; [reflexivity | now exists (r, i)].
  - specialize (Hget k). rewrite app_nil_r.
    destruct (get k m) as [product|]; [|exact Hget].
    destruct Hget as [Hp [first [Hf Hn]]]. rewrite Hf.
    split; [exact Hp | now exists first].
Qed.

Lemma grouped_fold (l : list (Required.t * Item.t))
  (m : list (string * Product.t)) (done : list (Required.t * Item.t)) :
  grouped m done ->
  grouped (fold_left (fun m ri => noteItem (fst ri) m (snd ri)) l m)
    (done ++ l).
Proof.
  revert m done. induction l as [|ri l IH]; intros m done H; cbn [fold_left].
  - now rewrite app_nil_r.
  - replace (done ++ ri :: l) with ((done ++ [ri]) ++ l)
      by now rewrite <- app_assoc.
    apply IH. now apply grouped_step.
Qed.

Lemma purchasesOf_pairs (completedReceipts : list Required.t) (k : string) :
  purchasesOf completedReceipts k
  = map bought (filter (named k) (pairs completedReceipts)).
Proof.
  unfold purchasesOf, pairs.
  induction completedReceipts as [|r rs IH]; [reflexivity|].
  cbn [flat_map]. rewrite filter_app, map_app, IH. f_equal.
  generalize (Required.items r). intros items.
  induction items as [|item items IHi]; [reflexivity|].
  cbn [map filter]. unfold named at 1. cbn [snd].
  destruct (String.eqb _ k); cbn [map]; now rewrite IHi.
Qed.

Lemma allItems_pairs (completedReceipts : list Required.t) :
  allItems completedReceipts = map snd (pairs completedReceipts).
Proof.
  unfold allItems, pairs.
  induction completedReceipts as [|r rs IH]; [reflexivity|].
  cbn [flat_map]. rewrite map_app, IH, map_map. cbn [snd].
  now rewrite map_id.
Qed.

Lemma firstNamed_pairs (k : string) (l : list (Required.t * Item.t)) :
  firstNamed k (map snd l) = option_map snd (find (named k) l).
Proof.
  unfold firstNamed. induction l as [|ri l IH]; [reflexivity|].
  cbn [map find]. unfold named at 1.
  destruct (String.eqb _ k); [reflexivity | exact IH].
Qed.

(** The map of [productsAnalytics], before the two sorts. *)
Lemma productMap_grouped (completedReceipts : list Required.t) :
  grouped
    (fold_left
       (fun m receipt =>
          fold_left (noteItem receipt) (Required.items receipt) m)
       completedReceipts [])
    (pairs completedReceipts).
Proof.
  rewrite pairs_fold.
  apply (grouped_fold (pairs completedReceipts) [] []).
  split; [constructor | intros k; reflexivity].
Qed.

Lemma insert_sorted_in {A : Type} (compare : A -> A -> Q)
  (R : A -> A -> Prop) (x : A) (l : list A) :
  (forall a b, In a (x :: l) -> In b (x :: l) ->
     Qle_bool (compare a b) 0 = true -> R a b) ->
  (forall a b, In a (x :: l) -> In b (x :: l) ->
     Qle_bool (compare a b) 0 = false -> R b a) ->
  Sorted R l -> Sorted R (insert compare x l).
Proof.
  induction l as [|y l IH]; intros Hle Hgt Hs; simpl.
  - repeat constructor.
  - destruct (Qle_bool (compare x y) 0) eqn:E.
    + constructor; [exact Hs|]. constructor. apply Hle; simpl; auto.
    + inversion Hs as [|? ? Hs' Hhd]; subst.
      constructor.
      * apply IH; [| |exact Hs']; intros a b Ha Hb;
          [apply Hle | apply Hgt]; simpl in *; tauto.
      * destruct l as [|z l]; simpl.
        -- constructor. apply Hgt; simpl; auto.
        -- destruct (Qle_bool (compare x z) 0); constructor.
           ++ apply Hgt; simpl; auto.
           ++ now inversion Hhd.
Qed.

Lemma sort_sorted_in {A : Type} (compare : A -> A -> Q) (R : A -> A -> Prop)
  (l : list A) :
  (forall a b, In a l -> In b l -> Qle_bool (compare a b) 0 = true -> R a b) ->
  (forall a b, In a l -> In b l -> Qle_bool (compare a b) 0 = false -> R b a) ->
  Sorted R (sort compare l).
Proof.
  induction l as [|x l IH]; intros Hle Hgt; simpl; [constructor|].
  assert (Hin : forall a, In a (x :: sort compare l) -> In a (x :: l)).
  { intros a [->|Ha]; [now left | right].
    exact (Permutation_in _ (sort_perm compare l) Ha). }
  apply insert_sorted_in.
  - intros a b Ha Hb. apply Hle; now apply Hin.
  - intros a b Ha Hb. apply Hgt; now apply Hin.
  - apply IH; intros a b Ha Hb; [apply Hle | apply Hgt]; now right.
Qed.

Lemma purchasesOf_dated (P : Platform) (completedReceipts : list Required.t)
  (k : string) (p : Purchase.t) :
  (forall receipt, In receipt completedReceipts ->
     getTime P (Required.date receipt) <> None) ->
  In p (purchasesOf completedReceipts k) ->
  getTime P (Purchase.date p) = Some (timeOf P p).
Proof.
  intros Hd Hp. unfold purchasesOf in Hp. apply in_flat_map in Hp.
  destruct Hp as [r [Hr Hp]]. apply in_map_iff in Hp.
  destruct Hp as [item [<- _]]. unfold timeOf. cbn [Purchase.date].
  specialize (Hd r Hr). destruct (getTime P (Required.date r));
    [reflexivity | congruence].
Qed.

Lemma newest_first (P : Platform) (completedReceipts : list Required.t)
  (k : string) :
  (forall receipt, In receipt completedReceipts ->
     getTime P (Required.date receipt) <> None) ->
  Sorted (fun a b => timeOf P b <= timeOf P a)%Q
    (sort (byDateDescending P) (purchasesOf completedReceipts k)).
Proof.
  intros Hd. apply sort_sorted_in; intros a b Ha Hb; unfold byDateDescending;
    rewrite (purchasesOf_dated P _ k a Hd Ha),
            (purchasesOf_dated P _ k b Hd Hb);
    apply descending_le.
Qed.

(** The products of [productsAnalytics], one for each entry of the map. *)
Lemma productsAnalytics_entries (P : Platform)
  (completedReceipts : list Required.t) :
  exists m,
    grouped m (pairs completedReceipts) /\
    Permutation (productsAnalytics P completedReceipts)
      (map (fun kv =>
              Product.mk (Product.name (snd kv)) (Product.category (snd kv))
                (sort (byDateDescending P) (Product.purchases (snd kv))))
         m).
Proof.
  eexists. split; [apply productMap_grouped|].
  unfold productsAnalytics. apply sort_perm.
Qed.

Lemma grouped_entry (m : list (string * Product.t))
  (completedReceipts : list Required.t) (k : string) (product : Product.t) :
  grouped m (pairs completedReceipts) ->
  In (k, product) m ->
  normalize (Product.name product) = k /\
  Product.purchases product = purchasesOf completedReceipts k /\
  Product.purchases product <> [] /\
  exists item, firstNamed k (allItems completedReceipts) = Some item /\
               Product.name product = Item.name item.
Proof.
  intros [Hnd Hget] Hin. specialize (Hget k).
  rewrite (get_In k product m Hnd Hin) in Hget.
  destruct Hget as [Hp [first [Hf Hn]]].
  assert (Hk : normalize (Product.name product) = k).
  { apply find_some in Hf. destruct Hf as [_ Hf]. unfold named in Hf.
    apply String.eqb_eq in Hf. now rewrite Hn. }
  split; [exact Hk|]. split; [now rewrite purchasesOf_pairs|]. split.
  - rewrite Hp. apply find_some in Hf. destruct Hf as [Hin1 Hf].
    intros H0.
    assert (Hi : In (bought first)
                   (map bought (filter (named k) (pairs completedReceipts))))
      by (apply in_map, filter_In; now split).
    rewrite H0 in Hi. destruct Hi.
  - exists (snd first). rewrite allItems_pairs, firstNamed_pairs, Hf.
    now split.
Qed.

(** X20. For items whose names are written in ASCII, [productsAnalytics]
    has one product for each normalized name among the items of the
    completed receipts, under the spelling of its first item; the purchases
    of a product are exactly the purchases of the items with its normalized
    name, none lost and none added.  When the dates of the receipts can be
    read, they are listed newest first, purchases of the same time in the
    order of the receipts. *)
Theorem productsAnalytics_groups_purchases (P : Platform)
  (completedReceipts : list Required.t)
  (Hascii : forall item, In item (allItems completedReceipts) ->
                         isAscii (Item.name item) = true) :
  let products := productsAnalytics P completedReceipts in
  let items := allItems completedReceipts in
  let key product := normalize (Product.name product) in
  NoDup (map key products) /\
  (forall item, In item items ->
     In (normalize (Item.name item)) (map key products)) /\
  (forall product, In product products ->
     Permutation (Product.purchases product)
       (purchasesOf completedReceipts (key product)) /\
     Product.purchases product <> [] /\
     exists item, firstNamed (key product) items = Some item /\
                  Product.name product = Item.name item) /\
  ((forall receipt, In receipt completedReceipts ->
      getTime P (Required.date receipt) <> None) ->
   forall product, In product products ->
     Product.purchases product
     = sort (byDateDescending P)
         (purchasesOf completedReceipts (key product)) /\
     Sorted (fun a b => timeOf P b <= timeOf P a)%Q
       (Product.purchases product)).
Proof.
  intros products items key.
  destruct (productsAnalytics_entries P completedReceipts)
    as [m [Hg Hperm]]. fold products in Hperm.
  set (final := fun kv : string * Product.t =>
                  Product.mk (Product.name (snd kv))
                    (Product.category (snd kv))
                    (sort (byDateDescending P) (Product.purchases (snd kv))))
    in *.
  assert (Hkeys : map key (map final m) = map fst m).
  { rewrite map_map. apply map_ext_in. intros [k product] Hin.
    destruct (grouped_entry m completedReceipts k product Hg Hin) as [Hk _].
    exact Hk. }
  assert (Hentry : forall product, In product products ->
            exists k p0, In (k, p0) m /\ product = final (k, p0)).
  { intros product Hp. apply (Permutation_in _ Hperm) in Hp.
    apply in_map_iff in Hp. destruct Hp as [[k p0] [<- Hin]].
    now exists k, p0. }
  split; [|split; [|split]].
  - eapply Permutation_NoDup;
      [apply Permutation_map, Permutation_sym, Hperm|].
    rewrite Hkeys. apply Hg.
  - intros item Hitem.
    apply (Permutation_in _ (Permutation_map key (Permutation_sym Hperm))).
    rewrite Hkeys. destruct Hg as [Hnd Hget].
    set (k := normalize (Item.name item)). specialize (Hget k).
    destruct (get k m) as [product|] eqn:Hgk.
    + apply get_Some_In in Hgk. apply in_map_iff. now exists (k, product).
    + exfalso. subst items. rewrite allItems_pairs in Hitem.
      apply in_map_iff in Hitem. destruct Hitem as [ri [Hri Hin]].
      assert (Hi : In ri (filter (named k) (pairs completedReceipts))).
      { apply filter_In. split; [exact Hin|]. unfold named. rewrite Hri.
        apply String.eqb_refl. }
      rewrite Hget in Hi. destruct Hi.
  - intros product Hp. destruct (Hentry product Hp) as [k [p0 [Hin ->]]].
    destruct (grouped_entry m completedReceipts k p0 Hg Hin)
      as [Hk [Hpur [Hne Hfirst]]].
    unfold key, final. cbn [Product.name Product.purchases snd].
    rewrite Hk, Hpur. split; [apply sort_perm|].
    split; [|exact Hfirst].
    intros H0. apply Hne. rewrite Hpur.
    pose proof (sort_perm (byDateDescending P)
                  (purchasesOf completedReceipts k)) as Hs.
    rewrite H0 in Hs. now apply Permutation_nil in Hs.
  - intros Hd product Hp. destruct (Hentry product Hp) as [k [p0 [Hin ->]]].
    destruct (grouped_entry m completedReceipts k p0 Hg Hin)
      as [Hk [Hpur _]].
    unfold key, final. cbn [Product.name Product.purchases snd].
    rewrite Hk, Hpur. split; [reflexivity|].
    now apply newest_first.
Qed.

Lemma productsAnalytics_groups_purchases_witness :
  Forall
    (fun product =>
       Product.purchases product
       = sort (byDateDescending samplePlatform)
           (purchasesOf leiteTwice (normalize (Product.name product))) /\
       Sorted
         (fun a b => timeOf samplePlatform b <= timeOf samplePlatform a)%Q
         (Product.purchases product))
    (productsAnalytics samplePlatform leiteTwice).
Proof.
  assert (Hascii : forall item, In item (allItems leiteTwice) ->
                                isAscii (Item.name item) = true)
    by (intros item [<-|[<-|[]]]; reflexivity).
  pose proof (productsAnalytics_groups_purchases samplePlatform leiteTwice
                Hascii) as H.
  cbv zeta in H. destruct H as [_ [_ [_ H]]].
  apply Forall_forall. apply H.
  intros receipt [<-|[<-|[]]]; discriminate.
Defined.


(** *** Statistics *)

Lemma min2_spec (a b : Q) :
  (min2 a b <= a)%Q /\ (min2 a b <= b)%Q /\ (min2 a b = a \/ min2 a b = b).
Proof.
  unfold min2. destruct (Qle_bool a b) eqn:E.
  - apply Qle_bool_iff in E. repeat split; [lra | exact E | now left].
  - assert (b <= a)%Q.
    { destruct (Qlt_le_dec b a) as [H|H]; [lra|].
      apply Qle_bool_iff in H. congruence. }
    repeat split; [exact H | lra | now right].
Qed.

Lemma max2_spec (a b : Q) :
  (a <= max2 a b)%Q /\ (b <= max2 a b)%Q /\ (max2 a b = a \/ max2 a b = b).
Proof.
  unfold max2. destruct (Qle_bool a b) eqn:E.
  - apply Qle_bool_iff in E. repeat split; [exact E | lra | now right].
  - assert (b <= a)%Q.
    { destruct (Qlt_le_dec b a) as [H|H]; [lra|].
      apply Qle_bool_iff in H. congruence. }
    repeat split; [lra | exact H | now left].
Qed.

Lemma minimum_spec (rest : list Q) (first : Q) :
  (forall x, In x (first :: rest) -> minimum first rest <= x)%Q /\
  In (minimum first rest) (first :: rest).
Proof.
  unfold minimum. revert first.
  induction rest as [|y rest IH]; intros first; cbn [fold_left].
  - split; [intros x [<-|[]]; lra | now left].
  - destruct (IH (min2 first y)) as [H1 H2].
    destruct (min2_spec first y) as [Ha [Hb Hc]]. split.
    + intros x [<-|[<-|Hx]].
      * specialize (H1 _ (or_introl eq_refl)). lra.
      * specialize (H1 _ (or_introl eq_refl)). lra.
      * apply H1. now right.
    + destruct H2 as [H2|H2]; [|right; now right].
      rewrite <- H2. destruct Hc as [-> | ->]; [now left | right; now left].
Qed.

Lemma maximum_spec (rest : list Q) (first : Q) :
  (forall x, In x (first :: rest) -> x <= maximum first rest)%Q /\
  In (maximum first rest) (first :: rest).
Proof.
  unfold maximum. revert first.
  induction rest as [|y rest IH]; intros first; cbn [fold_left].
  - split; [intros x [<-|[]]; lra | now left].
  - destruct (IH (max2 first y)) as [H1 H2].
    destruct (max2_spec first y) as [Ha [Hb Hc]]. split.
    + intros x [<-|[<-|Hx]].
      * specialize (H1 _ (or_introl eq_refl)). lra.
      * specialize (H1 _ (or_introl eq_refl)). lra.
      * apply H1. now right.
    + destruct H2 as [H2|H2]; [|right; now right].
      rewrite <- H2. destruct Hc as [-> | ->]; [now left | right; now left].
Qed.

Lemma noteStats_entry (product : Product.t) (first : Purchase.t)
  (others : list Purchase.t) :
  Product.purchases product = first :: others ->
  let prices := map Purchase.unitPrice (Product.purchases product) in
  summarizes
    (Stats.mk (Product.name product) (Product.category product)
       (fold_left Qplus prices 0 / inject_Z (Z.of_nat (List.length prices)))%Q
       (minimum (Purchase.unitPrice first) (map Purchase.unitPrice others))
       (maximum (Purchase.unitPrice first) (map Purchase.unitPrice others))
       (Purchase.unitPrice first) (List.length prices) (Some first))
    (Product.purchases product).
Proof.
  intros Hp prices. subst prices. rewrite Hp. unfold summarizes.
  cbn [Stats.purchaseCount Stats.lastPurchase Stats.lastPrice Stats.minPrice
       Stats.maxPrice Stats.averagePrice hd_error].
  destruct (minimum_spec (map Purchase.unitPrice others)
              (Purchase.unitPrice first)) as [Hmin1 Hmin2].
  destruct (maximum_spec (map Purchase.unitPrice others)
              (Purchase.unitPrice first)) as [Hmax1 Hmax2].
  change (Purchase.unitPrice first :: map Purchase.unitPrice others)
    with (map Purchase.unitPrice (first :: others)) in *.
  assert (Hall : forall p, In p (first :: others) ->
            (minimum (Purchase.unitPrice first)
               (map Purchase.unitPrice others) <= Purchase.unitPrice p /\
             Purchase.unitPrice p <=
             maximum (Purchase.unitPrice first)
               (map Purchase.unitPrice others))%Q).
  { intros p Hin. split; [apply Hmin1 | apply Hmax1]; now apply in_map. }
  split; [now rewrite length_map|]. split; [reflexivity|].
  split; [now intros p [= <-]|]. split; [exact Hall|].
  split.
  - apply in_map_iff in Hmin2. destruct Hmin2 as [p [Hp1 Hp2]]. now exists p.
  - apply in_map_iff in Hmax2. destruct Hmax2 as [p [Hp1 Hp2]]. now exists p.
Qed.

Lemma productStatsMap_entries (products done : list Product.t)
  (m : list (string * Stats.t)) :
  (NoDup (map fst m) /\
   forall k s, In (k, s) m ->
     exists product, In product done /\
       normalize (Product.name product) = k /\
       Stats.name s = Product.name product /\
       Product.purchases product <> [] /\
       summarizes s (Product.purchases product)) ->
  NoDup (map fst (fold_left noteStats products m)) /\
  forall k s, In (k, s) (fold_left noteStats products m) ->
    exists product, In product (done ++ products) /\
      normalize (Product.name product) = k /\
      Stats.name s = Product.name product /\
      Product.purchases product <> [] /\
      summarizes s (Product.purchases product).
Proof.
  revert done m. induction products as [|product products IH];
    intros done m [Hnd H]; cbn [fold_left].
  - rewrite app_nil_r. now split.
  - replace (done ++ product :: products)
      with ((done ++ [product]) ++ products) by now rewrite <- app_assoc.
    apply IH. unfold noteStats.
    destruct (Product.purchases product) as [|first others] eqn:Hp.
    + split; [exact Hnd|]. intros k s Hin.
      destruct (H k s Hin) as [p [Hp1 Hp2]]. exists p.
      split; [apply in_or_app; now left | exact Hp2].
    + split; [now apply NoDup_keys_set|]. intros k s Hin.
      apply In_set in Hin. destruct Hin as [[= -> ->]|Hin].
      * exists product. split; [apply in_or_app; right; now left|].
        split; [reflexivity|]. split; [reflexivity|].
        split; [rewrite Hp; discriminate|].
        pose proof (noteStats_entry product first others Hp) as Hs.
        cbv zeta in Hs. rewrite Hp in Hs |- *. exact Hs.
      * destruct (H k s Hin) as [p [Hp1 Hp2]]. exists p.
        split; [apply in_or_app; now left | exact Hp2].
Qed.

Lemma Sorted_head_greatest (P : Platform) (p : Purchase.t)
  (l : list Purchase.t) :
  Sorted (fun a b => timeOf P b <= timeOf P a)%Q (p :: l) ->
  forall q, In q (p :: l) -> (timeOf P q <= timeOf P p)%Q.
Proof.
  intros Hs q Hq. apply Sorted_StronglySorted in Hs.
  - inversion Hs as [|? ? _ Hall]; subst.
    destruct Hq as [<-|Hq]; [lra|].
    rewrite Forall_forall in Hall. now apply Hall.
  - intros a b c Hab Hbc. lra.
Qed.

(** X21. For products whose names are written in ASCII, every entry of
    [productStatsMap] describes the purchases of one product: the count is
    their number, the minimum and the maximum are prices that were paid and
    bound all of them, and the last price is the price of the purchase
    listed first.  Computed from [productsAnalytics] with readable dates,
    that purchase is the most recent one of the product. *)
Theorem productStatsMap_summarizes :
  (forall products,
     (forall product, In product products ->
        isAscii (Product.name product) = true) ->
     NoDup (map fst (productStatsMap products)) /\
     forall k s, In (k, s) (productStatsMap products) ->
       exists product, In product products /\
         normalize (Product.name product) = k /\
         Stats.name s = Product.name product /\
         Product.purchases product <> [] /\
         summarizes s (Product.purchases product)) /\
  (forall P completedReceipts,
     (forall item, In item (allItems completedReceipts) ->
        isAscii (Item.name item) = true) ->
     (forall receipt, In receipt completedReceipts ->
        getTime P (Required.date receipt) <> None) ->
     forall k s,
       In (k, s) (productStatsMap (productsAnalytics P completedReceipts)) ->
       Stats.purchaseCount s
       = List.length (purchasesOf completedReceipts k) /\
       exists p,
         Stats.lastPurchase s = Some p /\
         Stats.lastPrice s = Purchase.unitPrice p /\
         In p (purchasesOf completedReceipts k) /\
         forall q, In q (purchasesOf completedReceipts k) ->
                   (timeOf P q <= timeOf P p)%Q).
Proof.
  assert (Hgen : forall products,
     NoDup (map fst (productStatsMap products)) /\
     forall k s, In (k, s) (productStatsMap products) ->
       exists product, In product products /\
         normalize (Product.name product) = k /\
         Stats.name s = Product.name product /\
         Product.purchases product <> [] /\
         summarizes s (Product.purchases product)).
  { intros products.
    apply (productStatsMap_entries products [] []).
    split; [constructor | intros k s []]. }
  split; [intros products _; apply Hgen|].
  intros P completedReceipts _ Hd k s Hin.
  destruct (Hgen (productsAnalytics P completedReceipts)) as [_ H].
  destruct (H k s Hin) as [product [Hp [Hk [_ [Hne Hsum]]]]].
  destruct (productsAnalytics_entries P completedReceipts)
    as [m [Hg Hperm]].
  apply (Permutation_in _ Hperm) in Hp. apply in_map_iff in Hp.
  destruct Hp as [[k0 p0] [<- Hin0]].
  destruct (grouped_entry m completedReceipts k0 p0 Hg Hin0)
    as [Hk0 [Hpur _]].
  cbn [Product.name Product.purchases snd] in *.
  rewrite Hk0 in Hk. subst k0. rewrite Hpur in *.
  pose proof (sort_perm (byDateDescending P)
                (purchasesOf completedReceipts k)) as Hs.
  pose proof (newest_first P completedReceipts k Hd) as Hsorted.
  destruct Hsum as [Hc [Hl [Hlp _]]].
  split; [rewrite Hc; now apply Permutation_length|].
  destruct (sort (byDateDescending P) (purchasesOf completedReceipts k))
    as [|p l] eqn:Hsort; [congruence|].
  exists p. split; [exact Hl|]. split; [now apply Hlp|]. split.
  - apply (Permutation_in _ Hs). now left.
  - intros q Hq. apply (Sorted_head_greatest P p l Hsorted).
    apply (Permutation_in _ (Permutation_sym Hs)). exact Hq.
Qed.

Lemma productStatsMap_summarizes_witness :
  Forall
    (fun ks =>
       Stats.purchaseCount (snd ks)
       = List.length (purchasesOf leiteTwice (fst ks)) /\
       exists p,
         Stats.lastPurchase (snd ks) = Some p /\
         Stats.lastPrice (snd ks) = Purchase.unitPrice p /\
         In p (purchasesOf leiteTwice (fst ks)) /\
         forall q, In q (purchasesOf leiteTwice (fst ks)) ->
                   (timeOf samplePlatform q <= timeOf samplePlatform p)%Q)
    (productStatsMap (productsAnalytics samplePlatform leiteTwice)).
Proof.
  apply Forall_forall. intros [k s] Hin.
  destruct productStatsMap_summarizes as [_ H].
  apply (H samplePlatform leiteTwice).
  - intros item [<-|[<-|[]]]; reflexivity.
  - intros receipt [<-|[<-|[]]]; discriminate.
  - exact Hin.
Defined.


(** *** Stores *)

Lemma noteReceipt_set (m : list (string * list Required.t))
  (receipt : Required.t) :
  noteReceipt m receipt =
  set (storeKey receipt)
    ((match get (storeKey receipt) m with
      | Some receipts => receipts
      | None => []
      end) ++ [receipt])
    m.
Proof.
  unfold noteReceipt. rewrite has_get.
  destruct (get (storeKey receipt) m) as [receipts|] eqn:Hg.
  - now rewrite Hg.
  - rewrite get_set, String.eqb_refl. now rewrite set_set.
Qed.

Lemma filed_step (m : list (string * list Required.t))
  (done : list Required.t) (receipt : Required.t) :
  filed m done -> filed (noteReceipt m receipt) (done ++ [receipt]).
Proof.
  intros [Hnd Hget]. rewrite noteReceipt_set.
  split; [now apply NoDup_keys_set|].
  intros k. rewrite get_set, filter_app. cbn [filter].
  destruct (String.eqb (storeKey receipt) k) eqn:E.
  - apply String.eqb_eq in E. subst k. specialize (Hget (storeKey receipt)).
    destruct (get (storeKey receipt) m) as [receipts|].
    + destruct Hget as [-> _]. split; [reflexivity|].
      intros H. now apply app_eq_nil in H.
    + rewrite Hget. split; [reflexivity | discriminate].
  - specialize (Hget k). rewrite app_nil_r.
    destruct (get k m); exact Hget.
Qed.

Lemma concat_set (k : string) (receipt : Required.t)
  (m : list (string * list Required.t)) :
  Permutation
    (List.concat
       (map snd
          (set k
             ((match get k m with Some receipts => receipts | None => [] end)
              ++ [receipt]) m)))
    (List.concat (map snd m) ++ [receipt]).
Proof.
  induction m as [|[k0 x] m IH]; simpl.
  - reflexivity.
  - destruct (String.eqb k0 k) eqn:E; simpl.
    + rewrite <- !app_assoc. apply Permutation_app_head.
      apply Permutation_app_comm.
    + rewrite <- app_assoc. now apply Permutation_app_head.
Qed.

Lemma filed_fold (l : list Required.t) (m : list (string * list Required.t))
  (done : list Required.t) :
  filed m done ->
  Permutation (List.concat (map snd m)) done ->
  filed (fold_left noteReceipt l m) (done ++ l) /\
  Permutation (List.concat (map snd (fold_left noteReceipt l m))) (done ++ l).
Proof.
  revert m done. induction l as [|r l IH]; intros m done H Hp;
    cbn [fold_left].
  - rewrite app_nil_r. now split.
  - replace (done ++ r :: l) with ((done ++ [r]) ++ l)
      by now rewrite <- app_assoc.
    apply IH; [now apply filed_step|].
    rewrite noteReceipt_set, concat_set. now apply Permutation_app_tail.
Qed.

Lemma Sorted_ends (P : Platform) (d x : Required.t) (l : list Required.t) :
  StronglySorted (fun a b => timeOfReceipt P a <= timeOfReceipt P b)%Q
    (x :: l) ->
  forall r, In r (x :: l) ->
    (timeOfReceipt P x <= timeOfReceipt P r)%Q /\
    (timeOfReceipt P r <= timeOfReceipt P (last (x :: l) d))%Q.
Proof.
  revert x. induction l as [|y l IH]; intros x Hs r Hr.
  - destruct Hr as [<-|[]]. simpl. split; lra.
  - inversion Hs as [|? ? Hs' Hall]; subst. rewrite Forall_forall in Hall.
    change (last (x :: y :: l) d) with (last (y :: l) d).
    destruct Hr as [<-|Hr].
    + split; [lra|].
      destruct (IH y Hs' y (or_introl eq_refl)) as [_ H2].
      specialize (Hall y (or_introl eq_refl)). lra.
    + destruct (IH y Hs' r Hr) as [H1 H2]. split; [|exact H2].
      now apply Hall.
Qed.

Lemma last_member {A : Type} (l : list A) (x d : A) :
  In (last (x :: l) d) (x :: l).
Proof.
  revert x. induction l as [|y l IH]; intros x; [now left|].
  change (last (x :: y :: l) d) with (last (y :: l) d). right. apply IH.
Qed.

Lemma byDateAscending_le (P : Platform) (l : list Required.t) :
  (forall r, In r l -> getTime P (Required.date r) <> None) ->
  Sorted (fun a b => timeOfReceipt P a <= timeOfReceipt P b)%Q
    (sort (byDateAscending P) l).
Proof.
  intros Hd. apply sort_sorted_in; intros a b Ha Hb;
    unfold byDateAscending, timeOfReceipt;
    pose proof (Hd a Ha) as Da; pose proof (Hd b Hb) as Db;
    destruct (getTime P (Required.date a)) as [ta|]; try congruence;
    destruct (getTime P (Required.date b)) as [tb|]; try congruence.
  - intros H. apply Qle_bool_iff in H. lra.
  - intros H. destruct (Qlt_le_dec 0 (ta - tb)) as [Hl|Hl]; [lra|].
    apply Qle_bool_iff in Hl. congruence.
Qed.

Lemma noteStore_describes (P : Platform) (analytics : list StoreStats.t)
  (receipts : list Required.t) :
  receipts <> [] ->
  exists s,
    noteStore P analytics receipts = analytics ++ [s] /\
    describes P s receipts.
Proof.
  intros Hne. unfold noteStore.
  destruct receipts as [|any rest] eqn:Hr; [congruence|]. rewrite <- Hr.
  assert (Hperm : Permutation (sort (byDateAscending P) receipts) receipts)
    by apply sort_perm.
  destruct (sort (byDateAscending P) receipts) as [|x l] eqn:Hs.
  { apply Permutation_nil in Hperm. congruence. }
  eexists. split; [reflexivity|]. unfold describes.
  cbn [StoreStats.receiptCount StoreStats.totalSpent
       StoreStats.averageReceiptTotal StoreStats.storeName
       StoreStats.storeCnpj StoreStats.storeAddress
       StoreStats.firstPurchaseDate StoreStats.lastPurchaseDate hd].
  split; [now apply Permutation_length|].
  exists x, (last (x :: l) any).
  assert (Hin : forall r, In r (x :: l) -> In r receipts)
    by (intros r; apply (Permutation_in _ Hperm)).
  split; [apply Hin; now left|].
  split; [apply Hin, last_member|].
  do 5 (split; [reflexivity|]).
  intros Hdates r0 Hr0.
  pose proof (byDateAscending_le P receipts Hdates) as Hsorted.
  rewrite Hs in Hsorted. apply Sorted_StronglySorted in Hsorted;
    [|intros a b c Hab Hbc; lra].
  apply (Sorted_ends P any x l Hsorted).
  now apply (Permutation_in _ (Permutation_sym Hperm)).
Qed.

Lemma noteStores_described (P : Platform) (groups : list (list Required.t))
  (analytics : list StoreStats.t) :
  (forall l, In l groups -> l <> []) ->
  exists entries,
    fold_left (noteStore P) groups analytics = analytics ++ entries /\
    Forall2 (describes P) entries groups.
Proof.
  revert analytics. induction groups as [|l groups IH]; intros analytics H;
    cbn [fold_left].
  - exists []. split; [now rewrite app_nil_r | constructor].
  - destruct (noteStore_describes P analytics l (H l (or_introl eq_refl)))
      as [s [Hs Hd]].
    destruct (IH (analytics ++ [s])) as [entries [He Hf]];
      [intros l' Hl'; apply H; now right|].
    exists (s :: entries). rewrite Hs, He, <- app_assoc. split; [reflexivity|].
    now constructor.
Qed.

Lemma described_totals (P : Platform) (entries : list StoreStats.t)
  (groups : list (list Required.t)) :
  Forall2 (describes P) entries groups ->
  fold_right Nat.add 0 (map StoreStats.receiptCount entries)
  = List.length (List.concat groups).
Proof.
  intros H. induction H as [|s l entries groups Hd _ IH].
  - reflexivity.
  - destruct Hd as [Hc _]. cbn [map fold_right List.concat].
    rewrite length_app, IH, Hc. reflexivity.
Qed.

(** X22. [storeAnalytics] has one entry for each store of the completed
    receipts, the store being told by its CNPJ or else by its name.  An
    entry counts the receipts of its store and takes its name, its CNPJ,
    its address and its first date from one of them and its last date from
    one of them: with readable dates, from the oldest and from the newest
    receipt of the store.  No receipt is counted twice or left out. *)
Theorem storeAnalytics_partitions_receipts (P : Platform)
  (completedReceipts : list Required.t) :
  let stores := storeAnalytics P completedReceipts in
  (exists groups entries,
     filed groups completedReceipts /\
     (forall receipt, In receipt completedReceipts ->
        In (storeKey receipt) (map fst groups)) /\
     Permutation stores entries /\
     Forall2 (describes P) entries (map snd groups)) /\
  fold_right Nat.add 0 (map StoreStats.receiptCount stores)
  = totalReceipts completedReceipts.
Proof.
  intros stores.
  set (groups := fold_left noteReceipt completedReceipts []).
  destruct (filed_fold completedReceipts [] []) as [Hfiled Hconcat].
  { split; [constructor | intros k; reflexivity]. }
  { reflexivity. }
  cbn [app] in Hfiled, Hconcat. fold groups in Hfiled, Hconcat.
  assert (Hne : forall l, In l (map snd groups) -> l <> []).
  { intros l Hl. apply in_map_iff in Hl. destruct Hl as [[k l'] [Hk Hin]].
    simpl in Hk. subst l'. destruct Hfiled as [Hnd Hget].
    specialize (Hget k). rewrite (get_In k l groups Hnd Hin) in Hget.
    tauto. }
  destruct (noteStores_described P (map snd groups) [] Hne)
    as [entries [Hentries Hdesc]].
  cbn [app] in Hentries.
  assert (Hperm : Permutation stores entries).
  { subst stores. unfold storeAnalytics. fold groups. rewrite Hentries.
    apply sort_perm. }
  pose proof (described_totals P entries (map snd groups) Hdesc) as Hn.
  split.
  - exists groups, entries. split; [exact Hfiled|]. split; [|now split].
    intros receipt Hr. destruct Hfiled as [Hnd Hget].
    specialize (Hget (storeKey receipt)).
    destruct (get (storeKey receipt) groups) as [l|] eqn:Hg.
    + apply get_Some_In in Hg. apply in_map_iff.
      now exists (storeKey receipt, l).
    + exfalso.
      assert (Hi : In receipt
                     (filter (fun r => String.eqb (storeKey r)
                                         (storeKey receipt))
                        completedReceipts))
        by (apply filter_In; split; [exact Hr | apply String.eqb_refl]).
      rewrite Hget in Hi. destruct Hi.
  - unfold totalReceipts. rewrite <- (Permutation_length Hconcat), <- Hn.
    clear -Hperm. induction Hperm; simpl; lia.
Qed.


(** *** Months *)

Lemma lastN_suffix {A : Type} (n : nat) (l : list A) :
  exists pre, l = pre ++ lastN n l /\ List.length (lastN n l) <= n.
Proof.
  unfold lastN. exists (firstn (List.length l - n) l).
  split; [now rewrite firstn_skipn|]. rewrite length_skipn. lia.
Qed.

Lemma StronglySorted_across {A : Type} (R : A -> A -> Prop) (l1 l2 : list A) :
  StronglySorted R (l1 ++ l2) ->
  forall x y, In x l1 -> In y l2 -> R x y.
Proof.
  induction l1 as [|a l1 IH]; intros Hs x y Hx Hy; [destruct Hx|].
  cbn [app] in Hs. inversion Hs as [|? ? Hs' Hall]; subst.
  destruct Hx as [<-|Hx]; [|now apply IH].
  rewrite Forall_forall in Hall. apply Hall, in_or_app. now right.
Qed.

(** X24. [spendingByMonth] lists at most six months, each once and each
    the month of a completed receipt.  When [localeCompare] is a consistent
    comparator, the months are listed in its order and the months that are
    left out are the earliest ones: the month of a receipt that is not
    listed comes before every listed month. *)
Theorem spendingByMonth_last_six (P : Platform) (monthOf : string -> string)
  (completedReceipts : list Required.t) :
  let months :=
    map MonthlySpending.month (spendingByMonth P monthOf completedReceipts) in
  let before a b := Qle_bool (localeCompare P a b) 0 = true in
  List.length months <= 6 /\
  NoDup months /\
  (forall m, In m months ->
     exists receipt, In receipt completedReceipts /\
                     monthOf (Required.date receipt) = m) /\
  (consistent (localeCompare P) ->
   Sorted before months /\
   forall receipt m,
     In receipt completedReceipts ->
     ~ In (monthOf (Required.date receipt)) months ->
     In m months ->
     before (monthOf (Required.date receipt)) m).
Proof.
  intros months before.
  set (entries := map (fun receipt =>
                         (monthOf (Required.date receipt),
                          Required.totalAmount receipt))
                    completedReceipts).
  set (compare := fun a b : MonthlySpending.t =>
                    localeCompare P (MonthlySpending.month a)
                      (MonthlySpending.month b)).
  set (full := sort compare
                 (map (fun kv => MonthlySpending.mk (fst kv) (snd kv))
                    (tally entries))).
  assert (Hmonths : months = map MonthlySpending.month (lastN 6 full)).
  { subst months full entries compare. unfold spendingByMonth, tally.
    rewrite (fold_left_mapped
               (fun m e => noteSpending (fst e) (snd e) m)
               (fun receipt =>
                  (monthOf (Required.date receipt),
                   Required.totalAmount receipt))).
    reflexivity. }
  destruct (tally_spec entries) as [Hnd Hkeys].
  assert (Hperm : Permutation full
                    (map (fun kv => MonthlySpending.mk (fst kv) (snd kv))
                       (tally entries))) by apply sort_perm.
  assert (Hk : map fst entries
               = map (fun receipt => monthOf (Required.date receipt))
                   completedReceipts)
    by (subst entries; rewrite map_map; reflexivity).
  assert (Hfull_keys : Permutation (map MonthlySpending.month full)
                         (map fst (tally entries))).
  { rewrite (Permutation_map MonthlySpending.month Hperm), map_map.
    cbn [MonthlySpending.month]. reflexivity. }
  assert (Hfull_nd : NoDup (map MonthlySpending.month full)).
  { eapply Permutation_NoDup; [apply Permutation_sym, Hfull_keys|].
    exact Hnd. }
  destruct (lastN_suffix 6 full) as [pre [Hsplit Hlen]].
  assert (Hall : map MonthlySpending.month full
                 = map MonthlySpending.month pre ++ months).
  { rewrite Hmonths, <- map_app, <- Hsplit. reflexivity. }
  assert (Hsorted :
    consistent (localeCompare P) ->
    Sorted before (map MonthlySpending.month full)).
  { intros [Hswap _].
    assert (Htotal : forall a b,
              Qle_bool (localeCompare P a b) 0 = false -> before b a).
    { intros a b H. unfold before. apply Qle_bool_iff.
      destruct (Qlt_le_dec 0 (localeCompare P a b)) as [Hl|Hl].
      - apply Hswap in Hl. lra.
      - apply Qle_bool_iff in Hl. congruence. }
    apply (Sorted_map_in MonthlySpending.month
             (fun a b => before (MonthlySpending.month a)
                           (MonthlySpending.month b))).
    - intros a b _ _ H. exact H.
    - subst full. apply sort_sorted_by.
      + intros a b H. exact H.
      + intros a b H. now apply Htotal. }
  split; [|split; [|split]].
  - rewrite Hmonths, length_map. exact Hlen.
  - rewrite Hall in Hfull_nd. now apply NoDup_app_parts in Hfull_nd.
  - intros m Hm.
    assert (Hin : In m (map MonthlySpending.month full))
      by (rewrite Hall; apply in_or_app; now right).
    apply (Permutation_in _ Hfull_keys) in Hin. apply Hkeys in Hin.
    rewrite Hk in Hin. apply in_map_iff in Hin.
    destruct Hin as [r [Hr Hin]]. now exists r.
  - intros Hc. specialize (Hsorted Hc). rewrite Hall in Hsorted.
    destruct Hc as [_ Htrans]. split.
    { clear -Hsorted.
      induction (map MonthlySpending.month pre) as [|x l IH];
        [exact Hsorted|].
      apply IH. now inversion Hsorted. }
    intros receipt m Hr Hout Hm.
    apply Sorted_StronglySorted in Hsorted.
    2:{ intros a b c Hab Hbc. unfold before in *.
        apply Qle_bool_iff. apply Qle_bool_iff in Hab, Hbc.
        exact (Htrans a b c Hab Hbc). }
    apply (StronglySorted_across before _ _ Hsorted); [|exact Hm].
    assert (Hin : In (monthOf (Required.date receipt))
                    (map MonthlySpending.month full)).
    { apply (Permutation_in _ (Permutation_sym Hfull_keys)).
      apply Hkeys. rewrite Hk. apply in_map_iff. now exists receipt. }
    rewrite Hall in Hin. apply in_app_or in Hin.
    destruct Hin as [Hin|Hin]; [exact Hin | contradiction].
Qed.

End ProjectionFacts.

(** ** The geocoding cache *)

Module GeocodingFacts.
Import Geocoding.

(** X25. The coordinates found for an address are kept: after a response
    with at least one result, a lookup of the same address yields the same
    coordinates without a request, and the lookups of the other addresses
    are as before.  An empty response and a failed request leave the cache
    as it was, so the address is requested again at its next lookup. *)
Theorem getCoordinates_caches_results (parseFloat : string -> option Q)
  (address other : string) (first : NominatimResponse)
  (more : list NominatimResponse) (cache : list (string * Coordinates)) :
  let found :=
    getCoordinates_response parseFloat address
      (SheetsService.Delivered (first :: more)) cache in
  let empty :=
    getCoordinates_response parseFloat address (SheetsService.Delivered [])
      cache in
  let failed :=
    getCoordinates_response parseFloat address SheetsService.HttpFailed cache in
  (exists coords,
     fst found = Some coords /\
     getCoordinates (snd found) address = inl coords) /\
  (other <> address ->
   getCoordinates (snd found) other = getCoordinates cache other) /\
  fst empty = None /\ snd empty = cache /\
  fst failed = None /\ snd failed = cache /\
  (getCoordinates cache address = inr address ->
   getCoordinates (snd empty) address = inr address /\
   getCoordinates (snd failed) address = inr address).
Proof.
  cbn [getCoordinates_response fst snd]. unfold getCoordinates.
  split; [|split].
  - eexists. split; [reflexivity|].
    now rewrite ProjectionFacts.get_set, String.eqb_refl.
  - intros Hne. rewrite ProjectionFacts.get_set.
    destruct (String.eqb address other) eqn:E; [|reflexivity].
    apply String.eqb_eq in E. congruence.
  - repeat split; assumption.
Qed.

Lemma getCoordinates_caches_results_witness :
  getCoordinates
    (snd (getCoordinates_response (fun _ => Some 1%Q) "Rua do Teste, 123"
            (SheetsService.Delivered
               [mkNominatimResponse "1" "1" "Rua do Teste"])
            []))
    "Rua A, 1"
  = getCoordinates [] "Rua A, 1".
Proof.
  apply (getCoordinates_caches_results (fun _ => Some 1%Q)
           "Rua do Teste, 123" "Rua A, 1"
           (mkNominatimResponse "1" "1" "Rua do Teste") [] []).
  discriminate.
Defined.

End GeocodingFacts.

(** ** Migration: what is left aside *)

Module MigrationFacts.
Import Backend BackendFacts Router RouterFacts.

Lemma migrate_all_skipped (P : Platform) (n : nat)
  (rs : list (list Value)) (acc : nat * Sheet) :
  12 <= n ->
  (forall row, In row rs -> skipped P row = true) ->
  fold_left (migrateRow P 0 8)
    (filter (fun row => holdsItems (nth 8 row Undefined))
       (map (cells n) rs))
    acc
  = acc.
Proof.
  intros Hn. induction rs as [|row rs IH]; intros Hs; [reflexivity|].
  cbn [map filter]. rewrite nth_cells by lia.
  pose proof (Hs row (or_introl eq_refl)) as Hrow.
  assert (Hrest : forall r, In r rs -> skipped P r = true)
    by (intros r Hr; apply Hs; now right).
  destruct (holdsItems (nth 8 row (Str ""))) eqn:Hh; [|now apply IH].
  cbn [fold_left].
  assert (Hstep : migrateRow P 0 8 acc (cells n row) = acc).
  { unfold migrateRow, skipped in *. destruct acc as [c sheet].
    rewrite !nth_cells by lia.
    destruct (nth 8 row (Str "")) as [| |b|q|text|l|l]; try reflexivity.
    rewrite Hh in Hrow. cbn [negb orb] in Hrow.
    destruct (JSON_parse P text) as [[| |b|q|s|items|l]|];
      try reflexivity.
    destruct items as [|item items].
    - destruct (truthy (nth 0 row (Str ""))); reflexivity.
    - apply negb_true_iff in Hrow. now rewrite Hrow. }
  rewrite Hstep. now apply IH.
Qed.

(** X26. Migration leaves aside what it cannot use: when no row of
    [Recibos] holds a list of items that parses to an array with elements
    under an id, the reply counts no receipt and both sheets are as they
    were. *)
Theorem handleMigration_skips_unreadable (P : Platform) (ss : Spreadsheet)
  (extraR : list string) :
  header (Recibos ss) = receiptHeaders ++ extraR ->
  (forall row, In row (rows (Recibos ss)) -> skipped P row = true) ->
  exists message,
    handleMigration P ss = (Returned (migrated 0 message), ss).
Proof.
  intros HR Hs. unfold handleMigration.
  destruct (getLastRow (Recibos ss) <? 2)%Z; [now eexists|].
  rewrite (indexOf_id _ _ HR), (indexOf_items _ _ HR).
  cbn [Z.eqb orb].
  change (Z.to_nat 0) with 0. change (Z.to_nat 8) with 8.
  assert (Hn : 12 <= getLastColumn (Recibos ss)).
  { pose proof (getLastColumn_header (Recibos ss)) as H.
    rewrite HR, length_app in H. simpl in H. lia. }
  unfold dataValues.
  destruct (Nat.eqb _ 0); [now eexists|].
  rewrite (migrate_all_skipped P _ _ _ Hn Hs).
  eexists. destruct ss as [recibos itens]. reflexivity.
Qed.

Lemma handleMigration_skips_unreadable_witness :
  exists message,
    handleMigration Reference.platform
      (mkSpreadsheet
         (mkSheet receiptHeaders
            [[Str "r-1"; Str "http://x/1"; Str "processing"]])
         (mkSheet itemHeaders []))
    = (Returned (migrated 0 message),
       mkSpreadsheet
         (mkSheet receiptHeaders
            [[Str "r-1"; Str "http://x/1"; Str "processing"]])
         (mkSheet itemHeaders [])).
Proof.
  apply (handleMigration_skips_unreadable Reference.platform
           (mkSpreadsheet
              (mkSheet receiptHeaders
                 [[Str "r-1"; Str "http://x/1"; Str "processing"]])
              (mkSheet itemHeaders []))
           []).
  - reflexivity.
  - intros row [<-|[]]. reflexivity.
Defined.

End MigrationFacts.

(** ** The ids of the list *)

Lemma retrySync_ids (configured : bool) (receiptId : string) (st : Store) :
  map Receipt.id (receipts (fst (retrySync configured receiptId st)))
  = map Receipt.id (receipts st).
Proof.
  unfold retrySync.
  destruct (find _ (receipts st)); [|reflexivity].
  destruct (_ || _); [reflexivity|].
  destruct (negb configured); [reflexivity|].
  cbn [fst update_receipts set_receipts receipts].
  now apply map_by_id_ids.
Qed.

Lemma retrySyncEach_ids (configured : bool) (ids : list string) (st : Store) :
  map Receipt.id (receipts (fst (retrySyncEach configured ids st)))
  = map Receipt.id (receipts st).
Proof.
  unfold retrySyncEach.
  change st with (fst (st, @nil RemoteCall)) at 2.
  generalize (st, @nil RemoteCall). induction ids as [|id ids IH];
    intros acc; cbn [fold_left]; [reflexivity|].
  rewrite IH. clear IH.
  pose proof (retrySync_ids configured id (fst acc)) as H.
  destruct (retrySync configured id (fst acc)) as [s calls]. exact H.
Qed.

(** X27. The ids of the list are stable: the two ways of adding a receipt
    put the new id in front of the ids there were, and the extraction
    steps, the synchronization steps and the edits leave the ids exactly as
    they were, in the same order.  So with fresh ids for new receipts the
    ids of the list stay pairwise distinct. *)
Theorem receipt_ids_are_stable (configured : bool) (st : Store) :
  let ids s := map Receipt.id (receipts s) in
  (forall uuid url,
     ids (fst (addReceipt configured uuid url st)) = ids st \/
     ids (fst (addReceipt configured uuid url st)) = uuid :: ids st) /\
  (forall tempId, ids (addReceiptFromPhoto tempId st) = tempId :: ids st) /\
  (forall tempId result,
     ids (fst (addReceiptFromPhoto_settled configured tempId result st))
     = ids st) /\
  (forall r parsedData,
     ids (fst (processQueue_fulfilled configured r parsedData st)) = ids st) /\
  (forall r error,
     ids (fst (processQueue_rejected configured r error st)) = ids st) /\
  (forall r outcome, ids (processQueue_saved r outcome st) = ids st) /\
  (forall receiptId, ids (fst (retrySync configured receiptId st)) = ids st) /\
  (forall receiptId outcome,
     ids (retrySync_settled receiptId outcome st) = ids st) /\
  ids (fst (syncLocalDataToSheets configured st)) = ids st /\
  (forall updatedReceipt,
     ids (fst (updateReceipt configured updatedReceipt st)) = ids st) /\
  (forall storeCnpj newAddress,
     ids (fst (updateStoreAddress configured storeCnpj newAddress st))
     = ids st) /\
  (forall receiptId,
     ids (fst (reprocessReceipt configured receiptId st)) = ids st) /\
  (forall receiptId newUrl,
     ids (fst (updateReceiptUrl receiptId newUrl st)) = ids st) /\
  (forall uuid url,
     NoDup (ids st) -> ~ In uuid (ids st) ->
     NoDup (ids (fst (addReceipt configured uuid url st))) /\
     NoDup (ids (addReceiptFromPhoto uuid st))).
Proof.
  intros ids. subst ids. cbv beta.
  repeat match goal with |- _ /\ _ => split end.
  - intros uuid url. unfold addReceipt.
    destruct (find _ (receipts st)); [now left | now right].
  - reflexivity.
  - intros tempId [error|url]; cbn [addReceiptFromPhoto_settled fst].
    + unfold addReceiptFromPhoto_rejected.
      cbn [update_receipts set_receipts receipts]. now apply map_by_id_ids.
    + unfold addReceiptFromPhoto_fulfilled.
      destruct (find _ (receipts st));
        cbn [fst update_receipts set_receipts receipts];
        now apply map_by_id_ids.
  - intros r parsedData. unfold processQueue_fulfilled.
    cbn [fst set_isProcessing update_receipts set_receipts receipts].
    unfold map_by_id. rewrite map_map. apply map_ext. intros a.
    destruct (String.eqb (Receipt.id a) (Receipt.id r)) eqn:E;
      [|reflexivity].
    apply String.eqb_eq in E. now rewrite E.
  - intros r error. unfold processQueue_rejected.
    cbn [fst set_isProcessing update_receipts set_receipts receipts].
    unfold map_by_id. rewrite map_map. apply map_ext. intros a.
    destruct (String.eqb (Receipt.id a) (Receipt.id r)) eqn:E;
      [|reflexivity].
    apply String.eqb_eq in E. now rewrite E.
  - intros r outcome. unfold processQueue_saved.
    destruct outcome as [response|message]; [|reflexivity].
    destruct (ack_success response); [|reflexivity].
    cbn [update_receipts set_receipts receipts]. now apply map_by_id_ids.
  - intros receiptId. apply retrySync_ids.
  - intros receiptId outcome. unfold retrySync_settled.
    destruct outcome as [response|message];
      [destruct (ack_success response)|];
      cbn [update_receipts set_receipts receipts]; now apply map_by_id_ids.
  - destruct configured; [|reflexivity].
    rewrite syncLocalDataToSheets_flags, map_map. apply map_ext. intros a.
    cbv beta.
    destruct (existsb (fun b => String.eqb (Receipt.id a) (Receipt.id b))
                (filter unsynced (receipts st))); reflexivity.
  - intros updatedReceipt. unfold updateReceipt.
    assert (H1 : map Receipt.id
                   (map_by_id (Receipt.id updatedReceipt)
                      (fun _ => Receipt.with_isSynced (Some false)
                                  updatedReceipt)
                      (receipts st))
                 = map Receipt.id (receipts st)).
    { unfold map_by_id. rewrite map_map. apply map_ext. intros a.
      destruct (String.eqb (Receipt.id a) (Receipt.id updatedReceipt)) eqn:E;
        [|reflexivity].
      apply String.eqb_eq in E. now rewrite E. }
    destruct configured; [|exact H1].
    rewrite retrySync_ids. exact H1.
  - intros storeCnpj newAddress. unfold updateStoreAddress.
    destruct (Nat.eqb _ 0); [reflexivity|].
    assert (H1 : map Receipt.id
                   (map (fun r =>
                           if strict_eq_string (Receipt.storeCnpj r) storeCnpj
                           then Receipt.with_isSynced (Some false)
                                  (with_storeAddress (Some newAddress) r)
                           else r) (receipts st))
                 = map Receipt.id (receipts st)).
    { rewrite map_map. apply map_ext. intros a.
      destruct (strict_eq_string _ _); reflexivity. }
    destruct configured; [|exact H1].
    rewrite retrySyncEach_ids. exact H1.
  - intros receiptId. unfold reprocessReceipt.
    cbn [fst update_receipts set_receipts receipts]. now apply map_by_id_ids.
  - intros receiptId newUrl. unfold updateReceiptUrl.
    cbn [fst update_receipts set_receipts receipts]. now apply map_by_id_ids.
  - intros uuid url Hnd Hfresh. split.
    + unfold addReceipt. destruct (find _ (receipts st)); [exact Hnd|].
      cbn [fst update_receipts set_receipts receipts map Receipt.id
           newReceipt].
      now constructor.
    + cbn [addReceiptFromPhoto update_receipts set_receipts receipts map
           Receipt.id photoPlaceholder].
      now constructor.
Qed.

Lemma receipt_ids_are_stable_witness :
  NoDup
    (map Receipt.id
       (receipts
          (fst (addReceipt true "id-2" "http://x/2"
                  (mkStore [newReceipt "id-1" "http://x/1"] false false))))).
Proof.
  destruct (receipt_ids_are_stable true
              (mkStore [newReceipt "id-1" "http://x/1"] false false))
    as [_ [_ [_ [_ [_ [_ [_ [_ [_ [_ [_ [_ [_ H]]]]]]]]]]]]].
  apply (H "id-2" "http://x/2").
  - simpl. repeat constructor. simpl. tauto.
  - simpl. intros [H0|[]]. discriminate H0.
Defined.
